(** * FaceMorpher: a shallow embedding of [face-morph.js]

    The morphing core of the repository (class [FaceMorpher]) is translated
    function by function.  JavaScript numbers are IEEE-754 binary64 values;
    the translation is written once, over an interface [Number] that lists
    the numeric operations the source uses, and is read in two ways:

    - [B64]: binary64 arithmetic as specified by [SpecFloat] (precision 53,
      [emax] 1024), with NaN, signed zeros, infinities and rounding to
      nearest even.  This is the program as it runs.
    - [Exact]: the same expressions evaluated without rounding over the
      rationals, with one absorbing non-number standing for every value that
      is not a finite rational (NaN, a division by zero).  This is the
      reading in which the geometric statements of the specification are
      exact identities.

    Array indices, lengths and loop counters over arrays are natural
    numbers; pixel buffers are lists of bytes held in a store addressed by
    object identity. *)

From Stdlib Require Import ZArith QArith Qround Qabs Qfield Qpower Lqa Lia List Bool
  SpecFloat.
Import ListNotations.

(** ** The numeric interface *)

Class Number (F : Type) : Type := {
  (** integer literal *)
  ofZ : Z -> F;
  (** decimal literal [m / 10^k], as the parser reads [1e-10] or [1.001] *)
  ofDec : Z -> nat -> F;
  (** the value [undefined] converts to in arithmetic *)
  nan : F;
  (** [Math.min()] and [Math.max()] of no argument *)
  infinity : F;
  neg_infinity : F;
  add : F -> F -> F;
  sub : F -> F -> F;
  mul : F -> F -> F;
  div : F -> F -> F;
  ltb : F -> F -> bool;
  leb : F -> F -> bool;
  gtb : F -> F -> bool;
  geb : F -> F -> bool;
  abs : F -> F;
  floor : F -> F;
  ceil : F -> F;
  min2 : F -> F -> F;
  max2 : F -> F -> F;
  (** the integer index a number denotes when used as a typed-array key *)
  toIndex : F -> option Z;
  (** the conversion a [Uint8ClampedArray] applies on a store *)
  toUint8Clamp : F -> Z
}.

Declare Scope js_scope.
Delimit Scope js_scope with js.
Infix "+" := add : js_scope.
Infix "-" := sub : js_scope.
Infix "*" := mul : js_scope.
Infix "/" := div : js_scope.
Infix "<" := ltb : js_scope.
Infix "<=" := leb : js_scope.
Infix ">" := gtb : js_scope.
Infix ">=" := geb : js_scope.

(** Rounding of a rational to the nearest integer, ties to even, clamped to
    a byte: the store conversion of [Uint8ClampedArray]. *)
Definition roundHalfEven (q : Q) : Z :=
  let f := Qfloor q in
  let r := (q - inject_Z f)%Q in
  match Qcompare r (1 # 2) with
  | Lt => f
  | Gt => (f + 1)%Z
  | Eq => if Z.even f then f else (f + 1)%Z
  end.

Definition clampByte (z : Z) : Z := Z.max 0 (Z.min 255 z).

(** ** Binary64 *)

Module B64.

Definition prec : Z := 53.
Definition emax : Z := 1024.

Definition float := spec_float.

Definition ofZ (z : Z) : float := binary_normalize prec emax z 0 false.

Definition add : float -> float -> float := SFadd prec emax.
Definition sub : float -> float -> float := SFsub prec emax.
Definition mul : float -> float -> float := SFmul prec emax.
Definition div : float -> float -> float := SFdiv prec emax.

(** A decimal literal whose digits and power of ten are both below [2^53]
    is the correctly rounded quotient of two exactly represented
    integers. *)
Definition ofDec (m : Z) (k : nat) : float := div (ofZ m) (ofZ (10 ^ Z.of_nat k)).

Definition ltb : float -> float -> bool := SFltb.
Definition leb : float -> float -> bool := SFleb.
Definition gtb (a b : float) : bool :=
  match SFcompare a b with Some Gt => true | _ => false end.
Definition geb (a b : float) : bool :=
  match SFcompare a b with Some (Gt | Eq) => true | _ => false end.

Definition abs : float -> float := SFabs.

(** The integer part, rounded down, of [(-1)^s * m * 2^e]. *)
Definition floorZ (s : bool) (m : positive) (e : Z) : Z :=
  let v := cond_Zopp s (Zpos m) in
  match e with
  | Zneg p => Z.shiftr v (Zpos p)
  | _ => Z.shiftl v e
  end.

Definition floor (a : float) : float :=
  match a with
  | S754_finite s m e =>
      if (0 <=? e)%Z then a else binary_normalize prec emax (floorZ s m e) 0 s
  | _ => a
  end.

Definition ceil (a : float) : float := SFopp (floor (SFopp a)).

Definition min2 (a b : float) : float :=
  match SFcompare a b with
  | None => S754_nan
  | Some Lt => a
  | Some Gt => b
  | Some Eq => match a with S754_zero true => a | _ => b end
  end.

Definition max2 (a b : float) : float :=
  match SFcompare a b with
  | None => S754_nan
  | Some Lt => b
  | Some Gt => a
  | Some Eq => match a with S754_zero false => a | _ => b end
  end.

(** The rational a finite binary64 value denotes. *)
Definition toQ (a : float) : option Q :=
  match a with
  | S754_zero _ => Some 0%Q
  | S754_finite s m e =>
      Some (match e with
            | Zneg p => cond_Zopp s (Zpos m) # (2 ^ p)
            | _ => inject_Z (Z.shiftl (cond_Zopp s (Zpos m)) e)
            end)
  | _ => None
  end.

Definition toIndex (a : float) : option Z :=
  match a with
  | S754_zero _ => Some 0%Z
  | S754_finite false m e =>
      match e with
      | Zneg p =>
          if (Z.land (Zpos m) (Z.ones (Zpos p)) =? 0)%Z
          then Some (Z.shiftr (Zpos m) (Zpos p)) else None
      | _ => Some (Z.shiftl (Zpos m) e)
      end
  | _ => None
  end.

Definition toUint8Clamp (a : float) : Z :=
  match a with
  | S754_infinity false => 255%Z
  | S754_finite false _ _ =>
      match toQ a with
      | Some q => clampByte (roundHalfEven q)
      | None => 0%Z
      end
  | _ => 0%Z
  end.

Definition is_nan (a : float) : bool :=
  match a with S754_nan => true | _ => false end.

Definition is_finite (a : float) : bool :=
  match a with S754_zero _ | S754_finite _ _ _ => true | _ => false end.

(** A genuine binary64 value: mantissa and exponent in canonical form. *)
Definition valid (a : float) : bool := valid_binary prec emax a.

End B64.

#[export] Instance B64_Number : Number B64.float := {
  ofZ := B64.ofZ;
  ofDec := B64.ofDec;
  nan := S754_nan;
  infinity := S754_infinity false;
  neg_infinity := S754_infinity true;
  add := B64.add;
  sub := B64.sub;
  mul := B64.mul;
  div := B64.div;
  ltb := B64.ltb;
  leb := B64.leb;
  gtb := B64.gtb;
  geb := B64.geb;
  abs := B64.abs;
  floor := B64.floor;
  ceil := B64.ceil;
  min2 := B64.min2;
  max2 := B64.max2;
  toIndex := B64.toIndex;
  toUint8Clamp := B64.toUint8Clamp
}.

(** ** Exact rational arithmetic *)

Module Exact.

(** [None] is the one non-number of this reading. *)
Definition num := option Q.

Definition lift1 (f : Q -> Q) (a : num) : num :=
  match a with Some p => Some (f p) | None => None end.

Definition lift2 (f : Q -> Q -> Q) (a b : num) : num :=
  match a, b with Some p, Some q => Some (f p q) | _, _ => None end.

Definition cmp (f : Q -> Q -> bool) (a b : num) : bool :=
  match a, b with Some p, Some q => f p q | _, _ => false end.

Definition Qltb (p q : Q) : bool := negb (Qle_bool q p).

Definition ofZ (z : Z) : num := Some (inject_Z z).
Definition ofDec (m : Z) (k : nat) : num :=
  Some (m # Z.to_pos (10 ^ Z.of_nat k)).

Definition add : num -> num -> num := lift2 Qplus.
Definition sub : num -> num -> num := lift2 Qminus.
Definition mul : num -> num -> num := lift2 Qmult.
Definition div (a b : num) : num :=
  match a, b with
  | Some p, Some q => if Qeq_bool q 0 then None else Some (p / q)%Q
  | _, _ => None
  end.

Definition ltb : num -> num -> bool := cmp Qltb.
Definition leb : num -> num -> bool := cmp Qle_bool.
Definition gtb : num -> num -> bool := cmp (fun p q => Qltb q p).
Definition geb : num -> num -> bool := cmp (fun p q => Qle_bool q p).

Definition abs : num -> num := lift1 Qabs.
Definition floor : num -> num := lift1 (fun q => inject_Z (Qfloor q)).
Definition ceil : num -> num := lift1 (fun q => inject_Z (Qceiling q)).

Definition min2 : num -> num -> num :=
  lift2 (fun p q => if Qle_bool p q then p else q).
Definition max2 : num -> num -> num :=
  lift2 (fun p q => if Qle_bool p q then q else p).

Definition toIndex (a : num) : option Z :=
  match a with
  | Some q =>
      if Qeq_bool q (inject_Z (Qfloor q)) && (0 <=? Qfloor q)%Z
      then Some (Qfloor q) else None
  | None => None
  end.

Definition toUint8Clamp (a : num) : Z :=
  match a with
  | Some q => clampByte (roundHalfEven q)
  | None => 0%Z
  end.

End Exact.

#[export] Instance Exact_Number : Number Exact.num := {
  ofZ := Exact.ofZ;
  ofDec := Exact.ofDec;
  nan := None;
  infinity := None;
  neg_infinity := None;
  add := Exact.add;
  sub := Exact.sub;
  mul := Exact.mul;
  div := Exact.div;
  ltb := Exact.ltb;
  leb := Exact.leb;
  gtb := Exact.gtb;
  geb := Exact.geb;
  abs := Exact.abs;
  floor := Exact.floor;
  ceil := Exact.ceil;
  min2 := Exact.min2;
  max2 := Exact.max2;
  toIndex := Exact.toIndex;
  toUint8Clamp := Exact.toUint8Clamp
}.

(** ** Exceptions

    The only run-time error the core can raise is the [TypeError] of a
    property read on [undefined]. *)

Inductive exn : Type := TypeError.

Inductive result (A : Type) : Type :=
| Ok (a : A)
| Throw (e : exn).

Arguments Ok {A} a.
Arguments Throw {A} e.

Definition bind {A B : Type} (r : result A) (k : A -> result B) : result B :=
  match r with
  | Ok a => k a
  | Throw e => Throw e
  end.

Notation "x <- r ;; k" := (bind r (fun x => k))
  (at level 61, r at next level, right associativity).

Fixpoint mapM {A B : Type} (f : A -> result B) (l : list A) : result (list B) :=
  match l with
  | [] => Ok []
  | a :: rest =>
      b <- f a ;;
      bs <- mapM f rest ;;
      Ok (b :: bs)
  end.

(** [arr[i]] followed by a property read: [undefined] raises. *)
Definition getElem {A : Type} (arr : list A) (i : nat) : result A :=
  match nth_error arr i with
  | Some a => Ok a
  | None => Throw TypeError
  end.

(** [arr.map((a, i) => ...)] hands each element with its index. *)
Definition indexed {A : Type} (arr : list A) : list (nat * A) :=
  combine (seq 0 (length arr)) arr.

(** ** The store of pixel buffers

    An [ImageData] object is known by its identity; its [data] is a
    [Uint8ClampedArray]. *)

Definition loc := nat.
Definition Heap := loc -> list Z.

Definition setBuffer (h : Heap) (l : loc) (data : list Z) : Heap :=
  fun l' => if Nat.eqb l' l then data else h l'.

Fixpoint setNth (n : nat) (v : Z) (data : list Z) : list Z :=
  match data, n with
  | [], _ => []
  | _ :: rest, O => v :: rest
  | b :: rest, S n' => b :: setNth n' v rest
  end.

(** ** The class [FaceMorpher] *)

Record FaceMorpher : Type := {
  outputWidth : Z;
  outputHeight : Z
}.

(** [constructor()] *)
Definition newFaceMorpher : FaceMorpher :=
  {| outputWidth := 400; outputHeight := 400 |}.

(** A triangle of the Bowyer-Watson working set: the object
    [{ i, j, k }], with the identity [===] and [includes] compare. *)
Record Tri : Type := mkTri {
  oid : nat;
  ti : nat;
  tj : nat;
  tk : nat
}.

Definition Edge := (nat * nat)%type.

Definition edgesOf (t : Tri) : list Edge :=
  [(ti t, tj t); (tj t, tk t); (tk t, ti t)].

Definition sameEdge (edge oe : Edge) : bool :=
  (Nat.eqb (fst edge) (fst oe) && Nat.eqb (snd edge) (snd oe))
  || (Nat.eqb (fst edge) (snd oe) && Nat.eqb (snd edge) (fst oe)).

Definition isShared (badTriangles : list Tri) (tri : Tri) (edge : Edge) : bool :=
  existsb (fun other =>
             negb (Nat.eqb (oid other) (oid tri))
             && existsb (sameEdge edge) (edgesOf other))
          badTriangles.

Definition boundaryPolygon (badTriangles : list Tri) : list Edge :=
  flat_map (fun tri =>
              filter (fun edge => negb (isShared badTriangles tri edge))
                     (edgesOf tri))
           badTriangles.

Definition includes (l : list Tri) (t : Tri) : bool :=
  existsb (fun b => Nat.eqb (oid b) (oid t)) l.

Section Morpher.

Context {F : Type} {num : Number F}.
Local Open Scope js_scope.

Record Point : Type := mkPoint { pX : F; pY : F }.

(** A three-element array of points. *)
Definition Triangle : Type := (Point * Point * Point)%type.

Record Affine : Type := mkAffine {
  a_ : F; b_ : F; c_ : F; d_ : F; e_ : F; f_ : F
}.

Record Color : Type := mkColor { r_ : F; g_ : F; b'_ : F }.

Definition Math_min (l : list F) : F :=
  match l with
  | [] => infinity
  | v :: rest => fold_left min2 rest v
  end.

Definition Math_max (l : list F) : F :=
  match l with
  | [] => neg_infinity
  | v :: rest => fold_left max2 rest v
  end.

Definition normalizeLandmarks (this : FaceMorpher) (landmarks : list Point)
           (imgWidth imgHeight : F) : list Point :=
  map (fun pt =>
         {| pX := (pX pt / imgWidth) * ofZ (outputWidth this);
            pY := (pY pt / imgHeight) * ofZ (outputHeight this) |})
      landmarks.

Definition getBoundaryPoints (this : FaceMorpher) : list Point :=
  let w := ofZ (outputWidth this) in
  let h := ofZ (outputHeight this) in
  [ {| pX := ofZ 0; pY := ofZ 0 |};
    {| pX := w / ofZ 2; pY := ofZ 0 |};
    {| pX := w - ofZ 1; pY := ofZ 0 |};
    {| pX := w - ofZ 1; pY := h / ofZ 2 |};
    {| pX := w - ofZ 1; pY := h - ofZ 1 |};
    {| pX := w / ofZ 2; pY := h - ofZ 1 |};
    {| pX := ofZ 0; pY := h - ofZ 1 |};
    {| pX := ofZ 0; pY := h / ofZ 2 |} ].

Definition interpolatePoints (pts1 pts2 : list Point) (ratio : F)
  : result (list Point) :=
  mapM (fun '(i, pt) =>
          q <- getElem pts2 i ;;
          Ok {| pX := pX pt * (ofZ 1 - ratio) + pX q * ratio;
                pY := pY pt * (ofZ 1 - ratio) + pY q * ratio |})
       (indexed pts1).

Definition inCircumcircle (p a b c : Point) : bool :=
  let ax := pX a - pX p in
  let ay := pY a - pY p in
  let bx := pX b - pX p in
  let by_ := pY b - pY p in
  let cx := pX c - pX p in
  let cy := pY c - pY p in
  let det := (ax * ax + ay * ay) * (bx * cy - cx * by_)
             - (bx * bx + by_ * by_) * (ax * cy - cx * ay)
             + (cx * cx + cy * cy) * (ax * by_ - bx * ay) in
  let orient := (pX a - pX c) * (pY b - pY c) - (pY a - pY c) * (pX b - pX c) in
  if orient > ofZ 0 then det > ofZ 0 else det < ofZ 0.

(** The three vertices [p1], [p2], [p3] appended to the point array. *)
Definition superTriangle (points : list Point) : Triangle :=
  let minX := Math_min (map pX points) in
  let maxX := Math_max (map pX points) in
  let minY := Math_min (map pY points) in
  let maxY := Math_max (map pY points) in
  let dx := maxX - minX in
  let dy := maxY - minY in
  let deltaMax := max2 dx dy * ofZ 2 in
  ({| pX := minX - deltaMax; pY := minY - deltaMax |},
   {| pX := minX + deltaMax * ofZ 2; pY := minY - deltaMax |},
   {| pX := minX + dx / ofZ 2; pY := maxY + deltaMax * ofZ 2 |}).

(** The triangles whose circumcircle contains [pt], in list order. *)
Fixpoint findBad (allPoints : list Point) (pt : Point) (triangles : list Tri)
  : result (list Tri) :=
  match triangles with
  | [] => Ok []
  | tri :: rest =>
      a <- getElem allPoints (ti tri) ;;
      b <- getElem allPoints (tj tri) ;;
      c <- getElem allPoints (tk tri) ;;
      bad <- findBad allPoints pt rest ;;
      Ok (if inCircumcircle pt a b c then tri :: bad else bad)
  end.

(** The new triangles pushed for the polygon edges; [next] is the
    identity of the first object allocated. *)
Fixpoint pushNew (next i : nat) (polygon : list Edge) : list Tri :=
  match polygon with
  | [] => []
  | edge :: rest =>
      mkTri next (fst edge) (snd edge) i :: pushNew (S next) i rest
  end.

(** One pass of the loop [for (let i = 0; i < n; i++)]. *)
Definition insertPoint (allPoints : list Point) (st : list Tri * nat)
           (ipt : nat * Point) : result (list Tri * nat) :=
  let '(triangles, next) := st in
  let '(i, pt) := ipt in
  badTriangles <- findBad allPoints pt triangles ;;
  let polygon := boundaryPolygon badTriangles in
  let kept := filter (fun t => negb (includes badTriangles t)) triangles in
  Ok (kept ++ pushNew next i polygon, (next + length polygon)%nat).

Fixpoint insertAll (allPoints : list Point) (st : list Tri * nat)
         (ipts : list (nat * Point)) : result (list Tri * nat) :=
  match ipts with
  | [] => Ok st
  | ipt :: rest =>
      st' <- insertPoint allPoints st ipt ;;
      insertAll allPoints st' rest
  end.

Definition computeDelaunay (points : list Point)
  : result (list (nat * nat * nat)) :=
  let n := length points in
  if Nat.ltb n 3 then Ok []
  else
    let '(p1, p2, p3) := superTriangle points in
    let allPoints := points ++ [p1; p2; p3] in
    let triangles := [mkTri 0 n (n + 1) (n + 2)] in
    st <- insertAll allPoints (triangles, 1%nat) (indexed points) ;;
    let triangles := filter (fun t => Nat.ltb (ti t) n && Nat.ltb (tj t) n
                                      && Nat.ltb (tk t) n) (fst st) in
    Ok (map (fun t => (ti t, tj t, tk t)) triangles).

(** The determinant of the Cramer system for the source triangle. *)
Definition affineDenom (src : Triangle) : F :=
  let '(s0, s1, s2) := src in
  (pX s0 - pX s2) * (pY s1 - pY s2) - (pX s1 - pX s2) * (pY s0 - pY s2).

Definition computeAffine (src dst : Triangle) : Affine :=
  let '(s0, s1, s2) := src in
  let '(d0, d1, d2) := dst in
  let x1 := pX s0 in let y1 := pY s0 in
  let x2 := pX s1 in let y2 := pY s1 in
  let x3 := pX s2 in let y3 := pY s2 in
  let u1 := pX d0 in let v1 := pY d0 in
  let u2 := pX d1 in let v2 := pY d1 in
  let u3 := pX d2 in let v3 := pY d2 in
  let denom := (x1 - x3) * (y2 - y3) - (x2 - x3) * (y1 - y3) in
  if abs denom < ofDec 1 10 then
    {| a_ := ofZ 1; b_ := ofZ 0; c_ := ofZ 0;
       d_ := ofZ 0; e_ := ofZ 1; f_ := ofZ 0 |}
  else
    let a := ((u1 - u3) * (y2 - y3) - (u2 - u3) * (y1 - y3)) / denom in
    let b := ((u2 - u3) * (x1 - x3) - (u1 - u3) * (x2 - x3)) / denom in
    let c := u3 - a * x3 - b * y3 in
    let d := ((v1 - v3) * (y2 - y3) - (v2 - v3) * (y1 - y3)) / denom in
    let e := ((v2 - v3) * (x1 - x3) - (v1 - v3) * (x2 - x3)) / denom in
    let f := v3 - d * x3 - e * y3 in
    {| a_ := a; b_ := b; c_ := c; d_ := d; e_ := e; f_ := f |}.

Definition applyAffine (M : Affine) (x y : F) : Point :=
  {| pX := a_ M * x + b_ M * y + c_ M;
     pY := d_ M * x + e_ M * y + f_ M |}.

(** The denominator of the barycentric coordinates. *)
Definition baryDenom (tri : Triangle) : F :=
  let '(t0, t1, t2) := tri in
  let v0 := {| pX := pX t2 - pX t0; pY := pY t2 - pY t0 |} in
  let v1 := {| pX := pX t1 - pX t0; pY := pY t1 - pY t0 |} in
  let dot00 := pX v0 * pX v0 + pY v0 * pY v0 in
  let dot01 := pX v0 * pX v1 + pY v0 * pY v1 in
  let dot11 := pX v1 * pX v1 + pY v1 * pY v1 in
  dot00 * dot11 - dot01 * dot01.

Definition pointInTriangle (p : Point) (tri : Triangle) : bool :=
  let '(t0, t1, t2) := tri in
  let v0 := {| pX := pX t2 - pX t0; pY := pY t2 - pY t0 |} in
  let v1 := {| pX := pX t1 - pX t0; pY := pY t1 - pY t0 |} in
  let v2 := {| pX := pX p - pX t0; pY := pY p - pY t0 |} in
  let dot00 := pX v0 * pX v0 + pY v0 * pY v0 in
  let dot01 := pX v0 * pX v1 + pY v0 * pY v1 in
  let dot02 := pX v0 * pX v2 + pY v0 * pY v2 in
  let dot11 := pX v1 * pX v1 + pY v1 * pY v1 in
  let dot12 := pX v1 * pX v2 + pY v1 * pY v2 in
  let inv := ofZ 1 / (dot00 * dot11 - dot01 * dot01) in
  let u := (dot11 * dot02 - dot01 * dot12) * inv in
  let v := (dot00 * dot12 - dot01 * dot02) * inv in
  (u >= ofZ 0) && (v >= ofZ 0) && (u + v <= ofZ 1).

(** [data[idx]] read as a number. *)
Definition readByte (data : list Z) (idx : F) : F :=
  match toIndex idx with
  | Some n =>
      if (0 <=? n)%Z && (n <? Z.of_nat (length data))%Z
      then match nth_error data (Z.to_nat n) with
           | Some b => ofZ b
           | None => nan
           end
      else nan
  | None => nan
  end.

(** [data[idx] = v]: a store outside the array is dropped. *)
Definition storeByte (data : list Z) (idx : F) (v : F) : list Z :=
  match toIndex idx with
  | Some n =>
      if (0 <=? n)%Z && (n <? Z.of_nat (length data))%Z
      then setNth (Z.to_nat n) (toUint8Clamp v) data
      else data
  | None => data
  end.

(** The index [getPixel] computes for the pixel [(px, py)]. *)
Definition pixelIndex (this : FaceMorpher) (px py : F) : F :=
  (py * ofZ (outputWidth this) + px) * ofZ 4.

Definition getPixel (this : FaceMorpher) (data : list Z) (px py : F) : Color :=
  let idx := pixelIndex this px py in
  {| r_ := readByte data idx;
     g_ := readByte data (idx + ofZ 1);
     b'_ := readByte data (idx + ofZ 2) |}.

(** The clamped coordinate and the two neighbours along one axis. *)
Definition clampCoord (size : Z) (x : F) : F :=
  max2 (ofZ 0) (min2 (ofZ size - ofDec 1001 3) x).

Definition sampleBilinear (this : FaceMorpher) (data : list Z) (x y : F) : Color :=
  let w := ofZ (outputWidth this) in
  let h := ofZ (outputHeight this) in
  let x := clampCoord (outputWidth this) x in
  let y := clampCoord (outputHeight this) y in
  let x0 := floor x in
  let y0 := floor y in
  let x1 := min2 (x0 + ofZ 1) (w - ofZ 1) in
  let y1 := min2 (y0 + ofZ 1) (h - ofZ 1) in
  let fx := x - x0 in
  let fy := y - y0 in
  let p00 := getPixel this data x0 y0 in
  let p10 := getPixel this data x1 y0 in
  let p01 := getPixel this data x0 y1 in
  let p11 := getPixel this data x1 y1 in
  {| r_ := (r_ p00 * (ofZ 1 - fx) + r_ p10 * fx) * (ofZ 1 - fy)
           + (r_ p01 * (ofZ 1 - fx) + r_ p11 * fx) * fy;
     g_ := (g_ p00 * (ofZ 1 - fx) + g_ p10 * fx) * (ofZ 1 - fy)
           + (g_ p01 * (ofZ 1 - fx) + g_ p11 * fx) * fy;
     b'_ := (b'_ p00 * (ofZ 1 - fx) + b'_ p10 * fx) * (ofZ 1 - fy)
            + (b'_ p01 * (ofZ 1 - fx) + b'_ p11 * fx) * fy |}.

(** [outputData.data[idx] = v] on the buffer of the object [l]. *)
Definition store (h : Heap) (l : loc) (idx v : F) : Heap :=
  setBuffer h l (storeByte (h l) idx v).

(** The body of the inner loop of [warpTriangle] at the pixel [(x, y)]. *)
Definition warpPixel (this : FaceMorpher) (imgData1 imgData2 outputData : loc)
           (M1 M2 : Affine) (dstTri : Triangle) (ratio : F) (x y : F) (h : Heap)
  : Heap :=
  if (x < ofZ 0) || (x >= ofZ (outputWidth this))
     || (y < ofZ 0) || (y >= ofZ (outputHeight this))
  then h
  else if negb (pointInTriangle {| pX := x; pY := y |} dstTri) then h
  else
    let src1 := applyAffine M1 x y in
    let src2 := applyAffine M2 x y in
    let color1 := sampleBilinear this (h imgData1) (pX src1) (pY src1) in
    let color2 := sampleBilinear this (h imgData2) (pX src2) (pY src2) in
    let idx := (y * ofZ (outputWidth this) + x) * ofZ 4 in
    let h := store h outputData idx
                   (r_ color1 * (ofZ 1 - ratio) + r_ color2 * ratio) in
    let h := store h outputData (idx + ofZ 1)
                   (g_ color1 * (ofZ 1 - ratio) + g_ color2 * ratio) in
    let h := store h outputData (idx + ofZ 2)
                   (b'_ color1 * (ofZ 1 - ratio) + b'_ color2 * ratio) in
    store h outputData (idx + ofZ 3) (ofZ 255).

(** [for (let x = minX; x <= maxX; x++)]: the counter is a number, so the
    loop need not end; [fuel] bounds the passes and the flag tells whether
    the loop ran to its end. *)
Fixpoint rowLoop (fuel : nat) (body : F -> Heap -> Heap) (maxX : F)
         (x : F) (h : Heap) : Heap * bool :=
  match fuel with
  | O => (h, false)
  | S fuel' =>
      if x <= maxX then rowLoop fuel' body maxX (x + ofZ 1) (body x h)
      else (h, true)
  end.

(** [for (let y = minY; y <= maxY; y++)] around the loop over [x]. *)
Fixpoint colLoop (fuel fuelX : nat) (body : F -> F -> Heap -> Heap)
         (minX maxX maxY : F) (y : F) (h : Heap) : Heap * bool :=
  match fuel with
  | O => (h, false)
  | S fuel' =>
      if y <= maxY then
        let '(h', done) := rowLoop fuelX (fun x => body x y) maxX minX h in
        if done then colLoop fuel' fuelX body minX maxX maxY (y + ofZ 1) h'
        else (h', false)
      else (h, true)
  end.

Definition warpTriangle (fuel : nat) (this : FaceMorpher) (h : Heap)
           (imgData1 : loc) (srcTri1 : Triangle)
           (imgData2 : loc) (srcTri2 : Triangle)
           (outputData : loc) (dstTri : Triangle) (ratio : F) : Heap * bool :=
  let '(d0, d1, d2) := dstTri in
  let minX := floor (Math_min [pX d0; pX d1; pX d2]) in
  let maxX := ceil (Math_max [pX d0; pX d1; pX d2]) in
  let minY := floor (Math_min [pY d0; pY d1; pY d2]) in
  let maxY := ceil (Math_max [pY d0; pY d1; pY d2]) in
  let M1 := computeAffine dstTri srcTri1 in
  let M2 := computeAffine dstTri srcTri2 in
  colLoop fuel fuel
          (warpPixel this imgData1 imgData2 outputData M1 M2 dstTri ratio)
          minX maxX maxY minY h.

(** [for (const tri of triangles)] in [morph]. *)
Fixpoint warpAll (fuel : nat) (this : FaceMorpher)
         (allPts1 allPts2 avgPts : list Point)
         (imgData1 imgData2 outputData : loc) (ratio : F)
         (triangles : list (nat * nat * nat)) (h : Heap)
  : result (Heap * bool) :=
  match triangles with
  | [] => Ok (h, true)
  | (i, j, k) :: rest =>
      s1i <- getElem allPts1 i ;;
      s1j <- getElem allPts1 j ;;
      s1k <- getElem allPts1 k ;;
      s2i <- getElem allPts2 i ;;
      s2j <- getElem allPts2 j ;;
      s2k <- getElem allPts2 k ;;
      di <- getElem avgPts i ;;
      dj <- getElem avgPts j ;;
      dk <- getElem avgPts k ;;
      let '(h', done) :=
        warpTriangle fuel this h imgData1 (s1i, s1j, s1k)
                     imgData2 (s2i, s2j, s2k) outputData (di, dj, dk) ratio in
      if done
      then warpAll fuel this allPts1 allPts2 avgPts
                   imgData1 imgData2 outputData ratio rest h'
      else Ok (h', false)
  end.

(** [morph].  The canvas work is the browser's: the two images arrive as
    their widths and heights and as the buffers [imgData1] and [imgData2]
    that [getImageData] returns, and [outputData] is the object
    [createImageData] allocates, all bytes zero. *)
Definition morph (fuel : nat) (this : FaceMorpher) (h : Heap)
           (img1Width img1Height img2Width img2Height : F)
           (imgData1 imgData2 outputData : loc)
           (landmarks1 landmarks2 : list Point) (ratio : F)
  : result (Heap * bool) :=
  let pts1 := normalizeLandmarks this landmarks1 img1Width img1Height in
  let pts2 := normalizeLandmarks this landmarks2 img2Width img2Height in
  let extraPoints := getBoundaryPoints this in
  let allPts1 := pts1 ++ extraPoints in
  let allPts2 := pts2 ++ extraPoints in
  avgPts <- interpolatePoints allPts1 allPts2 ratio ;;
  triangles <- computeDelaunay avgPts ;;
  let h := setBuffer h outputData
             (repeat 0%Z (Z.to_nat (outputWidth this * outputHeight this * 4))) in
  warpAll fuel this allPts1 allPts2 avgPts imgData1 imgData2 outputData ratio
          triangles h.

End Morpher.

(** * Vocabulary of the statements *)

Section Vocabulary.

Context {F : Type} {num : Number F}.
Local Open Scope js_scope.

(** The map [computeAffine] returns for a degenerate source triangle. *)
Definition identityAffine : @Affine F :=
  mkAffine (ofZ 1) (ofZ 0) (ofZ 0) (ofZ 0) (ofZ 1) (ofZ 0).

(** One interpolated point, and the point-wise interpolation of two
    sequences. *)
Definition lerpPoint (ratio : F) (pt q : Point) : Point :=
  {| pX := pX pt * (ofZ 1 - ratio) + pX q * ratio;
     pY := pY pt * (ofZ 1 - ratio) + pY q * ratio |}.

Fixpoint zipPoints (ratio : F) (l1 l2 : list Point) : list Point :=
  match l1, l2 with
  | pt :: r1, q :: r2 => lerpPoint ratio pt q :: zipPoints ratio r1 r2
  | _, _ => []
  end.

(** [x] after [k] increments [x++]. *)
Definition steps (k : nat) (x : F) : F := Nat.iter k (fun v => v + ofZ 1) x.

(** The two tests a pixel passes before [warpTriangle] writes it: inside
    the canvas, inside the destination triangle. *)
Definition inCanvas (this : FaceMorpher) (x y : F) : bool :=
  negb ((x < ofZ 0) || (x >= ofZ (outputWidth this))
        || (y < ofZ 0) || (y >= ofZ (outputHeight this))).

Definition painted (this : FaceMorpher) (dstTri : Triangle) (x y : F) : bool :=
  inCanvas this x y && pointInTriangle {| pX := x; pY := y |} dstTri.

(** The four keys of the pixel [(x, y)] in the output buffer. *)
Definition pixelKeys (this : FaceMorpher) (x y : F) : list F :=
  let idx := (y * ofZ (outputWidth this) + x) * ofZ 4 in
  [idx; idx + ofZ 1; idx + ofZ 2; idx + ofZ 3].

(** The first pixel of each loop of [warpTriangle]. *)
Definition firstX (dstTri : Triangle) : F :=
  let '(d0, d1, d2) := dstTri in floor (Math_min [pX d0; pX d1; pX d2]).

Definition firstY (dstTri : Triangle) : F :=
  let '(d0, d1, d2) := dstTri in floor (Math_min [pY d0; pY d1; pY d2]).

(** Byte [n] of the output buffer belongs to a pixel the loops visit and
    that passes both tests. *)
Definition ownPixel (this : FaceMorpher) (dstTri : Triangle) (n : nat) : Prop :=
  exists kx ky key,
    let x := steps kx (firstX dstTri) in
    let y := steps ky (firstY dstTri) in
    painted this dstTri x y = true
    /\ In key (pixelKeys this x y)
    /\ toIndex key = Some (Z.of_nat n).

(** [h'] differs from [h] only in the buffer of [out], keeps its length,
    and only at bytes that satisfy [P]. *)
Definition frame (out : loc) (P : nat -> Prop) (h h' : Heap) : Prop :=
  (forall l, l <> out -> h' l = h l)
  /\ length (h' out) = length (h out)
  /\ (forall n, nth_error (h' out) n <> nth_error (h out) n -> P n).

(** The three keys [getPixel] reads for the pixel [(px, py)]. *)
Definition pixelReads (this : FaceMorpher) (px py : F) : list F :=
  let idx := pixelIndex this px py in
  [idx; idx + ofZ 1; idx + ofZ 2].

(** The lower and the upper neighbour of a coordinate. *)
Definition lowNeighbour (size : Z) (x : F) : F := floor (clampCoord size x).

Definition highNeighbour (size : Z) (x : F) : F :=
  min2 (lowNeighbour size x + ofZ 1) (ofZ size - ofZ 1).

(** Every key [sampleBilinear] reads at [(x, y)]. *)
Definition sampleReads (this : FaceMorpher) (x y : F) : list F :=
  let x0 := lowNeighbour (outputWidth this) x in
  let y0 := lowNeighbour (outputHeight this) y in
  let x1 := highNeighbour (outputWidth this) x in
  let y1 := highNeighbour (outputHeight this) y in
  pixelReads this x0 y0 ++ pixelReads this x1 y0
  ++ pixelReads this x0 y1 ++ pixelReads this x1 y1.

(** The coefficients [a], [b], [c] (or [d], [e], [f]) that [computeAffine]
    solves for one coordinate [u1], [u2], [u3] of the destination
    vertices, and the coordinate [applyAffine] computes from them. *)
Definition affineRow (src : Triangle) (u1 u2 u3 : F) : F * F * F :=
  let '(s0, s1, s2) := src in
  let x1 := pX s0 in let y1 := pY s0 in
  let x2 := pX s1 in let y2 := pY s1 in
  let x3 := pX s2 in let y3 := pY s2 in
  let denom := (x1 - x3) * (y2 - y3) - (x2 - x3) * (y1 - y3) in
  let a := ((u1 - u3) * (y2 - y3) - (u2 - u3) * (y1 - y3)) / denom in
  let b := ((u2 - u3) * (x1 - x3) - (u1 - u3) * (x2 - x3)) / denom in
  let c := u3 - a * x3 - b * y3 in
  (a, b, c).

Definition applyRow (row : F * F * F) (x y : F) : F :=
  let '(a, b, c) := row in a * x + b * y + c.

End Vocabulary.

(** ** Triangles of the working set

    While point [i] is being inserted a vertex is an earlier point or one
    of the three super-triangle vertices [n], [n + 1], [n + 2]. *)

Definition vertexOk (i n v : nat) : Prop := (v < i)%nat \/ (n <= v < n + 3)%nat.

Definition edgeOk (i n : nat) (e : Edge) : Prop :=
  vertexOk i n (fst e) /\ vertexOk i n (snd e) /\ fst e <> snd e.

Definition triOk (i n : nat) (t : Tri) : Prop :=
  vertexOk i n (ti t) /\ vertexOk i n (tj t) /\ vertexOk i n (tk t)
  /\ ti t <> tj t /\ tj t <> tk t /\ tk t <> ti t.

(** ** Binary64 values *)

(** [a == b] on numbers. *)
Definition eqb64 (a b : B64.float) : bool := SFeqb a b.

(** A coordinate that is a finite binary64 value. *)
Definition finiteCoord (a : B64.float) : bool := B64.valid a && B64.is_finite a.

Definition finitePoint (p : @Point B64.float) : bool :=
  finiteCoord (pX p) && finiteCoord (pY p).

(** Equal as numbers, and the same value bit for bit unless it is a zero,
    whose sign alone may differ. *)
Definition sameNumber (a b : B64.float) : Prop :=
  eqb64 a b = true /\ ((forall s, b <> S754_zero s) -> a = b).

Definition samePoint (p q : @Point B64.float) : Prop :=
  sameNumber (pX p) (pX q) /\ sameNumber (pY p) (pY q).

(** The point written [{ x: a / 10^k, y: b / 10^k }] in decimal. *)
Definition dpt (a b : Z) (k : nat) : @Point B64.float :=
  mkPoint (B64.ofDec a k) (B64.ofDec b k).

(** The rational point a binary64 point denotes. *)
Definition exactPoint (p : @Point B64.float) : @Point Exact.num :=
  mkPoint (B64.toQ (pX p)) (B64.toQ (pY p)).

Definition toQPoint (p : @Point B64.float) : option (Q * Q) :=
  match B64.toQ (pX p), B64.toQ (pY p) with
  | Some x, Some y => Some (x, y)
  | _, _ => None
  end.

(** Structural equality of binary64 values. *)
Definition sameBits (a b : B64.float) : bool :=
  match a, b with
  | S754_zero s, S754_zero s' => Bool.eqb s s'
  | S754_infinity s, S754_infinity s' => Bool.eqb s s'
  | S754_nan, S754_nan => true
  | S754_finite s m e, S754_finite s' m' e' =>
      Bool.eqb s s' && Pos.eqb m m' && Z.eqb e e'
  | _, _ => false
  end.

(** The upper clamp [400 - 1.001] of [sampleBilinear]. *)
Definition clampTop : B64.float := S754_finite false 7019264639535940 (-44).

(** A zero, or a finite value below [2^B] in absolute value. *)
Definition small (B : Z) (a : B64.float) : bool :=
  match a with
  | S754_zero _ => true
  | S754_finite _ m e => (Zpos (digits2_pos m) + e <=? B)%Z
  | _ => false
  end.

(** [fits B m e]: the non-negative integer [m] scaled by [2^e] is below [2^B]. *)
Definition fits (B m e : Z) : Prop := (0 <= m /\ e <= B /\ m < 2 ^ (B - e))%Z.

(** [P] holds of every integer from [0] to [n - 1]. *)
Fixpoint allBelow (n : nat) (P : Z -> bool) : bool :=
  match n with
  | O => true
  | S n' => P (Z.of_nat n') && allBelow n' P
  end.

Definition keyIs (key : B64.float) (n : Z) : bool :=
  match B64.toIndex key with
  | Some n' => Z.eqb n' n
  | None => false
  end.

(** The neighbour above the pixel coordinate [k]. *)
Definition highCheck (k : Z) : bool :=
  sameBits (B64.min2 (B64.add (B64.ofZ k) (B64.ofZ 1))
                     (B64.sub (B64.ofZ 400) (B64.ofZ 1)))
           (B64.ofZ (k + 1)).

(** The keys of the pixel [(kx, ky)] of a 400 x 400 image. *)
Definition keysCheck (ky kx : Z) : bool :=
  let idx := @pixelIndex B64.float _ newFaceMorpher (B64.ofZ kx) (B64.ofZ ky) in
  keyIs idx (4 * (400 * ky + kx))
  && keyIs (B64.add idx (B64.ofZ 1)) (4 * (400 * ky + kx) + 1)
  && keyIs (B64.add idx (B64.ofZ 2)) (4 * (400 * ky + kx) + 2).

(** ** Exact values *)

(** A point with rational coordinates. *)
Definition qpt (x y : Q) : @Point Exact.num := mkPoint (Some x) (Some y).

Definition qpoints (l : list (Q * Q)) : list (@Point Exact.num) :=
  map (fun p => qpt (fst p) (snd p)) l.

(** Numeric equality of the exact reading. *)
Definition eqx (a b : Exact.num) : Prop :=
  match a, b with
  | Some p, Some q => p == q
  | _, _ => False
  end.

Definition eqxPoint (p q : @Point Exact.num) : Prop :=
  eqx (pX p) (pX q) /\ eqx (pY p) (pY q).

(** The threshold [1e-10] of [computeAffine]. *)
Definition tiny : Q := 1 # 10000000000.

Definition qmin (p q : Q) : Q := if Qle_bool p q then p else q.
Definition qmax (p q : Q) : Q := if Qle_bool p q then q else p.

(** The least and the greatest of a list of rationals; [0] for none. *)
Definition listMin (qs : list Q) : Q :=
  match qs with [] => 0 | q :: r => fold_left qmin r q end.

Definition listMax (qs : list Q) : Q :=
  match qs with [] => 0 | q :: r => fold_left qmax r q end.

(** Twice the signed area of the triangle [a b c]. *)
Definition orientQ (a b c : Q * Q) : Q :=
  (fst b - fst a) * (snd c - snd a) - (snd b - snd a) * (fst c - fst a).

(** [p] lies in the interior of the triangle [a b c], whichever way the
    triangle winds. *)
Definition strictlyInside (p a b c : Q * Q) : Prop :=
  (0 < orientQ a b p /\ 0 < orientQ b c p /\ 0 < orientQ c a p)
  \/ (orientQ a b p < 0 /\ orientQ b c p < 0 /\ orientQ c a p < 0).

(** The super-triangle, computed exactly. *)
Definition superQ (l : list (Q * Q)) : (Q * Q) * (Q * Q) * (Q * Q) :=
  let minX := listMin (map fst l) in
  let maxX := listMax (map fst l) in
  let minY := listMin (map snd l) in
  let maxY := listMax (map snd l) in
  let dx := maxX - minX in
  let dy := maxY - minY in
  let deltaMax := qmax dx dy * 2 in
  ((minX - deltaMax, minY - deltaMax),
   (minX + deltaMax * 2, minY - deltaMax),
   (minX + dx / 2, maxY + deltaMax * 2)).

(** A byte of a pixel buffer. *)
Definition byteOk (b : Z) : Prop := (0 <= b <= 255)%Z.

(** The clamped coordinate of [sampleBilinear], computed exactly. *)
Definition clampQ (size : Z) (x : Q) : Q :=
  qmax 0 (qmin (inject_Z size - (1001 # 1000)) x).

(** ** Rounded values

    What a binary64 value denotes, and what one rounding to nearest does
    to a rational. *)

(** The integer [m] scaled by [2^e]. *)
Definition scaled (m e : Z) : Q := inject_Z m * 2 ^ e.

(** A rational that binary64 holds exactly, were the exponent unbounded
    above. *)
Definition representable (x : Q) : Prop :=
  exists N E : Z, (Z.abs N < 2 ^ 53)%Z /\ (-1074 <= E)%Z /\ x == scaled N E.

(** Half the machine epsilon and half the least positive number: the
    bounds of round-to-nearest. *)
Definition unit_roundoff : Q := 1 # 9007199254740992.
Definition eta : Q := 2 ^ (-1075).

(** Where the magnitude [X] lies between [m * 2^e] and the next multiple
    of [2^e], as a location tells it: on [m * 2^e], below the middle, on
    it, or above it. *)
Definition located (X : Q) (m e : Z) (l : location) : Prop :=
  match l with
  | loc_Exact => X == scaled m e
  | loc_Inexact Lt => scaled (2 * m) (e - 1) < X /\ X < scaled (2 * m + 1) (e - 1)
  | loc_Inexact Eq => X == scaled (2 * m + 1) (e - 1)
  | loc_Inexact Gt => scaled (2 * m + 1) (e - 1) < X /\ X < scaled (2 * m + 2) (e - 1)
  end.

(** [v] is [x] rounded to the nearest binary64 number: the relative
    error bound, the sign, the powers of two the result cannot cross, and
    the absolute error bound below a power of two. *)
Definition rounds (x v : Q) : Prop :=
  Qabs (v - x) <= unit_roundoff * Qabs x + eta
  /\ (0 <= x -> 0 <= v) /\ (x <= 0 -> v <= 0)
  /\ (forall K : Z, (-1074 <= K)%Z -> Qabs x < 2 ^ K -> Qabs v <= 2 ^ K)
  /\ (forall K : Z, (-1021 <= K)%Z -> Qabs x < 2 ^ K ->
                    Qabs (v - x) <= 2 ^ (K - 54)).

(** The binary64 value [a] is finite, in canonical form, and denotes the
    rational [v]. *)
Definition denotes (a : B64.float) (v : Q) : Prop :=
  B64.valid a = true /\ exists w, B64.toQ a = Some w /\ w == v.

(** The binary64 point [p] has finite coordinates in canonical form, and
    they denote the rational point [q]. *)
Definition pointAt (p : @Point B64.float) (q : Q * Q) : Prop :=
  denotes (pX p) (fst q) /\ denotes (pY p) (snd q).

(** A rational point of the 400 x 400 canvas. *)
Definition onCanvas (q : Q * Q) : Prop :=
  0 <= fst q <= 400 /\ 0 <= snd q <= 400.

(** The tolerance of the affine round trip for a source determinant [D]:
    [2.46e-7 / |D| + 1e-12]. *)
Definition roundtripTolerance (D : Q) : Q :=
  (246 # 1000000000) * / Qabs D + (1 # 1000000000000).

(** The map [M] sends the binary64 point [s] to a point within [tol] of
    the rational point [q], in each coordinate. *)
Definition reproduces (M : @Affine B64.float) (s : @Point B64.float)
           (q : Q * Q) (tol : Q) : Prop :=
  exists r, pointAt (applyAffine M (pX s) (pY s)) r
            /\ Qabs (fst r - fst q) <= tol /\ Qabs (snd r - snd q) <= tol.

(** ** Inputs of the examples *)

(** Seven points: six near the circle of radius [2.9] about [(5.8, 5.8)]
    and [(5.5, 6.7)] inside it. *)
Definition circlePoints : list (@Point B64.float) :=
  [dpt 38 79 1; dpt 58 29 1; dpt 37 38 1; dpt 78 37 1; dpt 79 78 1; dpt 55 67 1;
   dpt 78 79 1].

(** Two 400 x 400 images, every byte 255 and every byte 0. *)
Definition whiteImage : list Z := repeat 255%Z (Z.to_nat 640000).

Definition blackImage : list Z := repeat 0%Z (Z.to_nat 640000).

(** A store whose object [0] is the white image and whose other objects
    are black. *)
Definition demoHeap : Heap :=
  fun l => match l with
           | O => whiteImage
           | _ => blackImage
           end.

(** The triangle with corners [(0, 0)], [(2, 0)], [(0, 2)]. *)
Definition demoTriangle : @Triangle B64.float := (dpt 0 0 0, dpt 2 0 0, dpt 0 2 0).

(** A triangle whose three vertices, with coordinates between 125 and
    1061, lie exactly on one line. *)
Definition farCollinear : @Triangle B64.float :=
  (mkPoint (S754_finite false 8984899800757425 (-43))
           (S754_finite false 4665635313535863 (-42)),
   mkPoint (S754_finite false 6309569000605556 (-43))
           (S754_finite false 6040815721987815 (-43)),
   mkPoint (S754_finite false 4593145600755505 (-44))
           (S754_finite false 8841066914895588 (-46))).

(** ** Vocabulary of the further facts *)

(** *** Triangles of the working set *)

(** The third vertex of a working triangle is a super-triangle vertex, or
    it is newer than the other two vertices that are input points. *)
Definition lastOk (n : nat) (t : Tri) : Prop :=
  (n <= tk t)%nat
  \/ (vertexOk (tk t) n (ti t) /\ vertexOk (tk t) n (tj t)).

(** *** Exact geometry *)














(** The same rational point. *)
Definition samePointQ (p q : Q * Q) : Prop := fst p == fst q /\ snd p == snd q.

(** On the border of the pixel rectangle [0 .. W - 1] by [0 .. H - 1]. *)
Definition onBorder (w h : Q) (p : Q * Q) : Prop :=
  (0 <= fst p <= w - 1) /\ (0 <= snd p <= h - 1)
  /\ (fst p == 0 \/ fst p == w - 1 \/ snd p == 0 \/ snd p == h - 1).

(** The eight points of [getBoundaryPoints], computed exactly. *)
Definition boundaryQ (w h : Q) : list (Q * Q) :=
  [(0, 0); (w / 2, 0); (w - 1, 0); (w - 1, h / 2);
   (w - 1, h - 1); (w / 2, h - 1); (0, h - 1); (0, h / 2)].

(** *** Binary64 *)

(** A zero of either sign, or NaN. *)
Definition zeroOrNan (a : B64.float) : bool :=
  match a with
  | S754_zero _ | S754_nan => true
  | _ => false
  end.

(** A point one of whose coordinates is NaN. *)
Definition nanPoint (p : @Point B64.float) : bool :=
  B64.is_nan (pX p) || B64.is_nan (pY p).

(** The pixel coordinate [k] passes the clamp and the floor unchanged and
    leaves no fractional part. *)
Definition gridCheck (k : Z) : bool :=
  sameBits (@clampCoord B64.float _ 400 (B64.ofZ k)) (B64.ofZ k)
  && sameBits (B64.floor (B64.ofZ k)) (B64.ofZ k)
  && sameBits (B64.sub (B64.ofZ k) (B64.ofZ k)) (S754_zero false).

(** The byte [b] as a number: unchanged by a weight of one, cancelled by a
    weight of zero, unchanged by adding zero. *)
Definition byteCheck (b : Z) : bool :=
  sameBits (B64.mul (B64.ofZ b) (B64.ofZ 1)) (B64.ofZ b)
  && sameBits (B64.mul (B64.ofZ b) (S754_zero false)) (S754_zero false)
  && sameBits (B64.add (B64.ofZ b) (S754_zero false)) (B64.ofZ b).

Section GridVocabulary.
Local Open Scope Z_scope.

(** A coordinate on the canvas: a binary64 value from 0 to 400. *)
Definition canvasCoord (x : B64.float) : bool :=
  B64.valid x && B64.leb (B64.ofZ 0) x && B64.leb x (B64.ofZ 400).

Definition canvasPoint (p : @Point B64.float) : bool :=
  canvasCoord (pX p) && canvasCoord (pY p).

(** The loop counter [x] holds the integer [k]; the first value of a
    counter can be the negative zero. *)
Definition gridValue (k : Z) (x : B64.float) : Prop :=
  0 <= k <= 401 /\ (x = B64.ofZ k \/ (k = 0 /\ x = S754_zero true)).

(** [k + 1] is computed exactly. *)
Definition stepCheck (k : Z) : bool :=
  sameBits (B64.add (B64.ofZ k) (B64.ofZ 1)) (B64.ofZ (k + 1)).

(** A counter that has reached 401 is past every bound up to [m]. *)
Definition stopCheck (m : Z) : bool :=
  negb (B64.leb (B64.ofZ 401) (B64.ofZ m)).

(** The ceiling of a value in [(c, c + 1]]. *)
Definition ceilCheck (c : Z) : bool :=
  sameBits (SFopp (binary_normalize B64.prec B64.emax (- (c + 1)) 0 true))
           (B64.ofZ (c + 1)).

End GridVocabulary.

(** ** The snake game

    The page script of the game: its globals are the fields of [Game], its
    functions take the state and return the new one.  The calls on the
    drawing context and [alert] are returned as the list of effects of a
    call, in order; [Math.random] answers from the sequence [randoms]. *)

Inductive Direction : Type := LEFT | UP | RIGHT | DOWN.

Inductive Colour : Type := black | blue | red | white.

Section Snake.

Context {F : Type} {num : Number F}.
Local Open Scope js_scope.

(** [a === b] on two numbers: true exactly when both comparisons hold. *)
Definition strictEq (a b : F) : bool := (a <= b) && (a >= b).

Inductive Effect : Type :=
| FillStyle (c : Colour)
| FillRect (x y w h : F)
| BeginPath
| Arc (x y r a0 a1 : F)
| Fill
| Font20pxArial
| FillTextScore (score x y : F)
| AlertGameOver (score : F).

Record Game : Type := mkGame {
  canvasWidth : Z;
  canvasHeight : Z;
  score : F;
  gameInterval : option nat;
  timers : list nat;
  nextTimer : nat;
  snake : list (@Point F);
  direction : option Direction;
  food : @Point F;
  playAgainShown : bool;
  randoms : nat -> F;
  randomsUsed : nat
}.

Definition box : F := ofZ 20.

(** [Math.PI] *)
Definition Math_PI : F := ofDec 3141592653589793 15.

Definition isDirection (d : option Direction) (v : Direction) : bool :=
  match d, v with
  | Some LEFT, LEFT | Some UP, UP | Some RIGHT, RIGHT | Some DOWN, DOWN => true
  | _, _ => false
  end.

Definition directionControl (keyCode : Z) (direction : option Direction)
  : option Direction :=
  let direction :=
    if (keyCode =? 37)%Z && negb (isDirection direction RIGHT)
    then Some LEFT else direction in
  let direction :=
    if (keyCode =? 38)%Z && negb (isDirection direction DOWN)
    then Some UP else direction in
  let direction :=
    if (keyCode =? 39)%Z && negb (isDirection direction LEFT)
    then Some RIGHT else direction in
  let direction :=
    if (keyCode =? 40)%Z && negb (isDirection direction UP)
    then Some DOWN else direction in
  direction.

(** [generateFood]: the food and the number of random values used. *)
Definition generateFood (randoms : nat -> F) (used : nat) : @Point F * nat :=
  let x := floor (randoms used * ofZ 18 + ofZ 1) * box in
  let y := floor (randoms (S used) * ofZ 18 + ofZ 1) * box in
  ({| pX := x; pY := y |}, S (S used)).

Fixpoint collision (head : @Point F) (array : list (@Point F)) : bool :=
  match array with
  | [] => false
  | s :: rest =>
      if strictEq (pX head) (pX s) && strictEq (pY head) (pY s) then true
      else collision head rest
  end.

(** [clearInterval(id)] *)
Definition clearInterval (id : option nat) (timers : list nat) : list nat :=
  match id with
  | Some n => filter (fun t => negb (Nat.eqb t n)) timers
  | None => timers
  end.

Definition drawGame (g : Game) : result (Game * list Effect) :=
  let w := ofZ (canvasWidth g) in
  let h := ofZ (canvasHeight g) in
  let fx1 := [FillStyle black; FillRect (ofZ 0) (ofZ 0) w h] in
  let fx2 := flat_map (fun s => [FillStyle blue; FillRect (pX s) (pY s) box box])
                      (snake g) in
  let fx3 := [FillStyle red; BeginPath;
              Arc (pX (food g) + box / ofZ 2) (pY (food g) + box / ofZ 2)
                  (box / ofZ 2) (ofZ 0) (Math_PI * ofZ 2);
              Fill] in
  head <- getElem (snake g) 0 ;;
  let snakeX := pX head in
  let snakeY := pY head in
  let snakeX := if isDirection (direction g) LEFT then snakeX - box else snakeX in
  let snakeY := if isDirection (direction g) UP then snakeY - box else snakeY in
  let snakeX := if isDirection (direction g) RIGHT then snakeX + box else snakeX in
  let snakeY := if isDirection (direction g) DOWN then snakeY + box else snakeY in
  let eaten := strictEq snakeX (pX (food g)) && strictEq snakeY (pY (food g)) in
  let score' := if eaten then score g + ofZ 1 else score g in
  let '(food', used') :=
    if eaten then generateFood (randoms g) (randomsUsed g)
    else (food g, randomsUsed g) in
  let snake' := if eaten then snake g else removelast (snake g) in
  let newHead := {| pX := snakeX; pY := snakeY |} in
  let over := (snakeX < ofZ 0) || (snakeX >= w) || (snakeY < ofZ 0) || (snakeY >= h)
              || collision newHead snake' in
  let timers' := if over then clearInterval (gameInterval g) (timers g)
                 else timers g in
  let shown' := if over then true else playAgainShown g in
  let fx4 := if over then [AlertGameOver score'] else [] in
  let fx5 := [FillStyle white; Font20pxArial; FillTextScore score' box box] in
  Ok ({| canvasWidth := canvasWidth g;
         canvasHeight := canvasHeight g;
         score := score';
         gameInterval := gameInterval g;
         timers := timers';
         nextTimer := nextTimer g;
         snake := newHead :: snake';
         direction := direction g;
         food := food';
         playAgainShown := shown';
         randoms := randoms g;
         randomsUsed := used' |},
      fx1 ++ fx2 ++ fx3 ++ fx4 ++ fx5).

Definition restartGame (g : Game) : Game :=
  let start := {| pX := ofZ 9 * box; pY := ofZ 10 * box |} in
  let '(food', used') := generateFood (randoms g) (randomsUsed g) in
  {| canvasWidth := canvasWidth g;
     canvasHeight := canvasHeight g;
     score := ofZ 0;
     gameInterval := Some (nextTimer g);
     timers := nextTimer g :: timers g;
     nextTimer := S (nextTimer g);
     snake := start :: skipn 1 (firstn 1 (snake g));
     direction := None;
     food := food';
     playAgainShown := false;
     randoms := randoms g;
     randomsUsed := used' |}.

End Snake.

(** ** The application

    [FaceMergeApp], as far as [performMorph] goes.  The two images are their
    sizes; the slider holds a number; the result canvas is its size and the
    bytes last put on it; the error element is its text and whether it is
    hidden; [consoleErrors] are the exceptions written to the console. *)

Inductive Message : Type :=
| FailedToLoadModels
| NoFaceDetected (faceNumber : Z)
| ErrorDetectingFace
| ErrorMorphingFaces.

Section App.

Context {F : Type} {num : Number F}.
Local Open Scope js_scope.

Record FaceMergeApp : Type := mkApp {
  morpher : FaceMorpher;
  face1Width : F;
  face1Height : F;
  face2Width : F;
  face2Height : F;
  landmarks1 : list (@Point F);
  landmarks2 : list (@Point F);
  blendSliderValue : F;
  resultCanvasWidth : Z;
  resultCanvasHeight : Z;
  resultCanvasData : list Z;
  errorText : option Message;
  errorHidden : bool;
  consoleErrors : list exn
}.

Definition showError (message : Message) (this : FaceMergeApp) : FaceMergeApp :=
  {| morpher := morpher this;
     face1Width := face1Width this;
     face1Height := face1Height this;
     face2Width := face2Width this;
     face2Height := face2Height this;
     landmarks1 := landmarks1 this;
     landmarks2 := landmarks2 this;
     blendSliderValue := blendSliderValue this;
     resultCanvasWidth := resultCanvasWidth this;
     resultCanvasHeight := resultCanvasHeight this;
     resultCanvasData := resultCanvasData this;
     errorText := Some message;
     errorHidden := false;
     consoleErrors := consoleErrors this |}.

Definition hideError (this : FaceMergeApp) : FaceMergeApp :=
  {| morpher := morpher this;
     face1Width := face1Width this;
     face1Height := face1Height this;
     face2Width := face2Width this;
     face2Height := face2Height this;
     landmarks1 := landmarks1 this;
     landmarks2 := landmarks2 this;
     blendSliderValue := blendSliderValue this;
     resultCanvasWidth := resultCanvasWidth this;
     resultCanvasHeight := resultCanvasHeight this;
     resultCanvasData := resultCanvasData this;
     errorText := errorText this;
     errorHidden := true;
     consoleErrors := consoleErrors this |}.

(** [console.error('Morphing error:', error)] *)
Definition consoleError (error : exn) (this : FaceMergeApp) : FaceMergeApp :=
  {| morpher := morpher this;
     face1Width := face1Width this;
     face1Height := face1Height this;
     face2Width := face2Width this;
     face2Height := face2Height this;
     landmarks1 := landmarks1 this;
     landmarks2 := landmarks2 this;
     blendSliderValue := blendSliderValue this;
     resultCanvasWidth := resultCanvasWidth this;
     resultCanvasHeight := resultCanvasHeight this;
     resultCanvasData := resultCanvasData this;
     errorText := errorText this;
     errorHidden := errorHidden this;
     consoleErrors := error :: consoleErrors this |}.

(** The three statements that draw the result: the canvas takes the size
    of the output and the bytes of [morphedData]. *)
Definition drawResult (morphedData : list Z) (this : FaceMergeApp) : FaceMergeApp :=
  {| morpher := morpher this;
     face1Width := face1Width this;
     face1Height := face1Height this;
     face2Width := face2Width this;
     face2Height := face2Height this;
     landmarks1 := landmarks1 this;
     landmarks2 := landmarks2 this;
     blendSliderValue := blendSliderValue this;
     resultCanvasWidth := outputWidth (morpher this);
     resultCanvasHeight := outputHeight (morpher this);
     resultCanvasData := morphedData;
     errorText := errorText this;
     errorHidden := errorHidden this;
     consoleErrors := consoleErrors this |}.

(** [performMorph].  [None] when the loops of [morph] have not ended within
    [fuel] passes; the buffers are those of [morph]. *)
Definition performMorph (fuel : nat) (this : FaceMergeApp) (h : Heap)
           (imgData1 imgData2 outputData : loc) : option (FaceMergeApp * Heap) :=
  let ratio := blendSliderValue this / ofZ 100 in
  match morph fuel (morpher this) h
              (face1Width this) (face1Height this)
              (face2Width this) (face2Height this)
              imgData1 imgData2 outputData
              (landmarks1 this) (landmarks2 this) ratio with
  | Ok (h', true) => Some (drawResult (h' outputData) this, h')
  | Ok (h', false) => None
  | Throw error => Some (showError ErrorMorphingFaces (consoleError error this), h)
  end.

End App.

Definition opposite (d : Direction) : Direction :=
  match d with
  | LEFT => RIGHT
  | RIGHT => LEFT
  | UP => DOWN
  | DOWN => UP
  end.

(** The direction an arrow key asks for. *)
Definition arrowOf (keyCode : Z) : option Direction :=
  if (keyCode =? 37)%Z then Some LEFT
  else if (keyCode =? 38)%Z then Some UP
  else if (keyCode =? 39)%Z then Some RIGHT
  else if (keyCode =? 40)%Z then Some DOWN
  else None.

Section SnakeVocabulary.

Context {F : Type} {num : Number F}.
Local Open Scope js_scope.

(** The cell one box away from [p] in the direction [d]; [p] itself
    before the first key press. *)
Definition stepCell (d : option Direction) (p : @Point F) : @Point F :=
  match d with
  | Some LEFT => {| pX := pX p - box; pY := pY p |}
  | Some UP => {| pX := pX p; pY := pY p - box |}
  | Some RIGHT => {| pX := pX p + box; pY := pY p |}
  | Some DOWN => {| pX := pX p; pY := pY p + box |}
  | None => p
  end.

(** The cell [p] is the cell of the food. *)
Definition onFood (g : @Game F) (p : @Point F) : bool :=
  strictEq (pX p) (pX (food g)) && strictEq (pY p) (pY (food g)).

(** The cell [p] is off the canvas. *)
Definition offCanvas (g : @Game F) (p : @Point F) : bool :=
  (pX p < ofZ 0) || (pX p >= ofZ (canvasWidth g))
  || (pY p < ofZ 0) || (pY p >= ofZ (canvasHeight g)).

(** The timer [t] runs and is not the one [gameInterval] names. *)
Definition orphanTimer (g : @Game F) (t : nat) : Prop :=
  In t (timers g) /\ gameInterval g <> Some t.

(** Every running timer was started before [nextTimer]. *)
Definition timersKnown (g : @Game F) : Prop :=
  forall t, In t (timers g) -> (t < nextTimer g)%nat.

End SnakeVocabulary.

(** Values the facts are instantiated at. *)

Definition demoRandoms (n : nat) : B64.float :=
  match n with
  | O => B64.ofDec 47 2
  | _ => B64.ofDec 53 2
  end.

(** A game on the 400 x 400 canvas whose snake has two segments and moves
    to the right, one cell before the food. *)
Definition demoGame : @Game B64.float :=
  {| canvasWidth := 400;
     canvasHeight := 400;
     score := B64.ofZ 0;
     gameInterval := Some 1%nat;
     timers := [1%nat];
     nextTimer := 2%nat;
     snake := [dpt 180 200 0; dpt 160 200 0];
     direction := Some RIGHT;
     food := dpt 200 200 0;
     playAgainShown := false;
     randoms := demoRandoms;
     randomsUsed := 0%nat |}.

Definition exactRandoms (n : nat) : Exact.num :=
  match n with
  | O => Some (47 # 100)
  | _ => Some (53 # 100)
  end.

(** * Facts *)

Section MorpherFacts.
Context {F : Type} {num : Number F}.

Lemma exn_unique (e : exn) : e = TypeError.
Proof. destruct e; reflexivity. Qed.

Lemma mapM_throw {A B : Type} (f : A -> result B) (l : list A) (a : A) :
  In a l -> f a = Throw TypeError -> mapM f l = Throw TypeError.
Proof.
  induction l as [|b rest IH]; simpl; intros Hin Hf; [contradiction|].
  destruct Hin as [-> | Hin].
  - rewrite Hf. reflexivity.
  - destruct (f b) as [v|e]; simpl.
    + rewrite (IH Hin Hf). reflexivity.
    + rewrite (exn_unique e). reflexivity.
Qed.

Lemma combine_seq_in {A : Type} (arr : list A) (s i : nat) (a : A) :
  nth_error arr i = Some a -> In ((s + i)%nat, a) (combine (seq s (length arr)) arr).
Proof.
  revert i s.
  induction arr as [|b rest IH]; intros i s Hn.
  - destruct i; discriminate.
  - destruct i as [|i]; simpl in *.
    + injection Hn as ->. left. f_equal. lia.
    + right. specialize (IH i (S s) Hn).
      replace (s + S i)%nat with (S s + i)%nat by lia. exact IH.
Qed.

Lemma indexed_in {A : Type} (arr : list A) (i : nat) (a : A) :
  nth_error arr i = Some a -> In (i, a) (indexed arr).
Proof. intros Hn. exact (@combine_seq_in A arr 0 i a Hn). Qed.

Lemma interpolatePoints_throws (pts1 pts2 : list Point) (ratio : F) :
  (length pts2 < length pts1)%nat ->
  interpolatePoints pts1 pts2 ratio = Throw TypeError.
Proof.
  intros Hlen.
  destruct (nth_error pts1 (length pts2)) as [pt|] eqn:Hpt.
  - unfold interpolatePoints.
    apply mapM_throw with (a := (length pts2, pt)).
    + apply indexed_in. exact Hpt.
    + unfold getElem.
      replace (nth_error pts2 (length pts2)) with (@None (@Point F)).
      * reflexivity.
      * symmetry. apply nth_error_None. apply Nat.le_refl.
  - apply nth_error_None in Hpt. lia.
Qed.

(** C9.  When [landmarks1] is longer than [landmarks2] the computation
    stops with the exception [TypeError]: [interpolatePoints] raises it on
    the two sequences themselves, and [morph] raises it, through
    [interpolatePoints] on the augmented sequences, before the
    triangulation runs and before any buffer is written. *)
Theorem morph_mismatch_throws
        (fuel : nat) (this : FaceMorpher) (h : Heap)
        (img1Width img1Height img2Width img2Height : F)
        (imgData1 imgData2 outputData : loc)
        (landmarks1 landmarks2 : list Point) (ratio : F) :
  (length landmarks2 < length landmarks1)%nat ->
  interpolatePoints landmarks1 landmarks2 ratio = Throw TypeError
  /\ morph fuel this h img1Width img1Height img2Width img2Height
           imgData1 imgData2 outputData landmarks1 landmarks2 ratio
     = Throw TypeError.
Proof.
  intros Hlen. split.
  - apply interpolatePoints_throws. exact Hlen.
  - unfold morph.
    rewrite interpolatePoints_throws.
    + reflexivity.
    + rewrite !length_app. unfold normalizeLandmarks. rewrite !length_map. lia.
Qed.

End MorpherFacts.

Lemma vertexOk_S (i n v : nat) : vertexOk i n v -> vertexOk (S i) n v.
Proof. unfold vertexOk. lia. Qed.

Lemma triOk_S (i n : nat) (t : Tri) : triOk i n t -> triOk (S i) n t.
Proof.
  unfold triOk. intros (Hi & Hj & Hk & Hd).
  repeat split; try apply vertexOk_S; tauto.
Qed.

Lemma triOk_edges (i n : nat) (t : Tri) (e : Edge) :
  triOk i n t -> In e (edgesOf t) -> edgeOk i n e.
Proof.
  unfold triOk, edgesOf, edgeOk.
  intros (Hi & Hj & Hk & Hij & Hjk & Hki) [<- | [<- | [<- | []]]]; simpl; auto.
Qed.

Lemma boundaryPolygon_edges (bad : list Tri) (e : Edge) :
  In e (boundaryPolygon bad) -> exists t, In t bad /\ In e (edgesOf t).
Proof.
  unfold boundaryPolygon. intros Hin.
  apply in_flat_map in Hin. destruct Hin as (t & Ht & He).
  apply filter_In in He. exists t. tauto.
Qed.

Section DelaunayFacts.
Context {F : Type} {num : Number F}.

Lemma getElem_ok {A : Type} (arr : list A) (i : nat) :
  (i < length arr)%nat -> exists a, getElem arr i = Ok a.
Proof.
  intros Hlt. unfold getElem.
  destruct (nth_error arr i) as [a|] eqn:Hn.
  - exists a. reflexivity.
  - apply nth_error_None in Hn. lia.
Qed.

Lemma findBad_ok (allPoints : list Point) (pt : Point) (i n : nat)
      (triangles : list Tri) :
  length allPoints = (n + 3)%nat -> (i <= n)%nat ->
  Forall (triOk i n) triangles ->
  exists bad, findBad allPoints pt triangles = Ok bad /\ incl bad triangles.
Proof.
  intros Hlen Hin. induction 1 as [|t rest Ht _ IH].
  - exists []. split; [reflexivity | apply incl_refl].
  - destruct IH as (bad & Hbad & Hincl).
    destruct Ht as (Hi & Hj & Hk & _).
    destruct (@getElem_ok _ allPoints (ti t)) as (a & Ha);
      [unfold vertexOk in Hi; lia|].
    destruct (@getElem_ok _ allPoints (tj t)) as (b & Hb);
      [unfold vertexOk in Hj; lia|].
    destruct (@getElem_ok _ allPoints (tk t)) as (c & Hc);
      [unfold vertexOk in Hk; lia|].
    simpl. rewrite Ha, Hb, Hc, Hbad. simpl.
    destruct (inCircumcircle pt a b c); eexists; split; try reflexivity.
    + intros x [<- | Hx]; [left; reflexivity | right; apply Hincl, Hx].
    + intros x Hx. right. apply Hincl, Hx.
Qed.

Lemma pushNew_ok (next i n : nat) (polygon : list Edge) :
  (i < n)%nat -> Forall (edgeOk i n) polygon ->
  Forall (triOk (S i) n) (pushNew next i polygon).
Proof.
  intros Hin Hall. revert next.
  induction Hall as [|e rest He _ IH]; intros next; simpl; constructor.
  - destruct He as (H0 & H1 & Hne).
    unfold triOk, vertexOk in *; simpl. repeat split; lia.
  - apply IH.
Qed.

Lemma insertPoint_ok (allPoints : list Point) (triangles : list Tri)
      (next i n : nat) (pt : Point) :
  length allPoints = (n + 3)%nat -> (i < n)%nat ->
  Forall (triOk i n) triangles ->
  exists st, insertPoint allPoints (triangles, next) (i, pt) = Ok st
             /\ Forall (triOk (S i) n) (fst st).
Proof.
  intros Hlen Hin Hall.
  destruct (@findBad_ok allPoints pt i n triangles Hlen) as (bad & Hbad & Hincl);
    [lia | exact Hall |].
  unfold insertPoint. rewrite Hbad. simpl.
  eexists. split; [reflexivity|]. simpl.
  apply Forall_app. split.
  - apply Forall_forall. intros t Ht. apply filter_In in Ht.
    apply triOk_S. rewrite Forall_forall in Hall. apply Hall. tauto.
  - apply pushNew_ok; [exact Hin|].
    apply Forall_forall. intros e He.
    apply boundaryPolygon_edges in He. destruct He as (t & Ht & He).
    apply triOk_edges with (t := t); [|exact He].
    rewrite Forall_forall in Hall. apply Hall, Hincl, Ht.
Qed.

Lemma insertAll_ok (allPoints : list Point) (n : nat) (rest : list Point) :
  length allPoints = (n + 3)%nat ->
  forall (i : nat) (st : list Tri * nat),
    (i + length rest = n)%nat ->
    Forall (triOk i n) (fst st) ->
    exists st', insertAll allPoints st (combine (seq i (length rest)) rest) = Ok st'
                /\ Forall (triOk n n) (fst st').
Proof.
  intros Hlen. induction rest as [|pt rest IH]; intros i st Hi Hall.
  - simpl in *. exists st. split; [reflexivity|].
    assert (i = n) as -> by lia. exact Hall.
  - simpl in Hi. destruct st as [triangles next].
    destruct (@insertPoint_ok allPoints triangles next i n pt Hlen) as (st1 & H1 & Hok1);
      [lia | exact Hall |].
    cbn [length seq combine insertAll].
    rewrite H1. simpl.
    apply IH; [lia | exact Hok1].
Qed.

(** C7.  [computeDelaunay] returns normally on every point sequence; every
    triple it returns has its three indices below the number of points and
    pairwise distinct; on fewer than three points the result is empty.
    This holds for every reading of the numbers, since it rests on the
    indices alone. *)
Theorem computeDelaunay_indices (points : list Point) :
  exists tris,
    computeDelaunay points = Ok tris
    /\ (forall i j k, In (i, j, k) tris ->
          (i < length points)%nat /\ (j < length points)%nat
          /\ (k < length points)%nat
          /\ i <> j /\ j <> k /\ i <> k)
    /\ ((length points < 3)%nat -> tris = []).
Proof.
  unfold computeDelaunay.
  destruct (Nat.ltb (length points) 3) eqn:Hn.
  - exists []. repeat split; try (intros; contradiction); auto.
  - apply Nat.ltb_ge in Hn.
    destruct (superTriangle points) as [[p1 p2] p3].
    destruct (@insertAll_ok (points ++ [p1; p2; p3]) (length points) points) with
      (i := 0%nat)
      (st := ([mkTri 0 (length points) (length points + 1) (length points + 2)],
              1%nat))
      as (st & Hst & Hok).
    + rewrite length_app. reflexivity.
    + reflexivity.
    + constructor; [|constructor].
      unfold triOk, vertexOk; simpl. repeat split; lia.
    + unfold indexed. rewrite Hst. simpl.
      eexists. split; [reflexivity|]. split.
      * intros i j k Hin. apply in_map_iff in Hin.
        destruct Hin as (t & Heq & Ht). injection Heq as <- <- <-.
        apply filter_In in Ht. destruct Ht as (Ht & Hlt).
        apply andb_prop in Hlt. destruct Hlt as (Hlt & Hk).
        apply andb_prop in Hlt. destruct Hlt as (Hi & Hj).
        apply Nat.ltb_lt in Hi, Hj, Hk.
        rewrite Forall_forall in Hok. specialize (Hok t Ht).
        destruct Hok as (_ & _ & _ & Hij & Hjk & Hki).
        repeat split; auto.
      * intros Hlt. lia.
Qed.

End DelaunayFacts.

Section WarpFacts.
Context {F : Type} {num : Number F}.
Local Open Scope js_scope.

Lemma frame_refl (out : loc) (P : nat -> Prop) (h : Heap) : frame out P h h.
Proof.
  repeat split; intros; congruence.
Qed.

Lemma optZ_eq_dec (a b : option Z) : {a = b} + {a <> b}.
Proof. decide equality. apply Z.eq_dec. Qed.

Lemma frame_trans (out : loc) (P : nat -> Prop) (h1 h2 h3 : Heap) :
  frame out P h1 h2 -> frame out P h2 h3 -> frame out P h1 h3.
Proof.
  intros (Ha & La & Ca) (Hb & Lb & Cb). repeat split.
  - intros l Hl. rewrite (Hb l Hl). apply Ha, Hl.
  - congruence.
  - intros n Hn.
    destruct (optZ_eq_dec (nth_error (h2 out) n) (nth_error (h1 out) n)) as [E|E].
    + apply Cb. congruence.
    + apply Ca, E.
Qed.

Lemma frame_weaken (out : loc) (P Q : nat -> Prop) (h h' : Heap) :
  (forall n, P n -> Q n) -> frame out P h h' -> frame out Q h h'.
Proof.
  intros HPQ (Ha & La & Ca). repeat split; auto.
Qed.

Lemma setNth_length (n : nat) (v : Z) (data : list Z) :
  length (setNth n v data) = length data.
Proof.
  revert n. induction data as [|b rest IH]; intros [|n]; simpl; auto.
Qed.

Lemma setNth_other (n m : nat) (v : Z) (data : list Z) :
  m <> n -> nth_error (setNth n v data) m = nth_error data m.
Proof.
  revert n m. induction data as [|b rest IH]; intros [|n] [|m] Hne; simpl;
    try reflexivity; try contradiction.
  apply IH. lia.
Qed.

Lemma storeByte_length (data : list Z) (idx v : F) :
  length (storeByte data idx v) = length data.
Proof.
  unfold storeByte. destruct (toIndex idx) as [n|]; [|reflexivity].
  destruct ((0 <=? n)%Z && (n <? Z.of_nat (length data))%Z);
    [apply setNth_length | reflexivity].
Qed.

Lemma storeByte_changed (data : list Z) (idx v : F) (m : nat) :
  nth_error (storeByte data idx v) m <> nth_error data m ->
  toIndex idx = Some (Z.of_nat m).
Proof.
  unfold storeByte. destruct (toIndex idx) as [n|]; [|congruence].
  destruct ((0 <=? n)%Z && (n <? Z.of_nat (length data))%Z) eqn:Hlt; [|congruence].
  apply andb_prop in Hlt. destruct Hlt as (Hpos & _). apply Z.leb_le in Hpos.
  intros Hne. destruct (Nat.eq_dec m (Z.to_nat n)) as [->|Hm].
  - f_equal. lia.
  - exfalso. apply Hne. apply setNth_other. exact Hm.
Qed.

Lemma store_frame (out : loc) (h : Heap) (key v : F) :
  frame out (fun n => toIndex key = Some (Z.of_nat n)) h (store h out key v).
Proof.
  unfold frame, store, setBuffer. repeat split.
  - intros l Hl. apply Nat.eqb_neq in Hl. rewrite Hl. reflexivity.
  - rewrite Nat.eqb_refl. apply storeByte_length.
  - intros n. rewrite Nat.eqb_refl. apply storeByte_changed.
Qed.

Lemma warpPixel_frame (this : FaceMorpher) (imgData1 imgData2 out : loc)
      (M1 M2 : Affine) (dstTri : Triangle) (ratio x y : F) (h : Heap) :
  frame out
        (fun n => painted this dstTri x y = true
                  /\ exists key, In key (pixelKeys this x y)
                                 /\ toIndex key = Some (Z.of_nat n))
        h (warpPixel this imgData1 imgData2 out M1 M2 dstTri ratio x y h).
Proof.
  unfold warpPixel, painted, inCanvas.
  destruct ((x < ofZ 0) || (x >= ofZ (outputWidth this))
            || (y < ofZ 0) || (y >= ofZ (outputHeight this))); simpl;
    [apply frame_refl|].
  destruct (pointInTriangle {| pX := x; pY := y |} dstTri); simpl;
    [|apply frame_refl].
  set (idx := (y * ofZ (outputWidth this) + x) * ofZ 4).
  repeat (eapply frame_trans;
          [| eapply frame_weaken; [| apply store_frame];
             intros n Hn; split; [reflexivity|]; eexists; split; [|exact Hn];
             unfold pixelKeys; fold idx; simpl; tauto]).
  apply frame_refl.
Qed.

Lemma rowLoop_frame (this : FaceMorpher) (out : loc) (dstTri : Triangle)
      (body : F -> Heap -> Heap) (maxX x0 y : F)
      (Hbody : forall x h,
          frame out
                (fun n => painted this dstTri x y = true
                          /\ exists key, In key (pixelKeys this x y)
                                         /\ toIndex key = Some (Z.of_nat n))
                h (body x h)) :
  forall (fuel k : nat) (h : Heap),
    frame out
          (fun n => exists kx key,
               painted this dstTri (steps kx x0) y = true
               /\ In key (pixelKeys this (steps kx x0) y)
               /\ toIndex key = Some (Z.of_nat n))
          h (fst (rowLoop fuel body maxX (steps k x0) h)).
Proof.
  induction fuel as [|fuel IH]; intros k h; simpl; [apply frame_refl|].
  destruct (steps k x0 <= maxX); simpl; [|apply frame_refl].
  eapply frame_trans.
  - eapply frame_weaken; [|apply (Hbody (steps k x0) h)].
    intros n (Hp & key & Hk & Hi). exists k, key. auto.
  - apply (IH (S k)).
Qed.

Lemma colLoop_frame (this : FaceMorpher) (out : loc) (dstTri : Triangle)
      (body : F -> F -> Heap -> Heap) (maxX maxY : F)
      (Hbody : forall x y h,
          frame out
                (fun n => painted this dstTri x y = true
                          /\ exists key, In key (pixelKeys this x y)
                                         /\ toIndex key = Some (Z.of_nat n))
                h (body x y h)) :
  forall (fuel fuelX k : nat) (h : Heap),
    frame out (ownPixel this dstTri)
          h (fst (colLoop fuel fuelX body (firstX dstTri) maxX maxY
                          (steps k (firstY dstTri)) h)).
Proof.
  induction fuel as [|fuel IH]; intros fuelX k h; simpl; [apply frame_refl|].
  destruct (steps k (firstY dstTri) <= maxY); simpl; [|apply frame_refl].
  pose proof (@rowLoop_frame this out dstTri
                (fun x => body x (steps k (firstY dstTri))) maxX
                (firstX dstTri) (steps k (firstY dstTri))
                (fun x h => Hbody x (steps k (firstY dstTri)) h)
                fuelX 0%nat h) as Hrow.
  simpl in Hrow.
  destruct (rowLoop fuelX (fun x => body x (steps k (firstY dstTri))) maxX
                    (firstX dstTri) h) as [h' done] eqn:Hr.
  simpl in Hrow.
  assert (Hrow' : frame out (ownPixel this dstTri) h h').
  { eapply frame_weaken; [|exact Hrow].
    intros n (kx & key & Hp & Hk & Hi). exists kx, k, key. auto. }
  destruct done; simpl; [|exact Hrow'].
  eapply frame_trans; [exact Hrow'|]. apply (IH fuelX (S k)).
Qed.

(** C8.  After any number of passes of its loops, [warpTriangle] has left
    every buffer other than [outputData] as it was (so both source images,
    when they are other objects), has kept the length of the output buffer,
    and has changed in it only bytes of pixels that the loops visit and that
    pass both the canvas test and [pointInTriangle] for the destination
    triangle. *)
Theorem warpTriangle_frame
        (fuel : nat) (this : FaceMorpher) (h : Heap)
        (imgData1 : loc) (srcTri1 : Triangle)
        (imgData2 : loc) (srcTri2 : Triangle)
        (outputData : loc) (dstTri : Triangle) (ratio : F) :
  let h' := fst (warpTriangle fuel this h imgData1 srcTri1 imgData2 srcTri2
                              outputData dstTri ratio) in
  (forall l, l <> outputData -> h' l = h l)
  /\ length (h' outputData) = length (h outputData)
  /\ (forall n, nth_error (h' outputData) n <> nth_error (h outputData) n ->
                ownPixel this dstTri n).
Proof.
  change (frame outputData (ownPixel this dstTri) h
            (fst (warpTriangle fuel this h imgData1 srcTri1 imgData2 srcTri2
                               outputData dstTri ratio))).
  unfold warpTriangle.
  pose proof (@colLoop_frame this outputData dstTri) as Hcol.
  destruct dstTri as [[d0 d1] d2].
  apply (Hcol _ _ _ (fun x y h => warpPixel_frame this imgData1 imgData2 outputData _ _ _ ratio x y h) fuel fuel 0%nat h).
Qed.

End WarpFacts.

Lemma eqb64_zero (a : B64.float) :
  eqb64 a (ofZ 0) = true -> exists s, a = S754_zero s.
Proof.
  destruct a as [s|s| |s m e]; simpl; unfold eqb64, SFeqb; simpl; intros H.
  - exists s. reflexivity.
  - destruct s; discriminate.
  - discriminate.
  - destruct s; discriminate.
Qed.

Lemma mul_infinity_r (a : B64.float) (s : bool) :
  B64.mul a (S754_infinity s) = S754_nan
  \/ exists s', B64.mul a (S754_infinity s) = S754_infinity s'.
Proof.
  destruct a as [sa|sa| |sa m e]; simpl; eauto.
Qed.

Lemma inside_test_infinite (u v : B64.float) :
  (u = S754_nan \/ exists s, u = S754_infinity s) ->
  (v = S754_nan \/ exists s, v = S754_infinity s) ->
  B64.geb u (B64.ofZ 0) && B64.geb v (B64.ofZ 0)
  && B64.leb (B64.add u v) (B64.ofZ 1) = false.
Proof.
  intros [-> | [su ->]] [-> | [sv ->]]; try reflexivity;
    try (destruct su; reflexivity); destruct su, sv; reflexivity.
Qed.

Lemma pointInTriangle_zero_denom (p : @Point B64.float) (tri : Triangle) :
  eqb64 (baryDenom tri) (ofZ 0) = true -> pointInTriangle p tri = false.
Proof.
  intros Hz. apply eqb64_zero in Hz. destruct Hz as (s & Hz).
  destruct tri as [[t0 t1] t2].
  unfold pointInTriangle. unfold baryDenom in Hz. cbv zeta in *.
  cbn [pX pY] in *.
  rewrite Hz.
  change (ofZ 1 / S754_zero s)%js with (S754_infinity s).
  apply inside_test_infinite; apply mul_infinity_r.
Qed.

Lemma ofDec_tiny : @ofDec Exact.num _ 1 10 = Some tiny.
Proof. reflexivity. Qed.

Lemma Qltb_true (p q : Q) : p < q -> Exact.Qltb p q = true.
Proof.
  intros H. unfold Exact.Qltb. apply negb_true_iff.
  destruct (Qle_bool q p) eqn:E; [|reflexivity].
  apply Qle_bool_iff in E. lra.
Qed.

Lemma Qltb_false (p q : Q) : q <= p -> Exact.Qltb p q = false.
Proof.
  intros H. unfold Exact.Qltb. apply negb_false_iff.
  apply Qle_bool_iff. exact H.
Qed.

Lemma Qeq_bool_false (p q : Q) : ~ p == q -> Qeq_bool p q = false.
Proof.
  intros H. destruct (Qeq_bool p q) eqn:E; [|reflexivity].
  apply Qeq_bool_iff in E. contradiction.
Qed.

Lemma Qabs_pos_nonzero (d : Q) : tiny <= Qabs d -> ~ d == 0.
Proof.
  intros H E. rewrite E in H. unfold tiny in H. simpl in H.
  apply Qle_bool_iff in H. discriminate.
Qed.

Lemma computeAffine_exact_regular (x1 y1 x2 y2 x3 y3 u1 v1 u2 v2 u3 v3 : Q) :
  tiny <= Qabs ((x1 - x3) * (y2 - y3) - (x2 - x3) * (y1 - y3)) ->
  computeAffine (qpt x1 y1, qpt x2 y2, qpt x3 y3)
                (qpt u1 v1, qpt u2 v2, qpt u3 v3) =
  let denom := (x1 - x3) * (y2 - y3) - (x2 - x3) * (y1 - y3) in
  let a := ((u1 - u3) * (y2 - y3) - (u2 - u3) * (y1 - y3)) / denom in
  let b := ((u2 - u3) * (x1 - x3) - (u1 - u3) * (x2 - x3)) / denom in
  let d := ((v1 - v3) * (y2 - y3) - (v2 - v3) * (y1 - y3)) / denom in
  let e := ((v2 - v3) * (x1 - x3) - (v1 - v3) * (x2 - x3)) / denom in
  mkAffine (Some a) (Some b) (Some (u3 - a * x3 - b * y3))
           (Some d) (Some e) (Some (v3 - d * x3 - e * y3)).
Proof.
  intros Hd.
  unfold computeAffine, qpt. cbn [pX pY].
  cbv zeta.
  change (@abs Exact.num _) with Exact.abs.
  change (@ltb Exact.num _) with Exact.ltb.
  change (@sub Exact.num _) with Exact.sub.
  change (@mul Exact.num _) with Exact.mul.
  change (@div Exact.num _) with Exact.div.
  rewrite ofDec_tiny.
  unfold Exact.sub, Exact.mul, Exact.abs, Exact.ltb, Exact.lift2, Exact.lift1, Exact.cmp.
  rewrite (Qltb_false _ _ Hd).
  unfold Exact.div.
  rewrite (Qeq_bool_false _ _ (Qabs_pos_nonzero _ Hd)).
  reflexivity.
Qed.

Lemma applyAffine_exact (a b c d e f x y : Q) :
  applyAffine (mkAffine (Some a) (Some b) (Some c) (Some d) (Some e) (Some f))
              (Some x) (Some y)
  = qpt (a * x + b * y + c) (d * x + e * y + f).
Proof. reflexivity. Qed.

(** Evaluated without rounding, for every source triangle with rational
    vertices whose determinant is at least [1e-10] in absolute value and
    every destination triangle, the map [computeAffine] returns takes each
    source vertex to the corresponding destination vertex exactly. *)
Theorem affine_roundtrip_exact (x1 y1 x2 y2 x3 y3 u1 v1 u2 v2 u3 v3 : Q) :
  let A : Triangle := (qpt x1 y1, qpt x2 y2, qpt x3 y3) in
  let B : Triangle := (qpt u1 v1, qpt u2 v2, qpt u3 v3) in
  let denom := (x1 - x3) * (y2 - y3) - (x2 - x3) * (y1 - y3) in
  tiny <= Qabs denom ->
  let M := computeAffine A B in
  eqxPoint (applyAffine M (Some x1) (Some y1)) (qpt u1 v1)
  /\ eqxPoint (applyAffine M (Some x2) (Some y2)) (qpt u2 v2)
  /\ eqxPoint (applyAffine M (Some x3) (Some y3)) (qpt u3 v3).
Proof.
  intros A B denom Hd M.
  pose proof (Qabs_pos_nonzero _ Hd) as Hnz.
  unfold M, A, B. rewrite computeAffine_exact_regular by exact Hd.
  cbv zeta. rewrite !applyAffine_exact.
  unfold eqxPoint, eqx, qpt. cbn [pX pY].
  unfold denom in Hnz.
  split; [split | split; split]; field; exact Hnz.
Qed.

Lemma affine_roundtrip_exact_witness :
  tiny <= Qabs ((0 - 0) * (0 - 1) - (1 - 0) * (0 - 1))
  /\ (eqxPoint (applyAffine (computeAffine (qpt 0 0, qpt 1 0, qpt 0 1)
                                           (qpt 5 7, qpt 9 7, qpt 5 10))
                            (Some 0) (Some 0))
               (qpt 5 7)
      /\ eqxPoint (applyAffine (computeAffine (qpt 0 0, qpt 1 0, qpt 0 1)
                                              (qpt 5 7, qpt 9 7, qpt 5 10))
                               (Some 1) (Some 0))
                  (qpt 9 7)
      /\ eqxPoint (applyAffine (computeAffine (qpt 0 0, qpt 1 0, qpt 0 1)
                                              (qpt 5 7, qpt 9 7, qpt 5 10))
                               (Some 0) (Some 1))
                  (qpt 5 10)).
Proof.
  assert (H : tiny <= Qabs ((0 - 0) * (0 - 1) - (1 - 0) * (0 - 1))).
  { vm_compute. discriminate. }
  split; [exact H|].
  exact (affine_roundtrip_exact 0 0 1 0 0 1 5 7 9 7 5 10 H).
Defined.

(** C2, counterexample.  In binary64, a source triangle inside the canvas
    whose determinant, about [1.00000001e-10], passes the guard: the map
    sends its first vertex to [(0, -2^-16)] where the destination vertex is
    [(0, 0)], off by more than [1e-6].  And far outside the canvas, with
    coordinates up to [1e12] and a determinant of [1e24]: the map sends the
    first source vertex more than [1e-6] away from the destination vertex
    [(3, 1)]. *)
Lemma affine_roundtrip_b64_counterexample :
  (let A : @Triangle B64.float :=
     (dpt 38900002 36700002 5, dpt 38900001 36700003 5, dpt 38900003 36700000 5) in
   let B : @Triangle B64.float := (dpt 0 0 0, dpt 100 399 0, dpt 0 399 0) in
   let q := applyAffine (computeAffine A B)
                        (B64.ofDec 38900002 5) (B64.ofDec 36700002 5) in
   B64.geb (B64.abs (affineDenom A)) (B64.ofDec 1 10) = true
   /\ pY q = S754_finite true 4503599627370496 (-68)
   /\ B64.gtb (B64.abs (B64.sub (pY q) (B64.ofZ 0))) (B64.ofDec 1 6) = true)
  /\ (let A : @Triangle B64.float :=
        (dpt 1 2 0, dpt 1000000000007 3 0, dpt 5 1000000000011 0) in
      let B : @Triangle B64.float :=
        (dpt 3 1 0, dpt 333333333346 17 0, dpt 19 142857142880 0) in
      let q := applyAffine (computeAffine A B) (B64.ofDec 1 0) (B64.ofDec 2 0) in
      forallb finitePoint [dpt 1 2 0; dpt 1000000000007 3 0; dpt 5 1000000000011 0;
                           dpt 3 1 0; dpt 333333333346 17 0; dpt 19 142857142880 0]
      = true
      /\ B64.geb (B64.abs (affineDenom A)) (B64.ofZ 1) = true
      /\ B64.gtb (B64.abs (B64.sub (pY q) (B64.ofZ 1))) (B64.ofDec 1 6) = true).
Proof. vm_compute. repeat split. Qed.

Section GenericAffine.
Context {F : Type} {num : Number F}.

Lemma computeAffine_guard (src dst : Triangle) :
  ltb (abs (affineDenom src)) (ofDec 1 10) = true ->
  computeAffine src dst = identityAffine.
Proof.
  destruct src as [[s0 s1] s2], dst as [[d0 d1] d2].
  unfold computeAffine, affineDenom. cbv zeta.
  intros ->. reflexivity.
Qed.
End GenericAffine.

Lemma Qabs_zero_tiny (d : Q) : d == 0 -> Exact.Qltb (Qabs d) tiny = true.
Proof.
  intros E. apply Qltb_true. rewrite E. reflexivity.
Qed.

Section GenericInside.
Context {F : Type} {num : Number F}.
Local Open Scope js_scope.

Lemma pointInTriangle_inv (p : Point) (tri : Triangle) :
  exists nu nv : F,
    pointInTriangle p tri
    = (nu * (ofZ 1 / baryDenom tri) >= ofZ 0)
      && (nv * (ofZ 1 / baryDenom tri) >= ofZ 0)
      && (nu * (ofZ 1 / baryDenom tri) + nv * (ofZ 1 / baryDenom tri) <= ofZ 1).
Proof.
  destruct tri as [[t0 t1] t2].
  unfold pointInTriangle, baryDenom. cbv zeta.
  eexists. eexists. reflexivity.
Qed.
End GenericInside.

Lemma baryDenom_exact (x0 y0 x1 y1 x2 y2 : Q) :
  baryDenom (qpt x0 y0, qpt x1 y1, qpt x2 y2)
  = Some (((x2 - x0) * (x2 - x0) + (y2 - y0) * (y2 - y0))
          * ((x1 - x0) * (x1 - x0) + (y1 - y0) * (y1 - y0))
          - ((x2 - x0) * (x1 - x0) + (y2 - y0) * (y1 - y0))
            * ((x2 - x0) * (x1 - x0) + (y2 - y0) * (y1 - y0))).
Proof. reflexivity. Qed.

Lemma pointInTriangle_collinear_exact (p : @Point Exact.num)
      (x0 y0 x1 y1 x2 y2 : Q) :
  (x1 - x0) * (y2 - y0) == (x2 - x0) * (y1 - y0) ->
  pointInTriangle p (qpt x0 y0, qpt x1 y1, qpt x2 y2) = false.
Proof.
  intros Hcol.
  destruct (pointInTriangle_inv p (qpt x0 y0, qpt x1 y1, qpt x2 y2))
    as (nu & nv & ->).
  rewrite baryDenom_exact.
  assert (Hinv : Exact.div (Exact.ofZ 1)
            (Some (((x2 - x0) * (x2 - x0) + (y2 - y0) * (y2 - y0))
                   * ((x1 - x0) * (x1 - x0) + (y1 - y0) * (y1 - y0))
                   - ((x2 - x0) * (x1 - x0) + (y2 - y0) * (y1 - y0))
                     * ((x2 - x0) * (x1 - x0) + (y2 - y0) * (y1 - y0))))
            = None).
  { unfold Exact.div, Exact.ofZ.
    replace (Qeq_bool _ 0) with true; [reflexivity|].
    symmetry. apply Qeq_bool_iff.
    setoid_replace (((x2 - x0) * (x2 - x0) + (y2 - y0) * (y2 - y0))
                     * ((x1 - x0) * (x1 - x0) + (y1 - y0) * (y1 - y0))
                     - ((x2 - x0) * (x1 - x0) + (y2 - y0) * (y1 - y0))
                       * ((x2 - x0) * (x1 - x0) + (y2 - y0) * (y1 - y0)))
      with (((x1 - x0) * (y2 - y0) - (x2 - x0) * (y1 - y0))
            * ((x1 - x0) * (y2 - y0) - (x2 - x0) * (y1 - y0))) by ring.
    rewrite Hcol. ring. }
  change (@div Exact.num Exact_Number (@ofZ Exact.num Exact_Number 1))
    with (Exact.div (Exact.ofZ 1)).
  rewrite Hinv.
  destruct nu; reflexivity.
Qed.

Lemma ofZ_one : B64.ofZ 1 = S754_finite false 4503599627370496 (-52).
Proof. reflexivity. Qed.

Lemma ofZ_zero : B64.ofZ 0 = S754_zero false.
Proof. reflexivity. Qed.

Lemma mul_pow52 (m : positive) :
  (m * 4503599627370496)%positive
  = (m~0~0~0~0~0~0~0~0~0~0~0~0~0~0~0~0~0~0~0~0~0~0~0~0~0~0
      ~0~0~0~0~0~0~0~0~0~0~0~0~0~0~0~0~0~0~0~0~0~0~0~0~0~0)%positive.
Proof. rewrite Pos.mul_comm. reflexivity. Qed.

Lemma canonical_fexp (m : positive) (e : Z) :
  bounded B64.prec B64.emax m e = true ->
  fexp B64.prec B64.emax (Zpos (digits2_pos m) + e) = e
  /\ (e <=? B64.emax - B64.prec)%Z = true.
Proof.
  unfold bounded, canonical_mantissa. intros H.
  apply andb_prop in H. destruct H as (Hc & Hb).
  apply Z.eqb_eq in Hc. split; assumption.
Qed.

Lemma mul_one_r (s : bool) (m : positive) (e : Z) :
  bounded B64.prec B64.emax m e = true ->
  B64.mul (S754_finite s m e) (B64.ofZ 1) = S754_finite s m e.
Proof.
  intros Hb. destruct (canonical_fexp m e Hb) as (Hc & He).
  rewrite ofZ_one. unfold B64.mul, SFmul.
  rewrite xorb_false_r, mul_pow52.
  unfold binary_round_aux.
  assert (Hs1 : shr_fexp B64.prec B64.emax
            (Zpos (m~0~0~0~0~0~0~0~0~0~0~0~0~0~0~0~0~0~0~0~0~0~0~0~0~0~0
                    ~0~0~0~0~0~0~0~0~0~0~0~0~0~0~0~0~0~0~0~0~0~0~0~0~0~0))
            (e + -52) loc_Exact
          = (Build_shr_record (Zpos m) false false, e)).
  { unfold shr_fexp. unfold Zdigits2.
    cbn [digits2_pos].
    rewrite !Pos2Z.inj_succ.
    replace (fexp B64.prec B64.emax _ - (e + -52))%Z with 52%Z.
    - unfold shr. cbn [shr_record_of_loc iter_pos shr_1 orb].
      f_equal. lia.
    - replace (Z.succ (Z.succ (Z.succ (Z.succ (Z.succ (Z.succ (Z.succ (Z.succ
              (Z.succ (Z.succ (Z.succ (Z.succ (Z.succ (Z.succ (Z.succ (Z.succ
              (Z.succ (Z.succ (Z.succ (Z.succ (Z.succ (Z.succ (Z.succ (Z.succ
              (Z.succ (Z.succ (Z.succ (Z.succ (Z.succ (Z.succ (Z.succ (Z.succ
              (Z.succ (Z.succ (Z.succ (Z.succ (Z.succ (Z.succ (Z.succ (Z.succ
              (Z.succ (Z.succ (Z.succ (Z.succ (Z.succ (Z.succ (Z.succ (Z.succ
              (Z.succ (Z.succ (Z.succ (Z.succ (Zpos (digits2_pos m))))))))))))
              ))))))))))))))))))))))))))))))))))))))))) + (e + -52))%Z
        with (Zpos (digits2_pos m) + e)%Z by lia.
      rewrite Hc. lia. }
  rewrite Hs1. cbn [shr_m loc_of_shr_record round_nearest_even].
  assert (Hs2 : shr_fexp B64.prec B64.emax (Zpos m) e loc_Exact
                = (Build_shr_record (Zpos m) false false, e)).
  { unfold shr_fexp, Zdigits2. rewrite Hc, Z.sub_diag. reflexivity. }
  rewrite Hs2. cbn [shr_m]. rewrite He. reflexivity.
Qed.

Section InterpolateGeneric.
Context {F : Type} {num : Number F}.
Local Open Scope js_scope.

Lemma interpolate_from (ratio : F) (l1 l2 pre : list Point) :
  length l1 = length l2 ->
  mapM (fun '(i, pt) =>
          q <- getElem (pre ++ l2) i ;;
          Ok {| pX := pX pt * (ofZ 1 - ratio) + pX q * ratio;
                pY := pY pt * (ofZ 1 - ratio) + pY q * ratio |})
       (combine (seq (length pre) (length l1)) l1)
  = Ok (zipPoints ratio l1 l2).
Proof.
  revert l2 pre. induction l1 as [|pt r1 IH]; intros [|q r2] pre Hlen;
    try discriminate; [reflexivity|].
  cbn [length seq combine mapM zipPoints].
  unfold getElem at 1.
  rewrite nth_error_app2 by lia. rewrite Nat.sub_diag. cbn [nth_error bind].
  specialize (IH r2 (pre ++ [q])).
  rewrite <- app_assoc in IH. cbn [app] in IH.
  rewrite length_app in IH. cbn [length] in IH.
  rewrite Nat.add_1_r in IH.
  rewrite IH by (simpl in Hlen; lia).
  reflexivity.
Qed.

Lemma interpolatePoints_zip (ratio : F) (pts1 pts2 : list Point) :
  length pts1 = length pts2 ->
  interpolatePoints pts1 pts2 ratio = Ok (zipPoints ratio pts1 pts2).
Proof.
  intros Hlen. exact (interpolate_from ratio pts1 pts2 [] Hlen).
Qed.
End InterpolateGeneric.

Lemma eqb64_refl (a : B64.float) : B64.is_finite a = true -> eqb64 a a = true.
Proof.
  destruct a as [s|s| |s m e]; try discriminate; intros _;
    unfold eqb64, SFeqb, SFcompare.
  - reflexivity.
  - rewrite Z.compare_refl.
    change (Pos.compare_cont Eq m m) with (Pos.compare m m).
    rewrite Pos.compare_refl. destruct s; reflexivity.
Qed.

Lemma sameNumber_refl (a : B64.float) :
  B64.is_finite a = true -> sameNumber a a.
Proof. intros H. split; [apply eqb64_refl, H | reflexivity]. Qed.

Lemma lerp_zero (a b : B64.float) :
  finiteCoord a = true -> finiteCoord b = true ->
  sameNumber (B64.add (B64.mul a (B64.sub (B64.ofZ 1) (B64.ofZ 0)))
                      (B64.mul b (B64.ofZ 0))) a.
Proof.
  unfold finiteCoord. intros Ha Hb.
  apply andb_prop in Ha, Hb. destruct Ha as (Va & Fa), Hb as (Vb & Fb).
  change (B64.sub (B64.ofZ 1) (B64.ofZ 0)) with (B64.ofZ 1).
  destruct a as [sa|sa| |sa ma ea]; try discriminate.
  - destruct b as [sb|sb| |sb mb eb]; try discriminate;
      destruct sa, sb; split; try reflexivity; intros H;
        exfalso; eapply H; reflexivity.
  - rewrite (mul_one_r sa ma ea Va).
    destruct b as [sb|sb| |sb mb eb]; try discriminate;
      cbn [B64.mul SFmul B64.ofZ]; rewrite ofZ_zero;
      cbn [B64.add SFadd]; apply sameNumber_refl; reflexivity.
Qed.

Lemma lerp_one (a b : B64.float) :
  finiteCoord a = true -> finiteCoord b = true ->
  sameNumber (B64.add (B64.mul a (B64.sub (B64.ofZ 1) (B64.ofZ 1)))
                      (B64.mul b (B64.ofZ 1))) b.
Proof.
  unfold finiteCoord. intros Ha Hb.
  apply andb_prop in Ha, Hb. destruct Ha as (Va & Fa), Hb as (Vb & Fb).
  change (B64.sub (B64.ofZ 1) (B64.ofZ 1)) with (S754_zero false).
  destruct b as [sb|sb| |sb mb eb]; try discriminate.
  - destruct a as [sa|sa| |sa ma ea]; try discriminate;
      destruct sa, sb; split; try reflexivity; intros H;
        exfalso; eapply H; reflexivity.
  - rewrite (mul_one_r sb mb eb Vb).
    destruct a as [sa|sa| |sa ma ea]; try discriminate;
      cbn [B64.mul SFmul B64.add SFadd]; apply sameNumber_refl; reflexivity.
Qed.

Lemma zipPoints_zero (pts1 pts2 : list (@Point B64.float)) :
  length pts1 = length pts2 ->
  forallb finitePoint pts1 = true -> forallb finitePoint pts2 = true ->
  Forall2 samePoint (zipPoints (ofZ 0) pts1 pts2) pts1.
Proof.
  revert pts2. induction pts1 as [|p r1 IH]; intros [|q r2] Hlen H1 H2;
    try discriminate; [constructor|].
  cbn [forallb] in H1, H2. apply andb_prop in H1, H2.
  destruct H1 as (Hp & H1), H2 as (Hq & H2).
  unfold finitePoint in Hp, Hq. apply andb_prop in Hp, Hq.
  cbn [zipPoints]. constructor.
  - split; apply lerp_zero; tauto.
  - apply IH; [simpl in Hlen; lia | exact H1 | exact H2].
Qed.

Lemma zipPoints_one (pts1 pts2 : list (@Point B64.float)) :
  length pts1 = length pts2 ->
  forallb finitePoint pts1 = true -> forallb finitePoint pts2 = true ->
  Forall2 samePoint (zipPoints (ofZ 1) pts1 pts2) pts2.
Proof.
  revert pts2. induction pts1 as [|p r1 IH]; intros [|q r2] Hlen H1 H2;
    try discriminate; [constructor|].
  cbn [forallb] in H1, H2. apply andb_prop in H1, H2.
  destruct H1 as (Hp & H1), H2 as (Hq & H2).
  unfold finitePoint in Hp, Hq. apply andb_prop in Hp, Hq.
  cbn [zipPoints]. constructor.
  - split; apply lerp_one; tauto.
  - apply IH; [simpl in Hlen; lia | exact H1 | exact H2].
Qed.

(** C4.  In binary64, for two sequences of equal length whose coordinates
    are finite numbers, [interpolatePoints] at ratio [0] returns the first
    sequence and at ratio [1] the second: every coordinate is equal as a
    number to the one it comes from, and is the same value bit for bit
    unless that one is a zero, whose sign alone may differ. *)
Theorem interpolatePoints_endpoints (pts1 pts2 : list (@Point B64.float)) :
  length pts1 = length pts2 ->
  forallb finitePoint pts1 = true -> forallb finitePoint pts2 = true ->
  (exists r, interpolatePoints pts1 pts2 (ofZ 0) = Ok r /\ Forall2 samePoint r pts1)
  /\ (exists r, interpolatePoints pts1 pts2 (ofZ 1) = Ok r /\ Forall2 samePoint r pts2).
Proof.
  intros Hlen H1 H2. split.
  - exists (zipPoints (ofZ 0) pts1 pts2). split.
    + apply interpolatePoints_zip, Hlen.
    + apply zipPoints_zero; assumption.
  - exists (zipPoints (ofZ 1) pts1 pts2). split.
    + apply interpolatePoints_zip, Hlen.
    + apply zipPoints_one; assumption.
Qed.

Lemma qmin_spec (p q : Q) : qmin p q <= p /\ qmin p q <= q.
Proof.
  unfold qmin. destruct (Qle_bool p q) eqn:E.
  - apply Qle_bool_iff in E. lra.
  - assert (~ p <= q) by (intros H; apply Qle_bool_iff in H; congruence). lra.
Qed.

Lemma qmax_spec (p q : Q) : p <= qmax p q /\ q <= qmax p q.
Proof.
  unfold qmax. destruct (Qle_bool p q) eqn:E.
  - apply Qle_bool_iff in E. lra.
  - assert (~ p <= q) by (intros H; apply Qle_bool_iff in H; congruence). lra.
Qed.

Lemma fold_min_some (qs : list Q) (q0 : Q) :
  fold_left (@min2 Exact.num _) (map Some qs) (Some q0)
  = Some (fold_left qmin qs q0).
Proof.
  revert q0. induction qs as [|q r IH]; intros q0; [reflexivity|].
  simpl. apply IH.
Qed.

Lemma fold_max_some (qs : list Q) (q0 : Q) :
  fold_left (@max2 Exact.num _) (map Some qs) (Some q0)
  = Some (fold_left qmax qs q0).
Proof.
  revert q0. induction qs as [|q r IH]; intros q0; [reflexivity|].
  simpl. apply IH.
Qed.

Lemma fold_qmin_le (qs : list Q) (q0 : Q) :
  fold_left qmin qs q0 <= q0
  /\ forall q, In q qs -> fold_left qmin qs q0 <= q.
Proof.
  revert q0. induction qs as [|q r IH]; intros q0; simpl.
  - split; [lra | contradiction].
  - destruct (IH (qmin q0 q)) as (H0 & Hr).
    destruct (qmin_spec q0 q) as (Ha & Hb).
    split; [lra|]. intros x [<- | Hx]; [lra | apply Hr, Hx].
Qed.

Lemma fold_qmax_ge (qs : list Q) (q0 : Q) :
  q0 <= fold_left qmax qs q0
  /\ forall q, In q qs -> q <= fold_left qmax qs q0.
Proof.
  revert q0. induction qs as [|q r IH]; intros q0; simpl.
  - split; [lra | contradiction].
  - destruct (IH (qmax q0 q)) as (H0 & Hr).
    destruct (qmax_spec q0 q) as (Ha & Hb).
    split; [lra|]. intros x [<- | Hx]; [lra | apply Hr, Hx].
Qed.

Lemma listMin_le (qs : list Q) (q : Q) : In q qs -> listMin qs <= q.
Proof.
  destruct qs as [|q0 r]; [contradiction|]. simpl.
  destruct (fold_qmin_le r q0) as (H0 & Hr).
  intros [<- | H]; [exact H0 | apply Hr, H].
Qed.

Lemma listMax_ge (qs : list Q) (q : Q) : In q qs -> q <= listMax qs.
Proof.
  destruct qs as [|q0 r]; [contradiction|]. simpl.
  destruct (fold_qmax_ge r q0) as (H0 & Hr).
  intros [<- | H]; [exact H0 | apply Hr, H].
Qed.

Lemma Math_min_exact (qs : list Q) :
  qs <> [] -> Math_min (map Some qs) = Some (listMin qs).
Proof.
  destruct qs as [|q r]; [congruence|]. intros _. simpl. apply fold_min_some.
Qed.

Lemma Math_max_exact (qs : list Q) :
  qs <> [] -> Math_max (map Some qs) = Some (listMax qs).
Proof.
  destruct qs as [|q r]; [congruence|]. intros _. simpl. apply fold_max_some.
Qed.

Lemma map_pX_qpoints (l : list (Q * Q)) :
  map pX (qpoints l) = map Some (map fst l).
Proof. unfold qpoints. rewrite !map_map. reflexivity. Qed.

Lemma map_pY_qpoints (l : list (Q * Q)) :
  map pY (qpoints l) = map Some (map snd l).
Proof. unfold qpoints. rewrite !map_map. reflexivity. Qed.

Lemma superTriangle_exact (l : list (Q * Q)) :
  l <> [] ->
  superTriangle (qpoints l) =
  let '(a, b, c) := superQ l in
  (qpt (fst a) (snd a), qpt (fst b) (snd b), qpt (fst c) (snd c)).
Proof.
  intros Hne. unfold superTriangle.
  rewrite map_pX_qpoints, map_pY_qpoints.
  assert (Hx : map fst l <> []) by (destruct l; [congruence | discriminate]).
  assert (Hy : map snd l <> []) by (destruct l; [congruence | discriminate]).
  rewrite !Math_min_exact, !Math_max_exact by assumption.
  reflexivity.
Qed.

Lemma super_geometry (minX maxX minY maxY m x y : Q) :
  minX <= x -> x <= maxX -> minY <= y -> y <= maxY ->
  maxX - minX <= m -> maxY - minY <= m -> 0 < m ->
  let dx := maxX - minX in
  let d := m * 2 in
  let a := (minX - d, minY - d) in
  let b := (minX + d * 2, minY - d) in
  let c := (minX + dx / 2, maxY + d * 2) in
  0 < orientQ a b (x, y) /\ 0 < orientQ b c (x, y) /\ 0 < orientQ c a (x, y).
Proof.
  intros Hx0 Hx1 Hy0 Hy1 Hdx Hdy Hm dx d a b c.
  unfold orientQ, a, b, c, d, dx. cbn [fst snd].
  set (X := x - minX). set (Y := y - minY).
  set (DX := maxX - minX). set (DY := maxY - minY).
  assert (HX0 : 0 <= X) by (unfold X; lra).
  assert (HX1 : X <= DX) by (unfold X, DX; lra).
  assert (HY0 : 0 <= Y) by (unfold Y; lra).
  assert (HY1 : Y <= DY) by (unfold Y, DY; lra).
  assert (HDX : DX <= m) by (unfold DX; lra).
  assert (HDY : DY <= m) by (unfold DY; lra).
  assert (HDX0 : 0 <= DX) by lra.
  assert (HDY0 : 0 <= DY) by lra.
  split; [|split].
  - setoid_replace ((minX + m * 2 * 2 - (minX - m * 2)) * (y - (minY - m * 2))
                    - (minY - m * 2 - (minY - m * 2)) * (x - (minX - m * 2)))
      with (6 * m * (Y + 2 * m)) by (unfold Y; ring).
    nra.
  - setoid_replace ((minX + DX / 2 - (minX + m * 2 * 2)) * (y - (minY - m * 2))
                    - (maxY + m * 2 * 2 - (minY - m * 2)) * (x - (minX + m * 2 * 2)))
      with ((DY + 6 * m) * (4 * m - X) - (4 * m - DX / 2) * (Y + 2 * m))
      by (unfold X, Y, DY; field).
    assert (H1 : 18 * m * m <= (DY + 6 * m) * (4 * m - X)) by nra.
    assert (H2 : (4 * m - DX / 2) * (Y + 2 * m) <= 12 * m * m).
    { assert (0 <= DX / 2) by (apply Qle_shift_div_l; lra).
      assert (DX / 2 <= m) by (apply Qle_shift_div_r; lra).
      nra. }
    nra.
  - setoid_replace ((minX - m * 2 - (minX + DX / 2)) * (y - (maxY + m * 2 * 2))
                    - (minY - m * 2 - (maxY + m * 2 * 2)) * (x - (minX + DX / 2)))
      with ((2 * m + DX / 2) * (DY - Y + 4 * m) + (DY + 6 * m) * (X - DX / 2))
      by (unfold X, Y, DY; field).
    assert (0 <= DX / 2) by (apply Qle_shift_div_l; lra).
    assert (DX / 2 <= m / 2).
    { apply Qle_shift_div_r; [lra|].
      setoid_replace (m / 2 * 2) with m by field. lra. }
    assert (m / 2 * 2 == m) by field.
    assert (K1 : 8 * m * m <= (2 * m + DX / 2) * (DY - Y + 4 * m)) by nra.
    assert (K2 : - (7 * m * (m / 2)) <= (DY + 6 * m) * (X - DX / 2)) by nra.
    nra.
Qed.

Lemma qmax_pos_of_distinct (l : list (Q * Q)) (p q : Q * Q) :
  In p l -> In q l -> ~ (fst p == fst q /\ snd p == snd q) ->
  0 < qmax (listMax (map fst l) - listMin (map fst l))
           (listMax (map snd l) - listMin (map snd l)).
Proof.
  intros Hp Hq Hne.
  pose proof (listMin_le (map fst l) (fst p) (in_map fst l p Hp)) as Hxp0.
  pose proof (listMax_ge (map fst l) (fst p) (in_map fst l p Hp)) as Hxp1.
  pose proof (listMin_le (map fst l) (fst q) (in_map fst l q Hq)) as Hxq0.
  pose proof (listMax_ge (map fst l) (fst q) (in_map fst l q Hq)) as Hxq1.
  pose proof (listMin_le (map snd l) (snd p) (in_map snd l p Hp)) as Hyp0.
  pose proof (listMax_ge (map snd l) (snd p) (in_map snd l p Hp)) as Hyp1.
  pose proof (listMin_le (map snd l) (snd q) (in_map snd l q Hq)) as Hyq0.
  pose proof (listMax_ge (map snd l) (snd q) (in_map snd l q Hq)) as Hyq1.
  destruct (qmax_spec (listMax (map fst l) - listMin (map fst l))
                      (listMax (map snd l) - listMin (map snd l))) as (Ha & Hb).
  destruct (Qeq_dec (fst p) (fst q)) as [Ex|Nx].
  - destruct (Qeq_dec (snd p) (snd q)) as [Ey|Ny]; [tauto|].
    destruct (Q_dec (snd p) (snd q)) as [[Hlt|Hgt]|Heq]; [lra | lra | contradiction].
  - destruct (Q_dec (fst p) (fst q)) as [[Hlt|Hgt]|Heq]; [lra | lra | contradiction].
Qed.

(** Evaluated without rounding, for every sequence of points with rational
    coordinates that are not all the same point, each point lies strictly
    inside the super-triangle [p1], [p2], [p3] that [computeDelaunay]
    builds. *)
Theorem superTriangle_contains_exact (l : list (Q * Q)) :
  (exists p q, In p l /\ In q l /\ ~ (fst p == fst q /\ snd p == snd q)) ->
  exists a b c : Q * Q,
    superTriangle (qpoints l)
    = (qpt (fst a) (snd a), qpt (fst b) (snd b), qpt (fst c) (snd c))
    /\ forall p, In p l -> strictlyInside p a b c.
Proof.
  intros (p0 & q0 & Hp0 & Hq0 & Hne).
  assert (Hl : l <> []) by (destruct l; [contradiction | discriminate]).
  pose proof (qmax_pos_of_distinct l p0 q0 Hp0 Hq0 Hne) as Hm.
  destruct (qmax_spec (listMax (map fst l) - listMin (map fst l))
                      (listMax (map snd l) - listMin (map snd l))) as (Ha & Hb).
  rewrite (superTriangle_exact l Hl). unfold superQ. cbv zeta.
  eexists. eexists. eexists. split; [reflexivity|].
  intros p Hp. left.
  replace p with (fst p, snd p) by (destruct p; reflexivity).
  apply super_geometry; try assumption.
  - apply listMin_le, in_map, Hp.
  - apply listMax_ge, in_map, Hp.
  - apply listMin_le, in_map, Hp.
  - apply listMax_ge, in_map, Hp.
Qed.

Lemma superTriangle_contains_exact_witness :
  (exists p q, In p [(0, 0); (4, 0); (0, 3)] /\ In q [(0, 0); (4, 0); (0, 3)]
               /\ ~ (fst p == fst q /\ snd p == snd q))
  /\ exists a b c : Q * Q,
      superTriangle (qpoints [(0, 0); (4, 0); (0, 3)])
      = (qpt (fst a) (snd a), qpt (fst b) (snd b), qpt (fst c) (snd c))
      /\ forall p, In p [(0, 0); (4, 0); (0, 3)] -> strictlyInside p a b c.
Proof.
  assert (H : exists p q, In p [(0, 0); (4, 0); (0, 3)]
                          /\ In q [(0, 0); (4, 0); (0, 3)]
                          /\ ~ (fst p == fst q /\ snd p == snd q)).
  { exists (0, 0), (4, 0). simpl. split; [tauto|]. split; [tauto|].
    intros (E & _). vm_compute in E. discriminate. }
  split; [exact H|].
  exact (superTriangle_contains_exact [(0, 0); (4, 0); (0, 3)] H).
Defined.

Lemma digits2_size (m : positive) : digits2_pos m = Pos.size m.
Proof. induction m; simpl; congruence. Qed.

Lemma valid_mantissa_lt (m : positive) (e : Z) :
  bounded B64.prec B64.emax m e = true -> (Zpos m < 2 ^ 53)%Z.
Proof.
  unfold bounded, canonical_mantissa, fexp, emin, B64.prec, B64.emax.
  intros H. apply andb_prop in H. destruct H as (Hc & _).
  apply Z.eqb_eq in Hc.
  assert (Hd : (Zpos (digits2_pos m) <= 53)%Z) by lia.
  rewrite digits2_size in Hd.
  pose proof (Pos.size_gt m) as Hs.
  assert (Hs' : (Zpos m < 2 ^ Zpos (Pos.size m))%Z).
  { rewrite <- Pos2Z.inj_pow. apply Pos2Z.pos_lt_pos. exact Hs. }
  eapply Z.lt_le_trans; [exact Hs'|].
  apply Z.pow_le_mono_r; lia.
Qed.

Lemma clampTop_eq : B64.sub (B64.ofZ 400) (B64.ofDec 1001 3) = clampTop.
Proof. reflexivity. Qed.

Lemma floor_small (m : positive) (p : positive) :
  B64.floor (S754_finite false m (Zneg p)) = B64.ofZ (Z.shiftr (Zpos m) (Zpos p)).
Proof. reflexivity. Qed.

Lemma max2_zero_pos (m : positive) (e : Z) :
  B64.max2 (S754_zero false) (S754_finite false m e) = S754_finite false m e.
Proof. reflexivity. Qed.

Lemma shiftr_bound (m : positive) (p : positive) (b : Z) :
  (Zpos m < (b + 1) * 2 ^ Zpos p)%Z ->
  (0 <= Z.shiftr (Zpos m) (Zpos p) <= b)%Z.
Proof.
  intros H. rewrite Z.shiftr_div_pow2 by lia.
  assert (Hp : (0 < 2 ^ Zpos p)%Z) by (apply Z.pow_pos_nonneg; lia).
  split; [apply Z.div_pos; lia|].
  apply Z.lt_succ_r. apply Z.div_lt_upper_bound; [exact Hp|].
  rewrite Z.mul_comm. exact H.
Qed.

Lemma low_range (x : B64.float) :
  B64.valid x = true -> B64.is_nan x = false ->
  exists k, (0 <= k <= 398)%Z /\ B64.floor (clampCoord 400 x) = B64.ofZ k.
Proof.
  intros Hv Hn. unfold clampCoord.
  change (ofZ 400 - ofDec 1001 3)%js with clampTop.
  change (@max2 B64.float _) with B64.max2.
  change (@min2 B64.float _) with B64.min2.
  change (@ofZ B64.float _ 0) with (S754_zero false).
  destruct x as [s|s| |s m e]; try discriminate.
  - exists 0%Z. split; [lia|]. destruct s; vm_compute; reflexivity.
  - destruct s; [exists 0%Z | exists 398%Z]; split; try lia;
      vm_compute; reflexivity.
  - destruct s.
    + exists 0%Z. split; [lia|]. reflexivity.
    + unfold B64.valid, valid_binary in Hv.
      pose proof (valid_mantissa_lt m e Hv) as Hm.
      change (2 ^ 53)%Z with 9007199254740992%Z in Hm.
      clear Hv Hn.
      unfold B64.min2, clampTop, SFcompare.
      destruct (Z.compare_spec (-44) e) as [He|He|He].
      * subst e.
        change (Pos.compare_cont Eq 7019264639535940 m)
          with (Pos.compare 7019264639535940 m).
        destruct (Pos.compare_spec 7019264639535940 m) as [Hc|Hc|Hc].
        -- subst m. exists 398%Z. split; [lia|]. vm_compute. reflexivity.
        -- exists 398%Z. split; [lia|]. vm_compute. reflexivity.
        -- exists (Z.shiftr (Zpos m) 44). split.
           ++ apply shiftr_bound.
              assert (Zpos m < 7019264639535940)%Z
                by (apply Pos2Z.pos_lt_pos; exact Hc).
              change ((398 + 1) * 2 ^ 44)%Z with 7019282231721984%Z.
              clear Hc. lia.
           ++ rewrite max2_zero_pos. apply floor_small.
      * exists 398%Z. split; [lia|]. vm_compute. reflexivity.
      * destruct e as [|pe|pe]; try lia.
        exists (Z.shiftr (Zpos m) (Zpos pe)). split.
        -- apply shiftr_bound.
           assert (H45 : (2 ^ 45 <= 2 ^ Zpos pe)%Z)
             by (apply Z.pow_le_mono_r; lia).
           change (2 ^ 45)%Z with 35184372088832%Z in H45.
           lia.
        -- rewrite max2_zero_pos. apply floor_small.
Qed.

Lemma allBelow_spec (n : nat) (P : Z -> bool) :
  allBelow n P = true ->
  forall k, (0 <= k < Z.of_nat n)%Z -> P k = true.
Proof.
  induction n as [|n IH]; intros H k Hk; [lia|].
  cbn [allBelow] in H. apply andb_prop in H. destruct H as (Hn & Hr).
  destruct (Z.eq_dec k (Z.of_nat n)) as [->|Hne]; [exact Hn|].
  apply IH; [exact Hr | lia].
Qed.

Lemma sameBits_eq (a b : B64.float) : sameBits a b = true -> a = b.
Proof.
  destruct a as [s|s| |s m e], b as [s'|s'| |s' m' e']; simpl; try discriminate;
    intros H.
  - apply Bool.eqb_prop in H. congruence.
  - apply Bool.eqb_prop in H. congruence.
  - reflexivity.
  - apply andb_prop in H. destruct H as (H & He).
    apply andb_prop in H. destruct H as (Hs & Hm).
    apply Bool.eqb_prop in Hs. apply Pos.eqb_eq in Hm. apply Z.eqb_eq in He.
    congruence.
Qed.

Lemma keyIs_eq (key : B64.float) (n : Z) :
  keyIs key n = true -> B64.toIndex key = Some n.
Proof.
  unfold keyIs. destruct (B64.toIndex key) as [n'|]; [|discriminate].
  intros H. apply Z.eqb_eq in H. congruence.
Qed.

Lemma highCheck_all : allBelow 399 highCheck = true.
Proof. vm_compute. reflexivity. Qed.

Lemma keysCheck_all : allBelow 400 (fun ky => allBelow 400 (keysCheck ky)) = true.
Proof. vm_compute. reflexivity. Qed.

Section SampleGeneric.
Context {F : Type} {num : Number F}.
Local Open Scope js_scope.

Lemma getPixel_reads (this : FaceMorpher) (data data' : list Z) (px py : F) :
  (forall key, In key (pixelReads this px py) ->
               readByte data key = readByte data' key) ->
  getPixel this data px py = getPixel this data' px py.
Proof.
  intros H. unfold getPixel.
  rewrite (H (pixelIndex this px py)) by (simpl; auto).
  rewrite (H (pixelIndex this px py + ofZ 1)) by (simpl; auto).
  rewrite (H (pixelIndex this px py + ofZ 2)) by (simpl; auto).
  reflexivity.
Qed.

(** [sampleBilinear] looks at the buffer through [sampleReads] only. *)
Lemma sampleBilinear_reads (this : FaceMorpher) (data data' : list Z) (x y : F) :
  (forall key, In key (sampleReads this x y) ->
               readByte data key = readByte data' key) ->
  sampleBilinear this data x y = sampleBilinear this data' x y.
Proof.
  intros H. unfold sampleBilinear. cbv zeta.
  fold (lowNeighbour (outputWidth this) x).
  fold (lowNeighbour (outputHeight this) y).
  fold (highNeighbour (outputWidth this) x).
  fold (highNeighbour (outputHeight this) y).
  rewrite (getPixel_reads this data data'
             (lowNeighbour (outputWidth this) x) (lowNeighbour (outputHeight this) y)).
  2:{ intros key Hk. apply H. unfold sampleReads. cbv zeta.
      apply in_or_app. left. exact Hk. }
  rewrite (getPixel_reads this data data'
             (highNeighbour (outputWidth this) x) (lowNeighbour (outputHeight this) y)).
  2:{ intros key Hk. apply H. unfold sampleReads. cbv zeta.
      apply in_or_app. right. apply in_or_app. left. exact Hk. }
  rewrite (getPixel_reads this data data'
             (lowNeighbour (outputWidth this) x) (highNeighbour (outputHeight this) y)).
  2:{ intros key Hk. apply H. unfold sampleReads. cbv zeta.
      apply in_or_app. right. apply in_or_app. right.
      apply in_or_app. left. exact Hk. }
  rewrite (getPixel_reads this data data'
             (highNeighbour (outputWidth this) x) (highNeighbour (outputHeight this) y)).
  2:{ intros key Hk. apply H. unfold sampleReads. cbv zeta.
      apply in_or_app. right. apply in_or_app. right.
      apply in_or_app. right. exact Hk. }
  reflexivity.
Qed.
End SampleGeneric.

Lemma high_range (k : Z) :
  (0 <= k <= 398)%Z ->
  B64.min2 (B64.add (B64.ofZ k) (B64.ofZ 1)) (B64.sub (B64.ofZ 400) (B64.ofZ 1))
  = B64.ofZ (k + 1).
Proof.
  intros Hk. apply sameBits_eq.
  apply (allBelow_spec 399 highCheck highCheck_all). lia.
Qed.

Lemma neighbours_b64 (x : B64.float) :
  B64.valid x = true -> B64.is_nan x = false ->
  exists k, (0 <= k <= 398)%Z
            /\ lowNeighbour 400 x = B64.ofZ k
            /\ highNeighbour 400 x = B64.ofZ (k + 1).
Proof.
  intros Hv Hn. destruct (low_range x Hv Hn) as (k & Hk & Hlow).
  exists k. split; [exact Hk|]. split; [exact Hlow|].
  unfold highNeighbour.
  change (lowNeighbour 400 x) with (B64.floor (clampCoord 400 x)).
  rewrite Hlow. apply high_range, Hk.
Qed.

Lemma pixelReads_b64 (kx ky : Z) (key : B64.float) :
  (0 <= kx <= 399)%Z -> (0 <= ky <= 399)%Z ->
  In key (pixelReads newFaceMorpher (B64.ofZ kx) (B64.ofZ ky)) ->
  exists n, B64.toIndex key = Some n /\ (0 <= n < 640000)%Z.
Proof.
  intros Hx Hy Hin.
  pose proof (allBelow_spec 400 _ keysCheck_all ky ltac:(lia)) as Hrow.
  cbv beta in Hrow.
  pose proof (allBelow_spec 400 _ Hrow kx ltac:(lia)) as Hk.
  unfold keysCheck in Hk. cbv zeta in Hk.
  apply andb_prop in Hk. destruct Hk as (Hk & H2).
  apply andb_prop in Hk. destruct Hk as (H0 & H1).
  apply keyIs_eq in H0, H1, H2.
  unfold pixelReads in Hin. cbv zeta in Hin.
  destruct Hin as [<- | [<- | [<- | []]]].
  - eexists. split; [exact H0 | lia].
  - eexists. split; [exact H1 | lia].
  - eexists. split; [exact H2 | lia].
Qed.

Lemma sampleReads_b64 (x y key : B64.float) :
  B64.valid x = true -> B64.is_nan x = false ->
  B64.valid y = true -> B64.is_nan y = false ->
  In key (sampleReads newFaceMorpher x y) ->
  exists n, B64.toIndex key = Some n /\ (0 <= n < 640000)%Z.
Proof.
  intros Hvx Hnx Hvy Hny Hin.
  destruct (neighbours_b64 x Hvx Hnx) as (kx & Hkx & Hx0 & Hx1).
  destruct (neighbours_b64 y Hvy Hny) as (ky & Hky & Hy0 & Hy1).
  unfold sampleReads in Hin. cbv zeta in Hin.
  change (outputWidth newFaceMorpher) with 400%Z in Hin.
  change (outputHeight newFaceMorpher) with 400%Z in Hin.
  rewrite Hx0, Hx1, Hy0, Hy1 in Hin.
  repeat (apply in_app_or in Hin; destruct Hin as [Hin|Hin]);
    (eapply pixelReads_b64; [| | exact Hin]; lia).
Qed.

(** ** Magnitudes of binary64 results *)

Section Magnitude.
Local Open Scope Z_scope.

Lemma digits_lt_pow (m : Z) : 0 <= m -> m < 2 ^ Zdigits2 m.
Proof.
  intros Hm. destruct m as [|p|p]; try lia.
  - reflexivity.
  - unfold Zdigits2. rewrite digits2_size.
    rewrite <- Pos2Z.inj_pow. apply Pos2Z.pos_lt_pos. apply Pos.size_gt.
Qed.

Lemma digits_le_of_lt (m d : Z) : 0 <= m -> 0 <= d -> m < 2 ^ d -> Zdigits2 m <= d.
Proof.
  intros Hm Hd Hlt. destruct m as [|p|p]; try lia.
  - simpl. exact Hd.
  - unfold Zdigits2. rewrite digits2_size.
    pose proof (Pos.size_le p) as Hs.
    assert (Hs' : 2 ^ Zpos (Pos.size p) <= 2 * Zpos p).
    { rewrite <- Pos2Z.inj_pow. change (2 * Zpos p) with (Zpos (p~0)).
      apply Pos2Z.pos_le_pos. exact Hs. }
    destruct (Z_le_gt_dec (Zpos (Pos.size p)) d) as [Hle|Hgt]; [exact Hle|].
    exfalso.
    assert (2 ^ (d + 1) <= 2 ^ Zpos (Pos.size p)) by (apply Z.pow_le_mono_r; lia).
    rewrite Z.pow_add_r in H by lia. change (2 ^ 1) with 2 in H. lia.
Qed.

Lemma pow2_pos (n : Z) : 0 <= n -> 0 < 2 ^ n.
Proof. intros. apply Z.pow_pos_nonneg; lia. Qed.

Lemma pow2_nz (n : Z) : 0 <= n -> 2 ^ n <> 0.
Proof. intros H. pose proof (pow2_pos n H). lia. Qed.

Lemma div_div_pos (a b c : Z) : 0 < b -> 0 < c -> a / b / c = a / (b * c).
Proof. intros Hb Hc. apply Z.div_div; lia. Qed.

Lemma shr_1_m (r : shr_record) :
  0 <= shr_m r -> shr_m (shr_1 r) = Z.div2 (shr_m r).
Proof.
  destruct r as [m rb sb]. simpl. intros Hm.
  destruct m as [|p|p]; try lia; try reflexivity; destruct p; reflexivity.
Qed.

Lemma iter_shr_m (p : positive) (r : shr_record) :
  0 <= shr_m r -> shr_m (iter_pos shr_1 p r) = shr_m r / 2 ^ Zpos p.
Proof.
  revert r. induction p as [p IH|p IH|]; intros r Hm.
  - cbn [iter_pos].
    assert (H1 : 0 <= shr_m (shr_1 r)).
    { rewrite shr_1_m by exact Hm. rewrite Z.div2_div. apply Z.div_pos; lia. }
    assert (H2 : 0 <= shr_m (iter_pos shr_1 p (shr_1 r))).
    { rewrite IH by exact H1. apply Z.div_pos; [exact H1|]. apply Z.pow_pos_nonneg; lia. }
    rewrite IH by exact H2. rewrite IH by exact H1.
    rewrite shr_1_m by exact Hm. rewrite Z.div2_div.
    rewrite !div_div_pos by (try apply pow2_pos; lia).
    f_equal. replace (Zpos p~1) with (1 + Zpos p + Zpos p) by lia.
    rewrite !Z.pow_add_r by lia. change (2 ^ 1) with 2. ring.
  - cbn [iter_pos].
    assert (H2 : 0 <= shr_m (iter_pos shr_1 p r)).
    { rewrite IH by exact Hm. apply Z.div_pos; [exact Hm|]. apply Z.pow_pos_nonneg; lia. }
    rewrite IH by exact H2. rewrite IH by exact Hm.
    rewrite div_div_pos by (apply pow2_pos; lia).
    f_equal. replace (Zpos p~0) with (Zpos p + Zpos p) by lia.
    rewrite Z.pow_add_r by lia. reflexivity.
  - cbn [iter_pos]. rewrite shr_1_m by exact Hm. rewrite Z.div2_div. reflexivity.
Qed.

Lemma fits_digits (B m e : Z) : fits B m e -> Zdigits2 m + e <= B.
Proof.
  intros (Hm & He & Hlt).
  pose proof (digits_le_of_lt m (B - e) Hm ltac:(lia) Hlt). lia.
Qed.

Lemma shr_record_of_loc_m (m : Z) (l : location) : shr_m (shr_record_of_loc m l) = m.
Proof. destruct l as [|[]]; reflexivity. Qed.

Lemma shr_fexp_fits (B m e : Z) (l : location) :
  fits B m e -> -1074 <= B ->
  fits B (shr_m (fst (shr_fexp B64.prec B64.emax m e l)))
         (snd (shr_fexp B64.prec B64.emax m e l)).
Proof.
  intros Hf HB. pose proof (fits_digits _ _ _ Hf) as Hd.
  destruct Hf as (Hm & He & Hlt).
  unfold shr_fexp, shr.
  assert (Hfe : fexp B64.prec B64.emax (Zdigits2 m + e) <= B).
  { unfold fexp, emin, B64.prec, B64.emax. lia. }
  remember (fexp B64.prec B64.emax (Zdigits2 m + e) - e) as n eqn:Hn.
  destruct n as [|p|p]; cbn [fst snd]; rewrite ?shr_record_of_loc_m.
  - repeat split; assumption.
  - rewrite iter_shr_m by (rewrite shr_record_of_loc_m; exact Hm).
    rewrite shr_record_of_loc_m.
    split; [apply Z.div_pos; [exact Hm | apply pow2_pos; lia]|].
    split; [lia|].
    apply Z.div_lt_upper_bound; [apply pow2_pos; lia|].
    rewrite <- Z.pow_add_r by lia.
    replace (Zpos p + (B - (e + Zpos p))) with (B - e) by lia. exact Hlt.
  - repeat split; assumption.
Qed.

Lemma round_nearest_even_fits (B m e : Z) (l : location) :
  fits B m e -> fits (B + 1) (round_nearest_even m l) e.
Proof.
  intros (Hm & He & Hlt).
  assert (Hp : 2 ^ (B + 1 - e) = 2 * 2 ^ (B - e)).
  { replace (B + 1 - e) with (1 + (B - e)) by lia.
    rewrite Z.pow_add_r by lia. reflexivity. }
  assert (Hr : m <= round_nearest_even m l <= m + 1).
  { unfold round_nearest_even. destruct l as [|[]]; try lia.
    destruct (IntDef.Z.even m); lia. }
  split; [lia|]. split; [lia|]. rewrite Hp. lia.
Qed.

Lemma small_of_fits (B : Z) (s : bool) (m : positive) (e : Z) :
  fits B (Zpos m) e -> small B (S754_finite s m e) = true.
Proof.
  intros Hf. pose proof (fits_digits _ _ _ Hf) as Hd.
  unfold small. apply Z.leb_le. exact Hd.
Qed.

Lemma fits_of_small (B : Z) (s : bool) (m : positive) (e : Z) :
  small B (S754_finite s m e) = true -> fits B (Zpos m) e.
Proof.
  unfold small. intros H. apply Z.leb_le in H.
  pose proof (digits_lt_pow (Zpos m) ltac:(lia)) as Hlt.
  change (Zdigits2 (Zpos m)) with (Zpos (digits2_pos m)) in Hlt.
  split; [lia|]. split; [lia|].
  eapply Z.lt_le_trans; [exact Hlt|]. apply Z.pow_le_mono_r; lia.
Qed.

Lemma binary_round_aux_small (B : Z) (s : bool) (m e : Z) (l : location) :
  fits B m e -> -1074 <= B -> B + 1 <= 971 ->
  small (B + 1) (binary_round_aux B64.prec B64.emax s m e l) = true.
Proof.
  intros Hf HB HB'. unfold binary_round_aux.
  pose proof (shr_fexp_fits B m e l Hf HB) as H1.
  destruct (shr_fexp B64.prec B64.emax m e l) as [r1 e1]. cbn [fst snd] in H1.
  pose proof (round_nearest_even_fits B _ _ (loc_of_shr_record r1) H1) as H2.
  pose proof (shr_fexp_fits (B + 1) _ _ loc_Exact H2 ltac:(lia)) as H3.
  destruct (shr_fexp B64.prec B64.emax
              (round_nearest_even (shr_m r1) (loc_of_shr_record r1)) e1 loc_Exact)
    as [r3 e3]. cbn [fst snd] in H3.
  destruct (shr_m r3) as [|p|p] eqn:Hr.
  - reflexivity.
  - assert (He : (e3 <=? B64.emax - B64.prec) = true).
    { apply Z.leb_le. destruct H3 as (_ & He3 & _). unfold B64.emax, B64.prec. lia. }
    rewrite He. apply small_of_fits. exact H3.
  - destruct H3 as (Hn & _). lia.
Qed.

Lemma iter_xO_val (d m : positive) :
  Zpos (PosDef.Pos.iter xO m d) = Zpos m * 2 ^ Zpos d.
Proof.
  revert m. induction d as [d IH|d IH|]; intros m.
  - cbn [PosDef.Pos.iter]. rewrite Pos2Z.inj_xO, IH, IH.
    replace (Zpos d~1) with (1 + Zpos d + Zpos d) by lia.
    rewrite !Z.pow_add_r by lia. change (2 ^ 1) with 2. ring.
  - cbn [PosDef.Pos.iter]. rewrite IH, IH.
    replace (Zpos d~0) with (Zpos d + Zpos d) by lia.
    rewrite Z.pow_add_r by lia. ring.
  - cbn [PosDef.Pos.iter]. rewrite Pos2Z.inj_xO. change (2 ^ 1) with 2. ring.
Qed.

Lemma shl_align_val (m : positive) (e e' : Z) :
  e' <= e ->
  Zpos (fst (shl_align m e e')) = Zpos m * 2 ^ (e - e')
  /\ snd (shl_align m e e') = e'.
Proof.
  intros Hle. unfold shl_align.
  remember (e' - e) as n eqn:Hn. destruct n as [|p|p]; cbn [fst snd].
  - replace (e - e') with 0 by lia. split; [change (2 ^ 0) with 1|]; lia.
  - lia.
  - rewrite iter_xO_val. replace (e - e') with (Zpos p) by lia. split; [reflexivity|lia].
Qed.

Lemma shl_align_fits (B : Z) (m : positive) (e e' : Z) :
  fits B (Zpos m) e ->
  fits B (Zpos (fst (shl_align m e e'))) (snd (shl_align m e e')).
Proof.
  intros Hf. unfold shl_align.
  remember (e' - e) as n eqn:Hn. destruct n as [|p|p]; cbn [fst snd]; try exact Hf.
  destruct Hf as (Hm & He & Hlt).
  rewrite iter_xO_val. split; [lia|]. split; [lia|].
  replace (B - e') with ((B - e) + Zpos p) by lia.
  rewrite Z.pow_add_r by lia.
  apply Z.mul_lt_mono_pos_r; [apply pow2_pos; lia | exact Hlt].
Qed.

Lemma binary_round_small (B : Z) (s : bool) (m : positive) (e : Z) :
  fits B (Zpos m) e -> -1074 <= B -> B + 1 <= 971 ->
  small (B + 1) (binary_round B64.prec B64.emax s m e) = true.
Proof.
  intros Hf HB HB'. unfold binary_round.
  pose proof (shl_align_fits B m e
                (fexp B64.prec B64.emax (Zpos (digits2_pos m) + e)) Hf) as H1.
  destruct (shl_align m e (fexp B64.prec B64.emax (Zpos (digits2_pos m) + e)))
    as [mz ez]. cbn [fst snd] in H1.
  apply binary_round_aux_small; assumption.
Qed.

Lemma binary_normalize_small (B z e : Z) (sz : bool) :
  fits B (Z.abs z) e -> -1074 <= B -> B + 1 <= 971 ->
  small (B + 1) (binary_normalize B64.prec B64.emax z e sz) = true.
Proof.
  intros Hf HB HB'. unfold binary_normalize. destruct z as [|p|p].
  - reflexivity.
  - apply binary_round_small; assumption.
  - apply binary_round_small; assumption.
Qed.

Lemma small_mono (B B' : Z) (a : B64.float) :
  B <= B' -> small B a = true -> small B' a = true.
Proof.
  intros Hle. destruct a as [s| s| |s m e]; simpl; try (intros; assumption).
  intros H. apply Z.leb_le in H. apply Z.leb_le. lia.
Qed.

Lemma small_finite (B : Z) (a : B64.float) : small B a = true -> B64.is_finite a = true.
Proof. destruct a; simpl; intros H; try reflexivity; discriminate H. Qed.

Lemma mul_small (Bx By : Z) (x y : B64.float) :
  small Bx x = true -> small By y = true ->
  -1074 <= Bx + By -> Bx + By + 1 <= 971 ->
  small (Bx + By + 1) (B64.mul x y) = true.
Proof.
  intros Hx Hy HB HB'.
  destruct x as [sx| sx| |sx mx ex]; try discriminate Hx;
    destruct y as [sy| sy| |sy my ey]; try discriminate Hy; try reflexivity.
  unfold B64.mul, SFmul. apply binary_round_aux_small; try assumption.
  apply fits_of_small in Hx. apply fits_of_small in Hy.
  destruct Hx as (_ & Hex & Hmx). destruct Hy as (_ & Hey & Hmy).
  split; [lia|]. split; [lia|].
  replace (Bx + By - (ex + ey)) with ((Bx - ex) + (By - ey)) by lia.
  rewrite Z.pow_add_r by lia. rewrite Pos2Z.inj_mul.
  apply Z.mul_lt_mono_nonneg; lia.
Qed.

Lemma aligned_sum_fits (B : Z) (sx sy : bool) (mx my : positive) (ex ey : Z) (neg : bool) :
  fits B (Zpos mx) ex -> fits B (Zpos my) ey ->
  let ez := IntDef.Z.min ex ey in
  let a := cond_Zopp sx (Zpos (fst (shl_align mx ex ez))) in
  let b := cond_Zopp sy (Zpos (fst (shl_align my ey ez))) in
  fits (B + 1) (Z.abs (if neg then a - b else a + b)) ez.
Proof.
  intros Hx Hy ez a b.
  assert (Hez : ez = Z.min ex ey) by reflexivity.
  destruct (shl_align_val mx ex ez ltac:(lia)) as [Hax _].
  destruct (shl_align_val my ey ez ltac:(lia)) as [Hby _].
  pose proof (shl_align_fits B mx ex ez Hx) as Fx.
  pose proof (shl_align_fits B my ey ez Hy) as Fy.
  destruct (shl_align_val mx ex ez ltac:(lia)) as [_ Hsx].
  destruct (shl_align_val my ey ez ltac:(lia)) as [_ Hsy].
  rewrite Hsx in Fx. rewrite Hsy in Fy.
  destruct Fx as (_ & He1 & Hl1). destruct Fy as (_ & _ & Hl2).
  assert (Hp : 2 ^ (B + 1 - ez) = 2 * 2 ^ (B - ez)).
  { replace (B + 1 - ez) with (1 + (B - ez)) by lia.
    rewrite Z.pow_add_r by lia. reflexivity. }
  split; [apply Z.abs_nonneg|]. split; [lia|]. rewrite Hp.
  subst a b. destruct sx, sy, neg; unfold cond_Zopp; lia.
Qed.

Lemma add_small (B : Z) (x y : B64.float) :
  small B x = true -> small B y = true ->
  -1074 <= B -> B + 2 <= 971 ->
  small (B + 2) (B64.add x y) = true.
Proof.
  intros Hx Hy HB HB'.
  destruct x as [sx| sx| |sx mx ex]; try discriminate Hx;
    destruct y as [sy| sy| |sy my ey]; try discriminate Hy.
  - destruct sx, sy; reflexivity.
  - apply (small_mono B); [lia | exact Hy].
  - apply (small_mono B); [lia | exact Hx].
  - unfold B64.add, SFadd.
    replace (B + 2) with (B + 1 + 1) by lia.
    apply binary_normalize_small; try lia.
    apply (aligned_sum_fits B sx sy mx my ex ey false);
      apply (fits_of_small _ false); assumption.
Qed.

Lemma sub_small (B : Z) (x y : B64.float) :
  small B x = true -> small B y = true ->
  -1074 <= B -> B + 2 <= 971 ->
  small (B + 2) (B64.sub x y) = true.
Proof.
  intros Hx Hy HB HB'.
  destruct x as [sx| sx| |sx mx ex]; try discriminate Hx;
    destruct y as [sy| sy| |sy my ey]; try discriminate Hy.
  - destruct sx, sy; reflexivity.
  - apply (small_mono B); [lia | exact Hy].
  - apply (small_mono B); [lia | exact Hx].
  - unfold B64.sub, SFsub.
    replace (B + 2) with (B + 1 + 1) by lia.
    apply binary_normalize_small; try lia.
    apply (aligned_sum_fits B sx sy mx my ex ey true);
      apply (fits_of_small _ false); assumption.
Qed.

Lemma ofZ_small (B z : Z) :
  0 <= B -> B + 1 <= 971 -> Z.abs z < 2 ^ B -> small (B + 1) (B64.ofZ z) = true.
Proof.
  intros HB HB' Hz. unfold B64.ofZ. apply binary_normalize_small; try lia.
  split; [apply Z.abs_nonneg|]. split; [lia|].
  rewrite Z.sub_0_r. exact Hz.
Qed.

Lemma valid_digits (m : positive) (e : Z) :
  bounded B64.prec B64.emax m e = true -> Zpos (digits2_pos m) <= 53.
Proof.
  unfold bounded, canonical_mantissa, fexp, emin, B64.prec, B64.emax.
  intros H. apply andb_prop in H. destruct H as (Hc & _).
  apply Z.eqb_eq in Hc. lia.
Qed.

Lemma clamp_small (x : B64.float) :
  B64.valid x = true -> B64.is_nan x = false ->
  small 9 (clampCoord 400 x) = true.
Proof.
  intros Hv Hn. unfold clampCoord.
  change (ofZ 400 - ofDec 1001 3)%js with clampTop.
  change (@max2 B64.float _) with B64.max2.
  change (@min2 B64.float _) with B64.min2.
  change (@ofZ B64.float _ 0) with (S754_zero false).
  destruct x as [s|s| |s m e]; try discriminate.
  - destruct s; vm_compute; reflexivity.
  - destruct s; vm_compute; reflexivity.
  - destruct s.
    + reflexivity.
    + unfold B64.valid, valid_binary in Hv.
      pose proof (valid_digits m e Hv) as Hd.
      clear Hv Hn.
      unfold B64.min2, clampTop, SFcompare.
      destruct (Z.compare_spec (-44) e) as [He|He|He].
      * subst e.
        change (Pos.compare_cont Eq 7019264639535940 m)
          with (Pos.compare 7019264639535940 m).
        destruct (Pos.compare_spec 7019264639535940 m) as [Hc|Hc|Hc].
        -- subst m. vm_compute. reflexivity.
        -- vm_compute. reflexivity.
        -- rewrite max2_zero_pos. unfold small. apply Z.leb_le. clear Hc. lia.
      * vm_compute. reflexivity.
      * rewrite max2_zero_pos. unfold small. apply Z.leb_le. lia.
Qed.

Lemma readByte_small (data : list Z) (key : B64.float) (n : Z) :
  Forall byteOk data -> B64.toIndex key = Some n ->
  0 <= n < Z.of_nat (length data) ->
  small 9 (readByte data key) = true.
Proof.
  intros Hb Hk Hn. unfold readByte.
  change (@toIndex B64.float _ key) with (B64.toIndex key). rewrite Hk.
  assert (Hr : (0 <=? n) && (n <? Z.of_nat (length data)) = true).
  { apply andb_true_intro. split; [apply Z.leb_le | apply Z.ltb_lt]; lia. }
  rewrite Hr.
  destruct (nth_error data (Z.to_nat n)) as [b|] eqn:Hnth.
  - assert (Hbyte : byteOk b).
    { rewrite Forall_forall in Hb. apply Hb. eapply nth_error_In. exact Hnth. }
    unfold byteOk in Hbyte.
    change (@ofZ B64.float _ b) with (B64.ofZ b).
    apply (ofZ_small 8); lia.
  - apply nth_error_None in Hnth. lia.
Qed.

Lemma blend_small (p00 p10 p01 p11 fx fy : B64.float) :
  small 9 p00 = true -> small 9 p10 = true ->
  small 9 p01 = true -> small 9 p11 = true ->
  small 12 fx = true -> small 12 fy = true ->
  small 43 (B64.add
              (B64.mul (B64.add (B64.mul p00 (B64.sub (B64.ofZ 1) fx)) (B64.mul p10 fx))
                       (B64.sub (B64.ofZ 1) fy))
              (B64.mul (B64.add (B64.mul p01 (B64.sub (B64.ofZ 1) fx)) (B64.mul p11 fx))
                       fy)) = true.
Proof.
  intros H00 H10 H01 H11 Hfx Hfy.
  assert (H1 : small 12 (B64.ofZ 1) = true) by reflexivity.
  pose proof (sub_small 12 _ _ H1 Hfx ltac:(lia) ltac:(lia)) as Hgx.
  pose proof (sub_small 12 _ _ H1 Hfy ltac:(lia) ltac:(lia)) as Hgy.
  change (12 + 2) with 14 in Hgx, Hgy.
  assert (Hfx' : small 14 fx = true) by (apply (small_mono 12); [lia | exact Hfx]).
  assert (Hfy' : small 14 fy = true) by (apply (small_mono 12); [lia | exact Hfy]).
  assert (Hrow : forall p q, small 9 p = true -> small 9 q = true ->
            small 26 (B64.add (B64.mul p (B64.sub (B64.ofZ 1) fx)) (B64.mul q fx)) = true).
  { intros p q Hp Hq.
    apply (add_small 24); try lia.
    - apply (mul_small 9 14); try lia; assumption.
    - apply (mul_small 9 14); try lia; assumption. }
  apply (add_small 41); try lia.
  - apply (mul_small 26 14); try lia; [apply Hrow; assumption | exact Hgy].
  - apply (mul_small 26 14); try lia; [apply Hrow; assumption | exact Hfy'].
Qed.

Lemma fraction_small (x : B64.float) :
  B64.valid x = true -> B64.is_nan x = false ->
  small 12 (B64.sub (clampCoord 400 x) (B64.floor (clampCoord 400 x))) = true.
Proof.
  intros Hv Hn.
  destruct (low_range x Hv Hn) as (k & Hk & Hlow). rewrite Hlow.
  apply (sub_small 10); try lia.
  - apply (small_mono 9); [lia | apply clamp_small; assumption].
  - apply (ofZ_small 9); lia.
Qed.

Lemma sampleBilinear_finite (data : list Z) (x y : B64.float) :
  B64.valid x = true -> B64.is_nan x = false ->
  B64.valid y = true -> B64.is_nan y = false ->
  Forall byteOk data -> Z.of_nat (length data) = 640000 ->
  let c := sampleBilinear newFaceMorpher data x y in
  B64.is_finite (r_ c) = true /\ B64.is_finite (g_ c) = true
  /\ B64.is_finite (b'_ c) = true.
Proof.
  intros Hvx Hnx Hvy Hny Hb Hlen.
  assert (Hkey : forall key, In key (sampleReads newFaceMorpher x y) ->
                             small 9 (readByte data key) = true).
  { intros key Hin.
    destruct (sampleReads_b64 x y key Hvx Hnx Hvy Hny Hin) as (n & Hn & Hr).
    apply (readByte_small data key n Hb Hn).
    rewrite Hlen. exact Hr. }
  pose proof (fraction_small x Hvx Hnx) as Hfx.
  pose proof (fraction_small y Hvy Hny) as Hfy.
  unfold sampleReads in Hkey. cbv zeta in Hkey.
  unfold sampleBilinear, getPixel. cbv zeta. cbn [r_ g_ b'_].
  fold (lowNeighbour (outputWidth newFaceMorpher) x).
  fold (lowNeighbour (outputHeight newFaceMorpher) y).
  fold (highNeighbour (outputWidth newFaceMorpher) x).
  fold (highNeighbour (outputHeight newFaceMorpher) y).
  unfold pixelReads in Hkey. cbv zeta in Hkey.
  repeat split; apply (small_finite 43); apply blend_small;
    try exact Hfx; try exact Hfy; apply Hkey; cbn [In app]; tauto.
Qed.
End Magnitude.

Lemma clampCoord_exact (size : Z) (x : Q) :
  clampCoord size (Some x) = Some (clampQ size x).
Proof. reflexivity. Qed.

Lemma qmin_cases (p q : Q) : (qmin p q = p /\ p <= q) \/ (qmin p q = q /\ q <= p).
Proof.
  unfold qmin. destruct (Qle_bool p q) eqn:E.
  - left. split; [reflexivity|]. apply Qle_bool_iff, E.
  - right. split; [reflexivity|].
    assert (~ p <= q) by (intros H; apply Qle_bool_iff in H; congruence). lra.
Qed.

Lemma qmax_cases (p q : Q) : (qmax p q = q /\ p <= q) \/ (qmax p q = p /\ q <= p).
Proof.
  unfold qmax. destruct (Qle_bool p q) eqn:E.
  - left. split; [reflexivity|]. apply Qle_bool_iff, E.
  - right. split; [reflexivity|].
    assert (~ p <= q) by (intros H; apply Qle_bool_iff in H; congruence). lra.
Qed.

Lemma clampQ_range (size : Z) (x : Q) :
  (1 <= size)%Z -> 0 <= clampQ size x /\ clampQ size x <= inject_Z size - 1.
Proof.
  intros Hs. unfold clampQ.
  assert (Hq : 1 <= inject_Z size).
  { change 1 with (inject_Z 1). rewrite <- Zle_Qle. exact Hs. }
  destruct (qmin_cases (inject_Z size - (1001 # 1000)) x) as [(-> & H1)|(-> & H1)];
    match goal with
    | |- context [qmax 0 ?v] =>
        destruct (qmax_cases 0 v) as [(-> & H2)|(-> & H2)]
    end; lra.
Qed.

Lemma floor_range (size : Z) (x : Q) :
  (1 <= size)%Z ->
  (0 <= Qfloor (clampQ size x) <= size - 1)%Z
  /\ 0 <= clampQ size x - inject_Z (Qfloor (clampQ size x))
  /\ clampQ size x - inject_Z (Qfloor (clampQ size x)) <= 1.
Proof.
  intros Hs. destruct (clampQ_range size x Hs) as (H0 & H1).
  pose proof (Qfloor_le (clampQ size x)) as Hle.
  pose proof (Qlt_floor (clampQ size x)) as Hlt.
  rewrite inject_Z_plus in Hlt.
  split; [split|split].
  - change 0%Z with (Qfloor 0). apply Qfloor_resp_le. exact H0.
  - assert (Hf : (Qfloor (clampQ size x) <= Qfloor (inject_Z size - 1))%Z)
      by (apply Qfloor_resp_le; exact H1).
    assert (Hz : inject_Z size - 1 == inject_Z (size - 1)).
    { unfold Zminus. rewrite inject_Z_plus. simpl. ring. }
    rewrite Hz, Qfloor_Z in Hf. exact Hf.
  - lra.
  - change (inject_Z 1) with 1 in Hlt. lra.
Qed.

Lemma toIndex_exact (q : Q) (n : Z) :
  q == inject_Z n -> (0 <= n)%Z -> Exact.toIndex (Some q) = Some n.
Proof.
  intros Hq Hn. unfold Exact.toIndex.
  assert (Hf : Qfloor q = n) by (rewrite Hq; apply Qfloor_Z).
  rewrite Hf.
  replace (Qeq_bool q (inject_Z n)) with true
    by (symmetry; apply Qeq_bool_iff; exact Hq).
  replace (0 <=? n)%Z with true by (symmetry; apply Z.leb_le; exact Hn).
  reflexivity.
Qed.

Lemma readByte_exact (data : list Z) (q : Q) (n : Z) :
  Forall byteOk data ->
  q == inject_Z n -> (0 <= n < Z.of_nat (length data))%Z ->
  exists b, @readByte Exact.num _ data (Some q) = Some (inject_Z b) /\ byteOk b.
Proof.
  intros Hall Hq Hn. unfold readByte.
  change (@toIndex Exact.num _) with Exact.toIndex.
  rewrite (toIndex_exact q n Hq) by lia.
  replace ((0 <=? n)%Z && (n <? Z.of_nat (length data))%Z) with true.
  - destruct (nth_error data (Z.to_nat n)) as [b|] eqn:Hb.
    + exists b. split; [reflexivity|].
      rewrite Forall_forall in Hall. apply Hall.
      eapply nth_error_In. exact Hb.
    + apply nth_error_None in Hb. lia.
  - symmetry. apply andb_true_intro. split; [apply Z.leb_le | apply Z.ltb_lt]; lia.
Qed.

Lemma getPixel_exact (W H : Z) (data : list Z) (px py : Q) (kx ky : Z) :
  Forall byteOk data ->
  Z.of_nat (length data) = (W * H * 4)%Z ->
  px == inject_Z kx -> py == inject_Z ky ->
  (0 <= kx <= W - 1)%Z -> (0 <= ky <= H - 1)%Z ->
  exists r g b,
    @getPixel Exact.num _ {| outputWidth := W; outputHeight := H |} data
              (Some px) (Some py)
    = mkColor (Some (inject_Z r)) (Some (inject_Z g)) (Some (inject_Z b))
    /\ byteOk r /\ byteOk g /\ byteOk b.
Proof.
  intros Hall Hlen Hpx Hpy Hkx Hky.
  set (n := ((ky * W + kx) * 4)%Z).
  assert (Hn : (0 <= n /\ n + 2 < W * H * 4)%Z) by (unfold n; nia).
  assert (Hidx : (py * inject_Z W + px) * inject_Z 4 == inject_Z n).
  { unfold n. rewrite Hpx, Hpy.
    rewrite !inject_Z_mult, inject_Z_plus, inject_Z_mult. reflexivity. }
  destruct (readByte_exact data _ n Hall Hidx ltac:(lia)) as (r & Hr & Br).
  assert (Hidx1 : (py * inject_Z W + px) * inject_Z 4 + inject_Z 1 == inject_Z (n + 1)).
  { rewrite Hidx, inject_Z_plus. reflexivity. }
  destruct (readByte_exact data _ (n + 1) Hall Hidx1 ltac:(lia)) as (g & Hg & Bg).
  assert (Hidx2 : (py * inject_Z W + px) * inject_Z 4 + inject_Z 2 == inject_Z (n + 2)).
  { rewrite Hidx, inject_Z_plus. reflexivity. }
  destruct (readByte_exact data _ (n + 2) Hall Hidx2 ltac:(lia)) as (b & Hb & Bb).
  exists r, g, b. split; [|tauto].
  unfold getPixel, pixelIndex. cbn [outputWidth].
  cbv zeta.
  change (@add Exact.num _) with Exact.add.
  change (@mul Exact.num _) with Exact.mul.
  change (@ofZ Exact.num _) with Exact.ofZ.
  unfold Exact.add, Exact.mul, Exact.ofZ, Exact.lift2.
  rewrite Hr, Hg, Hb. reflexivity.
Qed.

Lemma lerp_range (p q t : Q) :
  0 <= p <= 255 -> 0 <= q <= 255 -> 0 <= t <= 1 ->
  0 <= p * (1 - t) + q * t <= 255.
Proof. intros Hp Hq Ht. split; nra. Qed.

Lemma bilerp_range (p00 p10 p01 p11 fx fy : Q) :
  0 <= p00 <= 255 -> 0 <= p10 <= 255 -> 0 <= p01 <= 255 -> 0 <= p11 <= 255 ->
  0 <= fx <= 1 -> 0 <= fy <= 1 ->
  0 <= (p00 * (1 - fx) + p10 * fx) * (1 - fy) + (p01 * (1 - fx) + p11 * fx) * fy
    <= 255.
Proof.
  intros H00 H10 H01 H11 Hx Hy.
  apply lerp_range; try assumption; apply lerp_range; assumption.
Qed.

Lemma byteOk_Q (b : Z) : byteOk b -> 0 <= inject_Z b <= 255.
Proof.
  unfold byteOk. intros (H0 & H1). split.
  - change 0 with (inject_Z 0). rewrite <- Zle_Qle. exact H0.
  - change 255 with (inject_Z 255). rewrite <- Zle_Qle. exact H1.
Qed.

Lemma high_exact (k size : Z) :
  (0 <= k <= size - 1)%Z ->
  exists k', qmin (inject_Z k + inject_Z 1) (inject_Z size - inject_Z 1)
             == inject_Z k'
             /\ (0 <= k' <= size - 1)%Z.
Proof.
  intros Hk.
  assert (Ha : inject_Z k + inject_Z 1 == inject_Z (k + 1))
    by (rewrite inject_Z_plus; reflexivity).
  assert (Hb : inject_Z size - inject_Z 1 == inject_Z (size - 1)).
  { unfold Zminus. rewrite inject_Z_plus. simpl. ring. }
  destruct (qmin_cases (inject_Z k + inject_Z 1) (inject_Z size - inject_Z 1))
    as [(-> & Hle)|(-> & Hle)].
  - exists (k + 1)%Z. split; [exact Ha|].
    rewrite Ha, Hb in Hle. rewrite <- Zle_Qle in Hle. lia.
  - exists (size - 1)%Z. split; [exact Hb | lia].
Qed.

Lemma sampleBilinear_exact (W H : Z) (data : list Z) (x y : Q) :
  (1 <= W)%Z -> (1 <= H)%Z ->
  Forall byteOk data ->
  Z.of_nat (length data) = (W * H * 4)%Z ->
  exists r g b : Q,
    @sampleBilinear Exact.num _ {| outputWidth := W; outputHeight := H |} data
                    (Some x) (Some y)
    = mkColor (Some r) (Some g) (Some b)
    /\ 0 <= r <= 255 /\ 0 <= g <= 255 /\ 0 <= b <= 255.
Proof.
  intros HW HH Hall Hlen.
  destruct (floor_range W x HW) as (Hkx & Hfx0 & Hfx1).
  destruct (floor_range H y HH) as (Hky & Hfy0 & Hfy1).
  set (xc := clampQ W x) in *. set (yc := clampQ H y) in *.
  set (kx := Qfloor xc) in *. set (ky := Qfloor yc) in *.
  destruct (high_exact kx W Hkx) as (kx' & Hx' & Hkx').
  destruct (high_exact ky H Hky) as (ky' & Hy' & Hky').
  set (hx := qmin (inject_Z kx + inject_Z 1) (inject_Z W - inject_Z 1)) in *.
  set (hy := qmin (inject_Z ky + inject_Z 1) (inject_Z H - inject_Z 1)) in *.
  destruct (getPixel_exact W H data (inject_Z kx) (inject_Z ky) kx ky
              Hall Hlen ltac:(reflexivity) ltac:(reflexivity) Hkx Hky)
    as (r00 & g00 & b00 & E00 & Br00 & Bg00 & Bb00).
  destruct (getPixel_exact W H data hx (inject_Z ky) kx' ky
              Hall Hlen Hx' ltac:(reflexivity) Hkx' Hky)
    as (r10 & g10 & b10 & E10 & Br10 & Bg10 & Bb10).
  destruct (getPixel_exact W H data (inject_Z kx) hy kx ky'
              Hall Hlen ltac:(reflexivity) Hy' Hkx Hky')
    as (r01 & g01 & b01 & E01 & Br01 & Bg01 & Bb01).
  destruct (getPixel_exact W H data hx hy kx' ky'
              Hall Hlen Hx' Hy' Hkx' Hky')
    as (r11 & g11 & b11 & E11 & Br11 & Bg11 & Bb11).
  unfold sampleBilinear. cbn [outputWidth outputHeight]. cbv zeta.
  rewrite !clampCoord_exact. fold xc yc.
  change (@floor Exact.num _ (Some xc)) with (Some (inject_Z kx)).
  change (@floor Exact.num _ (Some yc)) with (Some (inject_Z ky)).
  change (@min2 Exact.num _ (Some (inject_Z kx) + ofZ 1)%js (ofZ W - ofZ 1)%js)
    with (Some hx).
  change (@min2 Exact.num _ (Some (inject_Z ky) + ofZ 1)%js (ofZ H - ofZ 1)%js)
    with (Some hy).
  rewrite E00, E10, E01, E11. cbn [r_ g_ b'_].
  eexists. eexists. eexists. split; [reflexivity|].
  change (inject_Z 1) with 1.
  pose proof (byteOk_Q _ Br00). pose proof (byteOk_Q _ Bg00).
  pose proof (byteOk_Q _ Bb00). pose proof (byteOk_Q _ Br10).
  pose proof (byteOk_Q _ Bg10). pose proof (byteOk_Q _ Bb10).
  pose proof (byteOk_Q _ Br01). pose proof (byteOk_Q _ Bg01).
  pose proof (byteOk_Q _ Bb01). pose proof (byteOk_Q _ Br11).
  pose proof (byteOk_Q _ Bg11). pose proof (byteOk_Q _ Bb11).
  split; [|split]; apply bilerp_range; try assumption; split; assumption.
Qed.

(** C1.  On seven points, six of them near one circle and the point [5]
    inside it, [computeDelaunay] in binary64 returns the triangle
    [(0, 4, 6)], and the input point [5] lies inside its circumcircle: by
    [inCircumcircle] as the program evaluates it, and by the same test
    evaluated without rounding on the rationals these binary64 coordinates
    denote.  Evaluated without rounding on these rationals,
    [computeDelaunay] returns six triangles, [(0, 4, 6)] not among them. *)
Theorem computeDelaunay_circle_not_delaunay :
  computeDelaunay circlePoints
  = Ok [(1, 3, 5); (0, 2, 5); (2, 1, 5); (3, 4, 5); (0, 4, 6)]%nat
  /\ inCircumcircle (dpt 55 67 1) (dpt 38 79 1) (dpt 79 78 1) (dpt 78 79 1) = true
  /\ inCircumcircle (exactPoint (dpt 55 67 1)) (exactPoint (dpt 38 79 1))
                    (exactPoint (dpt 79 78 1)) (exactPoint (dpt 78 79 1)) = true
  /\ computeDelaunay (map exactPoint circlePoints)
     = Ok [(0, 2, 5); (2, 1, 5); (1, 3, 5); (3, 4, 5); (0, 5, 6); (5, 4, 6)]%nat.
Proof. vm_compute. repeat split. Qed.

(** C10.  A triangle inside the canvas whose three vertices lie exactly on
    the line [y = x]: in binary64 its barycentric denominator comes out as
    [2^-26], not zero, and [pointInTriangle] answers [true] for the point
    [(113, 266)], which is far from that line. *)
Theorem pointInTriangle_collinear_inside :
  let t0 := dpt 3278 3278 1 in
  let t1 := dpt 3134 3134 1 in
  let t2 := dpt 241 241 1 in
  let p := dpt 113 266 0 in
  (exists a b c : Q * Q,
      toQPoint t0 = Some a /\ toQPoint t1 = Some b /\ toQPoint t2 = Some c
      /\ orientQ a b c == 0)
  /\ baryDenom (t0, t1, t2) = S754_finite false 4503599627370496 (-78)
  /\ pointInTriangle p (t0, t1, t2) = true.
Proof.
  cbv zeta. split; [|split].
  - eexists. eexists. eexists.
    split; [vm_compute; reflexivity|].
    split; [vm_compute; reflexivity|].
    split; [vm_compute; reflexivity|].
    vm_compute. reflexivity.
  - vm_compute. reflexivity.
  - vm_compute. reflexivity.
Qed.

(** C5, counterexample.  In binary64, on the image whose every byte is 255,
    the sample at [(0, 0.08)] has red channel [255.00000000000003]. *)
Lemma sampleBilinear_exceeds_255 :
  let c := sampleBilinear newFaceMorpher whiteImage (B64.ofZ 0) (B64.ofDec 8 2) in
  r_ c = S754_finite false 8972014882652161 (-45)
  /\ B64.gtb (r_ c) (B64.ofZ 255) = true.
Proof. vm_compute. split; reflexivity. Qed.

(** ** Binary64 rounding

    [SpecFloat] rounds a mantissa, an exponent and a location.  The lemmas
    below read these as rationals: each operation gives the exact result
    rounded to nearest, and a result whose exact value is far from
    overflow is finite. *)

Section RoundingZ.
Local Open Scope Z_scope.

Lemma fexp_eq (x : Z) : fexp B64.prec B64.emax x = Z.max (x - 53) (-1074).
Proof. reflexivity. Qed.

Lemma digits_nonneg (m : Z) : 0 <= Zdigits2 m.
Proof. destruct m; simpl; lia. Qed.

Lemma digits_ge_pow (m : Z) : 0 < m -> 2 ^ (Zdigits2 m - 1) <= m.
Proof.
  destruct m as [|p|p]; try lia. intros _.
  unfold Zdigits2. rewrite digits2_size.
  pose proof (Pos.size_le p) as Hs.
  assert (Hs' : 2 ^ Zpos (Pos.size p) <= 2 * Zpos p).
  { rewrite <- Pos2Z.inj_pow. change (2 * Zpos p) with (Zpos (p~0)).
    apply Pos2Z.pos_le_pos. exact Hs. }
  replace (Zpos (Pos.size p)) with (1 + (Zpos (Pos.size p) - 1)) in Hs' by lia.
  rewrite Z.pow_add_r in Hs' by lia. change (2 ^ 1) with 2 in Hs'. lia.
Qed.

Lemma digits_unique (m k : Z) : 2 ^ (k - 1) <= m < 2 ^ k -> 0 < m -> Zdigits2 m = k.
Proof.
  intros (Hlo & Hhi) Hm.
  pose proof (digits_lt_pow m ltac:(lia)) as H1.
  pose proof (digits_ge_pow m Hm) as H2.
  pose proof (digits_nonneg m) as H0.
  assert (Hk : 0 < k).
  { destruct (Z_lt_le_dec 0 k) as [|Hle]; [assumption|].
    exfalso. destruct (Z.eq_dec k 0) as [->|]; [change (2 ^ 0) with 1 in Hhi; lia|].
    rewrite (Z.pow_neg_r 2 k) in Hhi by lia. lia. }
  destruct (Z.lt_trichotomy (Zdigits2 m) k) as [Hlt|[Heq|Hgt]]; [|exact Heq|].
  - exfalso.
    assert (2 ^ Zdigits2 m <= 2 ^ (k - 1)) by (apply Z.pow_le_mono_r; lia). lia.
  - exfalso.
    assert (2 ^ k <= 2 ^ (Zdigits2 m - 1)) by (apply Z.pow_le_mono_r; lia). lia.
Qed.

Lemma digits_mono (a b : Z) : 0 <= a <= b -> Zdigits2 a <= Zdigits2 b.
Proof.
  intros (Ha & Hab).
  apply digits_le_of_lt; [exact Ha | apply digits_nonneg|].
  pose proof (digits_lt_pow b ltac:(lia)). lia.
Qed.

Lemma digits_shift (m n : Z) :
  0 <= n -> 0 < m / 2 ^ n -> Zdigits2 (m / 2 ^ n) = Zdigits2 m - n.
Proof.
  intros Hn Hq.
  assert (Hp : 0 < 2 ^ n) by (apply pow2_pos; exact Hn).
  assert (Hm : 0 < m).
  { destruct (Z_lt_le_dec 0 m) as [|Hle]; [assumption|]. exfalso.
    assert (m / 2 ^ n <= 0) by (apply Z.div_le_upper_bound; lia). lia. }
  pose proof (digits_lt_pow m ltac:(lia)) as H1.
  pose proof (digits_ge_pow m Hm) as H2.
  pose proof (digits_nonneg m) as H0.
  assert (Hdn : n < Zdigits2 m).
  { destruct (Z_lt_le_dec n (Zdigits2 m)) as [|Hle]; [assumption|]. exfalso.
    assert (2 ^ Zdigits2 m <= 2 ^ n) by (apply Z.pow_le_mono_r; lia).
    assert (m / 2 ^ n = 0) by (apply Z.div_small; lia). lia. }
  apply digits_unique; [|exact Hq]. split.
  - apply Z.div_le_lower_bound; [exact Hp|].
    rewrite <- Z.pow_add_r by lia.
    replace (n + (Zdigits2 m - n - 1)) with (Zdigits2 m - 1) by lia. exact H2.
  - apply Z.div_lt_upper_bound; [exact Hp|].
    rewrite <- Z.pow_add_r by lia.
    replace (n + (Zdigits2 m - n)) with (Zdigits2 m) by lia. exact H1.
Qed.

(** The location after shifting out bits that are all zero is exact. *)
Lemma shr_1_clean (r : shr_record) :
  0 <= shr_m r -> shr_r r = false -> shr_s r = false ->
  (shr_m r) mod 2 = 0 ->
  shr_r (shr_1 r) = false /\ shr_s (shr_1 r) = false.
Proof.
  destruct r as [m rb sb]. cbn [shr_m shr_r shr_s]. intros Hm -> -> Hev.
  destruct m as [|p|p]; try lia.
  - split; reflexivity.
  - destruct p as [p|p|].
    + exfalso. rewrite Pos2Z.inj_xI in Hev.
      rewrite Z.add_comm, Z.mul_comm, Z.mod_add in Hev by lia. discriminate Hev.
    + split; reflexivity.
    + discriminate Hev.
Qed.

Lemma iter_shr_clean (p : positive) (r : shr_record) :
  0 <= shr_m r -> shr_r r = false -> shr_s r = false ->
  (shr_m r) mod 2 ^ Zpos p = 0 ->
  shr_r (iter_pos shr_1 p r) = false /\ shr_s (iter_pos shr_1 p r) = false.
Proof.
  revert r. induction p as [p IH|p IH|]; intros r Hm Hr Hs Hdiv.
  - cbn [iter_pos].
    assert (Hpp : 0 < 2 ^ Zpos p) by (apply pow2_pos; lia).
    replace (Zpos p~1) with (1 + Zpos p + Zpos p) in Hdiv by lia.
    rewrite !Z.pow_add_r in Hdiv by lia. change (2 ^ 1) with 2 in Hdiv.
    apply Z.mod_divide in Hdiv; [|lia]. destruct Hdiv as (c & Hc).
    assert (H2 : shr_m r mod 2 = 0).
    { rewrite Hc. replace (c * (2 * 2 ^ Zpos p * 2 ^ Zpos p))
        with ((c * 2 ^ Zpos p * 2 ^ Zpos p) * 2) by ring.
      apply Z.mod_mul. lia. }
    destruct (shr_1_clean r Hm Hr Hs H2) as (Hr1 & Hs1).
    assert (Hm1 : shr_m (shr_1 r) = c * 2 ^ Zpos p * 2 ^ Zpos p).
    { rewrite shr_1_m by exact Hm. rewrite Z.div2_div, Hc.
      replace (c * (2 * 2 ^ Zpos p * 2 ^ Zpos p))
        with ((c * 2 ^ Zpos p * 2 ^ Zpos p) * 2) by ring.
      apply Z.div_mul. lia. }
    assert (Hc0 : 0 <= c) by nia.
    assert (Hm1' : 0 <= shr_m (shr_1 r)) by (rewrite Hm1; nia).
    assert (Hd1 : shr_m (shr_1 r) mod 2 ^ Zpos p = 0).
    { rewrite Hm1. apply Z.mod_mul. lia. }
    destruct (IH (shr_1 r) Hm1' Hr1 Hs1 Hd1) as (Hr2 & Hs2).
    assert (Hm2 : shr_m (iter_pos shr_1 p (shr_1 r)) = c * 2 ^ Zpos p).
    { rewrite iter_shr_m by exact Hm1'. rewrite Hm1. apply Z.div_mul. lia. }
    apply IH; try assumption.
    + rewrite Hm2. nia.
    + rewrite Hm2. apply Z.mod_mul. lia.
  - cbn [iter_pos].
    assert (Hpp : 0 < 2 ^ Zpos p) by (apply pow2_pos; lia).
    replace (Zpos p~0) with (Zpos p + Zpos p) in Hdiv by lia.
    rewrite !Z.pow_add_r in Hdiv by lia.
    apply Z.mod_divide in Hdiv; [|lia]. destruct Hdiv as (c & Hc).
    assert (Hc0 : 0 <= c) by nia.
    assert (Hd1 : shr_m r mod 2 ^ Zpos p = 0).
    { rewrite Hc. replace (c * (2 ^ Zpos p * 2 ^ Zpos p))
        with ((c * 2 ^ Zpos p) * 2 ^ Zpos p) by ring. apply Z.mod_mul. lia. }
    destruct (IH r Hm Hr Hs Hd1) as (Hr2 & Hs2).
    assert (Hm2 : shr_m (iter_pos shr_1 p r) = c * 2 ^ Zpos p).
    { rewrite iter_shr_m by exact Hm. rewrite Hc.
      replace (c * (2 ^ Zpos p * 2 ^ Zpos p))
        with ((c * 2 ^ Zpos p) * 2 ^ Zpos p) by ring. apply Z.div_mul. lia. }
    apply IH; try assumption.
    + rewrite Hm2. nia.
    + rewrite Hm2. apply Z.mod_mul. lia.
  - cbn [iter_pos]. apply shr_1_clean; try assumption.
Qed.


Lemma loc_of_record_of_loc (m : Z) (l : location) :
  loc_of_shr_record (shr_record_of_loc m l) = l.
Proof. destruct l as [|[]]; reflexivity. Qed.

Lemma shr_fexp_spec (m e : Z) (l : location) :
  0 <= m ->
  let n := fexp B64.prec B64.emax (Zdigits2 m + e) - e in
  let res := shr_fexp B64.prec B64.emax m e l in
  (n <= 0 -> shr_m (fst res) = m /\ snd res = e
             /\ loc_of_shr_record (fst res) = l)
  /\ (0 < n -> shr_m (fst res) = m / 2 ^ n /\ snd res = e + n
               /\ (l = loc_Exact -> m mod 2 ^ n = 0 ->
                   loc_of_shr_record (fst res) = loc_Exact)).
Proof.
  intros Hm n res. unfold res, shr_fexp, shr. fold n.
  destruct n as [|p|p]; cbn [fst snd].
  - split; [|lia]. intros _. rewrite shr_record_of_loc_m, loc_of_record_of_loc. auto.
  - split; [lia|]. intros _.
    rewrite iter_shr_m by (rewrite shr_record_of_loc_m; exact Hm).
    rewrite shr_record_of_loc_m. split; [reflexivity|]. split; [reflexivity|].
    intros -> Hdiv.
    destruct (iter_shr_clean p (shr_record_of_loc m loc_Exact)) as (Hr & Hs);
      try reflexivity; try assumption.
    destruct (iter_pos shr_1 p (shr_record_of_loc m loc_Exact)) as [m' r' s'].
    cbn [shr_r shr_s] in Hr, Hs. subst r' s'. reflexivity.
  - split; [|lia]. intros _. rewrite shr_record_of_loc_m, loc_of_record_of_loc. auto.
Qed.

Lemma round_nearest_even_range (m : Z) (l : location) :
  m <= round_nearest_even m l <= m + 1
  /\ (l = loc_Exact -> round_nearest_even m l = m).
Proof.
  unfold round_nearest_even. split.
  - destruct l as [|[]]; try lia. destruct (IntDef.Z.even m); lia.
  - intros ->. reflexivity.
Qed.

(** After the first shift and the rounding, at most one more shift is
    due, and then the mantissa is even. *)
Lemma renormalize_once (k M g : Z) :
  0 <= k -> k <= M <= k + 1 -> -1074 <= g ->
  fexp B64.prec B64.emax (Zdigits2 k + g) <= g ->
  fexp B64.prec B64.emax (Zdigits2 M + g) <= g + 1
  /\ (fexp B64.prec B64.emax (Zdigits2 M + g) = g + 1 -> M mod 2 = 0 /\ 2 <= M).
Proof.
  intros Hk HM Hg Hc. rewrite !fexp_eq in *.
  pose proof (digits_lt_pow k Hk) as Hlt.
  pose proof (digits_nonneg k) as Hd0.
  assert (HdM : Zdigits2 M <= Zdigits2 k + 1).
  { apply digits_le_of_lt; [lia | lia|].
    rewrite Z.pow_add_r by lia. change (2 ^ 1) with 2. lia. }
  split; [lia|].
  intros Hn.
  assert (Hgt : Zdigits2 k < Zdigits2 M) by lia.
  assert (Hdk : 1 <= Zdigits2 k).
  { destruct (Z_lt_le_dec 0 (Zdigits2 k)) as [|Hle]; [lia|]. exfalso.
    assert (Zdigits2 k = 0) by lia.
    assert (Zdigits2 M <= 1) by lia. lia. }
  assert (HMpos : 0 < M).
  { destruct (Z_lt_le_dec 0 M) as [|Hle]; [assumption|]. exfalso.
    assert (M = 0) by lia. subst M. simpl in Hgt. lia. }
  pose proof (digits_ge_pow M HMpos) as Hge.
  assert (Hp : 2 ^ Zdigits2 k <= 2 ^ (Zdigits2 M - 1))
    by (apply Z.pow_le_mono_r; lia).
  assert (HMeq : M = 2 ^ Zdigits2 k) by lia.
  replace (Zdigits2 k) with (1 + (Zdigits2 k - 1)) in HMeq by lia.
  rewrite Z.pow_add_r in HMeq by lia. change (2 ^ 1) with 2 in HMeq.
  assert (Hq : 0 < 2 ^ (Zdigits2 k - 1)) by (apply pow2_pos; lia).
  split; [|lia]. rewrite HMeq, Z.mul_comm. apply Z.mod_mul. lia.
Qed.

Lemma second_shift (M g : Z) :
  0 <= M -> -1074 <= g ->
  fexp B64.prec B64.emax (Zdigits2 M + g) <= g + 1 ->
  (fexp B64.prec B64.emax (Zdigits2 M + g) = g + 1 -> M mod 2 = 0 /\ 2 <= M) ->
  let res := shr_fexp B64.prec B64.emax M g loc_Exact in
  g <= snd res
  /\ shr_m (fst res) * 2 ^ (snd res - g) = M
  /\ (g <= fexp B64.prec B64.emax (Zdigits2 M + g) -> 0 < M ->
      fexp B64.prec B64.emax (Zdigits2 (shr_m (fst res)) + snd res) = snd res).
Proof.
  intros HM Hg H1 H2 res.
  destruct (shr_fexp_spec M g loc_Exact HM) as (Hle & Hgt). fold res in Hle, Hgt.
  destruct (Z_le_gt_dec (fexp B64.prec B64.emax (Zdigits2 M + g) - g) 0) as [Hn|Hn].
  - destruct (Hle Hn) as (Em & Ee & _). rewrite Em, Ee.
    split; [lia|]. split.
    + replace (g - g) with 0 by lia. change (2 ^ 0) with 1. lia.
    + intros Hge _. lia.
  - assert (Hn1 : fexp B64.prec B64.emax (Zdigits2 M + g) - g = 1) by lia.
    destruct (Hgt ltac:(lia)) as (Em & Ee & _). rewrite Em, Ee, Hn1.
    destruct (H2 ltac:(lia)) as (Hev & HM2).
    change (2 ^ 1) with 2.
    assert (HMd : M = 2 * (M / 2)).
    { pose proof (Z.div_mod M 2 ltac:(lia)). lia. }
    split; [lia|]. split.
    + replace (g + 1 - g) with 1 by lia. change (2 ^ 1) with 2. lia.
    + intros _ _.
      assert (Hq : 0 < M / 2 ^ 1) by (change (2 ^ 1) with 2; lia).
      pose proof (digits_shift M 1 ltac:(lia) Hq) as Hds.
      change (2 ^ 1) with 2 in Hds. rewrite Hds.
      replace (Zdigits2 M - 1 + (g + 1)) with (Zdigits2 M + g) by lia. lia.
Qed.

(** What [binary_round_aux] returns: with [g] the exponent of the grid of
    the result and [k] the mantissa truncated to it, the result is [k] or
    [k + 1] on that grid, [k] itself when nothing is lost. *)
Lemma binary_round_aux_structure (s : bool) (m e : Z) (l : location) :
  0 <= m ->
  let g := Z.max e (fexp B64.prec B64.emax (Zdigits2 m + e)) in
  let k := m / 2 ^ (g - e) in
  exists M,
    k <= M <= k + 1
    /\ -1074 <= g
    /\ (l = loc_Exact -> m mod 2 ^ (g - e) = 0 -> M = k)
    /\ (shr_m (fst (shr_fexp B64.prec B64.emax m e l)) = k
        /\ snd (shr_fexp B64.prec B64.emax m e l) = g
        /\ M = round_nearest_even
                 k (loc_of_shr_record (fst (shr_fexp B64.prec B64.emax m e l))))
    /\ ((M = 0 /\ binary_round_aux B64.prec B64.emax s m e l = S754_zero s)
        \/ (binary_round_aux B64.prec B64.emax s m e l = S754_infinity s
            /\ exists m' e', g <= e' /\ Zpos m' * 2 ^ (e' - g) = M /\ 971 < e')
        \/ exists m' e',
            binary_round_aux B64.prec B64.emax s m e l = S754_finite s m' e'
            /\ g <= e' /\ Zpos m' * 2 ^ (e' - g) = M /\ e' <= 971
            /\ (e <= fexp B64.prec B64.emax (Zdigits2 m + e) ->
                canonical_mantissa B64.prec B64.emax m' e' = true)).
Proof.
  intros Hm g k.
  pose proof (digits_nonneg m) as Hd0.
  pose proof (digits_lt_pow m Hm) as Hdlt.
  destruct (shr_fexp_spec m e l Hm) as (Hle & Hgt).
  unfold binary_round_aux.
  destruct (shr_fexp B64.prec B64.emax m e l) as [r1 e1]. cbn [fst snd] in Hle, Hgt.
  set (n := fexp B64.prec B64.emax (Zdigits2 m + e) - e) in *.
  assert (Hg : -1074 <= g) by (unfold g; rewrite fexp_eq; lia).
  assert (Hk0 : 0 <= k).
  { unfold k. apply Z.div_pos; [exact Hm|]. apply pow2_pos. unfold g. lia. }
  assert (Hfirst : shr_m r1 = k /\ e1 = g
                   /\ (l = loc_Exact -> m mod 2 ^ (g - e) = 0 ->
                       loc_of_shr_record r1 = loc_Exact)
                   /\ fexp B64.prec B64.emax (Zdigits2 k + g) <= g
                   /\ (e <= fexp B64.prec B64.emax (Zdigits2 m + e) -> 0 < k ->
                       fexp B64.prec B64.emax (Zdigits2 k + g) = g)
                   /\ (e <= fexp B64.prec B64.emax (Zdigits2 m + e) -> k = 0 ->
                       g = -1074)).
  { destruct (Z_le_gt_dec n 0) as [Hn|Hn].
    - destruct (Hle Hn) as (Em & Ee & El).
      assert (Eg : g = e) by (unfold g, n in *; lia).
      assert (Ek : k = m).
      { unfold k. rewrite Eg. replace (e - e) with 0 by lia.
        change (2 ^ 0) with 1. apply Z.div_1_r. }
      rewrite Em, Ee, Ek, Eg. split; [reflexivity|]. split; [reflexivity|].
      split; [intros -> _; exact El|].
      split; [unfold n in Hn; lia|].
      split; [unfold n in Hn; lia|].
      intros Hc Hz. unfold n in Hn. rewrite Hz in Hc, Hn.
      change (Zdigits2 0) with 0 in Hc, Hn. rewrite fexp_eq in Hc, Hn. lia.
    - destruct (Hgt ltac:(lia)) as (Em & Ee & El).
      assert (Eg : g = e + n) by (unfold g, n in *; lia).
      assert (Egn : g - e = n) by lia.
      unfold k. rewrite Egn. rewrite Em, Ee, Eg.
      split; [reflexivity|]. split; [reflexivity|]. split; [exact El|].
      assert (Hfe : fexp B64.prec B64.emax (Zdigits2 m + e) = e + n)
        by (unfold n; lia).
      destruct (Z.eq_dec (m / 2 ^ n) 0) as [Hz|Hnz].
      + rewrite Hz. simpl Zdigits2.
        assert (Hdn : Zdigits2 m <= n).
        { apply digits_le_of_lt; [exact Hm | lia|].
          assert (Hp : 0 < 2 ^ n) by (apply pow2_pos; lia).
          pose proof (Z.div_mod m (2 ^ n) ltac:(lia)) as Hdm.
          pose proof (Z.mod_pos_bound m (2 ^ n) Hp). lia. }
        rewrite fexp_eq in *. split; [lia|]. split; [lia|]. intros _ _. lia.
      + assert (Hq : 0 < m / 2 ^ n).
        { assert (0 <= m / 2 ^ n) by (apply Z.div_pos; [lia | apply pow2_pos; lia]).
          lia. }
        rewrite (digits_shift m n ltac:(lia) Hq).
        replace (Zdigits2 m - n + (e + n)) with (Zdigits2 m + e) by lia.
        split; [lia|]. split; [intros _ _; lia | intros _ Hz; lia]. }
  destruct Hfirst as (Em & Ee & El & Hc & Hcan & Hkz).
  destruct (round_nearest_even_range (shr_m r1) (loc_of_shr_record r1)) as (HM & HMex).
  set (M := round_nearest_even (shr_m r1) (loc_of_shr_record r1)) in *.
  rewrite Em in HM. rewrite Ee.
  destruct (renormalize_once k M g Hk0 HM Hg Hc) as (H1 & H2).
  destruct (second_shift M g ltac:(lia) Hg H1 H2) as (Hge & Hval & Hcanon).
  destruct (shr_fexp B64.prec B64.emax M g loc_Exact) as [r2 e2].
  cbn [fst snd] in Hge, Hval, Hcanon.
  exists M. split; [exact HM|]. split; [exact Hg|].
  split.
  { intros Hl Hdiv. rewrite <- Em. apply HMex. apply El; assumption. }
  split.
  { cbn [fst snd]. split; [exact Em|]. split; [reflexivity|].
    unfold M. rewrite Em. reflexivity. }
  assert (Hp2 : 0 < 2 ^ (e2 - g)) by (apply pow2_pos; lia).
  destruct (shr_m r2) as [|p|p] eqn:Er2.
  - left. split; [lia | reflexivity].
  - destruct (Z.leb_spec e2 (B64.emax - B64.prec)) as [Hov|Hov].
    + right. right. exists p, e2.
      split; [reflexivity|]. split; [exact Hge|]. split; [exact Hval|].
      split; [unfold B64.emax, B64.prec in Hov; lia|].
      intros Hn. unfold canonical_mantissa. apply Z.eqb_eq.
      change (Zpos (digits2_pos p)) with (Zdigits2 (Zpos p)).
      apply Hcanon; [|lia].
      destruct (Z.eq_dec k 0) as [Hz|Hnz].
      * assert (g = -1074) by (apply Hkz; assumption).
        rewrite fexp_eq. lia.
      * assert (Hkp : 0 < k) by lia.
        pose proof (Hcan Hn Hkp) as Hcg.
        pose proof (digits_mono k M ltac:(lia)) as Hdm.
        rewrite fexp_eq in *. lia.
    + right. left. split; [reflexivity|]. exists p, e2.
      split; [exact Hge|]. split; [exact Hval|].
      unfold B64.emax, B64.prec in Hov. lia.
  - exfalso. assert (Zneg p * 2 ^ (e2 - g) < 0) by lia. lia.
Qed.

End RoundingZ.

Lemma q2_pos (e : Z) : 0 < 2 ^ e.
Proof. apply Qpower_0_lt. reflexivity. Qed.

Lemma q2_add (a b : Z) : 2 ^ (a + b) == 2 ^ a * 2 ^ b.
Proof. apply Qpower_plus. intros H. discriminate H. Qed.

Lemma q2_le (a b : Z) : (a <= b)%Z -> 2 ^ a <= 2 ^ b.
Proof. intros H. apply Qpower_le_compat_l; [exact H|]. discriminate. Qed.

Lemma q2_lt (a b : Z) : (a < b)%Z -> 2 ^ a < 2 ^ b.
Proof. intros H. apply Qpower_lt_compat_l; [exact H|]. reflexivity. Qed.

Lemma q2_lt_inv (a b : Z) : 2 ^ a < 2 ^ b -> (a < b)%Z.
Proof. intros H. apply (Qpower_lt_compat_l_inv 2); [exact H|]. reflexivity. Qed.

Lemma q2_Z (n : Z) : (0 <= n)%Z -> inject_Z (2 ^ n) == 2 ^ n.
Proof. intros H. exact (Zpower_Qpower 2 n H). Qed.

Lemma scaled_mono (e a b : Z) : (a <= b)%Z -> scaled a e <= scaled b e.
Proof.
  intros H. unfold scaled. apply Qmult_le_compat_r.
  - rewrite <- Zle_Qle. exact H.
  - apply Qlt_le_weak, q2_pos.
Qed.

Lemma scaled_lt (e a b : Z) : (a < b)%Z -> scaled a e < scaled b e.
Proof.
  intros H. unfold scaled. apply Qmult_lt_compat_r.
  - apply q2_pos.
  - rewrite <- Zlt_Qlt. exact H.
Qed.

Lemma scaled_lt_inv (e a b : Z) : scaled a e < scaled b e -> (a < b)%Z.
Proof.
  intros H. destruct (Z_lt_le_dec a b) as [|Hle]; [assumption|]. exfalso.
  pose proof (scaled_mono e b a Hle). lra.
Qed.

Lemma scaled_inj (e a b : Z) : scaled a e == scaled b e -> a = b.
Proof.
  intros H. destruct (Z.lt_trichotomy a b) as [Hlt|[Heq|Hgt]]; [|exact Heq|]; exfalso.
  - pose proof (scaled_lt e a b Hlt). lra.
  - pose proof (scaled_lt e b a Hgt). lra.
Qed.

Lemma scaled_shift (m e n : Z) : (0 <= n)%Z -> scaled (m * 2 ^ n) e == scaled m (e + n).
Proof.
  intros H. unfold scaled. rewrite inject_Z_mult, (q2_Z n H), q2_add. ring.
Qed.

Lemma scaled_succ (m e : Z) : scaled (m + 1) e == scaled m e + 2 ^ e.
Proof. unfold scaled. rewrite inject_Z_plus. change (inject_Z 1) with 1. ring. Qed.

Lemma scaled_opp (m e : Z) : scaled (- m) e == - scaled m e.
Proof. unfold scaled. rewrite inject_Z_opp. ring. Qed.

Lemma scaled_zero (e : Z) : scaled 0 e == 0.
Proof. unfold scaled. change (inject_Z 0) with 0. ring. Qed.

Lemma scaled_one (e : Z) : scaled 1 e == 2 ^ e.
Proof. unfold scaled. change (inject_Z 1) with 1. ring. Qed.

Lemma scaled_pow (a e : Z) : (0 <= a)%Z -> scaled (2 ^ a) e == 2 ^ (a + e).
Proof. intros H. unfold scaled. rewrite (q2_Z a H), q2_add. reflexivity. Qed.

Lemma scaled_nonneg (m e : Z) : (0 <= m)%Z -> 0 <= scaled m e.
Proof. intros H. rewrite <- (scaled_zero e). apply scaled_mono. exact H. Qed.

Lemma scaled_digits_lo (m e : Z) :
  (0 < m)%Z -> 2 ^ (Zdigits2 m - 1 + e) <= scaled m e.
Proof.
  intros Hm. pose proof (digits_ge_pow m Hm) as H.
  assert (Hd : (1 <= Zdigits2 m)%Z).
  { destruct m; try lia. simpl. lia. }
  rewrite <- (scaled_pow (Zdigits2 m - 1) e) by lia.
  apply scaled_mono. exact H.
Qed.

Lemma scaled_digits_hi (m e : Z) :
  (0 <= m)%Z -> scaled m e < 2 ^ (Zdigits2 m + e).
Proof.
  intros Hm. pose proof (digits_lt_pow m Hm) as H.
  rewrite <- (scaled_pow (Zdigits2 m) e) by apply digits_nonneg.
  apply scaled_lt. exact H.
Qed.

Lemma toQ_finite (s : bool) (m : positive) (e : Z) :
  exists w, B64.toQ (S754_finite s m e) = Some w
            /\ w == scaled (cond_Zopp s (Zpos m)) e.
Proof.
  unfold B64.toQ. eexists. split; [reflexivity|].
  unfold scaled. destruct e as [|p|p].
  - rewrite Z.shiftl_0_r. change (2 ^ 0) with 1. ring.
  - rewrite Z.shiftl_mul_pow2 by lia. rewrite inject_Z_mult.
    rewrite (q2_Z (Zpos p)) by lia. reflexivity.
  - rewrite Qmake_Qdiv. rewrite Pos2Z.inj_pow.
    rewrite (q2_Z (Zpos p)) by lia.
    change (Zneg p) with (- Zpos p)%Z. rewrite Qpower_opp. reflexivity.
Qed.

Lemma scaled_half (z e : Z) : scaled z (e - 1) == inject_Z z * 2 ^ (e - 1).
Proof. reflexivity. Qed.

Lemma scaled_unit (z e : Z) : scaled z e == 2 * inject_Z z * 2 ^ (e - 1).
Proof.
  unfold scaled. replace e with (1 + (e - 1))%Z at 1 by lia.
  rewrite q2_add. change (2 ^ 1) with 2. ring.
Qed.

Lemma scaled_next (z e : Z) : scaled z (e + 1) == 4 * inject_Z z * 2 ^ (e - 1).
Proof.
  unfold scaled. replace (e + 1)%Z with (2 + (e - 1))%Z by lia.
  rewrite q2_add. change (2 ^ 2) with 4. ring.
Qed.

Lemma shr_1_bits (r : shr_record) :
  (0 <= shr_m r)%Z ->
  shr_r (shr_1 r) = Z.odd (shr_m r) /\ shr_s (shr_1 r) = shr_r r || shr_s r.
Proof.
  destruct r as [m rb sb]. cbn [shr_m shr_r shr_s]. intros Hm.
  destruct m as [|p|p]; try lia.
  - split; reflexivity.
  - destruct p; split; reflexivity.
Qed.

Lemma located_bounds (X : Q) (m e : Z) (l : location) :
  located X m e l ->
  scaled m e <= X /\ X < scaled (m + 1) e /\ (l = loc_Exact -> X == scaled m e).
Proof.
  assert (P1 : 2 ^ e == 2 * 2 ^ (e - 1)).
  { replace e with (1 + (e - 1))%Z at 1 by lia. rewrite q2_add. reflexivity. }
  pose proof (q2_pos (e - 1)) as Hu.
  unfold located, scaled.
  set (u := 2 ^ (e - 1)) in *. set (u1 := 2 ^ e) in *. clearbody u u1.
  destruct l as [|[]];
    repeat (rewrite inject_Z_plus || rewrite inject_Z_mult);
    change (inject_Z 2) with 2; change (inject_Z 1) with 1;
    rewrite ?P1; intros H.
  - split; [lra|]. split; [lra|]. intros _. exact H.
  - split; [lra|]. split; [lra|]. discriminate.
  - split; [lra|]. split; [lra|]. discriminate.
  - split; [lra|]. split; [lra|]. discriminate.
Qed.

Lemma shr_1_located (X : Q) (r : shr_record) (e : Z) :
  (0 <= shr_m r)%Z ->
  located X (shr_m r) e (loc_of_shr_record r) ->
  located X (shr_m (shr_1 r)) (e + 1) (loc_of_shr_record (shr_1 r)).
Proof.
  intros Hm H.
  destruct (shr_1_bits r Hm) as (Hr & Hs).
  pose proof (shr_1_m r Hm) as Hm1. rewrite Z.div2_div in Hm1.
  destruct (shr_1 r) as [m1 r1 s1]. cbn [shr_m shr_r shr_s] in *.
  destruct r as [m rb sb]. cbn [shr_m shr_r shr_s] in *.
  subst m1 r1 s1.
  pose proof (Z.div_mod m 2 ltac:(lia)) as Hdm.
  pose proof (Z.mod_pos_bound m 2 ltac:(lia)) as Hb.
  set (m' := (m / 2)%Z) in *. set (b := (m mod 2)%Z) in *.
  assert (Hodd : Z.odd m = (b =? 1)%Z).
  { rewrite Hdm. rewrite Z.add_comm, Z.odd_add_mul_2.
    assert (Hb' : b = 0%Z \/ b = 1%Z) by lia.
    destruct Hb' as [-> | ->]; reflexivity. }
  rewrite Hodd. clear Hodd.
  assert (Hb' : b = 0%Z \/ b = 1%Z) by lia.
  revert H. rewrite Hdm. clear Hdm Hm. clearbody m' b.
  assert (P1 : 2 ^ e == 2 * 2 ^ (e - 1)).
  { replace e with (1 + (e - 1))%Z at 1 by lia. rewrite q2_add. reflexivity. }
  assert (P2 : 2 ^ (e + 1) == 4 * 2 ^ (e - 1)).
  { replace (e + 1)%Z with (2 + (e - 1))%Z by lia. rewrite q2_add. reflexivity. }
  pose proof (q2_pos (e - 1)) as Hu.
  unfold located, scaled.
  replace (e + 1 - 1)%Z with e by lia.
  set (u := 2 ^ (e - 1)) in *. set (u1 := 2 ^ e) in *.
  set (u2 := 2 ^ (e + 1)) in *. clearbody u u1 u2.
  destruct Hb' as [-> | ->]; cbn [Z.eqb Pos.eqb];
    destruct rb, sb; cbn [orb loc_of_shr_record];
    repeat (rewrite inject_Z_plus || rewrite inject_Z_mult);
    change (inject_Z 2) with 2; change (inject_Z 1) with 1;
    change (inject_Z 0) with 0;
    rewrite ?P1, ?P2; intros H;
    try (split; lra); try lra.
Qed.

Lemma iter_located (X : Q) (p : positive) (r : shr_record) (e : Z) :
  (0 <= shr_m r)%Z ->
  located X (shr_m r) e (loc_of_shr_record r) ->
  located X (shr_m (iter_pos shr_1 p r)) (e + Zpos p)
          (loc_of_shr_record (iter_pos shr_1 p r)).
Proof.
  revert r e. induction p as [p IH|p IH|]; intros r e Hm H.
  - cbn [iter_pos].
    assert (H1 : (0 <= shr_m (shr_1 r))%Z).
    { rewrite shr_1_m by exact Hm. rewrite Z.div2_div. apply Z.div_pos; lia. }
    assert (H2 : (0 <= shr_m (iter_pos shr_1 p (shr_1 r)))%Z).
    { rewrite iter_shr_m by exact H1. apply Z.div_pos; [exact H1|].
      apply Z.pow_pos_nonneg; lia. }
    replace (e + Zpos p~1)%Z with (e + 1 + Zpos p + Zpos p)%Z by lia.
    apply IH; [exact H2|]. apply IH; [exact H1|].
    apply shr_1_located; assumption.
  - cbn [iter_pos].
    assert (H2 : (0 <= shr_m (iter_pos shr_1 p r))%Z).
    { rewrite iter_shr_m by exact Hm. apply Z.div_pos; [exact Hm|].
      apply Z.pow_pos_nonneg; lia. }
    replace (e + Zpos p~0)%Z with (e + Zpos p + Zpos p)%Z by lia.
    apply IH; [exact H2|]. apply IH; assumption.
  - cbn [iter_pos]. apply shr_1_located; assumption.
Qed.

Lemma shr_fexp_located (X : Q) (m e : Z) (l : location) :
  (0 <= m)%Z -> located X m e l ->
  located X (shr_m (fst (shr_fexp B64.prec B64.emax m e l)))
          (snd (shr_fexp B64.prec B64.emax m e l))
          (loc_of_shr_record (fst (shr_fexp B64.prec B64.emax m e l))).
Proof.
  intros Hm H. unfold shr_fexp, shr.
  destruct (fexp B64.prec B64.emax (Zdigits2 m + e) - e)%Z as [|p|p];
    cbn [fst snd].
  - rewrite shr_record_of_loc_m, loc_of_record_of_loc. exact H.
  - apply iter_located.
    + rewrite shr_record_of_loc_m. exact Hm.
    + rewrite shr_record_of_loc_m, loc_of_record_of_loc. exact H.
  - rewrite shr_record_of_loc_m, loc_of_record_of_loc. exact H.
Qed.

(** Rounding to nearest, ties to even, lands within half a unit. *)
Lemma round_nearest_even_half (X : Q) (k g : Z) (l : location) :
  located X k g l ->
  Qabs (scaled (round_nearest_even k l) g - X) <= 2 ^ (g - 1).
Proof.
  assert (P1 : 2 ^ g == 2 * 2 ^ (g - 1)).
  { replace g with (1 + (g - 1))%Z at 1 by lia. rewrite q2_add. reflexivity. }
  pose proof (q2_pos (g - 1)) as Hu.
  unfold located, scaled, round_nearest_even.
  set (u := 2 ^ (g - 1)) in *. set (u1 := 2 ^ g) in *. clearbody u u1.
  destruct l as [|[]]; [| destruct (IntDef.Z.even k) | |];
    repeat (rewrite inject_Z_plus || rewrite inject_Z_mult);
    change (inject_Z 2) with 2; change (inject_Z 1) with 1;
    rewrite ?P1; intros H; apply Qabs_Qle_condition; lra.
Qed.

Lemma unit_roundoff_pow : unit_roundoff == 2 ^ (-53).
Proof. reflexivity. Qed.

Lemma eta_pos : 0 < eta.
Proof. reflexivity. Qed.

Lemma representable_scaled (N E : Z) :
  (Z.abs N < 2 ^ 53)%Z -> (-1074 <= E)%Z -> representable (scaled N E).
Proof. intros H1 H2. exists N, E. split; [exact H1|]. split; [exact H2 | reflexivity]. Qed.

(** What [binary_round_aux] returns for the magnitude [x] that lies between
    [m * 2^e] and the next multiple of [2^e]. *)
Lemma binary_round_aux_value (s : bool) (m e : Z) (l : location) (x : Q) :
  (0 <= m)%Z ->
  located x m e l ->
  (l = loc_Exact \/ (e <= fexp B64.prec B64.emax (Zdigits2 m + e))%Z) ->
  (B64.is_finite (binary_round_aux B64.prec B64.emax s m e l) = true
   \/ x < 2 ^ 971) ->
  exists w v,
    B64.toQ (binary_round_aux B64.prec B64.emax s m e l) = Some w
    /\ w == (if s then - v else v)
    /\ 0 <= v
    /\ Qabs (v - x) <= unit_roundoff * x + eta
    /\ (l = loc_Exact -> (-1074 <= e)%Z -> Qabs (v - x) <= unit_roundoff * x)
    /\ (forall K, (-1074 <= K)%Z -> x < 2 ^ K -> v <= 2 ^ K)
    /\ (forall K, (-1021 <= K)%Z -> x < 2 ^ K -> Qabs (v - x) <= 2 ^ (K - 54))
    /\ (l = loc_Exact -> representable x -> v == x)
    /\ ((e <= fexp B64.prec B64.emax (Zdigits2 m + e))%Z ->
        B64.valid (binary_round_aux B64.prec B64.emax s m e l) = true).
Proof.
  intros Hm Hloc Hcond Hfin.
  destruct (located_bounds _ _ _ _ Hloc) as (Hlo & Hhi & Hex).
  destruct (binary_round_aux_structure s m e l Hm)
    as (M & HM & Hg & HMk & (Hsm & Hse & HMr) & Hres).
  pose proof (shr_fexp_located x m e l Hm Hloc) as Hloc1.
  rewrite Hsm, Hse in Hloc1.
  pose proof (round_nearest_even_half _ _ _ _ Hloc1) as Hhalf.
  rewrite <- HMr in Hhalf. clear Hloc1 Hsm Hse HMr.
  set (g := Z.max e (fexp B64.prec B64.emax (Zdigits2 m + e))) in *.
  set (k := (m / 2 ^ (g - e))%Z) in *.
  assert (Hge : (e <= g)%Z) by (unfold g; lia).
  assert (Hpt : (0 < 2 ^ (g - e))%Z) by (apply pow2_pos; lia).
  assert (Hk1 : (k * 2 ^ (g - e) <= m)%Z).
  { unfold k. rewrite Z.mul_comm. apply Z.mul_div_le. exact Hpt. }
  assert (Hk2 : (m + 1 <= (k + 1) * 2 ^ (g - e))%Z).
  { unfold k. pose proof (Z.mul_succ_div_gt m (2 ^ (g - e)) Hpt). lia. }
  assert (Hk0 : (0 <= k)%Z) by (unfold k; apply Z.div_pos; lia).
  assert (Eg : (e + (g - e) = g)%Z) by lia.
  assert (Qk1 : scaled k g <= x).
  { rewrite <- Eg at 1. rewrite <- scaled_shift by lia.
    eapply Qle_trans; [apply scaled_mono; exact Hk1 | exact Hlo]. }
  assert (Qk2 : x < scaled (k + 1) g).
  { rewrite <- Eg at 1. rewrite <- scaled_shift by lia.
    eapply Qlt_le_trans; [exact Hhi | apply scaled_mono; exact Hk2]. }
  set (v := scaled M g).
  assert (Hv1 : scaled k g <= v) by (apply scaled_mono; lia).
  assert (Hv2 : v <= scaled (k + 1) g) by (apply scaled_mono; lia).
  pose proof (scaled_succ k g) as Hw.
  pose proof (scaled_nonneg k g Hk0) as Hkn.
  pose proof (q2_pos g) as Hpg.
  assert (Hx0 : 0 <= x) by lra.
  assert (Hv0 : 0 <= v) by lra.
  assert (Hexact : M = k -> (m mod 2 ^ (g - e) = 0)%Z -> l = loc_Exact -> v == x).
  { intros EM Hdiv El. rewrite (Hex El). unfold v. rewrite EM.
    rewrite <- Eg at 1. rewrite <- scaled_shift by lia.
    assert (Hmk : (k * 2 ^ (g - e) = m)%Z).
    { unfold k. pose proof (Z.div_mod m (2 ^ (g - e)) ltac:(lia)). lia. }
    rewrite Hmk. reflexivity. }
  assert (Hcases : (g = -1074)%Z
                   \/ ((g = Zdigits2 m + e - 53)%Z /\ (0 < m)%Z)
                   \/ ((g = e)%Z /\ l = loc_Exact)).
  { unfold g in *. rewrite fexp_eq in *.
    destruct (Z.eq_dec (Z.max e (Z.max (Zdigits2 m + e - 53) (-1074))) (-1074))
      as [|H1]; [left; assumption|].
    destruct (Z.eq_dec (Z.max e (Z.max (Zdigits2 m + e - 53) (-1074)))
                       (Zdigits2 m + e - 53)) as [H2|H2].
    - right. left. split; [exact H2|].
      destruct (Z.eq_dec m 0) as [->|]; [simpl in H2; lia | lia].
    - right. right. split; [lia|].
      destruct Hcond as [|Hc]; [assumption | lia]. }
  assert (Hbig : (0 < m)%Z -> (g = Zdigits2 m + e - 53)%Z ->
                 2 ^ (g - 1) <= unit_roundoff * x).
  { intros Hmp E. pose proof (scaled_digits_lo m e Hmp) as Hd.
    rewrite unit_roundoff_pow.
    replace (g - 1)%Z with (-53 + (Zdigits2 m - 1 + e))%Z by lia.
    rewrite q2_add.
    apply Qmult_le_l; [apply q2_pos | lra]. }
  apply Qabs_Qle_condition in Hhalf. fold v in Hhalf.
  assert (Hmod1 : (g = e)%Z -> (m mod 2 ^ (g - e) = 0)%Z).
  { intros E. rewrite E. replace (e - e)%Z with 0%Z by lia.
    change (2 ^ 0)%Z with 1%Z. apply Z.mod_1_r. }
  assert (Herr0 : l = loc_Exact -> (-1074 <= e)%Z ->
                  Qabs (v - x) <= unit_roundoff * x).
  { intros El He. apply Qabs_Qle_condition.
    destruct Hcases as [E|[(E & Hmp)|(E & _)]].
    - assert (E' : g = e) by lia.
      rewrite (Hexact (HMk El (Hmod1 E')) (Hmod1 E') El).
      assert (0 <= unit_roundoff * x)
        by (apply Qmult_le_0_compat; [discriminate | lra]).
      lra.
    - pose proof (Hbig Hmp E). lra.
    - rewrite (Hexact (HMk El (Hmod1 E)) (Hmod1 E) El).
      assert (0 <= unit_roundoff * x)
        by (apply Qmult_le_0_compat; [discriminate | lra]).
      lra. }
  assert (Herr : Qabs (v - x) <= unit_roundoff * x + eta).
  { apply Qabs_Qle_condition.
    assert (He0 : 0 <= unit_roundoff * x)
      by (apply Qmult_le_0_compat; [discriminate | lra]).
    pose proof eta_pos as Hmin.
    destruct Hcases as [E|[(E & Hmp)|(E & El)]].
    - assert (Hgm : 2 ^ (g - 1) == eta) by (rewrite E; reflexivity). lra.
    - pose proof (Hbig Hmp E). lra.
    - rewrite (Hexact (HMk El (Hmod1 E)) (Hmod1 E) El). lra. }
  assert (Hbin : forall K, (-1021 <= K)%Z -> x < 2 ^ K ->
                           Qabs (v - x) <= 2 ^ (K - 54)).
  { intros K HK Hx. apply Qabs_Qle_condition.
    pose proof (q2_pos (K - 54)) as HpK.
    destruct Hcases as [E|[(E & Hmp)|(E & El)]].
    - assert (Hle : 2 ^ (g - 1) <= 2 ^ (K - 54)) by (apply q2_le; lia). lra.
    - pose proof (scaled_digits_lo m e Hmp) as Hd.
      assert (Hlt : 2 ^ (Zdigits2 m - 1 + e) < 2 ^ K) by lra.
      apply q2_lt_inv in Hlt.
      assert (Hle : 2 ^ (g - 1) <= 2 ^ (K - 54)) by (apply q2_le; lia). lra.
    - rewrite (Hexact (HMk El (Hmod1 E)) (Hmod1 E) El). lra. }
  assert (HK : forall K, (-1074 <= K)%Z -> x < 2 ^ K -> v <= 2 ^ K).
  { intros K HK Hx.
    destruct (Z.eq_dec M k) as [EM|NM].
    - unfold v. rewrite EM. lra.
    - assert (EM : M = (k + 1)%Z) by lia.
      assert (HgK : (g <= K)%Z).
      { destruct Hcases as [E|[(E & Hmp)|(E & El)]].
        - lia.
        - pose proof (scaled_digits_lo m e Hmp) as Hd.
          assert (Hlt : 2 ^ (Zdigits2 m - 1 + e) < 2 ^ K) by lra.
          apply q2_lt_inv in Hlt. lia.
        - exfalso. apply NM. apply HMk; [exact El | apply Hmod1; exact E]. }
      assert (Hkk : (k < 2 ^ (K - g))%Z).
      { apply (scaled_lt_inv g). rewrite scaled_pow by lia.
        replace (K - g + g)%Z with K by lia. lra. }
      unfold v. rewrite EM.
      replace K with (K - g + g)%Z by lia.
      rewrite <- scaled_pow by lia. apply scaled_mono. lia. }
  assert (Hrep : l = loc_Exact -> representable x -> v == x).
  { intros El (N & E & HN & HE & Hx).
    destruct (Z.eq_dec m 0) as [Hz|Hnz].
    - apply Hexact; [|rewrite Hz; apply Z.mod_0_l; lia | exact El].
      apply HMk; [exact El | rewrite Hz; apply Z.mod_0_l; lia].
    - assert (Hmp : (0 < m)%Z) by lia.
      assert (Hxm : scaled N E == scaled m e) by (rewrite <- Hx; apply Hex, El).
      assert (HN0 : (0 < N)%Z).
      { apply (scaled_lt_inv E). rewrite scaled_zero, Hxm.
        pose proof (scaled_lt e 0 m Hmp) as H0. rewrite scaled_zero in H0. exact H0. }
      assert (HgE : (g <= E \/ g = e)%Z).
      { destruct Hcases as [Eg'|[(Eg' & _)|(Eg' & _)]]; [left; lia| |right; exact Eg'].
        left.
        pose proof (scaled_digits_lo m e Hmp) as Hd.
        assert (HNhi : scaled N E < 2 ^ (53 + E)).
        { rewrite <- scaled_pow by lia. apply scaled_lt. lia. }
        assert (Hlt : 2 ^ (Zdigits2 m - 1 + e) < 2 ^ (53 + E)) by lra.
        apply q2_lt_inv in Hlt. lia. }
      assert (Hdiv : (m mod 2 ^ (g - e) = 0)%Z).
      { destruct HgE as [HgE|HgE]; [|apply Hmod1; exact HgE].
        assert (HeE : (e <= E)%Z) by lia.
        assert (EmN : m = (N * 2 ^ (E - e))%Z).
        { apply (scaled_inj e). rewrite scaled_shift by lia.
          replace (e + (E - e))%Z with E by lia. symmetry. exact Hxm. }
        rewrite EmN.
        replace (E - e)%Z with ((E - g) + (g - e))%Z by lia.
        rewrite Z.pow_add_r by lia. rewrite Z.mul_assoc.
        apply Z.mod_mul. lia. }
      apply Hexact; [apply HMk; assumption | exact Hdiv | exact El]. }
  destruct Hres as [(EM & Er)|[(Er & m' & e' & Hge' & Em' & He')
                             |(m' & e' & Er & Hge' & Em' & He' & Hcan)]].
  - exists 0, v. rewrite Er. split; [reflexivity|].
    assert (Ev : v == 0) by (unfold v; rewrite EM; apply scaled_zero).
    split; [destruct s; rewrite Ev; reflexivity|].
    repeat (split; [assumption|]).
    intros _. reflexivity.
  - exfalso. destruct Hfin as [Hfin|Hfin]; [rewrite Er in Hfin; discriminate Hfin|].
    pose proof (HK 971%Z ltac:(lia) Hfin) as Hle.
    assert (Ev : scaled (Zpos m') e' == v).
    { unfold v. rewrite <- Em'. rewrite scaled_shift by lia.
      replace (g + (e' - g))%Z with e' by lia. reflexivity. }
    assert (Hbig' : 2 ^ 972 <= scaled (Zpos m') e').
    { eapply Qle_trans; [apply (q2_le 972 e'); lia|].
      rewrite <- (scaled_one e'). apply scaled_mono. lia. }
    assert (Hlt : 2 ^ 971 < 2 ^ 972) by (apply q2_lt; lia).
    lra.
  - destruct (toQ_finite s m' e') as (w & Ew & Hw').
    exists w, v. rewrite Er. split; [exact Ew|].
    assert (Ev : scaled (Zpos m') e' == v).
    { unfold v. rewrite <- Em'. rewrite scaled_shift by lia.
      replace (g + (e' - g))%Z with e' by lia. reflexivity. }
    split.
    { rewrite Hw'. destruct s; cbn [cond_Zopp].
      - rewrite scaled_opp, Ev. reflexivity.
      - exact Ev. }
    repeat (split; [assumption|]).
    intros Hn. unfold B64.valid, valid_binary, bounded.
    rewrite (Hcan Hn). apply Z.leb_le. unfold B64.emax, B64.prec. lia.
Qed.

Lemma digits_mul_pow (m n : Z) :
  (0 < m)%Z -> (0 <= n)%Z -> Zdigits2 (m * 2 ^ n) = (Zdigits2 m + n)%Z.
Proof.
  intros Hm Hn.
  pose proof (digits_lt_pow m ltac:(lia)) as H1.
  pose proof (digits_ge_pow m Hm) as H2.
  assert (Hd : (1 <= Zdigits2 m)%Z) by (destruct m; try lia; simpl; lia).
  assert (Hp : (0 < 2 ^ n)%Z) by (apply pow2_pos; exact Hn).
  apply digits_unique; [|nia]. split.
  - replace (Zdigits2 m + n - 1)%Z with ((Zdigits2 m - 1) + n)%Z by lia.
    rewrite Z.pow_add_r by lia. nia.
  - rewrite Z.pow_add_r by lia. nia.
Qed.

Lemma digits_mul_ge (a b : Z) :
  (0 < a)%Z -> (0 < b)%Z -> (Zdigits2 a + Zdigits2 b - 1 <= Zdigits2 (a * b))%Z.
Proof.
  intros Ha Hb.
  pose proof (digits_ge_pow a Ha) as H1.
  pose proof (digits_ge_pow b Hb) as H2.
  assert (Hda : (1 <= Zdigits2 a)%Z) by (destruct a; try lia; simpl; lia).
  assert (Hdb : (1 <= Zdigits2 b)%Z) by (destruct b; try lia; simpl; lia).
  pose proof (digits_lt_pow (a * b) ltac:(nia)) as H3.
  pose proof (digits_nonneg (a * b)) as H0.
  destruct (Z_le_gt_dec (Zdigits2 a + Zdigits2 b - 1) (Zdigits2 (a * b)))
    as [|Hgt]; [assumption|]. exfalso.
  assert (Hp : (2 ^ Zdigits2 (a * b) <= 2 ^ ((Zdigits2 a - 1) + (Zdigits2 b - 1)))%Z)
    by (apply Z.pow_le_mono_r; lia).
  rewrite Z.pow_add_r in Hp by lia.
  assert (0 < 2 ^ (Zdigits2 a - 1))%Z by (apply pow2_pos; lia).
  assert (0 < 2 ^ (Zdigits2 b - 1))%Z by (apply pow2_pos; lia).
  nia.
Qed.

Lemma Qabs_eq_pos (x X : Q) : 0 <= X -> x == X \/ x == - X -> Qabs x == X.
Proof.
  intros HX [E|E]; rewrite E.
  - apply Qabs_pos. exact HX.
  - rewrite Qabs_opp. apply Qabs_pos. exact HX.
Qed.

Lemma representable_opp (x : Q) : representable x -> representable (- x).
Proof.
  intros (N & E & HN & HE & Hx). exists (- N)%Z, E.
  split; [lia|]. split; [exact HE|]. rewrite scaled_opp, Hx. reflexivity.
Qed.

Lemma representable_eq (x y : Q) : x == y -> representable x -> representable y.
Proof.
  intros E (N & E' & HN & HE & Hx). exists N, E'.
  split; [exact HN|]. split; [exact HE|]. rewrite <- E. exact Hx.
Qed.

(** [binary_round_aux] on a signed magnitude. *)
Lemma binary_round_aux_signed (s : bool) (m e : Z) (l : location) (X x : Q) :
  (0 <= m)%Z -> 0 < X ->
  located X m e l ->
  (l = loc_Exact \/ (e <= fexp B64.prec B64.emax (Zdigits2 m + e))%Z) ->
  x == (if s then - X else X) ->
  (B64.is_finite (binary_round_aux B64.prec B64.emax s m e l) = true
   \/ Qabs x < 2 ^ 971) ->
  exists w,
    B64.toQ (binary_round_aux B64.prec B64.emax s m e l) = Some w
    /\ rounds x w
    /\ (l = loc_Exact -> (-1074 <= e)%Z -> Qabs (w - x) <= unit_roundoff * Qabs x)
    /\ (l = loc_Exact -> representable x -> w == x)
    /\ ((e <= fexp B64.prec B64.emax (Zdigits2 m + e))%Z ->
        B64.valid (binary_round_aux B64.prec B64.emax s m e l) = true).
Proof.
  intros Hm HX Hloc Hcond Hx Hfin.
  assert (Hax : Qabs x == X).
  { apply Qabs_eq_pos; [lra|]. destruct s; [right | left]; exact Hx. }
  rewrite Hax in Hfin.
  destruct (binary_round_aux_value s m e l X Hm Hloc Hcond Hfin)
    as (w & v & Ew & Hw & Hv0 & Herr & Herr0 & HK & Hbin & Hrep & Hval).
  exists w. split; [exact Ew|].
  assert (Haw : Qabs w == v).
  { apply Qabs_eq_pos; [exact Hv0|]. destruct s; [right | left]; exact Hw. }
  assert (Hd : Qabs (w - x) == Qabs (v - X)).
  { destruct s.
    - setoid_replace (w - x) with (- (v - X)) by (rewrite Hw, Hx; ring).
      apply Qabs_opp.
    - rewrite Hw, Hx. reflexivity. }
  split; [split; [|split; [|split; [|split]]]|split; [|split]].
  - rewrite Hd, Hax. exact Herr.
  - intros H0. destruct s; [lra | rewrite Hw; exact Hv0].
  - intros H0. destruct s; [rewrite Hw; lra | lra].
  - intros K HKr Hlt. rewrite Haw. apply HK; [exact HKr|]. rewrite <- Hax. exact Hlt.
  - intros K HKr Hlt. rewrite Hd. apply Hbin; [exact HKr|]. rewrite <- Hax. exact Hlt.
  - intros El He. rewrite Hd, Hax. apply Herr0; assumption.
  - intros El Hr. destruct s.
    + rewrite Hw, Hx. apply Qopp_comp. apply Hrep; [exact El|].
      apply (representable_eq (- x)); [rewrite Hx; ring|].
      apply representable_opp. exact Hr.
    + rewrite Hw, Hx. apply Hrep; [exact El|].
      apply (representable_eq x); assumption.
  - exact Hval.
Qed.

Lemma shl_align_spec (m : positive) (e t : Z) :
  scaled (Zpos (fst (shl_align m e t))) (snd (shl_align m e t)) == scaled (Zpos m) e
  /\ snd (shl_align m e t) = Z.min e t
  /\ (Zdigits2 (Zpos (fst (shl_align m e t))) + snd (shl_align m e t)
      = Zdigits2 (Zpos m) + e)%Z.
Proof.
  destruct (Z_le_gt_dec t e) as [Hle|Hgt].
  - destruct (shl_align_val m e t Hle) as (Hv & Hs). rewrite Hv, Hs.
    split; [|split].
    + rewrite scaled_shift by lia. replace (t + (e - t))%Z with e by lia. reflexivity.
    + lia.
    + rewrite digits_mul_pow by lia. lia.
  - unfold shl_align. destruct (t - e)%Z as [|p|p] eqn:E; try lia; cbn [fst snd].
    split; [reflexivity|]. split; lia.
Qed.

Lemma binary_round_value (s : bool) (m : positive) (e : Z) (x : Q) :
  x == (if s then - scaled (Zpos m) e else scaled (Zpos m) e) ->
  (B64.is_finite (binary_round B64.prec B64.emax s m e) = true
   \/ Qabs x < 2 ^ 971) ->
  exists w,
    B64.toQ (binary_round B64.prec B64.emax s m e) = Some w
    /\ rounds x w
    /\ ((-1074 <= e)%Z -> Qabs (w - x) <= unit_roundoff * Qabs x)
    /\ (representable x -> w == x)
    /\ B64.valid (binary_round B64.prec B64.emax s m e) = true.
Proof.
  intros Hx Hfin. unfold binary_round in *.
  destruct (shl_align_spec m e (fexp B64.prec B64.emax (Zpos (digits2_pos m) + e)))
    as (Hv & Hs & Hd).
  destruct (shl_align m e (fexp B64.prec B64.emax (Zpos (digits2_pos m) + e)))
    as [mz ez]. cbn [fst snd] in Hv, Hs, Hd.
  change (Zpos (digits2_pos m)) with (Zdigits2 (Zpos m)) in *.
  assert (Hc : (ez <= fexp B64.prec B64.emax (Zdigits2 (Zpos mz) + ez))%Z).
  { rewrite Hd, Hs. lia. }
  assert (HX : 0 < scaled (Zpos mz) ez).
  { rewrite <- (scaled_zero ez). apply scaled_lt. lia. }
  assert (Hm0 : (0 <= Zpos mz)%Z) by lia.
  assert (Hm1 : (Zpos mz < Zpos mz + 1)%Z) by lia.
  destruct (binary_round_aux_signed s (Zpos mz) ez loc_Exact
              (scaled (Zpos mz) ez) x Hm0 HX (Qeq_refl _)
              (or_introl eq_refl)) as (w & Ew & Hr & Herr0 & Hrep & Hval).
  { destruct s; rewrite Hv; exact Hx. }
  { exact Hfin. }
  exists w. split; [exact Ew|]. split; [exact Hr|].
  split; [|split; [auto | auto]].
  intros He. apply Herr0; [reflexivity|].
  rewrite Hs. rewrite fexp_eq. lia.
Qed.

Lemma Qabs_zero_le (x w : Q) : w == x -> Qabs (w - x) <= unit_roundoff * Qabs x.
Proof.
  intros E. setoid_replace (w - x) with 0 by (rewrite E; ring).
  apply Qmult_le_0_compat; [discriminate | apply Qabs_nonneg].
Qed.

Lemma rounds_exact (x w : Q) : w == x -> rounds x w.
Proof.
  intros E. unfold rounds.
  split; [|split; [|split; [|split]]].
  - pose proof (Qabs_zero_le x w E). pose proof eta_pos. lra.
  - intros H. rewrite E. exact H.
  - intros H. rewrite E. exact H.
  - intros K _ H. rewrite E. apply Qlt_le_weak. exact H.
  - intros K _ _. setoid_replace (w - x) with 0 by (rewrite E; ring).
    apply Qlt_le_weak. apply q2_pos.
Qed.

Lemma binary_normalize_value (z e : Z) (sz : bool) (x : Q) :
  x == scaled z e ->
  (B64.is_finite (binary_normalize B64.prec B64.emax z e sz) = true
   \/ Qabs x < 2 ^ 971) ->
  exists w,
    B64.toQ (binary_normalize B64.prec B64.emax z e sz) = Some w
    /\ rounds x w
    /\ ((-1074 <= e)%Z -> Qabs (w - x) <= unit_roundoff * Qabs x)
    /\ (representable x -> w == x)
    /\ B64.valid (binary_normalize B64.prec B64.emax z e sz) = true.
Proof.
  intros Hx Hfin. destruct z as [|p|p]; cbn [binary_normalize] in *.
  - exists 0. split; [reflexivity|].
    assert (E : 0 == x) by (rewrite Hx, scaled_zero; reflexivity).
    split; [apply rounds_exact; exact E|].
    split; [intros _; apply Qabs_zero_le; exact E|].
    split; [intros _; exact E | reflexivity].
  - apply (binary_round_value false p e x); [exact Hx | exact Hfin].
  - apply (binary_round_value true p e x); [|exact Hfin].
    rewrite Hx. change (Zneg p) with (- Zpos p)%Z. apply scaled_opp.
Qed.

Lemma valid_finite (s : bool) (m : positive) (e : Z) :
  B64.valid (S754_finite s m e) = true ->
  (fexp B64.prec B64.emax (Zdigits2 (Zpos m) + e) = e /\ e <= 971 /\ -1074 <= e
   /\ Zdigits2 (Zpos m) <= 53)%Z.
Proof.
  unfold B64.valid, valid_binary, bounded, canonical_mantissa.
  intros H. apply andb_prop in H. destruct H as (Hc & He).
  apply Z.eqb_eq in Hc. apply Z.leb_le in He.
  change (Zpos (digits2_pos m)) with (Zdigits2 (Zpos m)) in Hc.
  unfold B64.emax, B64.prec in He. rewrite fexp_eq in *. lia.
Qed.

Lemma denotes_finite (a : B64.float) (v : Q) : denotes a v -> B64.is_finite a = true.
Proof.
  intros (_ & w & E & _). destruct a; try reflexivity; discriminate E.
Qed.

Lemma denotes_eq (a : B64.float) (v v' : Q) : denotes a v -> v == v' -> denotes a v'.
Proof.
  intros (Hv & w & E & Hw) Heq. split; [exact Hv|]. exists w. split; [exact E|].
  rewrite Hw. exact Heq.
Qed.

Lemma denotes_zero (s : bool) : denotes (S754_zero s) 0.
Proof. split; [reflexivity|]. exists 0. split; reflexivity. Qed.

Lemma denotes_zero_inv (s : bool) (v : Q) : denotes (S754_zero s) v -> v == 0.
Proof. intros (_ & w & E & Hw). injection E as <-. symmetry. exact Hw. Qed.

Lemma denotes_finite_inv (s : bool) (m : positive) (e : Z) (v : Q) :
  denotes (S754_finite s m e) v -> v == scaled (cond_Zopp s (Zpos m)) e.
Proof.
  intros (_ & w & E & Hw). destruct (toQ_finite s m e) as (w' & E' & Hw').
  rewrite E in E'. injection E' as <-. rewrite <- Hw. exact Hw'.
Qed.

Lemma denotes_unique (a : B64.float) (v v' : Q) : denotes a v -> denotes a v' -> v == v'.
Proof.
  intros (_ & w & E & Hw) (_ & w' & E' & Hw'). rewrite E in E'. injection E' as <-.
  rewrite <- Hw. exact Hw'.
Qed.

Lemma denotes_exists (a : B64.float) :
  B64.valid a = true -> B64.is_finite a = true -> exists v, denotes a v.
Proof.
  intros Hv Hf. destruct a as [s|s| |s m e]; try discriminate Hf.
  - exists 0. apply denotes_zero.
  - destruct (toQ_finite s m e) as (w & E & _). exists w.
    split; [exact Hv|]. exists w. split; [exact E | reflexivity].
Qed.

(** A result that is the exact value. *)
Lemma exact_result (r : B64.float) (x v : Q) :
  denotes r v -> v == x ->
  exists v', denotes r v' /\ rounds x v'
             /\ Qabs (v' - x) <= unit_roundoff * Qabs x
             /\ (representable x -> v' == x).
Proof.
  intros Hd E. exists v. split; [exact Hd|].
  split; [apply rounds_exact; exact E|].
  split; [apply Qabs_zero_le; exact E | intros _; exact E].
Qed.

Lemma scaled_plus (a b e : Z) : scaled (a + b) e == scaled a e + scaled b e.
Proof. unfold scaled. rewrite inject_Z_plus. ring. Qed.

Lemma scaled_minus (a b e : Z) : scaled (a - b) e == scaled a e - scaled b e.
Proof. unfold scaled, Z.sub. rewrite inject_Z_plus, inject_Z_opp. ring. Qed.

Lemma scaled_mult (a b e f : Z) : scaled (a * b) (e + f) == scaled a e * scaled b f.
Proof. unfold scaled. rewrite inject_Z_mult, q2_add. ring. Qed.

Lemma aligned_value (s : bool) (m : positive) (e ez : Z) (v : Q) :
  (ez <= e)%Z -> v == scaled (cond_Zopp s (Zpos m)) e ->
  v == scaled (cond_Zopp s (Zpos (fst (shl_align m e ez)))) ez.
Proof.
  intros Hle Hv. destruct (shl_align_spec m e ez) as (Hs & He & _).
  assert (Ez : snd (shl_align m e ez) = ez) by lia.
  rewrite Ez in Hs. rewrite Hv.
  destruct s; cbn [cond_Zopp].
  - change (Zneg m) with (- Zpos m)%Z.
    rewrite !scaled_opp. rewrite Hs. reflexivity.
  - symmetry. exact Hs.
Qed.

Lemma normalize_result (z ez : Z) (x : Q) :
  x == scaled z ez -> (-1074 <= ez)%Z ->
  (B64.is_finite (binary_normalize B64.prec B64.emax z ez false) = true
   \/ Qabs x < 2 ^ 971) ->
  exists v, denotes (binary_normalize B64.prec B64.emax z ez false) v
            /\ rounds x v
            /\ Qabs (v - x) <= unit_roundoff * Qabs x
            /\ (representable x -> v == x).
Proof.
  intros Hx He Hfin.
  destruct (binary_normalize_value z ez false x Hx Hfin)
    as (w & Ew & Hr & Herr & Hrep & Hval).
  exists w. split; [split; [exact Hval|]; exists w; split; [exact Ew | reflexivity]|].
  split; [exact Hr|]. split; [apply Herr; exact He | exact Hrep].
Qed.

Lemma add_value (x y : B64.float) (vx vy : Q) :
  denotes x vx -> denotes y vy ->
  (B64.is_finite (B64.add x y) = true \/ Qabs (vx + vy) < 2 ^ 971) ->
  exists v, denotes (B64.add x y) v /\ rounds (vx + vy) v
            /\ Qabs (v - (vx + vy)) <= unit_roundoff * Qabs (vx + vy)
            /\ (representable (vx + vy) -> v == vx + vy).
Proof.
  intros Hx Hy Hfin.
  destruct x as [sx|sx| |sx mx ex]; try (destruct Hx as (_ & w & E & _); discriminate E);
    destruct y as [sy|sy| |sy my ey]; try (destruct Hy as (_ & w & E & _); discriminate E).
  - apply denotes_zero_inv in Hx, Hy.
    apply (exact_result _ _ 0); [|rewrite Hx, Hy; reflexivity].
    unfold B64.add, SFadd. destruct sx, sy; apply denotes_zero.
  - apply denotes_zero_inv in Hx.
    apply (exact_result _ _ vy); [exact Hy | rewrite Hx; ring].
  - apply denotes_zero_inv in Hy.
    apply (exact_result _ _ vx); [exact Hx | rewrite Hy; ring].
  - destruct (valid_finite _ _ _ (proj1 Hx)) as (_ & _ & Hex & _).
    destruct (valid_finite _ _ _ (proj1 Hy)) as (_ & _ & Hey & _).
    apply denotes_finite_inv in Hx, Hy.
    unfold B64.add, SFadd in *.
    set (ez := IntDef.Z.min ex ey) in *.
    assert (Ez : ez = Z.min ex ey) by reflexivity.
    apply normalize_result; [|lia | exact Hfin].
    rewrite scaled_plus.
    rewrite <- (aligned_value sx mx ex ez vx) by (try lia; exact Hx).
    rewrite <- (aligned_value sy my ey ez vy) by (try lia; exact Hy).
    reflexivity.
Qed.

Lemma sub_value (x y : B64.float) (vx vy : Q) :
  denotes x vx -> denotes y vy ->
  (B64.is_finite (B64.sub x y) = true \/ Qabs (vx - vy) < 2 ^ 971) ->
  exists v, denotes (B64.sub x y) v /\ rounds (vx - vy) v
            /\ Qabs (v - (vx - vy)) <= unit_roundoff * Qabs (vx - vy)
            /\ (representable (vx - vy) -> v == vx - vy).
Proof.
  intros Hx Hy Hfin.
  destruct x as [sx|sx| |sx mx ex]; try (destruct Hx as (_ & w & E & _); discriminate E);
    destruct y as [sy|sy| |sy my ey]; try (destruct Hy as (_ & w & E & _); discriminate E).
  - apply denotes_zero_inv in Hx, Hy.
    apply (exact_result _ _ 0); [|rewrite Hx, Hy; reflexivity].
    unfold B64.sub, SFsub. destruct sx, sy; apply denotes_zero.
  - apply denotes_zero_inv in Hx.
    pose proof (proj1 Hy) as Hvy. apply denotes_finite_inv in Hy.
    destruct (toQ_finite (negb sy) my ey) as (w & Ew & Hw).
    apply (exact_result _ _ w).
    + unfold B64.sub, SFsub. split; [exact Hvy|]. exists w. split; [exact Ew | reflexivity].
    + rewrite Hw, Hx, Hy. destruct sy; cbn [negb cond_Zopp].
      * change (Zneg my) with (- Zpos my)%Z. rewrite scaled_opp. ring.
      * change (Zneg my) with (- Zpos my)%Z. rewrite scaled_opp. ring.
  - apply denotes_zero_inv in Hy.
    apply (exact_result _ _ vx); [exact Hx | rewrite Hy; ring].
  - destruct (valid_finite _ _ _ (proj1 Hx)) as (_ & _ & Hex & _).
    destruct (valid_finite _ _ _ (proj1 Hy)) as (_ & _ & Hey & _).
    apply denotes_finite_inv in Hx, Hy.
    unfold B64.sub, SFsub in *.
    set (ez := IntDef.Z.min ex ey) in *.
    assert (Ez : ez = Z.min ex ey) by reflexivity.
    apply normalize_result; [|lia | exact Hfin].
    rewrite scaled_minus.
    rewrite <- (aligned_value sx mx ex ez vx) by (try lia; exact Hx).
    rewrite <- (aligned_value sy my ey ez vy) by (try lia; exact Hy).
    reflexivity.
Qed.

Lemma mul_value (x y : B64.float) (vx vy : Q) :
  denotes x vx -> denotes y vy ->
  (B64.is_finite (B64.mul x y) = true \/ Qabs (vx * vy) < 2 ^ 971) ->
  exists v, denotes (B64.mul x y) v /\ rounds (vx * vy) v
            /\ (representable (vx * vy) -> v == vx * vy).
Proof.
  intros Hx Hy Hfin.
  assert (Hzero : forall s, vx * vy == 0 ->
            exists v, denotes (S754_zero s) v /\ rounds (vx * vy) v
                      /\ (representable (vx * vy) -> v == vx * vy)).
  { intros s E. exists 0. split; [apply denotes_zero|].
    split; [apply rounds_exact; rewrite E; reflexivity|].
    intros _. rewrite E. reflexivity. }
  destruct x as [sx|sx| |sx mx ex]; try (destruct Hx as (_ & w & E & _); discriminate E);
    destruct y as [sy|sy| |sy my ey]; try (destruct Hy as (_ & w & E & _); discriminate E).
  - apply denotes_zero_inv in Hx. apply Hzero. rewrite Hx. ring.
  - apply denotes_zero_inv in Hx. apply Hzero. rewrite Hx. ring.
  - apply denotes_zero_inv in Hy. apply Hzero. rewrite Hy. ring.
  - destruct (valid_finite _ _ _ (proj1 Hx)) as (Hcx & _ & Hex & Hdx).
    destruct (valid_finite _ _ _ (proj1 Hy)) as (Hcy & _ & Hey & Hdy).
    apply denotes_finite_inv in Hx, Hy.
    unfold B64.mul, SFmul in *.
    rewrite Pos2Z.inj_mul in *.
    set (m := (Zpos mx * Zpos my)%Z) in *.
    set (e := IntDef.Z.add ex ey) in *.
    assert (Ee : e = (ex + ey)%Z) by reflexivity.
    assert (Hm0 : (0 <= m)%Z) by (unfold m; lia).
    assert (Hm1 : (m < m + 1)%Z) by lia.
    assert (HX : 0 < scaled m e).
    { rewrite <- (scaled_zero e). apply scaled_lt. unfold m. lia. }
    assert (Hc : (e <= fexp B64.prec B64.emax (Zdigits2 m + e))%Z).
    { pose proof (digits_mul_ge (Zpos mx) (Zpos my) ltac:(lia) ltac:(lia)) as Hd.
      fold m in Hd.
      assert (1 <= Zdigits2 (Zpos mx))%Z by (simpl; lia).
      assert (1 <= Zdigits2 (Zpos my))%Z by (simpl; lia).
      rewrite fexp_eq in *. lia. }
    destruct (binary_round_aux_signed (xorb sx sy) m e loc_Exact (scaled m e)
                (vx * vy) Hm0 HX (Qeq_refl _) (or_introl eq_refl))
      as (w & Ew & Hr & _ & Hrep & Hval).
    { rewrite Hx, Hy.
      assert (Hme : scaled m e == scaled (Zpos mx) ex * scaled (Zpos my) ey).
      { unfold m. rewrite Ee. apply scaled_mult. }
      destruct sx, sy; cbn [xorb cond_Zopp];
        change (Zneg mx) with (- Zpos mx)%Z; change (Zneg my) with (- Zpos my)%Z;
        rewrite ?scaled_opp, Hme; ring. }
    { exact Hfin. }
    exists w. split; [split; [apply Hval; exact Hc|]; exists w; split;
                      [exact Ew | reflexivity]|].
    split; [exact Hr | apply Hrep; reflexivity].
Qed.

Lemma new_location_spec (nb k : Z) :
  (0 <= k < nb)%Z ->
  match new_location nb k with
  | loc_Exact => k = 0%Z
  | loc_Inexact Lt => (0 < 2 * k < nb)%Z
  | loc_Inexact Eq => (0 < k /\ 2 * k = nb)%Z
  | loc_Inexact Gt => (nb < 2 * k)%Z
  end.
Proof.
  intros Hk. unfold new_location, new_location_even, new_location_odd.
  change (IntDef.Z.even nb) with (Z.even nb).
  change (IntDef.Z.eqb k 0) with (Z.eqb k 0).
  change (IntDef.Z.compare (IntDef.Z.mul 2 k) nb) with (Z.compare (2 * k) nb).
  change (IntDef.Z.compare (IntDef.Z.add (IntDef.Z.mul 2 k) 1) nb)
    with (Z.compare (2 * k + 1) nb).
  destruct (Z.even nb) eqn:Ev; destruct (Z.eqb_spec k 0) as [E|N]; try exact E.
  - destruct (Z.compare_spec (2 * k) nb); lia.
  - assert (Ho : Z.odd nb = true) by (rewrite <- Z.negb_even, Ev; reflexivity).
    apply Z.odd_spec in Ho. destruct Ho as (c & Hc).
    destruct (Z.compare_spec (2 * k + 1) nb); lia.
Qed.

Lemma div_core_spec (mx my : positive) (ex ey : Z) (X : Q) :
  X * scaled (Zpos my) ey == scaled (Zpos mx) ex ->
  let res := SFdiv_core_binary B64.prec B64.emax (Zpos mx) ex (Zpos my) ey in
  let q := fst (fst res) in
  let e' := snd (fst res) in
  let l := snd res in
  (0 <= q)%Z /\ located X q e' l
  /\ (e' <= fexp B64.prec B64.emax (Zdigits2 q + e'))%Z.
Proof.
  intros HX. unfold SFdiv_core_binary.
  set (d1 := Zdigits2 (Zpos mx)). set (d2 := Zdigits2 (Zpos my)).
  set (e0 := IntDef.Z.min (fexp B64.prec B64.emax (IntDef.Z.sub (IntDef.Z.add d1 ex)
                                                     (IntDef.Z.add d2 ey)))
                          (IntDef.Z.sub ex ey)).
  assert (Ee0 : e0 = Z.min (fexp B64.prec B64.emax (d1 + ex - (d2 + ey))) (ex - ey))
    by reflexivity.
  clearbody e0.
  assert (Hmin : (e0 <= ex - ey)%Z) by (rewrite Ee0; apply Z.le_min_r).
  rewrite fexp_eq in Ee0.
  set (s := IntDef.Z.sub (IntDef.Z.sub ex ey) e0).
  assert (Es : s = (ex - ey - e0)%Z) by reflexivity.
  clearbody s.
  assert (Hs : (0 <= s)%Z) by lia.
  set (m' := match s with
             | Zpos _ => IntDef.Z.shiftl (Zpos mx) s
             | Z0 => Zpos mx
             | Zneg _ => Z0
             end).
  assert (Em' : m' = (Zpos mx * 2 ^ s)%Z).
  { unfold m'. destruct s as [|p|p] eqn:Esp; cbv beta iota; try lia.
    change (IntDef.Z.shiftl (Zpos mx) (Zpos p)) with (Z.shiftl (Zpos mx) (Zpos p)).
    apply Z.shiftl_mul_pow2. lia. }
  pose proof (Z_div_mod m' (Zpos my) ltac:(lia)) as Hdm.
  change (IntDef.Z.div_eucl m' (Zpos my)) with (Z.div_eucl m' (Zpos my)).
  destruct (Z.div_eucl m' (Zpos my)) as [q r]. cbn [fst snd].
  destruct Hdm as (Hm' & Hr).
  assert (Hp : (0 < 2 ^ s)%Z) by (apply pow2_pos; exact Hs).
  assert (Hq0 : (0 <= q)%Z) by nia.
  assert (Hy0 : 0 < scaled (Zpos my) ey).
  { rewrite <- (scaled_zero ey). apply scaled_lt. lia. }
  assert (Hnum : scaled (Zpos mx) ex == scaled m' (e0 + ey)).
  { rewrite Em', scaled_shift by exact Hs.
    replace (e0 + ey + s)%Z with ex by lia. reflexivity. }
  assert (Hnum2 : scaled (Zpos mx) ex == scaled (2 * m') (e0 - 1 + ey)).
  { rewrite Hnum. replace (2 * m')%Z with (m' * 2 ^ 1)%Z by lia.
    rewrite scaled_shift by lia.
    replace (e0 - 1 + ey + 1)%Z with (e0 + ey)%Z by lia. reflexivity. }
  assert (Hcmp : forall c : Z, scaled c (e0 - 1) * scaled (Zpos my) ey
                               == scaled (c * Zpos my) (e0 - 1 + ey)).
  { intros c. rewrite scaled_mult. reflexivity. }
  assert (Hblo : forall c : Z, (c * Zpos my < 2 * m')%Z -> scaled c (e0 - 1) < X).
  { intros c Hc. apply (Qmult_lt_r _ _ (scaled (Zpos my) ey) Hy0).
    rewrite HX, Hcmp, Hnum2. apply scaled_lt. exact Hc. }
  assert (Hbhi : forall c : Z, (2 * m' < c * Zpos my)%Z -> X < scaled c (e0 - 1)).
  { intros c Hc. apply (Qmult_lt_r _ _ (scaled (Zpos my) ey) Hy0).
    rewrite HX, Hcmp, Hnum2. apply scaled_lt. exact Hc. }
  assert (Heq : forall c : Z, (c * Zpos my = 2 * m')%Z -> X == scaled c (e0 - 1)).
  { intros c Hc. apply (Qmult_inj_r _ _ (scaled (Zpos my) ey)); [lra|].
    rewrite HX, Hcmp, Hnum2, Hc. reflexivity. }
  split; [exact Hq0|]. split.
  - pose proof (new_location_spec (Zpos my) r Hr) as Hl.
    destruct (new_location (Zpos my) r) as [|[]]; unfold located.
    + rewrite (Heq (q * 2 ^ 1)%Z) by lia.
      rewrite scaled_shift by lia.
      replace (e0 - 1 + 1)%Z with e0 by lia. reflexivity.
    + apply Heq. lia.
    + split; [apply Hblo | apply Hbhi]; lia.
    + split; [apply Hblo | apply Hbhi]; lia.
  - rewrite fexp_eq in *.
    pose proof (digits_ge_pow (Zpos mx) ltac:(lia)) as H1. fold d1 in H1.
    pose proof (digits_lt_pow (Zpos my) ltac:(lia)) as H2. fold d2 in H2.
    assert (Hd1 : (1 <= d1)%Z) by (unfold d1; simpl; lia).
    assert (Hd2 : (1 <= d2)%Z) by (unfold d2; simpl; lia).
    pose proof (digits_nonneg q) as Hdq.
    destruct (Z_le_gt_dec d2 (d1 - 1 + s)) as [Hj|Hj].
    + assert (Hq : (2 ^ (d1 - 1 + s - d2) <= q)%Z).
      { assert (Hpow : (2 ^ (d1 - 1 + s) = 2 ^ (d1 - 1 + s - d2) * 2 ^ d2)%Z).
        { rewrite <- Z.pow_add_r by lia. f_equal. lia. }
        assert (Hm2 : (2 ^ (d1 - 1 + s) <= m')%Z).
        { rewrite Em'. rewrite Z.pow_add_r by lia. nia. }
        assert (Hpj : (0 < 2 ^ (d1 - 1 + s - d2))%Z) by (apply pow2_pos; lia).
        assert (Hqq : (q = m' / Zpos my)%Z).
        { apply (Z.div_unique_pos m' (Zpos my) q r); lia. }
        rewrite Hqq. apply Z.div_le_lower_bound; [lia|]. nia. }
      assert (Hdig : (d1 + s - d2 <= Zdigits2 q)%Z).
      { destruct (Z_le_gt_dec (d1 + s - d2) (Zdigits2 q)) as [|Hgt]; [assumption|].
        exfalso. pose proof (digits_lt_pow q Hq0) as Hlt.
        assert (2 ^ Zdigits2 q <= 2 ^ (d1 - 1 + s - d2))%Z
          by (apply Z.pow_le_mono_r; lia).
        lia. }
      lia.
    + lia.
Qed.

Lemma div_value (x y : B64.float) (vx vy : Q) :
  denotes x vx -> denotes y vy -> ~ vy == 0 ->
  (B64.is_finite (B64.div x y) = true \/ Qabs (vx / vy) < 2 ^ 971) ->
  exists v, denotes (B64.div x y) v /\ rounds (vx / vy) v.
Proof.
  intros Hx Hy Hnz Hfin.
  destruct x as [sx|sx| |sx mx ex]; try (destruct Hx as (_ & w & E & _); discriminate E);
    destruct y as [sy|sy| |sy my ey]; try (destruct Hy as (_ & w & E & _); discriminate E).
  - exfalso. apply Hnz. apply (denotes_zero_inv sy). exact Hy.
  - apply denotes_zero_inv in Hx. exists 0. split; [apply denotes_zero|].
    apply rounds_exact. rewrite Hx. field. exact Hnz.
  - exfalso. apply Hnz. apply (denotes_zero_inv sy). exact Hy.
  - apply denotes_finite_inv in Hx, Hy.
    unfold B64.div, SFdiv in *.
    assert (Hy0 : 0 < scaled (Zpos my) ey).
    { rewrite <- (scaled_zero ey). apply scaled_lt. lia. }
    assert (Hx0 : 0 < scaled (Zpos mx) ex).
    { rewrite <- (scaled_zero ex). apply scaled_lt. lia. }
    set (X := scaled (Zpos mx) ex / scaled (Zpos my) ey).
    assert (HXm : X * scaled (Zpos my) ey == scaled (Zpos mx) ex).
    { unfold X. field. lra. }
    assert (HX0 : 0 < X).
    { unfold X. apply Qlt_shift_div_l; [exact Hy0 | lra]. }
    destruct (div_core_spec mx my ex ey X HXm) as (Hq0 & Hloc & Hc).
    destruct (SFdiv_core_binary B64.prec B64.emax (Zpos mx) ex (Zpos my) ey)
      as [[q e'] l]. cbn [fst snd] in Hq0, Hloc, Hc.
    destruct (binary_round_aux_signed (xorb sx sy) q e' l X (vx / vy)
                Hq0 HX0 Hloc (or_intror Hc))
      as (w & Ew & Hr & _ & _ & Hval).
    { rewrite Hx, Hy. unfold X.
      destruct sx, sy; cbn [xorb cond_Zopp];
        change (Zneg mx) with (- Zpos mx)%Z; change (Zneg my) with (- Zpos my)%Z;
        rewrite ?scaled_opp; field; lra. }
    { exact Hfin. }
    exists w. split; [split; [apply Hval; exact Hc|]; exists w; split;
                      [exact Ew | reflexivity]|].
    exact Hr.
Qed.

Lemma ofZ_value (z : Z) : (Z.abs z < 2 ^ 53)%Z -> denotes (B64.ofZ z) (inject_Z z).
Proof.
  intros Hz.
  assert (Hfin : B64.is_finite (B64.ofZ z) = true \/ Qabs (inject_Z z) < 2 ^ 971).
  { left. apply (small_finite 54). apply (ofZ_small 53); lia. }
  assert (Hx : inject_Z z == scaled z 0).
  { unfold scaled. change (2 ^ 0) with 1. ring. }
  unfold B64.ofZ in *.
  destruct (binary_normalize_value z 0 false (inject_Z z) Hx Hfin)
    as (w & Ew & _ & _ & Hrep & Hval).
  split; [exact Hval|]. exists w. split; [exact Ew|].
  apply Hrep. exists z, 0%Z. split; [exact Hz|]. split; [lia | exact Hx].
Qed.

Lemma scaled_pos (m : positive) (e : Z) : 0 < scaled (Zpos m) e.
Proof. rewrite <- (scaled_zero e). apply scaled_lt. lia. Qed.

Lemma scaled_neg (m : positive) (e : Z) : scaled (Zneg m) e < 0.
Proof. rewrite <- (scaled_zero e). apply scaled_lt. lia. Qed.

(** Of two binary64 magnitudes in canonical form the one with the lower
    exponent is the lesser. *)
Lemma canonical_lt (s1 s2 : bool) (m1 m2 : positive) (e1 e2 : Z) :
  B64.valid (S754_finite s1 m1 e1) = true ->
  B64.valid (S754_finite s2 m2 e2) = true ->
  (e1 < e2)%Z -> scaled (Zpos m1) e1 < scaled (Zpos m2) e2.
Proof.
  intros H1 H2 Hlt.
  destruct (valid_finite _ _ _ H1) as (Hc1 & _ & He1 & Hd1).
  destruct (valid_finite _ _ _ H2) as (Hc2 & _ & He2 & Hd2).
  rewrite fexp_eq in Hc1, Hc2.
  assert (Hd : Zdigits2 (Zpos m2) = 53%Z) by lia.
  pose proof (scaled_digits_hi (Zpos m1) e1 ltac:(lia)) as Hhi.
  pose proof (scaled_digits_lo (Zpos m2) e2 ltac:(lia)) as Hlo.
  assert (Hp : 2 ^ (Zdigits2 (Zpos m1) + e1) <= 2 ^ (Zdigits2 (Zpos m2) - 1 + e2))
    by (apply q2_le; lia).
  lra.
Qed.

Lemma compare_value (a b : B64.float) (va vb : Q) :
  denotes a va -> denotes b vb -> SFcompare a b = Some (va ?= vb).
Proof.
  intros Ha Hb.
  assert (Eeq : va == vb -> Some Eq = Some (va ?= vb)).
  { intros E. f_equal. symmetry. apply Qeq_alt. exact E. }
  assert (Elt : va < vb -> Some Lt = Some (va ?= vb)).
  { intros E. f_equal. symmetry. apply Qlt_alt. exact E. }
  assert (Egt : vb < va -> Some Gt = Some (va ?= vb)).
  { intros E. f_equal. symmetry. apply Qgt_alt. exact E. }
  destruct a as [sa|sa| |sa ma ea]; try (destruct Ha as (_ & w & E & _); discriminate E);
    destruct b as [sb|sb| |sb mb eb]; try (destruct Hb as (_ & w & E & _); discriminate E).
  - apply denotes_zero_inv in Ha. apply denotes_zero_inv in Hb.
    cbn [SFcompare]. apply Eeq. rewrite Ha, Hb. reflexivity.
  - apply denotes_zero_inv in Ha. apply denotes_finite_inv in Hb. cbn [SFcompare].
    pose proof (scaled_pos mb eb).
    destruct sb; cbn [cond_Zopp] in Hb.
    + rewrite scaled_opp in Hb. apply Egt. lra.
    + apply Elt. lra.
  - apply denotes_zero_inv in Hb. apply denotes_finite_inv in Ha. cbn [SFcompare].
    pose proof (scaled_pos ma ea).
    destruct sa; cbn [cond_Zopp] in Ha.
    + rewrite scaled_opp in Ha. apply Elt. lra.
    + apply Egt. lra.
  - pose proof (proj1 Ha) as Va. pose proof (proj1 Hb) as Vb.
    apply denotes_finite_inv in Ha, Hb. cbn [SFcompare].
    pose proof (scaled_pos ma ea) as Pa. pose proof (scaled_pos mb eb) as Pb.
    pose proof (scaled_opp (Zpos ma) ea) as Na.
    pose proof (scaled_opp (Zpos mb) eb) as Nb.
    assert (Hmag : match Z.compare ea eb with
                   | Lt => scaled (Zpos ma) ea < scaled (Zpos mb) eb
                   | Gt => scaled (Zpos mb) eb < scaled (Zpos ma) ea
                   | Eq => match Pos.compare_cont Eq ma mb with
                           | Lt => scaled (Zpos ma) ea < scaled (Zpos mb) eb
                           | Gt => scaled (Zpos mb) eb < scaled (Zpos ma) ea
                           | Eq => scaled (Zpos ma) ea == scaled (Zpos mb) eb
                           end
                   end).
    { destruct (Z.compare_spec ea eb) as [E|E|E].
      - subst eb. change (Pos.compare_cont Eq ma mb) with (Pos.compare ma mb).
        destruct (Pos.compare_spec ma mb) as [E|E|E].
        + subst mb. reflexivity.
        + apply scaled_lt. lia.
        + apply scaled_lt. lia.
      - apply (canonical_lt sa sb); assumption.
      - apply (canonical_lt sb sa); assumption. }
    change (IntDef.Z.compare ea eb) with (Z.compare ea eb).
    destruct sa, sb; cbn [cond_Zopp] in Ha, Hb.
    + destruct (Z.compare ea eb).
      * destruct (Pos.compare_cont Eq ma mb); cbn [CompOpp];
          [apply Eeq | apply Egt | apply Elt]; lra.
      * apply Egt. lra.
      * apply Elt. lra.
    + apply Elt. lra.
    + apply Egt. lra.
    + destruct (Z.compare ea eb).
      * destruct (Pos.compare_cont Eq ma mb); [apply Eeq | apply Elt | apply Egt]; lra.
      * apply Elt. lra.
      * apply Egt. lra.
Qed.

Lemma ltb_value (a b : B64.float) (va vb : Q) :
  denotes a va -> denotes b vb -> (B64.ltb a b = true <-> va < vb).
Proof.
  intros Ha Hb. unfold B64.ltb, SFltb. rewrite (compare_value a b va vb Ha Hb).
  destruct (va ?= vb) eqn:E.
  - apply Qeq_alt in E. split; [discriminate | lra].
  - apply Qlt_alt in E. split; [intros _; exact E | reflexivity].
  - apply Qgt_alt in E. split; [discriminate | lra].
Qed.

Lemma leb_value (a b : B64.float) (va vb : Q) :
  denotes a va -> denotes b vb -> (B64.leb a b = true <-> va <= vb).
Proof.
  intros Ha Hb. unfold B64.leb, SFleb. rewrite (compare_value a b va vb Ha Hb).
  destruct (va ?= vb) eqn:E.
  - apply Qeq_alt in E. split; [lra | reflexivity].
  - apply Qlt_alt in E. split; [lra | reflexivity].
  - apply Qgt_alt in E. split; [discriminate | lra].
Qed.

Lemma gtb_value (a b : B64.float) (va vb : Q) :
  denotes a va -> denotes b vb -> (B64.gtb a b = true <-> vb < va).
Proof.
  intros Ha Hb. unfold B64.gtb. rewrite (compare_value a b va vb Ha Hb).
  destruct (va ?= vb) eqn:E.
  - apply Qeq_alt in E. split; [discriminate | lra].
  - apply Qlt_alt in E. split; [discriminate | lra].
  - apply Qgt_alt in E. split; [intros _; exact E | reflexivity].
Qed.

Lemma geb_value (a b : B64.float) (va vb : Q) :
  denotes a va -> denotes b vb -> (B64.geb a b = true <-> vb <= va).
Proof.
  intros Ha Hb. unfold B64.geb. rewrite (compare_value a b va vb Ha Hb).
  destruct (va ?= vb) eqn:E.
  - apply Qeq_alt in E. split; [lra | reflexivity].
  - apply Qlt_alt in E. split; [discriminate | lra].
  - apply Qgt_alt in E. split; [lra | reflexivity].
Qed.

Lemma abs_value (a : B64.float) (va : Q) :
  denotes a va -> denotes (B64.abs a) (Qabs va).
Proof.
  intros Ha.
  destruct a as [s|s| |s m e]; try (destruct Ha as (_ & w & E & _); discriminate E).
  - apply denotes_zero_inv in Ha. apply (denotes_eq _ 0); [apply denotes_zero|].
    rewrite Ha. reflexivity.
  - pose proof (proj1 Ha) as Hv. apply denotes_finite_inv in Ha.
    destruct (toQ_finite false m e) as (w & Ew & Hw).
    split; [exact Hv|]. exists w. split; [exact Ew|].
    rewrite Hw, Ha. cbn [cond_Zopp]. pose proof (scaled_pos m e) as Hp.
    destruct s; cbn [cond_Zopp].
    + change (Zneg m) with (- Zpos m)%Z. rewrite scaled_opp, Qabs_opp.
      symmetry. apply Qabs_pos. lra.
    + symmetry. apply Qabs_pos. lra.
Qed.

Lemma min2_value (a b : B64.float) (va vb : Q) :
  denotes a va -> denotes b vb ->
  exists v, denotes (B64.min2 a b) v /\ v <= va /\ v <= vb
            /\ (v == va \/ v == vb)
            /\ (B64.min2 a b = a \/ B64.min2 a b = b).
Proof.
  intros Ha Hb. unfold B64.min2. rewrite (compare_value a b va vb Ha Hb).
  destruct (va ?= vb) eqn:E.
  - apply Qeq_alt in E.
    destruct a as [[|]|sa| |sa ma ea].
    + exists va. split; [exact Ha|]. repeat split; try lra; auto.
    + exists vb. split; [exact Hb|]. repeat split; try lra; auto.
    + exists vb. split; [exact Hb|]. repeat split; try lra; auto.
    + exists vb. split; [exact Hb|]. repeat split; try lra; auto.
    + exists vb. split; [exact Hb|]. repeat split; try lra; auto.
  - apply Qlt_alt in E. exists va. split; [exact Ha|]. repeat split; try lra; auto.
  - apply Qgt_alt in E. exists vb. split; [exact Hb|]. repeat split; try lra; auto.
Qed.

Lemma max2_value (a b : B64.float) (va vb : Q) :
  denotes a va -> denotes b vb ->
  exists v, denotes (B64.max2 a b) v /\ va <= v /\ vb <= v
            /\ (v == va \/ v == vb)
            /\ (B64.max2 a b = a \/ B64.max2 a b = b).
Proof.
  intros Ha Hb. unfold B64.max2. rewrite (compare_value a b va vb Ha Hb).
  destruct (va ?= vb) eqn:E.
  - apply Qeq_alt in E.
    destruct a as [[|]|sa| |sa ma ea].
    + exists vb. split; [exact Hb|]. repeat split; try lra; auto.
    + exists va. split; [exact Ha|]. repeat split; try lra; auto.
    + exists vb. split; [exact Hb|]. repeat split; try lra; auto.
    + exists vb. split; [exact Hb|]. repeat split; try lra; auto.
    + exists vb. split; [exact Hb|]. repeat split; try lra; auto.
  - apply Qlt_alt in E. exists vb. split; [exact Hb|]. repeat split; try lra; auto.
  - apply Qgt_alt in E. exists va. split; [exact Ha|]. repeat split; try lra; auto.
Qed.

Lemma rounds_abs (x v : Q) (K : Z) :
  rounds x v -> (-1021 <= K)%Z -> Qabs x < 2 ^ K -> Qabs (v - x) <= 2 ^ (K - 54).
Proof. intros (_ & _ & _ & _ & H) HK Hx. apply H; assumption. Qed.

Lemma rounds_nonneg (x v : Q) : rounds x v -> 0 <= x -> 0 <= v.
Proof. intros (_ & H & _) Hx. apply H, Hx. Qed.

Lemma rounds_nonpos (x v : Q) : rounds x v -> x <= 0 -> v <= 0.
Proof. intros (_ & _ & H & _) Hx. apply H, Hx. Qed.

Lemma rounds_rel (x v : Q) :
  rounds x v -> Qabs (v - x) <= unit_roundoff * Qabs x + eta.
Proof. intros (H & _). exact H. Qed.

Lemma denotes_representable (a : B64.float) (v : Q) : denotes a v -> representable v.
Proof.
  intros Ha. destruct a as [s|s| |s m e];
    try (destruct Ha as (_ & w & E & _); discriminate E).
  - apply denotes_zero_inv in Ha. exists 0%Z, 0%Z.
    split; [reflexivity|]. split; [lia|]. rewrite Ha, scaled_zero. reflexivity.
  - destruct (valid_finite _ _ _ (proj1 Ha)) as (_ & _ & He & Hd).
    apply denotes_finite_inv in Ha.
    exists (cond_Zopp s (Zpos m)), e. split; [|split; [exact He | exact Ha]].
    pose proof (digits_lt_pow (Zpos m) ltac:(lia)) as Hlt.
    assert (Hp : (2 ^ Zdigits2 (Zpos m) <= 2 ^ 53)%Z)
      by (apply Z.pow_le_mono_r; lia).
    destruct s; cbn [cond_Zopp]; lia.
Qed.

Lemma representable_double (v : Q) : representable v -> representable (v * 2).
Proof.
  intros (N & E & HN & HE & Hv). exists N, (E + 1)%Z.
  split; [exact HN|]. split; [lia|].
  rewrite Hv. unfold scaled. rewrite (Z.add_comm E 1), q2_add.
  change (2 ^ 1) with 2. ring.
Qed.

Lemma Qfloor_unique (q : Q) (n : Z) :
  inject_Z n <= q -> q < inject_Z (n + 1) -> Qfloor q = n.
Proof.
  intros H1 H2.
  pose proof (Qfloor_le q) as H3. pose proof (Qlt_floor q) as H4.
  assert (Ha : (Qfloor q < n + 1)%Z) by (rewrite Zlt_Qlt; lra).
  assert (Hb : (n < Qfloor q + 1)%Z) by (rewrite Zlt_Qlt; lra).
  lia.
Qed.

Lemma scaled_int (z : Z) : scaled z 0 == inject_Z z.
Proof. unfold scaled. change (2 ^ 0) with 1. ring. Qed.

Lemma Qabs_inject (z : Z) : Qabs (inject_Z z) == inject_Z (Z.abs z).
Proof.
  destruct (Z_le_gt_dec 0 z) as [H|H].
  - rewrite Z.abs_eq by exact H. apply Qabs_pos.
    change 0 with (inject_Z 0). rewrite <- Zle_Qle. exact H.
  - rewrite Z.abs_neq by lia. rewrite Qabs_neg.
    + rewrite inject_Z_opp. reflexivity.
    + change 0 with (inject_Z 0). rewrite <- Zle_Qle. lia.
Qed.

(** An integer below [2^53] in absolute value, normalized with either
    sign of zero, is held exactly. *)
Lemma normalize_int_value (z : Z) (sz : bool) :
  (Z.abs z < 2 ^ 53)%Z ->
  denotes (binary_normalize B64.prec B64.emax z 0 sz) (inject_Z z).
Proof.
  intros Hz.
  assert (Hx : inject_Z z == scaled z 0) by (symmetry; apply scaled_int).
  assert (Hfin : B64.is_finite (binary_normalize B64.prec B64.emax z 0 sz) = true
                 \/ Qabs (inject_Z z) < 2 ^ 971).
  { right. rewrite Qabs_inject.
    apply Qlt_trans with (inject_Z (2 ^ 53)).
    - rewrite <- Zlt_Qlt. exact Hz.
    - reflexivity. }
  destruct (binary_normalize_value z 0 sz (inject_Z z) Hx Hfin)
    as (w & Ew & _ & _ & Hrep & Hval).
  split; [exact Hval|]. exists w. split; [exact Ew|].
  apply Hrep. exists z, 0%Z. split; [exact Hz|]. split; [lia | exact Hx].
Qed.

Lemma floor_value (a : B64.float) (v : Q) :
  denotes a v -> denotes (B64.floor a) (inject_Z (Qfloor v)).
Proof.
  intros Ha. destruct a as [s|s| |s m e];
    try (destruct Ha as (_ & w & E & _); discriminate E).
  - pose proof (denotes_zero_inv _ _ Ha) as Hv. cbn [B64.floor].
    apply (denotes_eq _ 0); [apply denotes_zero|].
    rewrite Hv. reflexivity.
  - destruct (valid_finite _ _ _ (proj1 Ha)) as (_ & _ & He & Hd).
    pose proof (denotes_finite_inv _ _ _ _ Ha) as Hv.
    set (z := cond_Zopp s (Zpos m)) in *.
    assert (Hz : (Z.abs z < 2 ^ 53)%Z).
    { pose proof (digits_lt_pow (Zpos m) ltac:(lia)) as Hlt.
      assert (Hp : (2 ^ Zdigits2 (Zpos m) <= 2 ^ 53)%Z)
        by (apply Z.pow_le_mono_r; lia).
      unfold z. destruct s; cbn [cond_Zopp]; lia. }
    unfold B64.floor. destruct (Z.leb_spec 0 e) as [H0|H0].
    + apply (denotes_eq _ v); [exact Ha|].
      assert (Hi : v == inject_Z (z * 2 ^ e)).
      { rewrite Hv. rewrite <- scaled_int. rewrite scaled_shift by lia.
        reflexivity. }
      rewrite Hi. rewrite Qfloor_Z. reflexivity.
    + destruct e as [|p|p]; try lia.
      unfold B64.floorZ. fold z.
      rewrite Z.shiftr_div_pow2 by lia.
      set (k := (z / 2 ^ Zpos p)%Z).
      assert (Hp : (0 < 2 ^ Zpos p)%Z) by (apply pow2_pos; lia).
      pose proof (Z.div_mod z (2 ^ Zpos p) ltac:(lia)) as Hdm.
      pose proof (Z.mod_pos_bound z (2 ^ Zpos p) Hp) as Hmod.
      fold k in Hdm.
      assert (Hk : Qfloor v = k).
      { apply Qfloor_unique; rewrite Hv, <- scaled_int.
        - replace 0%Z with (Zneg p + Zpos p)%Z by lia.
          rewrite <- scaled_shift by lia. apply scaled_mono. lia.
        - replace 0%Z with (Zneg p + Zpos p)%Z by lia.
          rewrite <- scaled_shift by lia. apply scaled_lt. lia. }
      rewrite Hk. apply normalize_int_value.
      assert (Hkz : (Z.abs k <= Z.abs z)%Z) by nia.
      lia.
Qed.

(** [Math.min] and [Math.max] over values that are numbers. *)
Lemma fold_min_value (rest : list B64.float) (a : B64.float) (va : Q) :
  denotes a va ->
  Forall (fun b => exists vb, denotes b vb) rest ->
  exists v, denotes (fold_left B64.min2 rest a) v
            /\ v <= va
            /\ (forall b vb, In b rest -> denotes b vb -> v <= vb)
            /\ In (fold_left B64.min2 rest a) (a :: rest).
Proof.
  revert a va. induction rest as [|b rest IH]; intros a va Ha Hall.
  - exists va. cbn [fold_left]. split; [exact Ha|]. split; [apply Qle_refl|].
    split; [intros b vb []|]. left. reflexivity.
  - inversion Hall as [|b' rest' (vb & Hb) Hrest]; subst.
    destruct (min2_value a b va vb Ha Hb) as (v0 & Hd0 & H0a & H0b & _ & Hsel).
    destruct (IH (B64.min2 a b) v0 Hd0 Hrest) as (v & Hd & Hle & Hothers & Hin).
    exists v. cbn [fold_left]. split; [exact Hd|]. split; [lra|]. split.
    + intros c vc [<-|Hc] Hdc.
      * pose proof (denotes_unique _ _ _ Hb Hdc) as E. lra.
      * apply (Hothers c vc Hc Hdc).
    + destruct Hin as [E|Hin].
      * rewrite <- E. destruct Hsel as [->| ->]; [left | right; left]; reflexivity.
      * right. right. exact Hin.
Qed.

Lemma fold_max_value (rest : list B64.float) (a : B64.float) (va : Q) :
  denotes a va ->
  Forall (fun b => exists vb, denotes b vb) rest ->
  exists v, denotes (fold_left B64.max2 rest a) v
            /\ va <= v
            /\ (forall b vb, In b rest -> denotes b vb -> vb <= v)
            /\ In (fold_left B64.max2 rest a) (a :: rest).
Proof.
  revert a va. induction rest as [|b rest IH]; intros a va Ha Hall.
  - exists va. cbn [fold_left]. split; [exact Ha|]. split; [apply Qle_refl|].
    split; [intros b vb []|]. left. reflexivity.
  - inversion Hall as [|b' rest' (vb & Hb) Hrest]; subst.
    destruct (max2_value a b va vb Ha Hb) as (v0 & Hd0 & H0a & H0b & _ & Hsel).
    destruct (IH (B64.max2 a b) v0 Hd0 Hrest) as (v & Hd & Hle & Hothers & Hin).
    exists v. cbn [fold_left]. split; [exact Hd|]. split; [lra|]. split.
    + intros c vc [<-|Hc] Hdc.
      * pose proof (denotes_unique _ _ _ Hb Hdc) as E. lra.
      * apply (Hothers c vc Hc Hdc).
    + destruct Hin as [E|Hin].
      * rewrite <- E. destruct Hsel as [->| ->]; [left | right; left]; reflexivity.
      * right. right. exact Hin.
Qed.

(** ** Binary64: [computeAffine] on collinear triangles *)

Lemma Qabs_bound (x b : Q) : - b <= x <= b -> Qabs x <= b.
Proof. intros H. apply Qabs_Qle_condition. exact H. Qed.

Lemma Qabs_bound_inv (x b : Q) : Qabs x <= b -> - b <= x <= b.
Proof. intros H. apply Qabs_Qle_condition. exact H. Qed.

Lemma prod_bound (x y bx by' : Q) :
  Qabs x <= bx -> Qabs y <= by' -> - (bx * by') <= x * y <= bx * by'.
Proof.
  intros Hx Hy. apply Qabs_Qle_condition. rewrite Qabs_Qmult.
  pose proof (Qabs_nonneg x). pose proof (Qabs_nonneg y).
  apply Qle_trans with (bx * Qabs y).
  - apply Qmult_le_compat_r; assumption.
  - rewrite !(Qmult_comm bx). apply Qmult_le_compat_r; [assumption | lra].
Qed.

(** The difference of two coordinates of the canvas, as binary64 computes
    it. *)
Lemma canvas_difference (a b : B64.float) (va vb : Q) :
  denotes a va -> denotes b vb -> 0 <= va <= 400 -> 0 <= vb <= 400 ->
  exists d, denotes (B64.sub a b) d
            /\ Qabs (d - (va - vb)) <= 2 ^ (-45)
            /\ Qabs (va - vb) <= 400.
Proof.
  intros Ha Hb Ba Bb.
  assert (Hab : Qabs (va - vb) <= 400) by (apply Qabs_bound; lra).
  destruct (sub_value _ _ _ _ Ha Hb) as (d & Hd & Rd & _).
  { right. eapply Qle_lt_trans; [exact Hab | reflexivity]. }
  exists d. split; [exact Hd|]. split; [|exact Hab].
  apply (rounds_abs _ _ 9 Rd); [lia|].
  eapply Qle_lt_trans; [exact Hab | reflexivity].
Qed.

(** The product of two such differences. *)
Lemma canvas_product (a b : B64.float) (va vb xa xb : Q) :
  denotes a va -> denotes b vb ->
  Qabs (va - xa) <= 2 ^ (-45) -> Qabs (vb - xb) <= 2 ^ (-45) ->
  Qabs xa <= 400 -> Qabs xb <= 400 ->
  exists p, denotes (B64.mul a b) p
            /\ Qabs (p - xa * xb) <= 2 ^ (-36) + 801 * 2 ^ (-45).
Proof.
  intros Ha Hb Ea Eb Xa Xb.
  assert (C45 : 2 ^ (-45) == 1 # 35184372088832) by reflexivity.
  assert (C36 : 2 ^ (-36) == 1 # 68719476736) by reflexivity.
  rewrite C45 in Ea, Eb.
  apply Qabs_bound_inv in Ea, Eb, Xa, Xb.
  assert (Ha' : Qabs va <= 401) by (apply Qabs_bound; lra).
  assert (Hb' : Qabs vb <= 401) by (apply Qabs_bound; lra).
  pose proof (prod_bound va vb 401 401 Ha' Hb') as Hp.
  assert (Hlt : Qabs (va * vb) < 2 ^ 18).
  { apply Qle_lt_trans with (401 * 401); [apply Qabs_bound; exact Hp | reflexivity]. }
  destruct (mul_value _ _ _ _ Ha Hb) as (p & Hd & Rp & _).
  { right. eapply Qlt_trans; [exact Hlt | reflexivity]. }
  exists p. split; [exact Hd|]. rewrite C36, C45.
  pose proof (rounds_abs _ _ 18 Rp ltac:(lia) Hlt) as Ep.
  change (18 - 54)%Z with (-36)%Z in Ep. rewrite C36 in Ep.
  apply Qabs_bound_inv in Ep.
  assert (E1 : Qabs (va - xa) <= 1 # 35184372088832) by (apply Qabs_bound; lra).
  assert (E2 : Qabs (vb - xb) <= 1 # 35184372088832) by (apply Qabs_bound; lra).
  assert (X1 : Qabs xa <= 400) by (apply Qabs_bound; lra).
  assert (X2 : Qabs xb <= 400) by (apply Qabs_bound; lra).
  pose proof (prod_bound _ _ _ _ E1 X2) as T1.
  pose proof (prod_bound _ _ _ _ X1 E2) as T2.
  pose proof (prod_bound _ _ _ _ E1 E2) as T3.
  apply Qabs_bound.
  setoid_replace (p - xa * xb)
    with ((p - va * vb) + ((va - xa) * xb + xa * (vb - xb) + (va - xa) * (vb - xb)))
    by ring.
  lra.
Qed.

Lemma tiny_value :
  denotes (B64.ofDec 1 10) (7737125245533627 # 77371252455336267181195264).
Proof.
  split; [vm_compute; reflexivity|].
  eexists. split; [vm_compute; reflexivity | reflexivity].
Qed.

(** On the canvas, the determinant of a triangle whose exact determinant
    is at most [2.4e-11] in absolute value -- a collinear triangle has
    [0] -- comes out below the threshold. *)
Lemma collinear_denominator (s0 s1 s2 : @Point B64.float) (q0 q1 q2 : Q * Q) :
  pointAt s0 q0 -> pointAt s1 q1 -> pointAt s2 q2 ->
  onCanvas q0 -> onCanvas q1 -> onCanvas q2 ->
  Qabs (orientQ q0 q1 q2) <= 24 # 1000000000000 ->
  B64.ltb (B64.abs (affineDenom (s0, s1, s2))) (B64.ofDec 1 10) = true.
Proof.
  intros (Hx0 & Hy0) (Hx1 & Hy1) (Hx2 & Hy2) (Bx0 & By0) (Bx1 & By1) (Bx2 & By2) Hcol.
  destruct q0 as [x1 y1], q1 as [x2 y2], q2 as [x3 y3].
  unfold orientQ in Hcol. cbn [fst snd] in *.
  unfold affineDenom.
  change (@sub B64.float _) with B64.sub. change (@mul B64.float _) with B64.mul.
  destruct (canvas_difference _ _ _ _ Hx0 Hx2 Bx0 Bx2) as (X13 & HX13 & EX13 & AX13).
  destruct (canvas_difference _ _ _ _ Hy1 Hy2 By1 By2) as (Y23 & HY23 & EY23 & AY23).
  destruct (canvas_difference _ _ _ _ Hx1 Hx2 Bx1 Bx2) as (X23 & HX23 & EX23 & AX23).
  destruct (canvas_difference _ _ _ _ Hy0 Hy2 By0 By2) as (Y13 & HY13 & EY13 & AY13).
  destruct (canvas_product _ _ _ _ _ _ HX13 HY23 EX13 EY23 AX13 AY23)
    as (P1 & HP1 & EP1).
  destruct (canvas_product _ _ _ _ _ _ HX23 HY13 EX23 EY13 AX23 AY13)
    as (P2 & HP2 & EP2).
  assert (C45 : 2 ^ (-45) == 1 # 35184372088832) by reflexivity.
  assert (C36 : 2 ^ (-36) == 1 # 68719476736) by reflexivity.
  rewrite C45, C36 in EP1, EP2.
  apply Qabs_bound_inv in EP1, EP2.
  assert (Hdet : Qabs ((x1 - x3) * (y2 - y3) - (x2 - x3) * (y1 - y3))
                 <= 24 # 1000000000000).
  { setoid_replace ((x1 - x3) * (y2 - y3) - (x2 - x3) * (y1 - y3))
      with ((x2 - x1) * (y3 - y1) - (y2 - y1) * (x3 - x1)) by ring.
    exact Hcol. }
  apply Qabs_bound_inv in Hdet.
  assert (HP : Qabs (P1 - P2) <= 99 # 1000000000000).
  { apply Qabs_bound. lra. }
  assert (Hlt : Qabs (P1 - P2) < 2 ^ (-33)).
  { eapply Qle_lt_trans; [exact HP | reflexivity]. }
  destruct (sub_value _ _ _ _ HP1 HP2) as (D & HD & RD & _).
  { right. eapply Qlt_trans; [exact Hlt | reflexivity]. }
  pose proof (rounds_abs _ _ (-33) RD ltac:(lia) Hlt) as ED.
  change (-33 - 54)%Z with (-87)%Z in ED.
  assert (C87 : 2 ^ (-87) == 1 # 154742504910672534362390528) by reflexivity.
  rewrite C87 in ED. apply Qabs_bound_inv in ED. apply Qabs_bound_inv in HP.
  apply (ltb_value _ _ _ _ (abs_value _ _ HD) tiny_value).
  apply Qle_lt_trans with (995 # 10000000000000); [|reflexivity].
  apply Qabs_bound. lra.
Qed.

(** A collinear triangle of the canvas, through [collinear_denominator]. *)
Example collinear_denominator_run :
  B64.ltb (B64.abs (affineDenom (dpt 10 10 0, dpt 20 30 0, dpt 30 50 0)))
          (B64.ofDec 1 10) = true.
Proof.
  apply (collinear_denominator _ _ _ (10, 10) (20, 30) (30, 50)).
  - split; split; try (vm_compute; reflexivity); eexists;
      (split; [vm_compute; reflexivity | reflexivity]).
  - split; split; try (vm_compute; reflexivity); eexists;
      (split; [vm_compute; reflexivity | reflexivity]).
  - split; split; try (vm_compute; reflexivity); eexists;
      (split; [vm_compute; reflexivity | reflexivity]).
  - split; split; vm_compute; discriminate.
  - split; split; vm_compute; discriminate.
  - split; split; vm_compute; discriminate.
  - vm_compute. discriminate.
Qed.

(** C3, counterexample.  The three vertices of [farCollinear] are finite
    and lie exactly on one line, yet in binary64 its determinant comes out
    as [-2^-33], above the threshold [1e-10] in absolute value: the guard
    does not fire, and [computeAffine] returns a map whose coefficient [a]
    exceeds a million in absolute value, not the identity. *)
Lemma computeAffine_collinear_not_identity :
  let '(s0, s1, s2) := farCollinear in
  let M := computeAffine farCollinear (dpt 0 0 0, dpt 100 0 0, dpt 0 100 0) in
  forallb finitePoint [s0; s1; s2] = true
  /\ (exists q0 q1 q2,
         toQPoint s0 = Some q0 /\ toQPoint s1 = Some q1 /\ toQPoint s2 = Some q2
         /\ orientQ q0 q1 q2 == 0)
  /\ affineDenom farCollinear = S754_finite true 4503599627370496 (-85)
  /\ B64.ltb (B64.abs (affineDenom farCollinear)) (B64.ofDec 1 10) = false
  /\ B64.gtb (B64.abs (a_ M)) (B64.ofZ 1000000) = true
  /\ M <> identityAffine.
Proof.
  cbv zeta. unfold farCollinear.
  split; [vm_compute; reflexivity|].
  split.
  { eexists. eexists. eexists.
    split; [vm_compute; reflexivity|].
    split; [vm_compute; reflexivity|].
    split; [vm_compute; reflexivity|].
    vm_compute. reflexivity. }
  split; [vm_compute; reflexivity|].
  split; [vm_compute; reflexivity|].
  split; [vm_compute; reflexivity|].
  intros H. apply (f_equal a_) in H. vm_compute in H. discriminate H.
Qed.

(** C3, amended.  In binary64, whenever the determinant of the source
    triangle, as the code computes it, is below [1e-10] in absolute value,
    [computeAffine] returns the identity map [(1, 0, 0, 0, 1, 0)], whatever
    the destination triangle, and its six coefficients are finite numbers.
    This is the case of every source triangle with finite vertices on the
    canvas, coordinates from 0 to 400, whose exact determinant is at most
    [2.4e-11] in absolute value: in particular of every perfectly collinear
    triangle of the canvas.  Evaluated without rounding, every collinear
    source triangle has determinant zero and gets the identity map. *)
Theorem computeAffine_degenerate_identity :
  (forall src dst : @Triangle B64.float,
      B64.ltb (B64.abs (affineDenom src)) (B64.ofDec 1 10) = true ->
      let M := computeAffine src dst in
      M = identityAffine
      /\ B64.is_finite (a_ M) = true /\ B64.is_finite (b_ M) = true
      /\ B64.is_finite (c_ M) = true /\ B64.is_finite (d_ M) = true
      /\ B64.is_finite (e_ M) = true /\ B64.is_finite (f_ M) = true)
  /\ (forall (s0 s1 s2 : @Point B64.float) (dst : @Triangle B64.float)
             (q0 q1 q2 : Q * Q),
         pointAt s0 q0 -> pointAt s1 q1 -> pointAt s2 q2 ->
         onCanvas q0 -> onCanvas q1 -> onCanvas q2 ->
         Qabs (orientQ q0 q1 q2) <= 24 # 1000000000000 ->
         computeAffine (s0, s1, s2) dst = identityAffine)
  /\ (forall (x1 y1 x2 y2 x3 y3 : Q) (dst : @Triangle Exact.num),
         (x1 - x3) * (y2 - y3) == (x2 - x3) * (y1 - y3) ->
         computeAffine (qpt x1 y1, qpt x2 y2, qpt x3 y3) dst
         = mkAffine (Some 1) (Some 0) (Some 0) (Some 0) (Some 1) (Some 0)).
Proof.
  split; [|split].
  - intros src dst Hlt M. unfold M.
    rewrite (@computeAffine_guard _ B64_Number src dst Hlt).
    repeat split; reflexivity.
  - intros s0 s1 s2 dst q0 q1 q2 H0 H1 H2 C0 C1 C2 Hdet.
    apply (@computeAffine_guard _ B64_Number).
    exact (collinear_denominator s0 s1 s2 q0 q1 q2 H0 H1 H2 C0 C1 C2 Hdet).
  - intros x1 y1 x2 y2 x3 y3 dst Hcol.
    rewrite (@computeAffine_guard Exact.num Exact_Number); [reflexivity|].
    unfold affineDenom, qpt. cbn [pX pY].
    rewrite ofDec_tiny.
    change (Exact.Qltb (Qabs ((x1 - x3) * (y2 - y3) - (x2 - x3) * (y1 - y3))) tiny = true).
    apply Qabs_zero_tiny. lra.
Qed.

(** ** Binary64: the range of [sampleBilinear] *)

Lemma clampTop_value : denotes clampTop (7019264639535940 # 17592186044416).
Proof.
  split; [vm_compute; reflexivity|].
  exists (7019264639535940 # 17592186044416). split; reflexivity.
Qed.

Lemma clamp_value (x : B64.float) :
  B64.valid x = true -> B64.is_nan x = false ->
  exists q, denotes (clampCoord 400 x) q /\ 0 <= q <= 399.
Proof.
  intros Hv Hn. unfold clampCoord.
  change (ofZ 400 - ofDec 1001 3)%js with clampTop.
  change (@max2 B64.float _) with B64.max2.
  change (@min2 B64.float _) with B64.min2.
  change (@ofZ B64.float _ 0) with (S754_zero false).
  assert (Hfin : B64.is_finite x = true ->
                 exists q, denotes (B64.max2 (S754_zero false) (B64.min2 clampTop x)) q
                           /\ 0 <= q <= 399).
  { intros Hf. destruct (denotes_exists x Hv Hf) as (vx & Hx).
    destruct (min2_value clampTop x _ vx clampTop_value Hx)
      as (v1 & Hd1 & H1a & H1b & _ & _).
    destruct (max2_value (S754_zero false) _ 0 v1 (denotes_zero false) Hd1)
      as (v2 & Hd2 & H2a & H2b & Hsel & _).
    exists v2. split; [exact Hd2|]. split; [exact H2a|].
    assert (Hct : 7019264639535940 # 17592186044416 <= 399) by (vm_compute; discriminate).
    destruct Hsel as [E|E]; rewrite E; lra. }
  destruct x as [s|s| |s m e]; try discriminate Hn.
  - apply Hfin. reflexivity.
  - destruct s.
    + exists 0. split; [apply denotes_zero|]. lra.
    + exists (7019264639535940 # 17592186044416).
      split; [exact clampTop_value|].
      split; vm_compute; discriminate.
  - apply Hfin. reflexivity.
Qed.

(** The fractional part of a clamped coordinate lies between 0 and 1. *)
Lemma fraction_value (x : B64.float) :
  B64.valid x = true -> B64.is_nan x = false ->
  exists f, denotes (B64.sub (clampCoord 400 x) (B64.floor (clampCoord 400 x))) f
            /\ 0 <= f <= 1.
Proof.
  intros Hv Hn. destruct (clamp_value x Hv Hn) as (q & Hq & Hq0 & Hq1).
  pose proof (floor_value _ _ Hq) as Hk.
  pose proof (Qfloor_le q) as Hlo. pose proof (Qlt_floor q) as Hhi.
  rewrite inject_Z_plus in Hhi. change (inject_Z 1) with 1 in Hhi.
  destruct (sub_value _ _ _ _ Hq Hk) as (f & Hf & Hr & _).
  { right. apply Qle_lt_trans with 1; [|reflexivity].
    apply Qabs_Qle_condition. lra. }
  exists f. split; [exact Hf|]. split.
  - apply (rounds_nonneg _ _ Hr). lra.
  - destruct Hr as (_ & _ & _ & HK & _).
    assert (Hlt : Qabs (q - inject_Z (Qfloor q)) < 2 ^ 0).
    { change (2 ^ 0) with 1. rewrite Qabs_pos by lra. lra. }
    pose proof (HK 0%Z ltac:(lia) Hlt) as Hle. change (2 ^ 0) with 1 in Hle.
    apply Qabs_Qle_condition in Hle. lra.
Qed.

Lemma readByte_value (data : list Z) (key : B64.float) (n : Z) :
  Forall byteOk data -> B64.toIndex key = Some n ->
  (0 <= n < Z.of_nat (length data))%Z ->
  exists b, denotes (readByte data key) b /\ 0 <= b <= 255.
Proof.
  intros Hb Hk Hn. unfold readByte.
  change (@toIndex B64.float _ key) with (B64.toIndex key). rewrite Hk.
  assert (Hr : (0 <=? n)%Z && (n <? Z.of_nat (length data))%Z = true).
  { apply andb_true_intro. split; [apply Z.leb_le | apply Z.ltb_lt]; lia. }
  rewrite Hr.
  destruct (nth_error data (Z.to_nat n)) as [b|] eqn:Hnth.
  - assert (Hbyte : byteOk b).
    { rewrite Forall_forall in Hb. apply Hb. eapply nth_error_In. exact Hnth. }
    unfold byteOk in Hbyte.
    change (@ofZ B64.float _ b) with (B64.ofZ b).
    exists (inject_Z b). split; [apply ofZ_value; lia|].
    split.
    + change 0 with (inject_Z 0). rewrite <- Zle_Qle. lia.
    + change 255 with (inject_Z 255). rewrite <- Zle_Qle. lia.
  - apply nth_error_None in Hnth. lia.
Qed.

(** One linear interpolation [p * (1 - f) + q * f] of two values from 0 to
    [B], with a weight from 0 to 1, stays from 0 to [B + 2^-42]. *)
Lemma lerp_value (p q f : B64.float) (vp vq vf B : Q) :
  denotes p vp -> denotes q vq -> denotes f vf ->
  0 <= vp <= B -> 0 <= vq <= B -> 0 <= vf <= 1 -> B <= 256 ->
  exists t, denotes (B64.add (B64.mul p (B64.sub (B64.ofZ 1) f)) (B64.mul q f)) t
            /\ 0 <= t <= B + 2 ^ (-42).
Proof.
  intros Hp Hq Hf (Hp0 & Hp1) (Hq0 & Hq1) (Hf0 & Hf1) HB.
  assert (H1 : denotes (B64.ofZ 1) 1) by (apply (ofZ_value 1); reflexivity).
  assert (C53 : 2 ^ (-53) == 1 # 9007199254740992) by reflexivity.
  assert (C45 : 2 ^ (-45) == 1 # 35184372088832) by reflexivity.
  assert (C44 : 2 ^ (-44) == 1 # 17592186044416) by reflexivity.
  assert (C42 : 2 ^ (-42) == 1 # 4398046511104) by reflexivity.
  (* 1 - f *)
  destruct (sub_value _ _ _ _ H1 Hf) as (g & Hg & Rg & _).
  { right. apply Qle_lt_trans with 1; [|reflexivity].
    apply Qabs_Qle_condition. lra. }
  pose proof (rounds_nonneg _ _ Rg ltac:(lra)) as Hg0.
  assert (Hg1 : g <= 1 - vf + 2 ^ (-53)).
  { assert (Hlt : Qabs (1 - vf) < 2 ^ 1).
    { apply Qle_lt_trans with 1; [|reflexivity]. apply Qabs_Qle_condition. lra. }
    pose proof (rounds_abs _ _ 1 Rg ltac:(lia) Hlt) as He.
    change (1 - 54)%Z with (-53)%Z in He.
    apply Qabs_Qle_condition in He. lra. }
  (* the two products *)
  assert (Hpg : 0 <= vp * g <= B * g).
  { split; [apply Qmult_le_0_compat; assumption|].
    apply Qmult_le_compat_r; assumption. }
  assert (Hqf : 0 <= vq * vf <= B * vf).
  { split; [apply Qmult_le_0_compat; assumption|].
    apply Qmult_le_compat_r; assumption. }
  assert (HB0 : 0 <= B) by lra.
  assert (HBg : B * g <= 256 * g) by (apply Qmult_le_compat_r; assumption).
  assert (HBf : B * vf <= 256 * vf) by (apply Qmult_le_compat_r; assumption).
  assert (HBg' : B * g <= B * (1 - vf + 2 ^ (-53))).
  { rewrite (Qmult_comm B g), (Qmult_comm B (1 - vf + 2 ^ (-53))).
    apply Qmult_le_compat_r; assumption. }
  assert (HB53 : B * 2 ^ (-53) <= 256 * 2 ^ (-53)).
  { apply Qmult_le_compat_r; [assumption | rewrite C53; discriminate]. }
  destruct (mul_value _ _ _ _ Hp Hg) as (m1 & Hm1 & R1 & _).
  { right. apply Qle_lt_trans with 512; [|reflexivity].
    apply Qabs_Qle_condition. lra. }
  destruct (mul_value _ _ _ _ Hq Hf) as (m2 & Hm2 & R2 & _).
  { right. apply Qle_lt_trans with 512; [|reflexivity].
    apply Qabs_Qle_condition. lra. }
  assert (E1 : Qabs (m1 - vp * g) <= 2 ^ (-45)).
  { apply (rounds_abs _ _ 9 R1); [lia|].
    apply Qle_lt_trans with 511; [|reflexivity]. apply Qabs_Qle_condition. lra. }
  assert (E2 : Qabs (m2 - vq * vf) <= 2 ^ (-45)).
  { apply (rounds_abs _ _ 9 R2); [lia|].
    apply Qle_lt_trans with 511; [|reflexivity]. apply Qabs_Qle_condition. lra. }
  apply Qabs_Qle_condition in E1. apply Qabs_Qle_condition in E2.
  pose proof (rounds_nonneg _ _ R1 ltac:(lra)) as Hm10.
  pose proof (rounds_nonneg _ _ R2 ltac:(lra)) as Hm20.
  (* the sum *)
  destruct (add_value _ _ _ _ Hm1 Hm2) as (t & Ht & Rt & _).
  { right. apply Qle_lt_trans with 1024; [|reflexivity].
    apply Qabs_Qle_condition. lra. }
  assert (E3 : Qabs (t - (m1 + m2)) <= 2 ^ (-44)).
  { apply (rounds_abs _ _ 10 Rt); [lia|].
    apply Qle_lt_trans with 1023; [|reflexivity]. apply Qabs_Qle_condition. lra. }
  apply Qabs_Qle_condition in E3.
  exists t. split; [exact Ht|]. split.
  - apply (rounds_nonneg _ _ Rt). lra.
  - setoid_replace (B * (1 - vf + 2 ^ (-53)))
      with (B - B * vf + B * 2 ^ (-53)) in HBg' by ring.
    lra.
Qed.

Lemma blend_value (p00 p10 p01 p11 fx fy : B64.float)
      (v00 v10 v01 v11 vx vy : Q) :
  denotes p00 v00 -> denotes p10 v10 -> denotes p01 v01 -> denotes p11 v11 ->
  denotes fx vx -> denotes fy vy ->
  0 <= v00 <= 255 -> 0 <= v10 <= 255 -> 0 <= v01 <= 255 -> 0 <= v11 <= 255 ->
  0 <= vx <= 1 -> 0 <= vy <= 1 ->
  exists r,
    denotes (B64.add
               (B64.mul (B64.add (B64.mul p00 (B64.sub (B64.ofZ 1) fx)) (B64.mul p10 fx))
                        (B64.sub (B64.ofZ 1) fy))
               (B64.mul (B64.add (B64.mul p01 (B64.sub (B64.ofZ 1) fx)) (B64.mul p11 fx))
                        fy)) r
    /\ 0 <= r <= 255 + (1 # 1000000000000).
Proof.
  intros H00 H10 H01 H11 Hfx Hfy B00 B10 B01 B11 Bx By.
  destruct (lerp_value p00 p10 fx v00 v10 vx 255 H00 H10 Hfx B00 B10 Bx
              ltac:(discriminate)) as (t1 & Ht1 & Bt1).
  destruct (lerp_value p01 p11 fx v01 v11 vx 255 H01 H11 Hfx B01 B11 Bx
              ltac:(discriminate)) as (t2 & Ht2 & Bt2).
  assert (C42 : 2 ^ (-42) == 1 # 4398046511104) by reflexivity.
  destruct (lerp_value _ _ fy t1 t2 vy (255 + 2 ^ (-42)) Ht1 Ht2 Hfy Bt1 Bt2 By)
    as (r & Hr & Br).
  { rewrite C42. discriminate. }
  exists r. split; [exact Hr|]. rewrite C42 in Br.
  destruct Br as (Br0 & Br1). split; [exact Br0|].
  eapply Qle_trans; [exact Br1|]. discriminate.
Qed.

Lemma denotes_toQ (a : B64.float) (v lo hi : Q) :
  denotes a v -> lo <= v <= hi ->
  exists w, B64.toQ a = Some w /\ lo <= w <= hi.
Proof.
  intros (_ & w & E & Hw) Hb. exists w. split; [exact E|]. rewrite Hw. exact Hb.
Qed.

Lemma sampleBilinear_range (data : list Z) (x y : B64.float) :
  B64.valid x = true -> B64.is_nan x = false ->
  B64.valid y = true -> B64.is_nan y = false ->
  Forall byteOk data -> Z.of_nat (length data) = 640000%Z ->
  let c := sampleBilinear newFaceMorpher data x y in
  exists r g b : Q,
    B64.toQ (r_ c) = Some r /\ B64.toQ (g_ c) = Some g /\ B64.toQ (b'_ c) = Some b
    /\ 0 <= r <= 255 + (1 # 1000000000000)
    /\ 0 <= g <= 255 + (1 # 1000000000000)
    /\ 0 <= b <= 255 + (1 # 1000000000000).
Proof.
  intros Hvx Hnx Hvy Hny Hb Hlen.
  assert (Hkey : forall key, In key (sampleReads newFaceMorpher x y) ->
                             exists b, denotes (readByte data key) b /\ 0 <= b <= 255).
  { intros key Hin.
    destruct (sampleReads_b64 x y key Hvx Hnx Hvy Hny Hin) as (n & Hn & Hr).
    apply (readByte_value data key n Hb Hn).
    rewrite Hlen. exact Hr. }
  destruct (fraction_value x Hvx Hnx) as (vx & Hfx & Bx).
  destruct (fraction_value y Hvy Hny) as (vy & Hfy & By).
  unfold sampleReads in Hkey. cbv zeta in Hkey.
  unfold pixelReads in Hkey. cbv zeta in Hkey.
  cbv zeta. unfold sampleBilinear, getPixel. cbv zeta. cbn [r_ g_ b'_].
  fold (lowNeighbour (outputWidth newFaceMorpher) x).
  fold (lowNeighbour (outputHeight newFaceMorpher) y).
  fold (highNeighbour (outputWidth newFaceMorpher) x).
  fold (highNeighbour (outputHeight newFaceMorpher) y).
  assert (Hch : forall k00 k10 k01 k11,
            In k00 (sampleReads newFaceMorpher x y) ->
            In k10 (sampleReads newFaceMorpher x y) ->
            In k01 (sampleReads newFaceMorpher x y) ->
            In k11 (sampleReads newFaceMorpher x y) ->
            exists r, B64.toQ
              (B64.add
                 (B64.mul (B64.add (B64.mul (readByte data k00)
                                       (B64.sub (B64.ofZ 1)
                                          (B64.sub (clampCoord 400 x)
                                             (B64.floor (clampCoord 400 x)))))
                                    (B64.mul (readByte data k10)
                                       (B64.sub (clampCoord 400 x)
                                          (B64.floor (clampCoord 400 x)))))
                          (B64.sub (B64.ofZ 1)
                             (B64.sub (clampCoord 400 y)
                                (B64.floor (clampCoord 400 y)))))
                 (B64.mul (B64.add (B64.mul (readByte data k01)
                                       (B64.sub (B64.ofZ 1)
                                          (B64.sub (clampCoord 400 x)
                                             (B64.floor (clampCoord 400 x)))))
                                    (B64.mul (readByte data k11)
                                       (B64.sub (clampCoord 400 x)
                                          (B64.floor (clampCoord 400 x)))))
                          (B64.sub (clampCoord 400 y)
                             (B64.floor (clampCoord 400 y))))) = Some r
              /\ 0 <= r <= 255 + (1 # 1000000000000)).
  { intros k00 k10 k01 k11 I00 I10 I01 I11.
    unfold sampleReads in I00, I10, I01, I11. cbv zeta in I00, I10, I01, I11.
    unfold pixelReads in I00, I10, I01, I11. cbv zeta in I00, I10, I01, I11.
    destruct (Hkey k00 I00) as (v00 & H00 & B00).
    destruct (Hkey k10 I10) as (v10 & H10 & B10).
    destruct (Hkey k01 I01) as (v01 & H01 & B01).
    destruct (Hkey k11 I11) as (v11 & H11 & B11).
    destruct (blend_value _ _ _ _ _ _ _ _ _ _ _ _ H00 H10 H01 H11 Hfx Hfy
                B00 B10 B01 B11 Bx By) as (r & Hr & Br).
    apply (denotes_toQ _ r); assumption. }
  unfold sampleReads in Hch. cbv zeta in Hch.
  unfold pixelReads in Hch. cbv zeta in Hch.
  destruct (Hch _ _ _ _
              ltac:(cbn [In app]; left; reflexivity)
              ltac:(cbn [In app]; do 3 right; left; reflexivity)
              ltac:(cbn [In app]; do 6 right; left; reflexivity)
              ltac:(cbn [In app]; do 9 right; left; reflexivity))
    as (r & Er & Br).
  destruct (Hch _ _ _ _
              ltac:(cbn [In app]; do 1 right; left; reflexivity)
              ltac:(cbn [In app]; do 4 right; left; reflexivity)
              ltac:(cbn [In app]; do 7 right; left; reflexivity)
              ltac:(cbn [In app]; do 10 right; left; reflexivity))
    as (g & Eg & Bg).
  destruct (Hch _ _ _ _
              ltac:(cbn [In app]; do 2 right; left; reflexivity)
              ltac:(cbn [In app]; do 5 right; left; reflexivity)
              ltac:(cbn [In app]; do 8 right; left; reflexivity)
              ltac:(cbn [In app]; do 11 right; left; reflexivity))
    as (b & Eb & Bb).
  exists r, g, b.
  split; [exact Er|]. split; [exact Eg|]. split; [exact Eb|].
  split; [exact Br|]. split; [exact Bg | exact Bb].
Qed.

(** C5, amended.  In binary64, for the 400 x 400 canvas and every pair of
    coordinates that are numbers (negative, infinite or on the last pixel
    included), each key [sampleBilinear] reads is an index below 640000, the
    result depends on the buffer through these keys alone, and on every
    buffer of 640000 bytes from 0 to 255 the three channels are finite
    numbers from 0 to [255 + 1e-12].  Evaluated without rounding, for every
    canvas of at least one pixel, every buffer of its size with bytes from 0
    to 255 and every pair of rational coordinates, the three channels are
    rationals from 0 to 255. *)
Theorem sampleBilinear_bounds :
  (forall x y : B64.float,
      B64.valid x = true -> B64.is_nan x = false ->
      B64.valid y = true -> B64.is_nan y = false ->
      (forall key, In key (sampleReads newFaceMorpher x y) ->
                   exists n, B64.toIndex key = Some n /\ (0 <= n < 640000)%Z)
      /\ (forall data data' : list Z,
             (forall key, In key (sampleReads newFaceMorpher x y) ->
                          readByte data key = readByte data' key) ->
             sampleBilinear newFaceMorpher data x y
             = sampleBilinear newFaceMorpher data' x y)
      /\ (forall data : list Z,
             Forall byteOk data -> Z.of_nat (length data) = 640000%Z ->
             let c := sampleBilinear newFaceMorpher data x y in
             B64.is_finite (r_ c) = true /\ B64.is_finite (g_ c) = true
             /\ B64.is_finite (b'_ c) = true
             /\ exists r g b : Q,
                 B64.toQ (r_ c) = Some r /\ B64.toQ (g_ c) = Some g
                 /\ B64.toQ (b'_ c) = Some b
                 /\ 0 <= r <= 255 + (1 # 1000000000000)
                 /\ 0 <= g <= 255 + (1 # 1000000000000)
                 /\ 0 <= b <= 255 + (1 # 1000000000000)))
  /\ (forall (W H : Z) (data : list Z) (x y : Q),
         (1 <= W)%Z -> (1 <= H)%Z ->
         Forall byteOk data ->
         Z.of_nat (length data) = (W * H * 4)%Z ->
         exists r g b : Q,
           @sampleBilinear Exact.num _ {| outputWidth := W; outputHeight := H |}
                           data (Some x) (Some y)
           = mkColor (Some r) (Some g) (Some b)
           /\ 0 <= r <= 255 /\ 0 <= g <= 255 /\ 0 <= b <= 255).
Proof.
  split.
  - intros x y Hvx Hnx Hvy Hny. split; [|split].
    + intros key Hin. exact (sampleReads_b64 x y key Hvx Hnx Hvy Hny Hin).
    + intros data data' Hsame.
      exact (sampleBilinear_reads newFaceMorpher data data' x y Hsame).
    + intros data Hb Hlen c.
      destruct (sampleBilinear_finite data x y Hvx Hnx Hvy Hny Hb Hlen)
        as (Fr & Fg & Fb).
      split; [exact Fr|]. split; [exact Fg|]. split; [exact Fb|].
      exact (sampleBilinear_range data x y Hvx Hnx Hvy Hny Hb Hlen).
  - exact sampleBilinear_exact.
Qed.

(** ** Binary64: the super-triangle *)

Lemma mul_lower (p q lp lq : Q) :
  0 <= lp -> 0 <= lq -> lp <= p -> lq <= q -> lp * lq <= p * q.
Proof.
  intros H1 H2 H3 H4.
  apply Qle_trans with (p * lq).
  - apply Qmult_le_compat_r; assumption.
  - rewrite !(Qmult_comm p). apply Qmult_le_compat_r; [assumption | lra].
Qed.

Lemma mul_upper (r s ur us : Q) :
  0 <= s -> 0 <= ur -> r <= ur -> s <= us -> r * s <= ur * us.
Proof.
  intros H1 H2 H3 H4.
  apply Qle_trans with (ur * s).
  - apply Qmult_le_compat_r; assumption.
  - rewrite !(Qmult_comm ur). apply Qmult_le_compat_r; [assumption | lra].
Qed.

(** The geometry of the super-triangle when each vertex coordinate is off
    by a small [eps]: the points of the bounding box stay inside. *)
Lemma super_geometry_robust
      (minX maxX minY maxY m eps a1 b1 a2 a3 b3 x y : Q) :
  minX <= x -> x <= maxX -> minY <= y -> y <= maxY ->
  0 < eps -> 64 * eps <= m ->
  maxX - minX <= m + eps -> maxY - minY <= m + eps ->
  Qabs (a1 - (minX - 2 * m)) <= eps ->
  Qabs (b1 - (minY - 2 * m)) <= eps ->
  Qabs (a2 - (minX + 4 * m)) <= eps ->
  Qabs (a3 - (minX + (maxX - minX) / 2)) <= 2 * eps ->
  Qabs (b3 - (maxY + 4 * m)) <= eps ->
  0 < orientQ (a1, b1) (a2, b1) (x, y)
  /\ 0 < orientQ (a2, b1) (a3, b3) (x, y)
  /\ 0 < orientQ (a3, b3) (a1, b1) (x, y).
Proof.
  intros Hx0 Hx1 Hy0 Hy1 He Hm HDX HDY Ea1 Eb1 Ea2 Ea3 Eb3.
  apply Qabs_bound_inv in Ea1, Eb1, Ea2, Ea3, Eb3.
  set (g := (maxX - minX) / 2) in *.
  assert (Hg : g * 2 == maxX - minX) by (unfold g; field).
  assert (Hg0 : 0 <= g) by lra.
  assert (Hg1 : 2 * g <= m + eps) by lra.
  assert (Hmm : 0 <= m * (m - 64 * eps)).
  { apply Qmult_le_0_compat; lra. }
  assert (Hme : 0 <= eps * (m - 64 * eps)).
  { apply Qmult_le_0_compat; lra. }
  assert (Hee : 0 < eps * eps) by (apply Qmult_lt_0_compat; assumption).
  unfold orientQ. cbn [fst snd].
  split; [|split].
  - setoid_replace ((a2 - a1) * (y - b1) - (b1 - b1) * (x - a1))
      with ((a2 - a1) * (y - b1)) by ring.
    apply Qmult_lt_0_compat; lra.
  - setoid_replace ((a3 - a2) * (y - b1) - (b3 - b1) * (x - a2))
      with ((b3 - b1) * (a2 - x) - (a2 - a3) * (y - b1)) by ring.
    assert (L : (6 * m - 2 * eps) * (3 * m - 2 * eps) <= (b3 - b1) * (a2 - x)).
    { apply mul_lower; lra. }
    assert (U : (a2 - a3) * (y - b1) <= (4 * m + 3 * eps) * (3 * m + 2 * eps)).
    { apply mul_upper; lra. }
    setoid_replace ((6 * m - 2 * eps) * (3 * m - 2 * eps))
      with (18 * (m * (m - 64 * eps)) + 1134 * (eps * (m - 64 * eps))
            + 72580 * (eps * eps)) in L by ring.
    setoid_replace ((4 * m + 3 * eps) * (3 * m + 2 * eps))
      with (12 * (m * (m - 64 * eps)) + 785 * (eps * (m - 64 * eps))
            + 50246 * (eps * eps)) in U by ring.
    lra.
  - setoid_replace ((a1 - a3) * (y - b3) - (b1 - b3) * (x - a3))
      with ((a3 - a1) * (b3 - y) - (b3 - b1) * (a3 - x)) by ring.
    assert (L : (g + 2 * m - 3 * eps) * (4 * m - eps) <= (a3 - a1) * (b3 - y)).
    { apply mul_lower; lra. }
    assert (U : (b3 - b1) * (a3 - x) <= (7 * m + 3 * eps) * (g + 2 * eps)).
    { rewrite (Qmult_comm (b3 - b1)), (Qmult_comm (7 * m + 3 * eps)).
      apply mul_upper; lra. }
    assert (Hgm : 0 <= g * m) by (apply Qmult_le_0_compat; lra).
    assert (Hge : 0 <= g * eps) by (apply Qmult_le_0_compat; lra).
    assert (Hgm' : 2 * (g * m) <= m * m + eps * m).
    { setoid_replace (2 * (g * m)) with ((2 * g) * m) by ring.
      setoid_replace (m * m + eps * m) with ((m + eps) * m) by ring.
      apply Qmult_le_compat_r; lra. }
    assert (Hge' : 2 * (g * eps) <= m * eps + eps * eps).
    { setoid_replace (2 * (g * eps)) with ((2 * g) * eps) by ring.
      setoid_replace (m * eps + eps * eps) with ((m + eps) * eps) by ring.
      apply Qmult_le_compat_r; lra. }
    setoid_replace ((g + 2 * m - 3 * eps) * (4 * m - eps))
      with (4 * (g * m) - g * eps + 8 * (m * m) - 14 * (eps * m) + 3 * (eps * eps))
      in L by ring.
    setoid_replace ((7 * m + 3 * eps) * (g + 2 * eps))
      with (7 * (g * m) + 3 * (g * eps) + 14 * (eps * m) + 6 * (eps * eps))
      in U by ring.
    setoid_replace (m * (m - 64 * eps)) with (m * m - 64 * (eps * m)) in Hmm by ring.
    setoid_replace (eps * (m - 64 * eps)) with (eps * m - 64 * (eps * eps)) in Hme by ring.
    setoid_replace (m * eps) with (eps * m) in Hge' by ring.
    lra.
Qed.

Lemma Math_min_value (l : list B64.float) (b : Q) :
  l <> [] ->
  (forall a, In a l -> exists v, denotes a v /\ Qabs v <= b) ->
  exists mn, denotes (Math_min l) mn /\ Qabs mn <= b
             /\ forall a v, In a l -> denotes a v -> mn <= v.
Proof.
  intros Hne Hall. destruct l as [|a rest]; [congruence|].
  unfold Math_min. change (@min2 B64.float _) with B64.min2.
  destruct (Hall a (or_introl eq_refl)) as (va & Ha & Ba).
  assert (Hrest : Forall (fun c => exists vc, denotes c vc) rest).
  { apply Forall_forall. intros c Hc.
    destruct (Hall c (or_intror Hc)) as (vc & Hvc & _). exists vc. exact Hvc. }
  destruct (fold_min_value rest a va Ha Hrest) as (mn & Hd & Hle & Hothers & Hin).
  exists mn. split; [exact Hd|]. split.
  - destruct (Hall _ Hin) as (v' & Hv' & Bv').
    rewrite (denotes_unique _ _ _ Hd Hv'). exact Bv'.
  - intros c vc [<-|Hc] Hdc.
    + rewrite <- (denotes_unique _ _ _ Ha Hdc). exact Hle.
    + apply (Hothers c vc Hc Hdc).
Qed.

Lemma Math_max_value (l : list B64.float) (b : Q) :
  l <> [] ->
  (forall a, In a l -> exists v, denotes a v /\ Qabs v <= b) ->
  exists mx, denotes (Math_max l) mx /\ Qabs mx <= b
             /\ forall a v, In a l -> denotes a v -> v <= mx.
Proof.
  intros Hne Hall. destruct l as [|a rest]; [congruence|].
  unfold Math_max. change (@max2 B64.float _) with B64.max2.
  destruct (Hall a (or_introl eq_refl)) as (va & Ha & Ba).
  assert (Hrest : Forall (fun c => exists vc, denotes c vc) rest).
  { apply Forall_forall. intros c Hc.
    destruct (Hall c (or_intror Hc)) as (vc & Hvc & _). exists vc. exact Hvc. }
  destruct (fold_max_value rest a va Ha Hrest) as (mx & Hd & Hle & Hothers & Hin).
  exists mx. split; [exact Hd|]. split.
  - destruct (Hall _ Hin) as (v' & Hv' & Bv').
    rewrite (denotes_unique _ _ _ Hd Hv'). exact Bv'.
  - intros c vc [<-|Hc] Hdc.
    + rewrite <- (denotes_unique _ _ _ Ha Hdc). exact Hle.
    + apply (Hothers c vc Hc Hdc).
Qed.

Section Scaled.
Variables (K : Z) (b : Q).
Hypothesis HK : (-900 <= K <= 900)%Z.
Hypothesis Hb : b == 2 ^ K.

Lemma scale_pos : 0 < b.
Proof. rewrite Hb. apply q2_pos. Qed.

Lemma pow_shift (j : Z) : 2 ^ (K + j) == 2 ^ j * b.
Proof. rewrite Hb, Z.add_comm. apply q2_add. Qed.

Lemma scale_finite (x : Q) : Qabs x <= 16 * b -> Qabs x < 2 ^ 971.
Proof.
  intros H. eapply Qle_lt_trans; [exact H|].
  setoid_replace (16 * b) with (2 ^ (K + 4))
    by (rewrite pow_shift; reflexivity).
  apply q2_lt. lia.
Qed.

Lemma rounds_scaled (x v : Q) (j : Z) :
  rounds x v -> (-100 <= j <= 100)%Z -> Qabs x < 2 ^ j * b ->
  Qabs (v - x) <= 2 ^ (j - 54) * b.
Proof.
  intros Hr Hj Hx. rewrite <- pow_shift in Hx.
  pose proof (rounds_abs x v (K + j) Hr ltac:(lia) Hx) as H.
  replace (K + j - 54)%Z with (K + (j - 54))%Z in H by lia.
  rewrite pow_shift in H. exact H.
Qed.

End Scaled.

Lemma two_value : denotes (B64.ofZ 2) 2.
Proof. apply (ofZ_value 2). reflexivity. Qed.

(** Doubling is exact. *)
Lemma double_value (a : B64.float) (v : Q) :
  denotes a v -> Qabs (v * 2) < 2 ^ 971 ->
  denotes (B64.mul a (B64.ofZ 2)) (v * 2).
Proof.
  intros Ha Hv.
  destruct (mul_value _ _ _ _ Ha two_value) as (w & Hw & _ & Hrep).
  { right. exact Hv. }
  apply (denotes_eq _ w); [exact Hw|].
  apply Hrep. apply representable_double. apply (denotes_representable a). exact Ha.
Qed.

(** C6, amended.  In binary64, for every [K] from -900 to 900 and every
    sequence of points with finite coordinates of absolute value at most
    [2^K], two of which differ by at least [2^(K - 40)] in one coordinate,
    the three vertices [p1], [p2], [p3] of the super-triangle are finite
    and every point of the sequence lies strictly inside the triangle
    they form. *)
Theorem superTriangle_contains (K : Z) (points : list (@Point B64.float)) :
  (-900 <= K <= 900)%Z ->
  (forall p, In p points ->
             exists q, pointAt p q /\ Qabs (fst q) <= 2 ^ K /\ Qabs (snd q) <= 2 ^ K) ->
  (exists p p' q q',
      In p points /\ In p' points /\ pointAt p q /\ pointAt p' q'
      /\ (2 ^ (K - 40) <= Qabs (fst q - fst q')
          \/ 2 ^ (K - 40) <= Qabs (snd q - snd q'))) ->
  let '(a, b, c) := superTriangle points in
  exists qa qb qc,
    pointAt a qa /\ pointAt b qb /\ pointAt c qc
    /\ forall p q, In p points -> pointAt p q -> strictlyInside q qa qb qc.
Proof.
  intros HK Hall (p0 & p0' & q0 & q0' & Hp0 & Hp0' & Hq0 & Hq0' & Hspread).
  set (b := 2 ^ K) in *.
  assert (Hb : b == 2 ^ K) by reflexivity.
  clearbody b.
  pose proof (scale_pos K b Hb) as Hbpos.
  assert (Hne : points <> []) by (destruct points; [contradiction | discriminate]).
  assert (Hxs : forall a, In a (map pX points) -> exists v, denotes a v /\ Qabs v <= b).
  { intros a Ha. apply in_map_iff in Ha. destruct Ha as (p & <- & Hp).
    destruct (Hall p Hp) as (q & (Hx & _) & Bx & _). exists (fst q). split; assumption. }
  assert (Hys : forall a, In a (map pY points) -> exists v, denotes a v /\ Qabs v <= b).
  { intros a Ha. apply in_map_iff in Ha. destruct Ha as (p & <- & Hp).
    destruct (Hall p Hp) as (q & (_ & Hy) & _ & By). exists (snd q). split; assumption. }
  assert (Hnx : map pX points <> []) by (destruct points; [congruence | discriminate]).
  assert (Hny : map pY points <> []) by (destruct points; [congruence | discriminate]).
  destruct (Math_min_value _ b Hnx Hxs) as (mx & HminX & Bmx & Lmx).
  destruct (Math_max_value _ b Hnx Hxs) as (Mx & HmaxX & BMx & LMx).
  destruct (Math_min_value _ b Hny Hys) as (my & HminY & Bmy & Lmy).
  destruct (Math_max_value _ b Hny Hys) as (My & HmaxY & BMy & LMy).
  assert (Hbox : forall p q, In p points -> pointAt p q ->
                             mx <= fst q <= Mx /\ my <= snd q <= My).
  { intros p q Hp (Hx & Hy). split; split.
    - apply (Lmx (pX p)); [apply in_map; exact Hp | exact Hx].
    - apply (LMx (pX p)); [apply in_map; exact Hp | exact Hx].
    - apply (Lmy (pY p)); [apply in_map; exact Hp | exact Hy].
    - apply (LMy (pY p)); [apply in_map; exact Hp | exact Hy]. }
  apply Qabs_bound_inv in Bmx, BMx, Bmy, BMy.
  destruct (Hbox _ _ Hp0 Hq0) as ((Bx0 & Bx1) & (By0 & By1)).
  destruct (Hbox _ _ Hp0' Hq0') as ((Bx0' & Bx1') & (By0' & By1')).
  assert (C52 : 2 ^ (2 - 54) == 1 # 4503599627370496) by reflexivity.
  assert (C51 : 2 ^ (3 - 54) == 1 # 2251799813685248) by reflexivity.
  assert (C50 : 2 ^ (4 - 54) == 1 # 1125899906842624) by reflexivity.
  assert (C53 : 2 ^ (1 - 54) == 1 # 9007199254740992) by reflexivity.
  assert (C40 : 2 ^ (K - 40) == (1 # 1099511627776) * b).
  { replace (K - 40)%Z with (K + (-40))%Z by lia. rewrite (pow_shift K b Hb).
    reflexivity. }
  assert (P1 : 2 ^ 1 * b == 2 * b) by reflexivity.
  assert (P2 : 2 ^ 2 * b == 4 * b) by reflexivity.
  assert (P3 : 2 ^ 3 * b == 8 * b) by reflexivity.
  assert (P4 : 2 ^ 4 * b == 16 * b) by reflexivity.
  assert (Hfin : forall x, Qabs x <= 16 * b -> Qabs x < 2 ^ 971)
    by (apply (scale_finite K b HK Hb)).
  set (eps := (1 # 1125899906842624) * b).
  assert (Heps : 0 < eps) by (unfold eps; lra).
  unfold superTriangle.
  change (@sub B64.float _) with B64.sub. change (@add B64.float _) with B64.add.
  change (@mul B64.float _) with B64.mul. change (@div B64.float _) with B64.div.
  change (@max2 B64.float _) with B64.max2.
  change (@ofZ B64.float _ 2) with (B64.ofZ 2).
  set (minX := Math_min (map pX points)) in *.
  set (maxX := Math_max (map pX points)) in *.
  set (minY := Math_min (map pY points)) in *.
  set (maxY := Math_max (map pY points)) in *.
  (* dx, dy *)
  destruct (sub_value _ _ _ _ HmaxX HminX) as (dx & Hdx & Rdx & _).
  { right. apply Hfin. apply Qabs_bound. lra. }
  destruct (sub_value _ _ _ _ HmaxY HminY) as (dy & Hdy & Rdy & _).
  { right. apply Hfin. apply Qabs_bound. lra. }
  assert (HDX : 0 <= Mx - mx) by lra.
  assert (HDY : 0 <= My - my) by lra.
  pose proof (rounds_nonneg _ _ Rdx HDX) as Hdx0.
  pose proof (rounds_nonneg _ _ Rdy HDY) as Hdy0.
  assert (Edx : Qabs (dx - (Mx - mx)) <= (1 # 4503599627370496) * b).
  { rewrite <- C52. apply (rounds_scaled K b HK Hb _ _ 2 Rdx); [lia|].
    rewrite P2. apply Qle_lt_trans with (2 * b); [apply Qabs_bound|]; lra. }
  assert (Edy : Qabs (dy - (My - my)) <= (1 # 4503599627370496) * b).
  { rewrite <- C52. apply (rounds_scaled K b HK Hb _ _ 2 Rdy); [lia|].
    rewrite P2. apply Qle_lt_trans with (2 * b); [apply Qabs_bound|]; lra. }
  apply Qabs_bound_inv in Edx, Edy.
  (* max(dx, dy) and its doubles *)
  destruct (max2_value _ _ _ _ Hdx Hdy) as (m & Hm & Hm1 & Hm2 & Hsel & _).
  assert (Hmhi : m <= 3 * b) by (destruct Hsel as [E|E]; rewrite E; lra).
  assert (Hm0 : 0 <= m) by lra.
  assert (HdM : denotes (B64.mul (B64.max2 (B64.sub maxX minX) (B64.sub maxY minY))
                                 (B64.ofZ 2)) (m * 2)).
  { apply double_value; [exact Hm|]. apply Hfin. apply Qabs_bound. lra. }
  set (deltaMax := B64.mul (B64.max2 (B64.sub maxX minX) (B64.sub maxY minY))
                           (B64.ofZ 2)) in *.
  assert (HdM2 : denotes (B64.mul deltaMax (B64.ofZ 2)) (m * 2 * 2)).
  { apply double_value; [exact HdM|]. apply Hfin. apply Qabs_bound. lra. }
  (* the five coordinates *)
  destruct (sub_value _ _ _ _ HminX HdM) as (a1 & Ha1 & Ra1 & _).
  { right. apply Hfin. apply Qabs_bound. lra. }
  destruct (sub_value _ _ _ _ HminY HdM) as (b1 & Hb1 & Rb1 & _).
  { right. apply Hfin. apply Qabs_bound. lra. }
  destruct (add_value _ _ _ _ HminX HdM2) as (a2 & Ha2 & Ra2 & _).
  { right. apply Hfin. apply Qabs_bound. lra. }
  destruct (add_value _ _ _ _ HmaxY HdM2) as (b3 & Hb3 & Rb3 & _).
  { right. apply Hfin. apply Qabs_bound. lra. }
  assert (Hhalf : dx / 2 * 2 == dx) by field.
  destruct (div_value _ _ _ _ Hdx two_value) as (h & Hh & Rh).
  { intros E. discriminate E. }
  { right. apply Hfin. apply Qabs_bound. lra. }
  assert (Eh : Qabs (h - dx / 2) <= (1 # 9007199254740992) * b).
  { rewrite <- C53. apply (rounds_scaled K b HK Hb _ _ 1 Rh); [lia|].
    rewrite P1. apply Qle_lt_trans with ((3 # 2) * b); [apply Qabs_bound|]; lra. }
  apply Qabs_bound_inv in Eh.
  destruct (add_value _ _ _ _ HminX Hh) as (a3 & Ha3 & Ra3 & _).
  { right. apply Hfin. apply Qabs_bound. lra. }
  assert (Ea1 : Qabs (a1 - (mx - m * 2)) <= (1 # 2251799813685248) * b).
  { rewrite <- C51. apply (rounds_scaled K b HK Hb _ _ 3 Ra1); [lia|].
    rewrite P3. apply Qle_lt_trans with (7 * b); [apply Qabs_bound|]; lra. }
  assert (Eb1 : Qabs (b1 - (my - m * 2)) <= (1 # 2251799813685248) * b).
  { rewrite <- C51. apply (rounds_scaled K b HK Hb _ _ 3 Rb1); [lia|].
    rewrite P3. apply Qle_lt_trans with (7 * b); [apply Qabs_bound|]; lra. }
  assert (Ea2 : Qabs (a2 - (mx + m * 2 * 2)) <= (1 # 1125899906842624) * b).
  { rewrite <- C50. apply (rounds_scaled K b HK Hb _ _ 4 Ra2); [lia|].
    rewrite P4. apply Qle_lt_trans with (13 * b); [apply Qabs_bound|]; lra. }
  assert (Eb3 : Qabs (b3 - (My + m * 2 * 2)) <= (1 # 1125899906842624) * b).
  { rewrite <- C50. apply (rounds_scaled K b HK Hb _ _ 4 Rb3); [lia|].
    rewrite P4. apply Qle_lt_trans with (13 * b); [apply Qabs_bound|]; lra. }
  assert (Ea3 : Qabs (a3 - (mx + h)) <= (1 # 4503599627370496) * b).
  { rewrite <- C52. apply (rounds_scaled K b HK Hb _ _ 2 Ra3); [lia|].
    rewrite P2. apply Qle_lt_trans with (3 * b); [apply Qabs_bound|]; lra. }
  apply Qabs_bound_inv in Ea1, Eb1, Ea2, Eb3, Ea3.
  (* the spread of the points *)
  assert (Hm64 : 64 * eps <= m).
  { rewrite C40 in Hspread. unfold eps.
    destruct Hspread as [Hs|Hs].
    - assert (Hd : (1 # 1099511627776) * b <= Mx - mx).
      { eapply Qle_trans; [exact Hs|]. apply Qabs_bound. lra. }
      lra.
    - assert (Hd : (1 # 1099511627776) * b <= My - my).
      { eapply Qle_trans; [exact Hs|]. apply Qabs_bound. lra. }
      lra. }
  exists (a1, b1), (a2, b1), (a3, b3).
  split; [split; assumption|]. split; [split; assumption|].
  split; [split; assumption|].
  intros p q Hp Hq. left.
  destruct (Hbox p q Hp Hq) as ((Hx0 & Hx1) & (Hy0 & Hy1)).
  replace q with (fst q, snd q) by (destruct q; reflexivity).
  assert (Hg : (Mx - mx) / 2 * 2 == Mx - mx) by field.
  apply (super_geometry_robust mx Mx my My m eps); try assumption;
    try (apply Qabs_bound; unfold eps; lra); unfold eps; lra.
Qed.

Lemma denotes_compute (a : B64.float) (w v : Q) :
  B64.valid a = true -> B64.toQ a = Some w -> w == v -> denotes a v.
Proof. intros Hv E Hw. split; [exact Hv|]. exists w. split; assumption. Qed.

Lemma superTriangle_contains_witness :
  let points := [dpt 0 0 0; dpt 4 0 0; dpt 0 3 0] in
  (-900 <= 9 <= 900)%Z
  /\ (forall p, In p points ->
                exists q, pointAt p q /\ Qabs (fst q) <= 2 ^ 9 /\ Qabs (snd q) <= 2 ^ 9)
  /\ (exists p p' q q',
         In p points /\ In p' points /\ pointAt p q /\ pointAt p' q'
         /\ (2 ^ (9 - 40) <= Qabs (fst q - fst q')
             \/ 2 ^ (9 - 40) <= Qabs (snd q - snd q')))
  /\ (let '(a, b, c) := superTriangle points in
      exists qa qb qc,
        pointAt a qa /\ pointAt b qb /\ pointAt c qc
        /\ forall p q, In p points -> pointAt p q -> strictlyInside q qa qb qc).
Proof.
  intros points.
  assert (A0 : pointAt (dpt 0 0 0) (0, 0)).
  { split; eapply denotes_compute; vm_compute; reflexivity. }
  assert (A1 : pointAt (dpt 4 0 0) (4, 0)).
  { split; eapply denotes_compute; vm_compute; reflexivity. }
  assert (A2 : pointAt (dpt 0 3 0) (0, 3)).
  { split; eapply denotes_compute; vm_compute; reflexivity. }
  assert (H1 : (-900 <= 9 <= 900)%Z) by lia.
  assert (H2 : forall p, In p points ->
                 exists q, pointAt p q /\ Qabs (fst q) <= 2 ^ 9
                           /\ Qabs (snd q) <= 2 ^ 9).
  { intros p [<-|[<-|[<-|[]]]].
    - exists (0, 0). split; [exact A0|]. split; vm_compute; discriminate.
    - exists (4, 0). split; [exact A1|]. split; vm_compute; discriminate.
    - exists (0, 3). split; [exact A2|]. split; vm_compute; discriminate. }
  assert (H3 : exists p p' q q',
             In p points /\ In p' points /\ pointAt p q /\ pointAt p' q'
             /\ (2 ^ (9 - 40) <= Qabs (fst q - fst q')
                 \/ 2 ^ (9 - 40) <= Qabs (snd q - snd q'))).
  { exists (dpt 4 0 0), (dpt 0 0 0), (4, 0), (0, 0).
    split; [right; left; reflexivity|]. split; [left; reflexivity|].
    split; [exact A1|]. split; [exact A0|].
    left. vm_compute. discriminate. }
  split; [exact H1|]. split; [exact H2|]. split; [exact H3|].
  exact (superTriangle_contains 9 points H1 H2 H3).
Defined.

(** C6, counterexample.  Point sets the super-triangle does not contain,
    in binary64: three
    equal points, whose super-triangle is that one point; three distinct
    points less than [1e-14] apart at height [399.5], which lie on the base
    of their super-triangle; and points so far apart that the bounding box
    overflows, whose super-triangle has no finite vertex. *)
Lemma superTriangle_not_containing :
  (let o : @Point B64.float := mkPoint (ofZ 0) (ofZ 0) in
   let '(a, b, c) := superTriangle [o; o; o] in
   toQPoint o = Some (0, 0)
   /\ toQPoint a = Some (0, 0) /\ toQPoint b = Some (0, 0)
   /\ toQPoint c = Some (0, 0)
   /\ ~ strictlyInside (0, 0) (0, 0) (0, 0) (0, 0))
  /\ (let p : @Point B64.float := mkPoint (B64.ofZ 0) (B64.ofDec 3995 1) in
      let p' : @Point B64.float := mkPoint (B64.ofDec 1 14) (B64.ofDec 3995 1) in
      let p'' : @Point B64.float := mkPoint (B64.ofDec 5 15) (B64.ofDec 3995 1) in
      let '(a, b, c) := superTriangle [p; p'; p''] in
      forallb finitePoint [p; p'; p''] = true
      /\ B64.ltb (pX p) (pX p'') = true /\ B64.ltb (pX p'') (pX p') = true
      /\ exists q qa qb qc,
          toQPoint p = Some q /\ toQPoint a = Some qa /\ toQPoint b = Some qb
          /\ toQPoint c = Some qc /\ ~ strictlyInside q qa qb qc)
  /\ (let big := B64.ofZ (2 ^ 1023) in
      let '(a, b, c) :=
        superTriangle [mkPoint (B64.sub (B64.ofZ 0) big) (B64.ofZ 0);
                       mkPoint big (B64.ofZ 0); mkPoint (B64.ofZ 0) big] in
      finiteCoord big = true
      /\ toQPoint a = None /\ toQPoint b = None /\ toQPoint c = None).
Proof.
  split; [|split].
  - vm_compute. repeat split.
    intros [(H & _) | (H & _)]; discriminate.
  - cbv zeta.
    split; [vm_compute; reflexivity|].
    split; [vm_compute; reflexivity|].
    split; [vm_compute; reflexivity|].
    eexists. eexists. eexists. eexists.
    split; [vm_compute; reflexivity|].
    split; [vm_compute; reflexivity|].
    split; [vm_compute; reflexivity|].
    split; [vm_compute; reflexivity|].
    intros [(H & _) | (H & _)]; vm_compute in H; discriminate H.
  - vm_compute. repeat split.
Qed.

(** ** Binary64: the affine round trip *)

Lemma eta_small : eta <= 1 # 1267650600228229401496703205376.
Proof. vm_compute. discriminate. Qed.

(** The error of one rounding, from a bound of the exact result. *)
Lemma rounds_lin (x v bx : Q) :
  rounds x v -> Qabs x <= bx ->
  Qabs (v - x) <= (1 # 9007199254740992) * bx
                  + (1 # 1267650600228229401496703205376).
Proof.
  intros Hr Hx. pose proof (rounds_rel _ _ Hr) as H.
  pose proof eta_small as He.
  assert (Hu : unit_roundoff == 1 # 9007199254740992) by reflexivity.
  rewrite Hu in H.
  assert (Hm : (1 # 9007199254740992) * Qabs x <= (1 # 9007199254740992) * bx).
  { rewrite !(Qmult_comm (1 # 9007199254740992)).
    apply Qmult_le_compat_r; [exact Hx | discriminate]. }
  lra.
Qed.

Lemma Qabs_div (w D : Q) : ~ D == 0 -> Qabs (w / D) == Qabs w * / Qabs D.
Proof.
  intros HD. unfold Qdiv. rewrite Qabs_Qmult. rewrite Qabs_Qinv. reflexivity.
Qed.

Lemma div_bound (w D bw : Q) :
  ~ D == 0 -> Qabs w <= bw -> Qabs (w / D) <= bw * / Qabs D.
Proof.
  intros HD Hw. rewrite (Qabs_div w D HD).
  apply Qmult_le_compat_r; [exact Hw|].
  apply Qinv_le_0_compat. apply Qabs_nonneg.
Qed.

(** The linear part of the computed map sends the difference of two
    source vertices to the difference of the destination vertices, up to
    an error in proportion to [A = 1 / |D|]. *)
Lemma linear_part (A D Na Nb a b X Y U na nb nd dx dy du : Q) :
  ~ D == 0 -> A == / Qabs D ->
  Na * X + Nb * Y == U * (D - nd) + na * X + nb * Y ->
  Qabs X <= 401 -> Qabs Y <= 401 -> Qabs U <= 401 ->
  Qabs na <= 1 # 17179869184 -> Qabs nb <= 1 # 17179869184 ->
  Qabs nd <= 1 # 17179869184 ->
  Qabs (a - Na / D) <= (36 # 1000000000000) * A ->
  Qabs (b - Nb / D) <= (36 # 1000000000000) * A ->
  Qabs a <= 321604 * A -> Qabs b <= 321604 * A ->
  Qabs (X - dx) <= 1 # 35184372088832 ->
  Qabs (Y - dy) <= 1 # 35184372088832 ->
  Qabs (U - du) <= 1 # 35184372088832 ->
  Qabs (a * dx + b * dy - du) <= (1172 # 10000000000) * A + (1 # 35184372088832).
Proof.
  intros HD HA Hid HX HY HU Hna Hnb Hnd Ha Hb Ma Mb EX EY EU.
  assert (HA0 : 0 <= A).
  { rewrite HA. apply Qinv_le_0_compat. apply Qabs_nonneg. }
  set (w := na * X + nb * Y - U * nd).
  assert (Heq : a * dx + b * dy - du
                == (U - du) + w / D + (a - Na / D) * X + (b - Nb / D) * Y
                   - a * (X - dx) - b * (Y - dy)).
  { assert (Hq : w / D == (Na * X + Nb * Y) / D - U).
    { rewrite Hid. unfold w. field. exact HD. }
    rewrite Hq. field. exact HD. }
  pose proof (prod_bound _ _ _ _ Hna HX) as T1.
  pose proof (prod_bound _ _ _ _ Hnb HY) as T2.
  pose proof (prod_bound _ _ _ _ HU Hnd) as T3.
  assert (Hw : Qabs w <= 1203 # 17179869184).
  { apply Qabs_bound. unfold w. lra. }
  pose proof (div_bound w D _ HD Hw) as T4. rewrite <- HA in T4.
  apply Qabs_bound_inv in T4.
  pose proof (prod_bound _ _ _ _ Ha HX) as T5.
  pose proof (prod_bound _ _ _ _ Hb HY) as T6.
  pose proof (prod_bound _ _ _ _ Ma EX) as T7.
  pose proof (prod_bound _ _ _ _ Mb EY) as T8.
  apply Qabs_bound_inv in EU.
  apply Qabs_bound. rewrite Heq. lra.
Qed.

(** The rounding of [c = u3 - a * x3 - b * y3] and of
    [a * x + b * y + c], in proportion to [A]. *)
Lemma apply_error (A a b x y x3 y3 u3 ut t1 t2 t3 c s1 s2 s3 r : Q) :
  0 <= A ->
  Qabs a <= 321604 * A -> Qabs b <= 321604 * A ->
  0 <= x <= 400 -> 0 <= y <= 400 -> 0 <= x3 <= 400 -> 0 <= y3 <= 400 ->
  0 <= u3 <= 400 -> 0 <= ut <= 400 ->
  rounds (a * x3) t1 -> rounds (u3 - t1) t2 -> rounds (b * y3) t3 ->
  rounds (t2 - t3) c ->
  rounds (a * x) s1 -> rounds (b * y) s2 -> rounds (s1 + s2) s3 ->
  rounds (s3 + c) r ->
  Qabs (a * (x - x3) + b * (y - y3) - (ut - u3))
  <= (1172 # 10000000000) * A + (1 # 35184372088832) ->
  Qabs (r - ut) <= (246 # 1000000000) * A + (1 # 1000000000000).
Proof.
  intros HA Ma Mb Bx By Bx3 By3 Bu3 But R1 R2 R3 R4 R5 R6 R7 R8 HL.
  assert (X3 : Qabs x3 <= 400) by (apply Qabs_bound; lra).
  assert (Y3 : Qabs y3 <= 400) by (apply Qabs_bound; lra).
  assert (X0 : Qabs x <= 400) by (apply Qabs_bound; lra).
  assert (Y0 : Qabs y <= 400) by (apply Qabs_bound; lra).
  pose proof (prod_bound _ _ _ _ Ma X3) as P1.
  pose proof (prod_bound _ _ _ _ Mb Y3) as P3.
  pose proof (prod_bound _ _ _ _ Ma X0) as P5.
  pose proof (prod_bound _ _ _ _ Mb Y0) as P6.
  pose proof (rounds_lin _ _ (128641600 * A) R1 ltac:(apply Qabs_bound; lra)) as E1.
  apply Qabs_bound_inv in E1.
  pose proof (rounds_lin _ _ (128641601 * A + 401) R2
                ltac:(apply Qabs_bound; lra)) as E2.
  apply Qabs_bound_inv in E2.
  pose proof (rounds_lin _ _ (128641600 * A) R3 ltac:(apply Qabs_bound; lra)) as E3.
  apply Qabs_bound_inv in E3.
  pose proof (rounds_lin _ _ (257283203 * A + 402) R4
                ltac:(apply Qabs_bound; lra)) as E4.
  apply Qabs_bound_inv in E4.
  pose proof (rounds_lin _ _ (128641600 * A) R5 ltac:(apply Qabs_bound; lra)) as E5.
  apply Qabs_bound_inv in E5.
  pose proof (rounds_lin _ _ (128641600 * A) R6 ltac:(apply Qabs_bound; lra)) as E6.
  apply Qabs_bound_inv in E6.
  pose proof (rounds_lin _ _ (257283202 * A + 1) R7
                ltac:(apply Qabs_bound; lra)) as E7.
  apply Qabs_bound_inv in E7.
  apply Qabs_bound_inv in HL.
  assert (Hsum : Qabs (s3 + c) <= A + 402).
  { apply Qabs_bound.
    setoid_replace (s3 + c)
      with (ut + (a * (x - x3) + b * (y - y3) - (ut - u3))
            + ((s3 - (s1 + s2)) + (s1 - a * x) + (s2 - b * y)
               + (c - (t2 - t3)) + (t2 - (u3 - t1)) - (t1 - a * x3)
               - (t3 - b * y3))) by ring.
    lra. }
  pose proof (rounds_lin _ _ (A + 402) R8 Hsum) as E8.
  apply Qabs_bound_inv in E8.
  apply Qabs_bound.
  setoid_replace (r - ut)
    with ((r - (s3 + c)) + (a * (x - x3) + b * (y - y3) - (ut - u3))
          + ((s3 - (s1 + s2)) + (s1 - a * x) + (s2 - b * y)
             + (c - (t2 - t3)) + (t2 - (u3 - t1)) - (t1 - a * x3)
             - (t3 - b * y3))) by ring.
  lra.
Qed.

Lemma far_from_overflow (x bx : Q) :
  Qabs x <= bx -> bx <= 100000000000000000000 -> Qabs x < 2 ^ 971.
Proof.
  intros H1 H2. apply Qle_lt_trans with 100000000000000000000; [lra | reflexivity].
Qed.

(** [p * q - r * s] on differences of canvas coordinates. *)
Lemma cross_value (p q r s : B64.float) (P Q' R S : Q) :
  denotes p P -> denotes q Q' -> denotes r R -> denotes s S ->
  Qabs P <= 401 -> Qabs Q' <= 401 -> Qabs R <= 401 -> Qabs S <= 401 ->
  exists N, denotes (B64.sub (B64.mul p q) (B64.mul r s)) N
            /\ Qabs (N - (P * Q' - R * S)) <= 1 # 17179869184
            /\ Qabs N <= 321603.
Proof.
  intros Hp Hq Hr Hs BP BQ BR BS.
  pose proof (prod_bound _ _ _ _ BP BQ) as B1.
  pose proof (prod_bound _ _ _ _ BR BS) as B2.
  assert (A1 : Qabs (P * Q') <= 160801) by (apply Qabs_bound; lra).
  assert (A2 : Qabs (R * S) <= 160801) by (apply Qabs_bound; lra).
  destruct (mul_value _ _ _ _ Hp Hq) as (m1 & Hm1 & R1 & _).
  { right. apply (far_from_overflow _ _ A1). discriminate. }
  destruct (mul_value _ _ _ _ Hr Hs) as (m2 & Hm2 & R2 & _).
  { right. apply (far_from_overflow _ _ A2). discriminate. }
  assert (E1 : Qabs (m1 - P * Q') <= 1 # 68719476736).
  { apply (rounds_abs _ _ 18 R1); [lia|].
    eapply Qle_lt_trans; [exact A1 | reflexivity]. }
  assert (E2 : Qabs (m2 - R * S) <= 1 # 68719476736).
  { apply (rounds_abs _ _ 18 R2); [lia|].
    eapply Qle_lt_trans; [exact A2 | reflexivity]. }
  apply Qabs_bound_inv in E1, E2.
  assert (A3 : Qabs (m1 - m2) <= 321603) by (apply Qabs_bound; lra).
  destruct (sub_value _ _ _ _ Hm1 Hm2) as (N & HN & RN & _).
  { right. apply (far_from_overflow _ _ A3). discriminate. }
  assert (E3 : Qabs (N - (m1 - m2)) <= 1 # 34359738368).
  { apply (rounds_abs _ _ 19 RN); [lia|].
    eapply Qle_lt_trans; [exact A3 | reflexivity]. }
  apply Qabs_bound_inv in E3.
  exists N. split; [exact HN|]. split; apply Qabs_bound; lra.
Qed.

(** The quotient of a numerator by the determinant. *)
Lemma quotient_value (n d : B64.float) (N D A : Q) :
  denotes n N -> denotes d D -> ~ D == 0 -> A == / Qabs D ->
  Qabs N <= 321603 -> 1 <= 321603 * A -> A <= 10000000000 ->
  exists a, denotes (B64.div n d) a
            /\ Qabs (a - N / D) <= (36 # 1000000000000) * A
            /\ Qabs a <= 321604 * A.
Proof.
  intros Hn Hd HD HA BN HA1 HA2.
  pose proof (div_bound N D _ HD BN) as Hq. rewrite <- HA in Hq.
  destruct (div_value _ _ _ _ Hn Hd HD) as (a & Ha & Ra).
  { right. apply (far_from_overflow _ _ Hq). lra. }
  pose proof (rounds_lin _ _ _ Ra Hq) as Ea.
  apply Qabs_bound_inv in Ea. apply Qabs_bound_inv in Hq.
  exists a. split; [exact Ha|]. split; apply Qabs_bound; lra.
Qed.

Section Coordinate.
Variables (s0 s1 s2 : @Point B64.float) (fu1 fu2 fu3 : B64.float).
Variables (p0 p1 p2 : Q * Q) (u1 u2 u3 D : Q).
Hypothesis Hs0 : pointAt s0 p0.
Hypothesis Hs1 : pointAt s1 p1.
Hypothesis Hs2 : pointAt s2 p2.
Hypothesis Cs0 : onCanvas p0.
Hypothesis Cs1 : onCanvas p1.
Hypothesis Cs2 : onCanvas p2.
Hypothesis Hu1 : denotes fu1 u1.
Hypothesis Hu2 : denotes fu2 u2.
Hypothesis Hu3 : denotes fu3 u3.
Hypothesis Bu1 : 0 <= u1 <= 400.
Hypothesis Bu2 : 0 <= u2 <= 400.
Hypothesis Bu3 : 0 <= u3 <= 400.
Hypothesis HD : denotes (affineDenom (s0, s1, s2)) D.
Hypothesis Hguard :
  B64.ltb (B64.abs (affineDenom (s0, s1, s2))) (B64.ofDec 1 10) = false.

(** One coordinate of the round trip: the row of the map solved for the
    coordinates [u1], [u2], [u3] sends each source vertex to within the
    tolerance of its [u]. *)
Lemma affine_coordinate :
  ~ D == 0
  /\ (exists r, denotes (applyRow (affineRow (s0, s1, s2) fu1 fu2 fu3)
                                  (pX s0) (pY s0)) r
                /\ Qabs (r - u1) <= roundtripTolerance D)
  /\ (exists r, denotes (applyRow (affineRow (s0, s1, s2) fu1 fu2 fu3)
                                  (pX s1) (pY s1)) r
                /\ Qabs (r - u2) <= roundtripTolerance D)
  /\ (exists r, denotes (applyRow (affineRow (s0, s1, s2) fu1 fu2 fu3)
                                  (pX s2) (pY s2)) r
                /\ Qabs (r - u3) <= roundtripTolerance D).
Proof.
  destruct Hs0 as (Hx1 & Hy1), Hs1 as (Hx2 & Hy2), Hs2 as (Hx3 & Hy3).
  destruct Cs0 as (Bx1 & By1), Cs1 as (Bx2 & By2), Cs2 as (Bx3 & By3).
  destruct p0 as [x1 y1], p1 as [x2 y2], p2 as [x3 y3].
  cbn [fst snd] in *.
  pose proof HD as HD0. pose proof Hguard as Hguard0.
  unfold affineDenom in HD0, Hguard0.
  unfold applyRow, affineRow. cbv zeta.
  change (@sub B64.float _) with B64.sub in *.
  change (@mul B64.float _) with B64.mul in *.
  change (@div B64.float _) with B64.div in *.
  change (@add B64.float _) with B64.add in *.
  set (den := B64.sub (B64.mul (B64.sub (pX s0) (pX s2)) (B64.sub (pY s1) (pY s2)))
                      (B64.mul (B64.sub (pX s1) (pX s2)) (B64.sub (pY s0) (pY s2))))
    in *.
  set (fa := B64.div (B64.sub (B64.mul (B64.sub fu1 fu3) (B64.sub (pY s1) (pY s2)))
                              (B64.mul (B64.sub fu2 fu3) (B64.sub (pY s0) (pY s2))))
                     den).
  set (fb := B64.div (B64.sub (B64.mul (B64.sub fu2 fu3) (B64.sub (pX s0) (pX s2)))
                              (B64.mul (B64.sub fu1 fu3) (B64.sub (pX s1) (pX s2))))
                     den).
  set (fc := B64.sub (B64.sub fu3 (B64.mul fa (pX s2))) (B64.mul fb (pY s2))).
  (* the determinant and its inverse *)
  assert (HDlo : (7737125245533627 # 77371252455336267181195264) <= Qabs D).
  { destruct (Qlt_le_dec (Qabs D) (7737125245533627 # 77371252455336267181195264))
      as [Hlt|Hle]; [|exact Hle].
    apply (ltb_value _ _ _ _ (abs_value _ _ HD0) tiny_value) in Hlt.
    rewrite Hlt in Hguard0. discriminate Hguard0. }
  assert (HDpos : 0 < Qabs D).
  { eapply Qlt_le_trans; [|exact HDlo]. reflexivity. }
  assert (HDnz : ~ D == 0).
  { intros E. rewrite E in HDpos. discriminate HDpos. }
  split; [exact HDnz|].
  set (A := / Qabs D).
  assert (HA : A == / Qabs D) by reflexivity.
  assert (HAD : Qabs D * A == 1).
  { unfold A. apply Qmult_inv_r. lra. }
  assert (HA0 : 0 < A) by (unfold A; apply Qinv_lt_0_compat; exact HDpos).
  (* the six differences *)
  destruct (canvas_difference _ _ _ _ Hx1 Hx3 Bx1 Bx3) as (X13 & HX13 & EX13 & AX13).
  destruct (canvas_difference _ _ _ _ Hy1 Hy3 By1 By3) as (Y13 & HY13 & EY13 & AY13).
  destruct (canvas_difference _ _ _ _ Hx2 Hx3 Bx2 Bx3) as (X23 & HX23 & EX23 & AX23).
  destruct (canvas_difference _ _ _ _ Hy2 Hy3 By2 By3) as (Y23 & HY23 & EY23 & AY23).
  destruct (canvas_difference _ _ _ _ Hu1 Hu3 Bu1 Bu3) as (U13 & HU13 & EU13 & AU13).
  destruct (canvas_difference _ _ _ _ Hu2 Hu3 Bu2 Bu3) as (U23 & HU23 & EU23 & AU23).
  assert (C45 : 2 ^ (-45) == 1 # 35184372088832) by reflexivity.
  rewrite C45 in EX13, EY13, EX23, EY23, EU13, EU23.
  assert (MX13 : Qabs X13 <= 401).
  { apply Qabs_bound. apply Qabs_bound_inv in EX13, AX13. lra. }
  assert (MY13 : Qabs Y13 <= 401).
  { apply Qabs_bound. apply Qabs_bound_inv in EY13, AY13. lra. }
  assert (MX23 : Qabs X23 <= 401).
  { apply Qabs_bound. apply Qabs_bound_inv in EX23, AX23. lra. }
  assert (MY23 : Qabs Y23 <= 401).
  { apply Qabs_bound. apply Qabs_bound_inv in EY23, AY23. lra. }
  assert (MU13 : Qabs U13 <= 401).
  { apply Qabs_bound. apply Qabs_bound_inv in EU13, AU13. lra. }
  assert (MU23 : Qabs U23 <= 401).
  { apply Qabs_bound. apply Qabs_bound_inv in EU23, AU23. lra. }
  (* the determinant and the two numerators *)
  destruct (cross_value _ _ _ _ _ _ _ _ HX13 HY23 HX23 HY13 MX13 MY23 MX23 MY13)
    as (D' & HD' & ED & MD).
  fold den in HD'.
  assert (EDD : D' == D) by (apply (denotes_unique den); assumption).
  rewrite EDD in ED, MD. clear HD' EDD D'.
  destruct (cross_value _ _ _ _ _ _ _ _ HU13 HY23 HU23 HY13 MU13 MY23 MU23 MY13)
    as (Na & HNa & ENa & MNa).
  destruct (cross_value _ _ _ _ _ _ _ _ HU23 HX13 HU13 HX23 MU23 MX13 MU13 MX23)
    as (Nb & HNb & ENb & MNb).
  assert (HA1 : 1 <= 321603 * A).
  { rewrite <- HAD. apply Qmult_le_compat_r; [exact MD | lra]. }
  assert (HA2 : A <= 10000000000).
  { assert (H : (7737125245533627 # 77371252455336267181195264) * A <= Qabs D * A).
    { apply Qmult_le_compat_r; [exact HDlo | lra]. }
    lra. }
  destruct (quotient_value _ _ _ _ A HNa HD0 HDnz HA MNa HA1 HA2)
    as (a & Ha & Ea & Ma).
  destruct (quotient_value _ _ _ _ A HNb HD0 HDnz HA MNb HA1 HA2)
    as (b & Hb & Eb & Mb).
  fold fa in Ha. fold fb in Hb.
  (* c = u3 - a * x3 - b * y3 *)
  assert (X3 : Qabs x3 <= 400) by (apply Qabs_bound; lra).
  assert (Y3 : Qabs y3 <= 400) by (apply Qabs_bound; lra).
  pose proof (prod_bound _ _ _ _ Ma X3) as P1.
  pose proof (prod_bound _ _ _ _ Mb Y3) as P3.
  destruct (mul_value _ _ _ _ Ha Hx3) as (t1 & Ht1 & R1 & _).
  { right. apply (far_from_overflow _ (128641600 * A)); [apply Qabs_bound|]; lra. }
  pose proof (rounds_lin _ _ (128641600 * A) R1 ltac:(apply Qabs_bound; lra)) as E1.
  apply Qabs_bound_inv in E1.
  destruct (sub_value _ _ _ _ Hu3 Ht1) as (t2 & Ht2 & R2 & _).
  { right. apply (far_from_overflow _ (128641601 * A + 401)); [apply Qabs_bound|]; lra. }
  pose proof (rounds_lin _ _ (128641601 * A + 401) R2
                ltac:(apply Qabs_bound; lra)) as E2.
  apply Qabs_bound_inv in E2.
  destruct (mul_value _ _ _ _ Hb Hy3) as (t3 & Ht3 & R3 & _).
  { right. apply (far_from_overflow _ (128641600 * A)); [apply Qabs_bound|]; lra. }
  pose proof (rounds_lin _ _ (128641600 * A) R3 ltac:(apply Qabs_bound; lra)) as E3.
  apply Qabs_bound_inv in E3.
  destruct (sub_value _ _ _ _ Ht2 Ht3) as (c & Hc & R4 & _).
  { right. apply (far_from_overflow _ (257283203 * A + 402)); [apply Qabs_bound|]; lra. }
  pose proof (rounds_lin _ _ (257283203 * A + 402) R4
                ltac:(apply Qabs_bound; lra)) as E4.
  apply Qabs_bound_inv in E4.
  fold fc in Hc.
  (* one vertex *)
  assert (Hvertex : forall (fx fy : B64.float) (x y ut : Q),
             denotes fx x -> denotes fy y ->
             0 <= x <= 400 -> 0 <= y <= 400 -> 0 <= ut <= 400 ->
             Qabs (a * (x - x3) + b * (y - y3) - (ut - u3))
             <= (1172 # 10000000000) * A + (1 # 35184372088832) ->
             exists r, denotes (B64.add (B64.add (B64.mul fa fx) (B64.mul fb fy)) fc) r
                       /\ Qabs (r - ut) <= roundtripTolerance D).
  { intros fx fy x y ut Hfx Hfy Bx By But HL.
    assert (X0 : Qabs x <= 400) by (apply Qabs_bound; lra).
    assert (Y0 : Qabs y <= 400) by (apply Qabs_bound; lra).
    pose proof (prod_bound _ _ _ _ Ma X0) as P5.
    pose proof (prod_bound _ _ _ _ Mb Y0) as P6.
    destruct (mul_value _ _ _ _ Ha Hfx) as (w1 & Hw1 & R5 & _).
    { right. apply (far_from_overflow _ (128641600 * A)); [apply Qabs_bound|]; lra. }
    pose proof (rounds_lin _ _ (128641600 * A) R5 ltac:(apply Qabs_bound; lra)) as E5.
    apply Qabs_bound_inv in E5.
    destruct (mul_value _ _ _ _ Hb Hfy) as (w2 & Hw2 & R6 & _).
    { right. apply (far_from_overflow _ (128641600 * A)); [apply Qabs_bound|]; lra. }
    pose proof (rounds_lin _ _ (128641600 * A) R6 ltac:(apply Qabs_bound; lra)) as E6.
    apply Qabs_bound_inv in E6.
    destruct (add_value _ _ _ _ Hw1 Hw2) as (w3 & Hw3 & R7 & _).
    { right. apply (far_from_overflow _ (257283202 * A + 1)); [apply Qabs_bound|]; lra. }
    pose proof (rounds_lin _ _ (257283202 * A + 1) R7
                  ltac:(apply Qabs_bound; lra)) as E7.
    apply Qabs_bound_inv in E7.
    destruct (add_value _ _ _ _ Hw3 Hc) as (r & Hr & R8 & _).
    { right. apply (far_from_overflow _ (600000000 * A + 1000)); [apply Qabs_bound|]; lra. }
    exists r. split; [exact Hr|].
    unfold roundtripTolerance. fold A.
    apply (apply_error A a b x y x3 y3 u3 ut t1 t2 t3 c w1 w2 w3 r);
      try assumption; lra. }
  apply Qabs_bound_inv in EX13, EY13, EX23, EY23, EU13, EU23, ENa, ENb, ED.
  split; [|split].
  - apply (Hvertex (pX s0) (pY s0) x1 y1 u1); try assumption.
    apply (linear_part A D Na Nb a b X13 Y13 U13
             (Na - (U13 * Y23 - U23 * Y13)) (Nb - (U23 * X13 - U13 * X23))
             (D - (X13 * Y23 - X23 * Y13))); try assumption;
      try (apply Qabs_bound; lra).
    ring.
  - apply (Hvertex (pX s1) (pY s1) x2 y2 u2); try assumption.
    apply (linear_part A D Na Nb a b X23 Y23 U23
             (Na - (U13 * Y23 - U23 * Y13)) (Nb - (U23 * X13 - U13 * X23))
             (D - (X13 * Y23 - X23 * Y13))); try assumption;
      try (apply Qabs_bound; lra).
    ring.
  - apply (Hvertex (pX s2) (pY s2) x3 y3 u3); try assumption.
    setoid_replace (a * (x3 - x3) + b * (y3 - y3) - (u3 - u3)) with 0 by ring.
    rewrite Qabs_pos by lra. lra.
Qed.

End Coordinate.

Lemma denominator_value (s0 s1 s2 : @Point B64.float) (p0 p1 p2 : Q * Q) :
  pointAt s0 p0 -> pointAt s1 p1 -> pointAt s2 p2 ->
  onCanvas p0 -> onCanvas p1 -> onCanvas p2 ->
  exists D, denotes (affineDenom (s0, s1, s2)) D.
Proof.
  intros (Hx0 & Hy0) (Hx1 & Hy1) (Hx2 & Hy2) (Bx0 & By0) (Bx1 & By1) (Bx2 & By2).
  unfold affineDenom.
  change (@sub B64.float _) with B64.sub. change (@mul B64.float _) with B64.mul.
  destruct (canvas_difference _ _ _ _ Hx0 Hx2 Bx0 Bx2) as (X13 & HX13 & EX13 & AX13).
  destruct (canvas_difference _ _ _ _ Hy1 Hy2 By1 By2) as (Y23 & HY23 & EY23 & AY23).
  destruct (canvas_difference _ _ _ _ Hx1 Hx2 Bx1 Bx2) as (X23 & HX23 & EX23 & AX23).
  destruct (canvas_difference _ _ _ _ Hy0 Hy2 By0 By2) as (Y13 & HY13 & EY13 & AY13).
  assert (C45 : 2 ^ (-45) == 1 # 35184372088832) by reflexivity.
  rewrite C45 in EX13, EY13, EX23, EY23.
  apply Qabs_bound_inv in EX13, EY13, EX23, EY23, AX13, AY13, AX23, AY23.
  destruct (cross_value _ _ _ _ X13 Y23 X23 Y13 HX13 HY23 HX23 HY13)
    as (D & HD & _); try (apply Qabs_bound; lra).
  exists D. exact HD.
Qed.

Lemma tolerance_quarter (D : Q) :
  1 # 4 <= Qabs D -> roundtripTolerance D <= 1 # 1000000.
Proof.
  intros H. unfold roundtripTolerance.
  assert (Hpos : 0 < Qabs D) by lra.
  assert (HAD : Qabs D * / Qabs D == 1) by (apply Qmult_inv_r; lra).
  assert (HA0 : 0 <= / Qabs D) by (apply Qinv_le_0_compat; lra).
  assert (Hq : (1 # 4) * / Qabs D <= Qabs D * / Qabs D).
  { apply Qmult_le_compat_r; assumption. }
  lra.
Qed.

Lemma reproduces_weaken (M : @Affine B64.float) (s : @Point B64.float)
      (q : Q * Q) (tol tol' : Q) :
  tol <= tol' -> reproduces M s q tol -> reproduces M s q tol'.
Proof.
  intros Hle (r & Hr & H1 & H2). exists r. split; [exact Hr|]. split; lra.
Qed.

(** C2, amended.  In binary64, for every source triangle and destination
    triangle whose vertices have finite coordinates on the canvas, from 0
    to 400, when the determinant [denom] of the source triangle passes the
    guard of [computeAffine] (it is not below [1e-10] in absolute value),
    [denom] is not zero and [applyAffine] with the map [computeAffine]
    returns sends each of the three source vertices to within
    [2.46e-7 / |denom| + 1e-12] of the corresponding destination vertex, in
    each coordinate; so to within [1e-6] whenever [|denom| >= 1/4]. *)
Theorem affine_roundtrip (s0 s1 s2 d0 d1 d2 : @Point B64.float)
        (p0 p1 p2 q0 q1 q2 : Q * Q) :
  pointAt s0 p0 -> pointAt s1 p1 -> pointAt s2 p2 ->
  pointAt d0 q0 -> pointAt d1 q1 -> pointAt d2 q2 ->
  onCanvas p0 -> onCanvas p1 -> onCanvas p2 ->
  onCanvas q0 -> onCanvas q1 -> onCanvas q2 ->
  B64.ltb (B64.abs (affineDenom (s0, s1, s2))) (B64.ofDec 1 10) = false ->
  let M := computeAffine (s0, s1, s2) (d0, d1, d2) in
  exists D,
    denotes (affineDenom (s0, s1, s2)) D /\ ~ D == 0
    /\ reproduces M s0 q0 (roundtripTolerance D)
    /\ reproduces M s1 q1 (roundtripTolerance D)
    /\ reproduces M s2 q2 (roundtripTolerance D)
    /\ (1 # 4 <= Qabs D ->
        reproduces M s0 q0 (1 # 1000000)
        /\ reproduces M s1 q1 (1 # 1000000)
        /\ reproduces M s2 q2 (1 # 1000000)).
Proof.
  intros Hs0 Hs1 Hs2 Hd0 Hd1 Hd2 Cs0 Cs1 Cs2 Cd0 Cd1 Cd2 Hguard M.
  destruct (denominator_value s0 s1 s2 p0 p1 p2 Hs0 Hs1 Hs2 Cs0 Cs1 Cs2) as (D & HD).
  exists D. split; [exact HD|].
  destruct Hd0 as (Hu0 & Hv0), Hd1 as (Hu1 & Hv1), Hd2 as (Hu2 & Hv2).
  destruct Cd0 as (Bu0 & Bv0), Cd1 as (Bu1 & Bv1), Cd2 as (Bu2 & Bv2).
  destruct (affine_coordinate s0 s1 s2 (pX d0) (pX d1) (pX d2) p0 p1 p2 _ _ _ D
              Hs0 Hs1 Hs2 Cs0 Cs1 Cs2 Hu0 Hu1 Hu2 Bu0 Bu1 Bu2 HD Hguard)
    as (HDnz & (rx0 & Hrx0 & Ex0) & (rx1 & Hrx1 & Ex1) & (rx2 & Hrx2 & Ex2)).
  destruct (affine_coordinate s0 s1 s2 (pY d0) (pY d1) (pY d2) p0 p1 p2 _ _ _ D
              Hs0 Hs1 Hs2 Cs0 Cs1 Cs2 Hv0 Hv1 Hv2 Bv0 Bv1 Bv2 HD Hguard)
    as (_ & (ry0 & Hry0 & Ey0) & (ry1 & Hry1 & Ey1) & (ry2 & Hry2 & Ey2)).
  split; [exact HDnz|].
  assert (R0 : reproduces M s0 q0 (roundtripTolerance D)).
  { exists (rx0, ry0). unfold M, computeAffine. cbv zeta.
    match goal with
    | |- context [if ?c then _ else _] =>
        replace c with false by (symmetry; exact Hguard)
    end.
    split; [split; [exact Hrx0 | exact Hry0]|]. split; [exact Ex0 | exact Ey0]. }
  assert (R1 : reproduces M s1 q1 (roundtripTolerance D)).
  { exists (rx1, ry1). unfold M, computeAffine. cbv zeta.
    match goal with
    | |- context [if ?c then _ else _] =>
        replace c with false by (symmetry; exact Hguard)
    end.
    split; [split; [exact Hrx1 | exact Hry1]|]. split; [exact Ex1 | exact Ey1]. }
  assert (R2 : reproduces M s2 q2 (roundtripTolerance D)).
  { exists (rx2, ry2). unfold M, computeAffine. cbv zeta.
    match goal with
    | |- context [if ?c then _ else _] =>
        replace c with false by (symmetry; exact Hguard)
    end.
    split; [split; [exact Hrx2 | exact Hry2]|]. split; [exact Ex2 | exact Ey2]. }
  split; [exact R0|]. split; [exact R1|]. split; [exact R2|].
  intros Hq. pose proof (tolerance_quarter D Hq) as Ht.
  split; [|split]; eapply reproduces_weaken; try exact Ht; assumption.
Qed.

Lemma affine_roundtrip_witness :
  let s0 := dpt 10 20 0 in let s1 := dpt 300 40 0 in let s2 := dpt 50 350 0 in
  let d0 := dpt 0 0 0 in let d1 := dpt 400 100 0 in let d2 := dpt 200 400 0 in
  pointAt s0 (10, 20) /\ pointAt s1 (300, 40) /\ pointAt s2 (50, 350)
  /\ pointAt d0 (0, 0) /\ pointAt d1 (400, 100) /\ pointAt d2 (200, 400)
  /\ onCanvas (10, 20) /\ onCanvas (300, 40) /\ onCanvas (50, 350)
  /\ onCanvas (0, 0) /\ onCanvas (400, 100) /\ onCanvas (200, 400)
  /\ B64.ltb (B64.abs (affineDenom (s0, s1, s2))) (B64.ofDec 1 10) = false
  /\ (let M := computeAffine (s0, s1, s2) (d0, d1, d2) in
      exists D,
        denotes (affineDenom (s0, s1, s2)) D /\ ~ D == 0
        /\ reproduces M s0 (0, 0) (roundtripTolerance D)
        /\ reproduces M s1 (400, 100) (roundtripTolerance D)
        /\ reproduces M s2 (200, 400) (roundtripTolerance D)
        /\ (1 # 4 <= Qabs D ->
            reproduces M s0 (0, 0) (1 # 1000000)
            /\ reproduces M s1 (400, 100) (1 # 1000000)
            /\ reproduces M s2 (200, 400) (1 # 1000000))).
Proof.
  intros s0 s1 s2 d0 d1 d2.
  assert (A0 : pointAt s0 (10, 20))
    by (split; eapply denotes_compute; vm_compute; reflexivity).
  assert (A1 : pointAt s1 (300, 40))
    by (split; eapply denotes_compute; vm_compute; reflexivity).
  assert (A2 : pointAt s2 (50, 350))
    by (split; eapply denotes_compute; vm_compute; reflexivity).
  assert (B0 : pointAt d0 (0, 0))
    by (split; eapply denotes_compute; vm_compute; reflexivity).
  assert (B1 : pointAt d1 (400, 100))
    by (split; eapply denotes_compute; vm_compute; reflexivity).
  assert (B2 : pointAt d2 (200, 400))
    by (split; eapply denotes_compute; vm_compute; reflexivity).
  assert (C0 : onCanvas (10, 20)) by (split; split; vm_compute; discriminate).
  assert (C1 : onCanvas (300, 40)) by (split; split; vm_compute; discriminate).
  assert (C2 : onCanvas (50, 350)) by (split; split; vm_compute; discriminate).
  assert (E0 : onCanvas (0, 0)) by (split; split; vm_compute; discriminate).
  assert (E1 : onCanvas (400, 100)) by (split; split; vm_compute; discriminate).
  assert (E2 : onCanvas (200, 400)) by (split; split; vm_compute; discriminate).
  assert (G : B64.ltb (B64.abs (affineDenom (s0, s1, s2))) (B64.ofDec 1 10) = false)
    by (vm_compute; reflexivity).
  repeat (split; [assumption|]).
  exact (affine_roundtrip s0 s1 s2 d0 d1 d2 _ _ _ _ _ _
           A0 A1 A2 B0 B1 B2 C0 C1 C2 E0 E1 E2 G).
Defined.

(** ** Runs of the model *)

(** The samples at the last pixel, at negative and at infinite coordinates
    of the white image. *)
Example sampleBilinear_corners :
  let white := mkColor (B64.ofZ 255) (B64.ofZ 255) (B64.ofZ 255) in
  sampleBilinear newFaceMorpher whiteImage (B64.ofZ 399) (B64.ofZ 399) = white
  /\ sampleBilinear newFaceMorpher whiteImage (B64.ofZ (-5)) (B64.ofDec (-75) 1)
     = white
  /\ sampleBilinear newFaceMorpher whiteImage
                    (S754_infinity false) (S754_infinity true) = white.
Proof. vm_compute. repeat split. Qed.

(** [warpTriangle] on the small triangle, blending the white image and a
    black one half and half into the black buffer of object [2]: the loops
    end within five passes, the six pixels of the triangle become grey and
    opaque, their neighbours stay as they were. *)
Example warpTriangle_run :
  let '(h', done) :=
    warpTriangle 5 newFaceMorpher demoHeap 0%nat demoTriangle 1%nat demoTriangle
                 2%nat demoTriangle (B64.ofDec 5 1) in
  done = true
  /\ firstn 16 (h' 2%nat)
     = [128; 128; 128; 255; 128; 128; 128; 255; 128; 128; 128; 255; 0; 0; 0; 0]%Z
  /\ firstn 12 (skipn 1600 (h' 2%nat))
     = [128; 128; 128; 255; 128; 128; 128; 255; 0; 0; 0; 0]%Z
  /\ firstn 8 (skipn 3200 (h' 2%nat)) = [128; 128; 128; 255; 0; 0; 0; 0]%Z.
Proof. vm_compute. repeat split. Qed.

(** With two passes only, the loop over the first row runs out. *)
Example warpTriangle_out_of_fuel :
  snd (warpTriangle 2 newFaceMorpher demoHeap 0%nat demoTriangle 1%nat
                    demoTriangle 2%nat demoTriangle (B64.ofDec 5 1)) = false.
Proof. vm_compute. reflexivity. Qed.

(** A collinear source triangle in binary64. *)
Example computeAffine_collinear_b64 :
  computeAffine (dpt 10 10 0, dpt 20 30 0, dpt 30 50 0)
                (dpt 1 2 0, dpt 3 4 0, dpt 5 7 0)
  = @identityAffine B64.float _.
Proof. vm_compute. reflexivity. Qed.

Lemma interpolatePoints_endpoints_witness :
  length [dpt 15 25 1; dpt 3 4 0] = length [dpt 100 200 0; dpt 7 1 1]
  /\ forallb finitePoint [dpt 15 25 1; dpt 3 4 0] = true
  /\ forallb finitePoint [dpt 100 200 0; dpt 7 1 1] = true
  /\ ((exists r, interpolatePoints [dpt 15 25 1; dpt 3 4 0]
                                   [dpt 100 200 0; dpt 7 1 1] (ofZ 0) = Ok r
                 /\ Forall2 samePoint r [dpt 15 25 1; dpt 3 4 0])
      /\ (exists r, interpolatePoints [dpt 15 25 1; dpt 3 4 0]
                                      [dpt 100 200 0; dpt 7 1 1] (ofZ 1) = Ok r
                    /\ Forall2 samePoint r [dpt 100 200 0; dpt 7 1 1])).
Proof.
  assert (H0 : length [dpt 15 25 1; dpt 3 4 0]
               = length [dpt 100 200 0; dpt 7 1 1]) by reflexivity.
  assert (H1 : forallb finitePoint [dpt 15 25 1; dpt 3 4 0] = true)
    by (vm_compute; reflexivity).
  assert (H2 : forallb finitePoint [dpt 100 200 0; dpt 7 1 1] = true)
    by (vm_compute; reflexivity).
  split; [exact H0|]. split; [exact H1|]. split; [exact H2|].
  exact (interpolatePoints_endpoints _ _ H0 H1 H2).
Defined.

Lemma morph_mismatch_throws_witness :
  (length [dpt 10 20 0] < length [dpt 10 20 0; dpt 30 40 0])%nat
  /\ (interpolatePoints [dpt 10 20 0; dpt 30 40 0] [dpt 10 20 0] (B64.ofDec 5 1)
      = Throw TypeError
      /\ morph 10 newFaceMorpher demoHeap (B64.ofZ 400) (B64.ofZ 400)
               (B64.ofZ 400) (B64.ofZ 400) 0%nat 1%nat 2%nat
               [dpt 10 20 0; dpt 30 40 0] [dpt 10 20 0] (B64.ofDec 5 1)
         = Throw TypeError).
Proof.
  assert (H : (length [dpt 10 20 0] < length [dpt 10 20 0; dpt 30 40 0])%nat)
    by (simpl; lia).
  split; [exact H|].
  exact (@morph_mismatch_throws B64.float B64_Number 10 newFaceMorpher demoHeap
           (B64.ofZ 400) (B64.ofZ 400) (B64.ofZ 400) (B64.ofZ 400)
           0%nat 1%nat 2%nat
           [dpt 10 20 0; dpt 30 40 0] [dpt 10 20 0] (B64.ofDec 5 1) H).
Defined.

(** * Further facts about the code *)

(** ** Sequences of points and the store *)

Section InterpolateMore.
Context {F : Type} {num : Number F}.
Local Open Scope js_scope.

Lemma interpolate_prefix (ratio : F) (l1 l2 pre : list Point) :
  (length l1 <= length l2)%nat ->
  mapM (fun '(i, pt) =>
          q <- getElem (pre ++ l2) i ;;
          Ok {| pX := pX pt * (ofZ 1 - ratio) + pX q * ratio;
                pY := pY pt * (ofZ 1 - ratio) + pY q * ratio |})
       (combine (seq (length pre) (length l1)) l1)
  = Ok (zipPoints ratio l1 l2).
Proof.
  revert l2 pre. induction l1 as [|pt r1 IH]; intros l2 pre Hlen.
  - destruct l2; reflexivity.
  - destruct l2 as [|q r2]; [simpl in Hlen; lia|].
    cbn [length seq combine mapM zipPoints].
    unfold getElem at 1.
    rewrite nth_error_app2 by lia. rewrite Nat.sub_diag. cbn [nth_error bind].
    specialize (IH r2 (pre ++ [q])).
    rewrite <- app_assoc in IH. cbn [app] in IH.
    rewrite length_app in IH. cbn [length] in IH.
    rewrite Nat.add_1_r in IH.
    rewrite IH by (simpl in Hlen; lia).
    reflexivity.
Qed.

Lemma zipPoints_length (ratio : F) (l1 l2 : list Point) :
  (length l1 <= length l2)%nat -> length (zipPoints ratio l1 l2) = length l1.
Proof.
  revert l2. induction l1 as [|pt r1 IH]; intros [|q r2] Hlen; simpl in *;
    try reflexivity; try lia.
  f_equal. apply IH. lia.
Qed.

Lemma zipPoints_nth (ratio : F) (l1 l2 : list Point) (i : nat) (pt q : Point) :
  nth_error l1 i = Some pt -> nth_error l2 i = Some q ->
  nth_error (zipPoints ratio l1 l2) i = Some (lerpPoint ratio pt q).
Proof.
  revert l2 i. induction l1 as [|a r1 IH]; intros [|b r2] [|i] H1 H2;
    simpl in *; try discriminate.
  - injection H1 as ->. injection H2 as ->. reflexivity.
  - apply IH; assumption.
Qed.

(** X6.  When [pts2] has at least as many points as [pts1], [interpolatePoints]
    returns normally: one point for each point of [pts1], the point at
    index [i] blended with [pts2[i]]; what [pts2] holds past the length of
    [pts1] is not looked at. *)
Theorem interpolatePoints_longer_second (pts1 pts2 : list Point) (ratio : F) :
  (length pts1 <= length pts2)%nat ->
  exists r,
    interpolatePoints pts1 pts2 ratio = Ok r
    /\ length r = length pts1
    /\ (forall i pt q,
           nth_error pts1 i = Some pt -> nth_error pts2 i = Some q ->
           nth_error r i
           = Some {| pX := pX pt * (ofZ 1 - ratio) + pX q * ratio;
                     pY := pY pt * (ofZ 1 - ratio) + pY q * ratio |})
    /\ (forall extra,
           interpolatePoints pts1 (pts2 ++ extra) ratio = Ok r).
Proof.
  intros Hlen. exists (zipPoints ratio pts1 pts2).
  split; [exact (interpolate_prefix ratio pts1 pts2 [] Hlen)|].
  split; [apply zipPoints_length, Hlen|].
  split; [intros i pt q H1 H2; exact (zipPoints_nth ratio pts1 pts2 i pt q H1 H2)|].
  intros extra.
  assert (Hlen' : (length pts1 <= length (pts2 ++ extra))%nat)
    by (rewrite length_app; lia).
  pose proof (interpolate_prefix ratio pts1 (pts2 ++ extra) [] Hlen') as Hx.
  cbn [app length] in Hx. unfold interpolatePoints, indexed. rewrite Hx.
  f_equal. clear Hlen' Hx. revert pts2 Hlen.
  induction pts1 as [|a r1 IH]; intros [|b r2] Hlen; simpl in *;
    try reflexivity; try lia.
  f_equal. apply IH. lia.
Qed.

End InterpolateMore.

Section DelaunayOrder.
Context {F : Type} {num : Number F}.

Lemma pushNew_last (next i n : nat) (polygon : list Edge) :
  Forall (edgeOk i n) polygon -> Forall (lastOk n) (pushNew next i polygon).
Proof.
  intros Hall. revert next.
  induction Hall as [|e rest He _ IH]; intros next; simpl; constructor.
  - destruct He as (H0 & H1 & _). right. simpl. split; assumption.
  - apply IH.
Qed.

Lemma insertPoint_last (allPoints : list Point) (triangles : list Tri)
      (next i n : nat) (pt : Point) (st : list Tri * nat) :
  length allPoints = (n + 3)%nat -> (i < n)%nat ->
  Forall (triOk i n) triangles -> Forall (lastOk n) triangles ->
  insertPoint allPoints (triangles, next) (i, pt) = Ok st ->
  Forall (lastOk n) (fst st).
Proof.
  intros Hlen Hin Hall Hlast Hst.
  destruct (@findBad_ok _ _ allPoints pt i n triangles Hlen) as (bad & Hbad & Hincl);
    [lia | exact Hall |].
  unfold insertPoint in Hst. rewrite Hbad in Hst. simpl in Hst.
  injection Hst as <-. simpl.
  apply Forall_app. split.
  - apply Forall_forall. intros t Ht. apply filter_In in Ht.
    rewrite Forall_forall in Hlast. apply Hlast. tauto.
  - apply pushNew_last.
    apply Forall_forall. intros e He.
    apply boundaryPolygon_edges in He. destruct He as (t & Ht & He).
    apply triOk_edges with (t := t); [|exact He].
    rewrite Forall_forall in Hall. apply Hall, Hincl, Ht.
Qed.

Lemma insertAll_last (allPoints : list Point) (n : nat) (rest : list Point) :
  length allPoints = (n + 3)%nat ->
  forall (i : nat) (st : list Tri * nat),
    (i + length rest = n)%nat ->
    Forall (triOk i n) (fst st) -> Forall (lastOk n) (fst st) ->
    exists st', insertAll allPoints st (combine (seq i (length rest)) rest) = Ok st'
                /\ Forall (triOk n n) (fst st') /\ Forall (lastOk n) (fst st').
Proof.
  intros Hlen. induction rest as [|pt rest IH]; intros i st Hi Hall Hlast.
  - simpl in *. exists st. split; [reflexivity|].
    assert (i = n) as -> by lia. split; assumption.
  - simpl in Hi. destruct st as [triangles next].
    destruct (@insertPoint_ok _ _ allPoints triangles next i n pt Hlen)
      as (st1 & H1 & Hok1); [lia | exact Hall |].
    pose proof (insertPoint_last allPoints triangles next i n pt st1 Hlen
                  ltac:(lia) Hall Hlast H1) as Hlast1.
    cbn [length seq combine insertAll].
    rewrite H1. simpl.
    apply IH; [lia | exact Hok1 | exact Hlast1].
Qed.

Lemma computeDelaunay_shape (points : list Point) :
  exists tris,
    computeDelaunay points = Ok tris
    /\ forall i j k, In (i, j, k) tris ->
         (i < length points)%nat /\ (j < length points)%nat
         /\ (k < length points)%nat /\ (i < k)%nat /\ (j < k)%nat.
Proof.
  unfold computeDelaunay.
  destruct (Nat.ltb (length points) 3) eqn:Hn.
  - exists []. split; [reflexivity | intros i j k []].
  - destruct (superTriangle points) as [[p1 p2] p3].
    destruct (@insertAll_last (points ++ [p1; p2; p3]) (length points) points) with
      (i := 0%nat)
      (st := ([mkTri 0 (length points) (length points + 1) (length points + 2)],
              1%nat))
      as (st & Hst & Hok & Hlast).
    + rewrite length_app. reflexivity.
    + reflexivity.
    + constructor; [|constructor].
      unfold triOk, vertexOk; simpl. repeat split; lia.
    + constructor; [|constructor]. left. simpl. lia.
    + unfold indexed. rewrite Hst. simpl.
      eexists. split; [reflexivity|].
      intros i j k Hin. apply in_map_iff in Hin.
      destruct Hin as (t & Heq & Ht). injection Heq as <- <- <-.
      apply filter_In in Ht. destruct Ht as (Ht & Hlt).
      apply andb_prop in Hlt. destruct Hlt as (Hlt & Hk).
      apply andb_prop in Hlt. destruct Hlt as (Hi & Hj).
      apply Nat.ltb_lt in Hi, Hj, Hk.
      rewrite Forall_forall in Hlast. specialize (Hlast t Ht).
      unfold lastOk, vertexOk in Hlast.
      repeat split; try assumption; lia.
Qed.

(** X8.  In every triangle [computeDelaunay] returns the third index is the
    largest: a triangle is made of an edge between earlier points and the
    point whose insertion created it. *)
Theorem computeDelaunay_newest_last (points : list Point) :
  exists tris,
    computeDelaunay points = Ok tris
    /\ forall i j k, In (i, j, k) tris -> (i < k)%nat /\ (j < k)%nat.
Proof.
  destruct (computeDelaunay_shape points) as (tris & Htris & Hall).
  exists tris. split; [exact Htris|].
  intros i j k Hin. destruct (Hall i j k Hin) as (_ & _ & _ & Hik & Hjk).
  split; assumption.
Qed.

End DelaunayOrder.

Section MorphFacts.
Context {F : Type} {num : Number F}.
Local Open Scope js_scope.

Lemma warpTriangle_keeps
      (fuel : nat) (this : FaceMorpher) (h : Heap)
      (imgData1 : loc) (srcTri1 : Triangle)
      (imgData2 : loc) (srcTri2 : Triangle)
      (outputData : loc) (dstTri : Triangle) (ratio : F) :
  frame outputData (ownPixel this dstTri) h
        (fst (warpTriangle fuel this h imgData1 srcTri1 imgData2 srcTri2
                           outputData dstTri ratio)).
Proof.
  unfold warpTriangle.
  pose proof (@colLoop_frame _ _ this outputData dstTri) as Hcol.
  destruct dstTri as [[d0 d1] d2].
  apply (Hcol _ _ _ (fun x y h => warpPixel_frame this imgData1 imgData2 outputData _ _ _ ratio x y h) fuel fuel 0%nat h).
Qed.

Lemma warpAll_ok (fuel : nat) (this : FaceMorpher)
      (allPts1 allPts2 avgPts : list Point)
      (imgData1 imgData2 outputData : loc) (ratio : F) (m : nat)
      (triangles : list (nat * nat * nat)) :
  (m <= length allPts1)%nat -> (m <= length allPts2)%nat ->
  (m <= length avgPts)%nat ->
  (forall i j k, In (i, j, k) triangles -> (i < m)%nat /\ (j < m)%nat /\ (k < m)%nat) ->
  forall h, exists h' done,
    warpAll fuel this allPts1 allPts2 avgPts imgData1 imgData2 outputData ratio
            triangles h = Ok (h', done)
    /\ frame outputData (fun _ => True) h h'.
Proof.
  intros H1 H2 H3. induction triangles as [|[[i j] k] rest IH]; intros Hall h.
  - exists h, true. split; [reflexivity | apply frame_refl].
  - destruct (Hall i j k (or_introl eq_refl)) as (Hi & Hj & Hk).
    destruct (@getElem_ok _ allPts1 i ltac:(lia)) as (s1i & E1i).
    destruct (@getElem_ok _ allPts1 j ltac:(lia)) as (s1j & E1j).
    destruct (@getElem_ok _ allPts1 k ltac:(lia)) as (s1k & E1k).
    destruct (@getElem_ok _ allPts2 i ltac:(lia)) as (s2i & E2i).
    destruct (@getElem_ok _ allPts2 j ltac:(lia)) as (s2j & E2j).
    destruct (@getElem_ok _ allPts2 k ltac:(lia)) as (s2k & E2k).
    destruct (@getElem_ok _ avgPts i ltac:(lia)) as (di & Edi).
    destruct (@getElem_ok _ avgPts j ltac:(lia)) as (dj & Edj).
    destruct (@getElem_ok _ avgPts k ltac:(lia)) as (dk & Edk).
    cbn [warpAll]. rewrite E1i, E1j, E1k, E2i, E2j, E2k, Edi, Edj, Edk.
    cbn [bind].
    pose proof (warpTriangle_keeps fuel this h imgData1 (s1i, s1j, s1k)
                  imgData2 (s2i, s2j, s2k) outputData (di, dj, dk) ratio) as Hf.
    destruct (warpTriangle fuel this h imgData1 (s1i, s1j, s1k)
                imgData2 (s2i, s2j, s2k) outputData (di, dj, dk) ratio)
      as [h1 done1]. cbn [fst] in Hf.
    assert (Hf' : frame outputData (fun _ => True) h h1).
    { eapply frame_weaken; [|exact Hf]. intros; exact I. }
    destruct done1.
    + destruct (IH (fun i j k Hin => Hall i j k (or_intror Hin)) h1)
        as (h' & done & Hw & Hfr).
      exists h', done. split; [exact Hw|].
      eapply frame_trans; [exact Hf' | exact Hfr].
    + exists h1, false. split; [reflexivity | exact Hf'].
Qed.

Lemma morph_value
        (fuel : nat) (this : FaceMorpher) (h : Heap)
        (img1Width img1Height img2Width img2Height : F)
        (imgData1 imgData2 outputData : loc)
        (landmarks1 landmarks2 : list Point) (ratio : F) :
  (length landmarks1 <= length landmarks2)%nat ->
  exists h' done,
    morph fuel this h img1Width img1Height img2Width img2Height
          imgData1 imgData2 outputData landmarks1 landmarks2 ratio
    = Ok (h', done)
    /\ (forall l, l <> outputData -> h' l = h l)
    /\ length (h' outputData)
       = Z.to_nat (outputWidth this * outputHeight this * 4).
Proof.
  intros Hlen. unfold morph.
  set (allPts1 := normalizeLandmarks this landmarks1 img1Width img1Height
                  ++ getBoundaryPoints this).
  set (allPts2 := normalizeLandmarks this landmarks2 img2Width img2Height
                  ++ getBoundaryPoints this).
  assert (L1 : length allPts1 = (length landmarks1 + 8)%nat).
  { unfold allPts1, normalizeLandmarks. rewrite length_app, length_map. reflexivity. }
  assert (L2 : length allPts2 = (length landmarks2 + 8)%nat).
  { unfold allPts2, normalizeLandmarks. rewrite length_app, length_map. reflexivity. }
  assert (Hle : (length allPts1 <= length allPts2)%nat) by lia.
  pose proof (interpolate_prefix ratio allPts1 allPts2 [] Hle) as Hint.
  change (interpolatePoints allPts1 allPts2 ratio
          = Ok (zipPoints ratio allPts1 allPts2)) in Hint.
  rewrite Hint. cbn [bind].
  pose proof (zipPoints_length ratio allPts1 allPts2 Hle) as Lavg.
  destruct (computeDelaunay_shape (zipPoints ratio allPts1 allPts2))
    as (tris & Htris & Hall).
  rewrite Htris. cbn [bind].
  set (h0 := setBuffer h outputData
               (repeat 0%Z (Z.to_nat (outputWidth this * outputHeight this * 4)))).
  destruct (warpAll_ok fuel this allPts1 allPts2 (zipPoints ratio allPts1 allPts2)
              imgData1 imgData2 outputData ratio (length allPts1) tris
              ltac:(lia) ltac:(lia) ltac:(lia)) with (h := h0)
    as (h' & done & Hw & (Hother & Hl & _)).
  { intros i j k Hin. destruct (Hall i j k Hin) as (Hi & Hj & Hk & _).
    rewrite Lavg in Hi, Hj, Hk. auto. }
  exists h', done. split; [exact Hw|]. split.
  - intros l Hne. rewrite (Hother l Hne). unfold h0, setBuffer.
    destruct (Nat.eqb l outputData) eqn:E; [|reflexivity].
    apply Nat.eqb_eq in E. contradiction.
  - rewrite Hl. unfold h0, setBuffer. rewrite Nat.eqb_refl. apply repeat_length.
Qed.

(** X1.  When [landmarks2] has at least as many points as [landmarks1], [morph]
    raises no exception.  Whatever the number of loop passes, every buffer
    other than the output (so both source images) is left as it was, and
    the output buffer has [outputWidth * outputHeight * 4] bytes. *)
Theorem morph_returns
        (fuel : nat) (this : FaceMorpher) (h : Heap)
        (img1Width img1Height img2Width img2Height : F)
        (imgData1 imgData2 outputData : loc)
        (landmarks1 landmarks2 : list Point) (ratio : F) :
  (length landmarks1 <= length landmarks2)%nat ->
  exists h' done,
    morph fuel this h img1Width img1Height img2Width img2Height
          imgData1 imgData2 outputData landmarks1 landmarks2 ratio
    = Ok (h', done)
    /\ (forall l, l <> outputData -> h' l = h l)
    /\ length (h' outputData)
       = Z.to_nat (outputWidth this * outputHeight this * 4).
Proof.
  exact (morph_value fuel this h img1Width img1Height img2Width img2Height
           imgData1 imgData2 outputData landmarks1 landmarks2 ratio).
Qed.

End MorphFacts.

(** ** Exact geometry *)


















(** X18.  Evaluated without rounding, the map from a triangle to itself leaves
    every point where it is, for every triangle: by the formulas when the
    determinant passes the guard, by the identity map returned otherwise. *)
Theorem affine_exact_self (x1 y1 x2 y2 x3 y3 x y : Q) :
  let A : Triangle := (qpt x1 y1, qpt x2 y2, qpt x3 y3) in
  eqxPoint (applyAffine (computeAffine A A) (Some x) (Some y)) (qpt x y).
Proof.
  intros A. unfold A.
  destruct (Qlt_le_dec (Qabs ((x1 - x3) * (y2 - y3) - (x2 - x3) * (y1 - y3))) tiny)
    as [Hlt | Hge].
  - rewrite (@computeAffine_guard Exact.num Exact_Number).
    + unfold identityAffine.
      change (@ofZ Exact.num _ 1) with (Some 1).
      change (@ofZ Exact.num _ 0) with (Some 0).
      rewrite applyAffine_exact.
      unfold eqxPoint, eqx, qpt. cbn [pX pY]. split; ring.
    + unfold affineDenom, qpt. cbn [pX pY]. rewrite ofDec_tiny.
      change (Exact.Qltb (Qabs ((x1 - x3) * (y2 - y3) - (x2 - x3) * (y1 - y3))) tiny
              = true).
      apply Qltb_true. exact Hlt.
  - pose proof (Qabs_pos_nonzero _ Hge) as Hnz.
    rewrite computeAffine_exact_regular by exact Hge.
    cbv zeta. rewrite applyAffine_exact.
    unfold eqxPoint, eqx, qpt. cbn [pX pY].
    split; field; exact Hnz.
Qed.










Lemma getBoundaryPoints_exact_value (W H : Z) :
  getBoundaryPoints {| outputWidth := W; outputHeight := H |}
  = qpoints (boundaryQ (inject_Z W) (inject_Z H)).
Proof. reflexivity. Qed.

(** X5.  Evaluated without rounding, for a canvas of at least 3 by 3 pixels the
    eight points of [getBoundaryPoints] lie on the border of the pixel
    rectangle from [(0, 0)] to [(W - 1, H - 1)], and no two of them are the
    same point. *)
Theorem getBoundaryPoints_exact_border (W H : Z) :
  (3 <= W)%Z -> (3 <= H)%Z ->
  exists l,
    getBoundaryPoints {| outputWidth := W; outputHeight := H |} = qpoints l
    /\ length l = 8%nat
    /\ Forall (onBorder (inject_Z W) (inject_Z H)) l
    /\ ForallOrdPairs (fun p q => ~ samePointQ p q) l.
Proof.
  intros HW HH. exists (boundaryQ (inject_Z W) (inject_Z H)).
  split; [apply getBoundaryPoints_exact_value|]. split; [reflexivity|].
  assert (HWq : 3 <= inject_Z W) by (change 3 with (inject_Z 3); rewrite <- Zle_Qle; exact HW).
  assert (HHq : 3 <= inject_Z H) by (change 3 with (inject_Z 3); rewrite <- Zle_Qle; exact HH).
  generalize dependent (inject_Z W). generalize dependent (inject_Z H).
  intros h Hh w Hw.
  assert (Hw2 : w / 2 == w * (1 # 2)) by field.
  assert (Hh2 : h / 2 == h * (1 # 2)) by field.
  unfold boundaryQ.
  split.
  - repeat (apply Forall_cons; [|]); try apply Forall_nil;
      unfold onBorder; cbn [fst snd]; rewrite ?Hw2, ?Hh2;
      repeat split; try lra;
      first [left; lra | right; left; lra
             | right; right; left; lra | right; right; right; lra].
  - repeat (apply FOP_cons; [repeat (apply Forall_cons; [|]); try apply Forall_nil|]);
      try apply FOP_nil;
      unfold samePointQ; cbn [fst snd]; rewrite ?Hw2, ?Hh2;
      intros (E1 & E2); lra.
Qed.

Lemma getBoundaryPoints_exact_border_witness :
  ((3 <= 400)%Z /\ (3 <= 400)%Z)
  /\ exists l,
      getBoundaryPoints {| outputWidth := 400; outputHeight := 400 |} = qpoints l
      /\ length l = 8%nat
      /\ Forall (onBorder (inject_Z 400) (inject_Z 400)) l
      /\ ForallOrdPairs (fun p q => ~ samePointQ p q) l.
Proof.
  assert (H0 : (3 <= 400)%Z) by lia.
  split; [split; exact H0|].
  exact (getBoundaryPoints_exact_border 400 400 H0 H0).
Defined.



(** ** Binary64: degenerate triangles, NaN and the pixel grid *)

Create HintDb zn.

Lemma sub_self_zn (x : B64.float) : zeroOrNan (B64.sub x x) = true.
Proof.
  destruct x as [s|s| |s m e]; try (destruct s; reflexivity); try reflexivity.
  unfold B64.sub, SFsub. rewrite Z.sub_diag. reflexivity.
Qed.

Lemma mul_zn_l (x y : B64.float) : zeroOrNan x = true -> zeroOrNan (B64.mul x y) = true.
Proof.
  destruct x as [s|s| |s m e]; try discriminate; intros _;
    destruct y as [s'|s'| |s' m' e']; reflexivity.
Qed.

Lemma mul_zn_r (x y : B64.float) : zeroOrNan y = true -> zeroOrNan (B64.mul x y) = true.
Proof.
  destruct y as [s|s| |s m e]; try discriminate; intros _;
    destruct x as [s'|s'| |s' m' e']; reflexivity.
Qed.

Lemma add_zn (x y : B64.float) :
  zeroOrNan x = true -> zeroOrNan y = true -> zeroOrNan (B64.add x y) = true.
Proof.
  destruct x as [s|s| |s m e]; try discriminate; intros _;
    destruct y as [s'|s'| |s' m' e']; try discriminate; intros _;
    try reflexivity; destruct s, s'; reflexivity.
Qed.

Lemma sub_zn (x y : B64.float) :
  zeroOrNan x = true -> zeroOrNan y = true -> zeroOrNan (B64.sub x y) = true.
Proof.
  destruct x as [s|s| |s m e]; try discriminate; intros _;
    destruct y as [s'|s'| |s' m' e']; try discriminate; intros _;
    try reflexivity; destruct s, s'; reflexivity.
Qed.

#[local] Hint Resolve sub_self_zn mul_zn_l mul_zn_r add_zn sub_zn : zn.

Lemma zn_sign (x : B64.float) :
  zeroOrNan x = true ->
  B64.gtb x (B64.ofZ 0) = false /\ B64.ltb x (B64.ofZ 0) = false.
Proof.
  destruct x as [s|s| |s m e]; try discriminate; intros _; split; reflexivity.
Qed.

Lemma inCircumcircle_zn (p a b c : @Point B64.float) :
  zeroOrNan
    (let ax := B64.sub (pX a) (pX p) in
     let ay := B64.sub (pY a) (pY p) in
     let bx := B64.sub (pX b) (pX p) in
     let by_ := B64.sub (pY b) (pY p) in
     let cx := B64.sub (pX c) (pX p) in
     let cy := B64.sub (pY c) (pY p) in
     B64.add
       (B64.sub (B64.mul (B64.add (B64.mul ax ax) (B64.mul ay ay))
                         (B64.sub (B64.mul bx cy) (B64.mul cx by_)))
                (B64.mul (B64.add (B64.mul bx bx) (B64.mul by_ by_))
                         (B64.sub (B64.mul ax cy) (B64.mul cx ay))))
       (B64.mul (B64.add (B64.mul cx cx) (B64.mul cy cy))
                (B64.sub (B64.mul ax by_) (B64.mul bx ay)))) = true ->
  inCircumcircle p a b c = false.
Proof.
  intros H. apply zn_sign in H. destruct H as (Hg & Hl).
  unfold inCircumcircle. cbv zeta in *.
  change (@sub B64.float _) with B64.sub.
  change (@mul B64.float _) with B64.mul.
  change (@add B64.float _) with B64.add.
  change (@gtb B64.float _) with B64.gtb.
  change (@ltb B64.float _) with B64.ltb.
  change (@ofZ B64.float _) with B64.ofZ.
  rewrite Hg, Hl.
  match goal with |- (if ?t then _ else _) = _ => destruct t end; reflexivity.
Qed.

(** X12.  In binary64, for all values of the coordinates, [inCircumcircle]
    answers [false] when the point tested is one of the three vertices: the
    test is strict, also under rounding, overflow and NaN. *)
Theorem inCircumcircle_vertex_outside (a b c : @Point B64.float) :
  inCircumcircle a a b c = false
  /\ inCircumcircle b a b c = false
  /\ inCircumcircle c a b c = false.
Proof.
  split; [|split]; apply inCircumcircle_zn; cbv zeta; auto 12 with zn.
Qed.

Create HintDb nan.

Lemma is_nan_eq (x : B64.float) : B64.is_nan x = true -> x = S754_nan.
Proof. destruct x; try discriminate; reflexivity. Qed.

Lemma add_nan_l (x y : B64.float) : B64.is_nan x = true -> B64.is_nan (B64.add x y) = true.
Proof. intros H. rewrite (is_nan_eq x H). reflexivity. Qed.

Lemma add_nan_r (x y : B64.float) : B64.is_nan y = true -> B64.is_nan (B64.add x y) = true.
Proof. intros H. rewrite (is_nan_eq y H). destruct x; reflexivity. Qed.

Lemma sub_nan_l (x y : B64.float) : B64.is_nan x = true -> B64.is_nan (B64.sub x y) = true.
Proof. intros H. rewrite (is_nan_eq x H). reflexivity. Qed.

Lemma sub_nan_r (x y : B64.float) : B64.is_nan y = true -> B64.is_nan (B64.sub x y) = true.
Proof. intros H. rewrite (is_nan_eq y H). destruct x; reflexivity. Qed.

Lemma mul_nan_l (x y : B64.float) : B64.is_nan x = true -> B64.is_nan (B64.mul x y) = true.
Proof. intros H. rewrite (is_nan_eq x H). reflexivity. Qed.

Lemma mul_nan_r (x y : B64.float) : B64.is_nan y = true -> B64.is_nan (B64.mul x y) = true.
Proof. intros H. rewrite (is_nan_eq y H). destruct x; reflexivity. Qed.

Lemma div_nan_l (x y : B64.float) : B64.is_nan x = true -> B64.is_nan (B64.div x y) = true.
Proof. intros H. rewrite (is_nan_eq x H). reflexivity. Qed.

Lemma div_nan_r (x y : B64.float) : B64.is_nan y = true -> B64.is_nan (B64.div x y) = true.
Proof. intros H. rewrite (is_nan_eq y H). destruct x; reflexivity. Qed.

Lemma min2_nan_l (x y : B64.float) : B64.is_nan x = true -> B64.is_nan (B64.min2 x y) = true.
Proof. intros H. rewrite (is_nan_eq x H). reflexivity. Qed.

Lemma min2_nan_r (x y : B64.float) : B64.is_nan y = true -> B64.is_nan (B64.min2 x y) = true.
Proof. intros H. rewrite (is_nan_eq y H). destruct x; reflexivity. Qed.

Lemma max2_nan_l (x y : B64.float) : B64.is_nan x = true -> B64.is_nan (B64.max2 x y) = true.
Proof. intros H. rewrite (is_nan_eq x H). reflexivity. Qed.

Lemma max2_nan_r (x y : B64.float) : B64.is_nan y = true -> B64.is_nan (B64.max2 x y) = true.
Proof. intros H. rewrite (is_nan_eq y H). destruct x; reflexivity. Qed.

Lemma floor_nan (x : B64.float) : B64.is_nan x = true -> B64.is_nan (B64.floor x) = true.
Proof. intros H. rewrite (is_nan_eq x H). reflexivity. Qed.

#[local] Hint Resolve add_nan_l add_nan_r sub_nan_l sub_nan_r mul_nan_l mul_nan_r
  div_nan_l div_nan_r min2_nan_l min2_nan_r max2_nan_l max2_nan_r floor_nan : nan.

Lemma nan_zn (x : B64.float) : B64.is_nan x = true -> zeroOrNan x = true.
Proof. intros H. rewrite (is_nan_eq x H). reflexivity. Qed.

Lemma nanPoint_cases (p : @Point B64.float) :
  nanPoint p = true -> B64.is_nan (pX p) = true \/ B64.is_nan (pY p) = true.
Proof. unfold nanPoint. intros H. apply orb_true_iff in H. exact H. Qed.

Lemma inCircumcircle_nan (p a b c : @Point B64.float) :
  nanPoint p || nanPoint a || nanPoint b || nanPoint c = true ->
  inCircumcircle p a b c = false.
Proof.
  intros H. apply inCircumcircle_zn. cbv zeta. apply nan_zn.
  rewrite !orb_true_iff in H.
  destruct H as [[[H | H] | H] | H]; apply nanPoint_cases in H;
    destruct H as [H | H]; auto 12 with nan.
Qed.

Lemma nan_not_ge (x y : B64.float) : B64.is_nan x = true -> B64.geb x y = false.
Proof. intros H. rewrite (is_nan_eq x H). reflexivity. Qed.

Lemma pointInTriangle_nan (p t0 t1 t2 : @Point B64.float) :
  nanPoint p || nanPoint t0 || nanPoint t1 || nanPoint t2 = true ->
  pointInTriangle p (t0, t1, t2) = false.
Proof.
  intros H. unfold pointInTriangle. cbv zeta. cbn [pX pY].
  change (@sub B64.float _) with B64.sub.
  change (@mul B64.float _) with B64.mul.
  change (@add B64.float _) with B64.add.
  change (@div B64.float _) with B64.div.
  change (@geb B64.float _) with B64.geb.
  change (@leb B64.float _) with B64.leb.
  change (@ofZ B64.float _) with B64.ofZ.
  match goal with
  | |- B64.geb ?u _ && _ && _ = false =>
      assert (Hu : B64.is_nan u = true)
  end.
  { rewrite !orb_true_iff in H.
    destruct H as [[[H | H] | H] | H]; apply nanPoint_cases in H;
      destruct H as [H | H]; auto 12 with nan. }
  rewrite (nan_not_ge _ _ Hu). reflexivity.
Qed.

Lemma pointInTriangle_zn_denom (p : @Point B64.float) (tri : Triangle) :
  zeroOrNan (baryDenom tri) = true -> pointInTriangle p tri = false.
Proof.
  intros Hz.
  destruct (pointInTriangle_inv p tri) as (nu & nv & ->).
  change (@mul B64.float _) with B64.mul.
  change (@add B64.float _) with B64.add.
  change (@div B64.float _) with B64.div.
  change (@geb B64.float _) with B64.geb.
  change (@leb B64.float _) with B64.leb.
  change (@ofZ B64.float _) with B64.ofZ.
  destruct (baryDenom tri) as [s|s| |s m e]; try discriminate.
  - change (B64.div (B64.ofZ 1) (S754_zero s)) with (S754_infinity s).
    apply inside_test_infinite; apply mul_infinity_r.
  - change (B64.div (B64.ofZ 1) S754_nan) with S754_nan.
    rewrite (nan_not_ge (B64.mul nu S754_nan) (B64.ofZ 0)); [reflexivity|].
    apply mul_nan_r. reflexivity.
Qed.

Lemma baryDenom_coincident (t0 t1 t2 : @Point B64.float) :
  t1 = t2 \/ t0 = t1 \/ t0 = t2 -> zeroOrNan (baryDenom (t0, t1, t2)) = true.
Proof.
  intros H. unfold baryDenom. cbv zeta. cbn [pX pY].
  change (@sub B64.float _) with B64.sub.
  change (@mul B64.float _) with B64.mul.
  change (@add B64.float _) with B64.add.
  destruct H as [-> | [-> | ->]]; auto 12 with zn.
Qed.

(** X22.  In binary64, for all values of the coordinates, a triangle two of
    whose vertices are the same point contains no point for
    [pointInTriangle]. *)
Theorem pointInTriangle_coincident (p t0 t1 t2 : @Point B64.float) :
  t1 = t2 \/ t0 = t1 \/ t0 = t2 -> pointInTriangle p (t0, t1, t2) = false.
Proof.
  intros H. apply pointInTriangle_zn_denom. apply baryDenom_coincident. exact H.
Qed.

Lemma pointInTriangle_coincident_witness :
  (dpt 10 20 0 = dpt 10 20 0 \/ dpt 3 4 0 = dpt 10 20 0 \/ dpt 3 4 0 = dpt 10 20 0)
  /\ pointInTriangle (dpt 10 20 0) (dpt 3 4 0, dpt 10 20 0, dpt 10 20 0) = false.
Proof.
  assert (H : dpt 10 20 0 = dpt 10 20 0 \/ dpt 3 4 0 = dpt 10 20 0
              \/ dpt 3 4 0 = dpt 10 20 0) by (left; reflexivity).
  split; [exact H|].
  exact (pointInTriangle_coincident (dpt 10 20 0) (dpt 3 4 0) (dpt 10 20 0)
           (dpt 10 20 0) H).
Defined.

Section WarpOutside.
Context {F : Type} {num : Number F}.
Local Open Scope js_scope.

Lemma rowLoop_idle (body : F -> Heap -> Heap) (maxX : F) :
  (forall x h, body x h = h) ->
  forall fuel x h, fst (rowLoop fuel body maxX x h) = h.
Proof.
  intros Hb. induction fuel as [|fuel IH]; intros x h; simpl; [reflexivity|].
  destruct (x <= maxX); [|reflexivity]. rewrite Hb. apply IH.
Qed.

Lemma colLoop_idle (body : F -> F -> Heap -> Heap) (minX maxX maxY : F) :
  (forall x y h, body x y h = h) ->
  forall fuel fuelX y h, fst (colLoop fuel fuelX body minX maxX maxY y h) = h.
Proof.
  intros Hb. induction fuel as [|fuel IH]; intros fuelX y h; simpl; [reflexivity|].
  destruct (y <= maxY); [|reflexivity].
  pose proof (rowLoop_idle (fun x => body x y) maxX (fun x h => Hb x y h) fuelX minX h)
    as Hrow.
  destruct (rowLoop fuelX (fun x => body x y) maxX minX h) as [h' done].
  simpl in Hrow. subst h'.
  destruct done; [apply IH | reflexivity].
Qed.

Lemma warpTriangle_outside
      (fuel : nat) (this : FaceMorpher) (h : Heap)
      (imgData1 : loc) (srcTri1 : Triangle)
      (imgData2 : loc) (srcTri2 : Triangle)
      (outputData : loc) (dstTri : Triangle) (ratio : F) :
  (forall p, pointInTriangle p dstTri = false) ->
  fst (warpTriangle fuel this h imgData1 srcTri1 imgData2 srcTri2
                    outputData dstTri ratio) = h.
Proof.
  intros Hout. unfold warpTriangle. destruct dstTri as [[d0 d1] d2].
  apply colLoop_idle. intros x y h0. unfold warpPixel.
  rewrite Hout. simpl.
  destruct ((x < ofZ 0) || (x >= ofZ (outputWidth this))
            || (y < ofZ 0) || (y >= ofZ (outputHeight this))); reflexivity.
Qed.

End WarpOutside.

(** X14.  In binary64, [warpTriangle] writes nothing when two vertices of the
    destination triangle are the same point, or when one of its
    coordinates is NaN: after any number of loop passes the store is the
    one it started from. *)
Theorem warpTriangle_degenerate_idle
        (fuel : nat) (this : FaceMorpher) (h : Heap)
        (imgData1 : loc) (srcTri1 : Triangle)
        (imgData2 : loc) (srcTri2 : Triangle)
        (outputData : loc) (d0 d1 d2 : @Point B64.float) (ratio : B64.float) :
  (d1 = d2 \/ d0 = d1 \/ d0 = d2)
  \/ nanPoint d0 || nanPoint d1 || nanPoint d2 = true ->
  fst (warpTriangle fuel this h imgData1 srcTri1 imgData2 srcTri2
                    outputData (d0, d1, d2) ratio) = h.
Proof.
  intros H. apply warpTriangle_outside. intros p.
  destruct H as [H | H].
  - apply pointInTriangle_zn_denom, baryDenom_coincident, H.
  - apply pointInTriangle_nan.
    rewrite !orb_true_iff in H. rewrite !orb_true_iff. tauto.
Qed.

Lemma warpTriangle_degenerate_idle_witness :
  ((dpt 10 20 0 = dpt 10 20 0 \/ dpt 3 4 0 = dpt 10 20 0 \/ dpt 3 4 0 = dpt 10 20 0)
   \/ nanPoint (dpt 3 4 0) || nanPoint (dpt 10 20 0) || nanPoint (dpt 10 20 0) = true)
  /\ fst (warpTriangle 5 newFaceMorpher demoHeap 0%nat demoTriangle 1%nat demoTriangle
                       2%nat (dpt 3 4 0, dpt 10 20 0, dpt 10 20 0) (B64.ofDec 5 1))
     = demoHeap.
Proof.
  assert (H : (dpt 10 20 0 = dpt 10 20 0 \/ dpt 3 4 0 = dpt 10 20 0
               \/ dpt 3 4 0 = dpt 10 20 0)
              \/ nanPoint (dpt 3 4 0) || nanPoint (dpt 10 20 0)
                 || nanPoint (dpt 10 20 0) = true)
    by (left; left; reflexivity).
  split; [exact H|].
  exact (warpTriangle_degenerate_idle 5 newFaceMorpher demoHeap 0%nat demoTriangle
           1%nat demoTriangle 2%nat (dpt 3 4 0) (dpt 10 20 0) (dpt 10 20 0)
           (B64.ofDec 5 1) H).
Defined.

Lemma fold_min_nan (l : list B64.float) (v : B64.float) :
  B64.is_nan v = true \/ (exists x, In x l /\ B64.is_nan x = true) ->
  B64.is_nan (fold_left B64.min2 l v) = true.
Proof.
  revert v. induction l as [|a rest IH]; intros v [Hv | (x & Hin & Hx)]; simpl.
  - exact Hv.
  - contradiction.
  - apply IH. left. apply min2_nan_l, Hv.
  - destruct Hin as [-> | Hin].
    + apply IH. left. apply min2_nan_r, Hx.
    + apply IH. right. exists x. split; assumption.
Qed.

Lemma fold_max_nan (l : list B64.float) (v : B64.float) :
  B64.is_nan v = true \/ (exists x, In x l /\ B64.is_nan x = true) ->
  B64.is_nan (fold_left B64.max2 l v) = true.
Proof.
  revert v. induction l as [|a rest IH]; intros v [Hv | (x & Hin & Hx)]; simpl.
  - exact Hv.
  - contradiction.
  - apply IH. left. apply max2_nan_l, Hv.
  - destruct Hin as [-> | Hin].
    + apply IH. left. apply max2_nan_r, Hx.
    + apply IH. right. exists x. split; assumption.
Qed.

Lemma Math_min_nan (l : list B64.float) (x : B64.float) :
  In x l -> B64.is_nan x = true -> B64.is_nan (Math_min l) = true.
Proof.
  intros Hin Hx. destruct l as [|v rest]; [contradiction|].
  unfold Math_min. change (@min2 B64.float _) with B64.min2.
  apply fold_min_nan. destruct Hin as [-> | Hin]; [left; exact Hx|].
  right. exists x. split; assumption.
Qed.

Lemma Math_max_nan (l : list B64.float) (x : B64.float) :
  In x l -> B64.is_nan x = true -> B64.is_nan (Math_max l) = true.
Proof.
  intros Hin Hx. destruct l as [|v rest]; [contradiction|].
  unfold Math_max. change (@max2 B64.float _) with B64.max2.
  apply fold_max_nan. destruct Hin as [-> | Hin]; [left; exact Hx|].
  right. exists x. split; assumption.
Qed.

Lemma superTriangle_nan (points : list (@Point B64.float)) (q : @Point B64.float) :
  In q points -> nanPoint q = true ->
  let '(p1, p2, p3) := superTriangle points in nanPoint p3 = true.
Proof.
  intros Hin Hq. unfold superTriangle. cbv zeta.
  unfold nanPoint at 1. cbn [pX pY]. apply orb_true_iff. right.
  change (@sub B64.float _) with B64.sub.
  change (@mul B64.float _) with B64.mul.
  change (@add B64.float _) with B64.add.
  change (@max2 B64.float _) with B64.max2.
  apply add_nan_r, mul_nan_l, mul_nan_l.
  apply nanPoint_cases in Hq. destruct Hq as [Hx | Hy].
  - apply max2_nan_l, sub_nan_l.
    apply (Math_max_nan _ (pX q)); [apply in_map, Hin | exact Hx].
  - apply max2_nan_r, sub_nan_l.
    apply (Math_max_nan _ (pY q)); [apply in_map, Hin | exact Hy].
Qed.

Lemma insertAll_super_only (allPoints : list (@Point B64.float)) (n : nat)
      (p1 p2 p3 : @Point B64.float) :
  nth_error allPoints n = Some p1 ->
  nth_error allPoints (n + 1) = Some p2 ->
  nth_error allPoints (n + 2) = Some p3 ->
  nanPoint p3 = true ->
  forall ipts,
    insertAll allPoints ([mkTri 0 n (n + 1) (n + 2)], 1%nat) ipts
    = Ok ([mkTri 0 n (n + 1) (n + 2)], 1%nat).
Proof.
  intros H1 H2 H3 Hnan. induction ipts as [|[i pt] rest IH]; [reflexivity|].
  cbn [insertAll]. unfold insertPoint. cbn [findBad ti tj tk].
  unfold getElem. rewrite H1, H2, H3. cbn [bind].
  rewrite (inCircumcircle_nan pt p1 p2 p3)
    by (rewrite Hnan; rewrite !orb_true_r; reflexivity).
  cbn. exact IH.
Qed.

(** X9.  In binary64, when one coordinate of one input point is NaN,
    [computeDelaunay] returns no triangle at all, however many points there
    are: every coordinate test against the super-triangle fails. *)
Theorem computeDelaunay_nan_empty (points : list (@Point B64.float))
        (q : @Point B64.float) :
  In q points -> nanPoint q = true -> computeDelaunay points = Ok [].
Proof.
  intros Hin Hq. unfold computeDelaunay.
  destruct (Nat.ltb (length points) 3); [reflexivity|].
  pose proof (superTriangle_nan points q Hin Hq) as Hs.
  destruct (superTriangle points) as [[p1 p2] p3].
  rewrite (insertAll_super_only (points ++ [p1; p2; p3]) (length points) p1 p2 p3).
  - cbn [bind fst filter ti tj tk]. rewrite Nat.ltb_irrefl. reflexivity.
  - rewrite nth_error_app2 by lia. rewrite Nat.sub_diag. reflexivity.
  - rewrite nth_error_app2 by lia.
    replace (length points + 1 - length points)%nat with 1%nat by lia. reflexivity.
  - rewrite nth_error_app2 by lia.
    replace (length points + 2 - length points)%nat with 2%nat by lia. reflexivity.
  - exact Hs.
Qed.

Lemma computeDelaunay_nan_empty_witness :
  (In (mkPoint S754_nan (B64.ofZ 5))
      [dpt 0 0 0; mkPoint S754_nan (B64.ofZ 5); dpt 4 0 0; dpt 0 4 0]
   /\ nanPoint (mkPoint S754_nan (B64.ofZ 5)) = true)
  /\ computeDelaunay [dpt 0 0 0; mkPoint S754_nan (B64.ofZ 5); dpt 4 0 0; dpt 0 4 0]
     = Ok [].
Proof.
  assert (H0 : In (mkPoint S754_nan (B64.ofZ 5))
                  [dpt 0 0 0; mkPoint S754_nan (B64.ofZ 5); dpt 4 0 0; dpt 0 4 0])
    by (right; left; reflexivity).
  assert (H1 : nanPoint (mkPoint S754_nan (B64.ofZ 5)) = true) by reflexivity.
  split; [split; assumption|].
  exact (computeDelaunay_nan_empty _ _ H0 H1).
Defined.

Lemma normalize_nan (this : FaceMorpher) (w h : B64.float) (q : @Point B64.float) :
  nanPoint q = true ->
  nanPoint {| pX := B64.mul (B64.div (pX q) w) (B64.ofZ (outputWidth this));
              pY := B64.mul (B64.div (pY q) h) (B64.ofZ (outputHeight this)) |}
  = true.
Proof.
  intros Hq. apply nanPoint_cases in Hq. unfold nanPoint. cbn [pX pY].
  apply orb_true_iff. destruct Hq as [H | H]; [left | right]; auto with nan.
Qed.

Lemma lerp_nan (ratio : B64.float) (pt q : @Point B64.float) :
  nanPoint pt = true -> nanPoint (lerpPoint ratio pt q) = true.
Proof.
  intros Hq. apply nanPoint_cases in Hq. unfold nanPoint, lerpPoint. cbn [pX pY].
  change (@sub B64.float _) with B64.sub.
  change (@mul B64.float _) with B64.mul.
  change (@add B64.float _) with B64.add.
  apply orb_true_iff. destruct Hq as [H | H]; [left | right]; auto with nan.
Qed.

Lemma lerp_nan_ratio (ratio : B64.float) (pt q : @Point B64.float) :
  B64.is_nan ratio = true -> nanPoint (lerpPoint ratio pt q) = true.
Proof.
  intros H. unfold nanPoint, lerpPoint. cbn [pX pY].
  change (@sub B64.float _) with B64.sub.
  change (@mul B64.float _) with B64.mul.
  change (@add B64.float _) with B64.add.
  apply orb_true_iff. left. auto with nan.
Qed.

(** X2.  In binary64, when [landmarks2] has at least as many points as
    [landmarks1] and either one coordinate of one landmark of the first
    face is NaN or the ratio is NaN, [morph] raises nothing and paints
    nothing: the triangulation is empty, and the result is the output
    buffer as it was created, every byte zero. *)
Theorem morph_nan_blank
        (fuel : nat) (this : FaceMorpher) (h : Heap)
        (img1Width img1Height img2Width img2Height : B64.float)
        (imgData1 imgData2 outputData : loc)
        (landmarks1 landmarks2 : list (@Point B64.float)) (ratio : B64.float) :
  (length landmarks1 <= length landmarks2)%nat ->
  (exists q, In q landmarks1 /\ nanPoint q = true) \/ B64.is_nan ratio = true ->
  morph fuel this h img1Width img1Height img2Width img2Height
        imgData1 imgData2 outputData landmarks1 landmarks2 ratio
  = Ok (setBuffer h outputData
          (repeat 0%Z (Z.to_nat (outputWidth this * outputHeight this * 4))),
        true).
Proof.
  intros Hlen Hnan. unfold morph.
  set (allPts1 := normalizeLandmarks this landmarks1 img1Width img1Height
                  ++ getBoundaryPoints this).
  set (allPts2 := normalizeLandmarks this landmarks2 img2Width img2Height
                  ++ getBoundaryPoints this).
  assert (L1 : length allPts1 = (length landmarks1 + 8)%nat).
  { unfold allPts1, normalizeLandmarks. rewrite length_app, length_map. reflexivity. }
  assert (L2 : length allPts2 = (length landmarks2 + 8)%nat).
  { unfold allPts2, normalizeLandmarks. rewrite length_app, length_map. reflexivity. }
  assert (Hle : (length allPts1 <= length allPts2)%nat) by lia.
  pose proof (interpolate_prefix ratio allPts1 allPts2 [] Hle) as Hint.
  change (interpolatePoints allPts1 allPts2 ratio
          = Ok (zipPoints ratio allPts1 allPts2)) in Hint.
  rewrite Hint. cbn [bind].
  assert (Havg : exists a, In a (zipPoints ratio allPts1 allPts2)
                           /\ nanPoint a = true).
  { destruct Hnan as [(q & Hin & Hq) | Hr].
    - destruct (In_nth_error _ _ Hin) as (i & Hi).
      assert (Hi1 : nth_error allPts1 i
                    = Some {| pX := B64.mul (B64.div (pX q) img1Width)
                                            (B64.ofZ (outputWidth this));
                              pY := B64.mul (B64.div (pY q) img1Height)
                                            (B64.ofZ (outputHeight this)) |}).
      { unfold allPts1. rewrite nth_error_app1.
        - unfold normalizeLandmarks. rewrite nth_error_map, Hi. reflexivity.
        - unfold normalizeLandmarks. rewrite length_map.
          apply nth_error_Some. congruence. }
      destruct (nth_error allPts2 i) as [q2|] eqn:Hi2.
      2:{ apply nth_error_None in Hi2.
          assert (i < length landmarks1)%nat by (apply nth_error_Some; congruence).
          lia. }
      eexists. split.
      + eapply nth_error_In. exact (zipPoints_nth ratio allPts1 allPts2 i _ q2 Hi1 Hi2).
      + apply lerp_nan, normalize_nan, Hq.
    - destruct (nth_error allPts1 0) as [p1|] eqn:E1.
      2:{ apply nth_error_None in E1. lia. }
      destruct (nth_error allPts2 0) as [p2|] eqn:E2.
      2:{ apply nth_error_None in E2. lia. }
      eexists. split.
      + eapply nth_error_In. exact (zipPoints_nth ratio allPts1 allPts2 0 p1 p2 E1 E2).
      + apply lerp_nan_ratio, Hr. }
  destruct Havg as (a & Ha & Hna).
  rewrite (computeDelaunay_nan_empty _ _ Ha Hna).
  reflexivity.
Qed.

Lemma morph_nan_blank_witness :
  ((length [dpt 1 1 0; mkPoint S754_nan (B64.ofZ 5)]
    <= length [dpt 1 1 0; dpt 2 2 0])%nat
   /\ ((exists q, In q [dpt 1 1 0; mkPoint S754_nan (B64.ofZ 5)]
                  /\ nanPoint q = true)
       \/ B64.is_nan (B64.ofDec 5 1) = true))
  /\ morph 5 newFaceMorpher demoHeap (B64.ofZ 400) (B64.ofZ 400) (B64.ofZ 400)
           (B64.ofZ 400) 0%nat 1%nat 2%nat
           [dpt 1 1 0; mkPoint S754_nan (B64.ofZ 5)] [dpt 1 1 0; dpt 2 2 0]
           (B64.ofDec 5 1)
     = Ok (setBuffer demoHeap 2%nat
             (repeat 0%Z (Z.to_nat (outputWidth newFaceMorpher
                                    * outputHeight newFaceMorpher * 4))),
           true).
Proof.
  assert (H0 : (length [dpt 1 1 0; mkPoint S754_nan (B64.ofZ 5)]
                <= length [dpt 1 1 0; dpt 2 2 0])%nat) by (simpl; lia).
  assert (H1 : (exists q, In q [dpt 1 1 0; mkPoint S754_nan (B64.ofZ 5)]
                          /\ nanPoint q = true)
               \/ B64.is_nan (B64.ofDec 5 1) = true).
  { left. exists (mkPoint S754_nan (B64.ofZ 5)). split; [|reflexivity].
    right. left. reflexivity. }
  split; [split; assumption|].
  exact (morph_nan_blank 5 newFaceMorpher demoHeap (B64.ofZ 400) (B64.ofZ 400)
           (B64.ofZ 400) (B64.ofZ 400) 0%nat 1%nat 2%nat _ _ (B64.ofDec 5 1)
           H0 H1).
Defined.

Lemma readByte_nan (data : list Z) (idx : B64.float) :
  B64.is_nan idx = true -> readByte data idx = S754_nan.
Proof. intros H. rewrite (is_nan_eq idx H). reflexivity. Qed.

Lemma getPixel_nan (this : FaceMorpher) (data : list Z) (px py : B64.float) :
  B64.is_nan px = true \/ B64.is_nan py = true ->
  getPixel this data px py = mkColor S754_nan S754_nan S754_nan.
Proof.
  intros H. unfold getPixel, pixelIndex. cbv zeta.
  change (@mul B64.float _) with B64.mul.
  change (@add B64.float _) with B64.add.
  assert (Hidx : B64.is_nan (B64.mul (B64.add (B64.mul py (ofZ (outputWidth this))) px)
                                     (ofZ 4)) = true)
    by (destruct H as [H | H]; auto with nan).
  rewrite !readByte_nan; [reflexivity | | |]; auto with nan.
Qed.

(** X25.  In binary64, when one of the two coordinates is NaN, the three
    channels [sampleBilinear] returns are NaN, whatever the buffer holds:
    the clamp does not catch NaN, and the key it leads to names no byte. *)
Theorem sampleBilinear_nan (this : FaceMorpher) (data : list Z) (x y : B64.float) :
  B64.is_nan x || B64.is_nan y = true ->
  sampleBilinear this data x y = mkColor S754_nan S754_nan S754_nan.
Proof.
  intros H. apply orb_true_iff in H. unfold sampleBilinear. cbv zeta.
  change (@floor B64.float _) with B64.floor.
  change (@min2 B64.float _) with B64.min2.
  change (@add B64.float _) with B64.add.
  change (@sub B64.float _) with B64.sub.
  change (@mul B64.float _) with B64.mul.
  assert (Hc : forall size v, B64.is_nan v = true ->
                              B64.is_nan (clampCoord size v) = true).
  { intros size v Hv. unfold clampCoord.
    change (@max2 B64.float _) with B64.max2.
    change (@min2 B64.float _) with B64.min2.
    auto with nan. }
  rewrite !getPixel_nan; [reflexivity | | | |];
    destruct H as [H | H]; auto 8 with nan.
Qed.

Lemma sampleBilinear_nan_witness :
  B64.is_nan S754_nan || B64.is_nan (B64.ofZ 3) = true
  /\ sampleBilinear newFaceMorpher whiteImage S754_nan (B64.ofZ 3)
     = mkColor S754_nan S754_nan S754_nan.
Proof.
  assert (H : B64.is_nan S754_nan || B64.is_nan (B64.ofZ 3) = true) by reflexivity.
  split; [exact H|].
  exact (sampleBilinear_nan newFaceMorpher whiteImage S754_nan (B64.ofZ 3) H).
Defined.

Lemma div_zero_not_finite (x : B64.float) (s : bool) :
  B64.is_finite (B64.div x (S754_zero s)) = false.
Proof. destruct x; reflexivity. Qed.

Lemma mul_not_finite_l (x y : B64.float) :
  B64.is_finite x = false -> B64.is_finite (B64.mul x y) = false.
Proof.
  destruct x as [s|s| |s m e]; try discriminate; intros _; destruct y; reflexivity.
Qed.

(** X4.  In binary64, for an image whose width is zero no [x] coordinate that
    [normalizeLandmarks] returns is a finite number, and for an image whose
    height is zero no [y] coordinate is: each is NaN or an infinity. *)
Theorem normalizeLandmarks_zero_extent
        (this : FaceMorpher) (landmarks : list (@Point B64.float))
        (s : bool) (other : B64.float) :
  Forall (fun p => B64.is_finite (pX p) = false)
         (normalizeLandmarks this landmarks (S754_zero s) other)
  /\ Forall (fun p => B64.is_finite (pY p) = false)
            (normalizeLandmarks this landmarks other (S754_zero s)).
Proof.
  unfold normalizeLandmarks. split; apply Forall_forall; intros p Hp;
    apply in_map_iff in Hp; destruct Hp as (pt & <- & _); cbn [pX pY];
    apply mul_not_finite_l, div_zero_not_finite.
Qed.

Lemma b64_mul_comm (x y : B64.float) : B64.mul x y = B64.mul y x.
Proof.
  destruct x as [sx|sx| |sx mx ex], y as [sy|sy| |sy my ey];
    unfold B64.mul, SFmul; rewrite ?(xorb_comm sx sy); try reflexivity.
  rewrite (Pos.mul_comm mx my), (Z.add_comm ex ey). reflexivity.
Qed.

Lemma add_zero_same (a x : B64.float) :
  sameNumber a x -> sameNumber (B64.add a (B64.ofZ 0)) x.
Proof.
  intros (He & Hb). rewrite ofZ_zero.
  destruct x as [s|s| |s m e].
  - apply eqb64_zero in He. destruct He as (sa & ->).
    split; [destruct sa; reflexivity|].
    intros H. exfalso. apply (H s). reflexivity.
  - rewrite Hb by (intros s0; discriminate).
    rewrite Hb in He by (intros s0; discriminate).
    split; [exact He | reflexivity].
  - rewrite Hb in He by (intros s0; discriminate). discriminate.
  - rewrite Hb by (intros s0; discriminate).
    rewrite Hb in He by (intros s0; discriminate).
    split; [exact He | reflexivity].
Qed.

(** X20.  In binary64, the map with coefficients [(1, 0, 0, 0, 1, 0)] that
    [computeAffine] returns for a degenerate triangle takes every point
    with finite coordinates to itself: each coordinate comes back equal as
    a number, and bit for bit unless it is a zero. *)
Theorem applyAffine_identity_b64 (x y : B64.float) :
  finiteCoord x = true -> finiteCoord y = true ->
  samePoint (applyAffine identityAffine x y) (mkPoint x y).
Proof.
  intros Hx Hy. unfold applyAffine, identityAffine, samePoint.
  cbn [pX pY a_ b_ c_ d_ e_ f_].
  change (@mul B64.float _) with B64.mul.
  change (@add B64.float _) with B64.add.
  change (@ofZ B64.float _) with B64.ofZ.
  split; apply add_zero_same.
  - rewrite (b64_mul_comm (B64.ofZ 1) x), (b64_mul_comm (B64.ofZ 0) y).
    exact (lerp_zero x y Hx Hy).
  - rewrite (b64_mul_comm (B64.ofZ 0) x), (b64_mul_comm (B64.ofZ 1) y).
    exact (lerp_one x y Hx Hy).
Qed.

Lemma applyAffine_identity_b64_witness :
  (finiteCoord (B64.ofDec 1275 1) = true /\ finiteCoord (B64.ofZ 0) = true)
  /\ samePoint (applyAffine identityAffine (B64.ofDec 1275 1) (B64.ofZ 0))
               (mkPoint (B64.ofDec 1275 1) (B64.ofZ 0)).
Proof.
  assert (H0 : finiteCoord (B64.ofDec 1275 1) = true) by (vm_compute; reflexivity).
  assert (H1 : finiteCoord (B64.ofZ 0) = true) by (vm_compute; reflexivity).
  split; [split; assumption|].
  exact (applyAffine_identity_b64 _ _ H0 H1).
Defined.

Lemma gridCheck_all : allBelow 399 gridCheck = true.
Proof. vm_compute. reflexivity. Qed.

Lemma byteCheck_all : allBelow 256 byteCheck = true.
Proof. vm_compute. reflexivity. Qed.

Lemma grid_coord (k : Z) :
  (0 <= k <= 398)%Z ->
  @clampCoord B64.float _ 400 (B64.ofZ k) = B64.ofZ k
  /\ B64.floor (B64.ofZ k) = B64.ofZ k
  /\ B64.sub (B64.ofZ k) (B64.ofZ k) = S754_zero false.
Proof.
  intros Hk.
  pose proof (allBelow_spec 399 gridCheck gridCheck_all k ltac:(lia)) as H.
  unfold gridCheck in H. apply andb_prop in H. destruct H as (H & H3).
  apply andb_prop in H. destruct H as (H1 & H2).
  apply sameBits_eq in H1, H2, H3. auto.
Qed.

Lemma byte_weights (b : Z) :
  byteOk b ->
  B64.mul (B64.ofZ b) (B64.ofZ 1) = B64.ofZ b
  /\ B64.mul (B64.ofZ b) (S754_zero false) = S754_zero false
  /\ B64.add (B64.ofZ b) (S754_zero false) = B64.ofZ b.
Proof.
  intros Hb. unfold byteOk in Hb.
  pose proof (allBelow_spec 256 byteCheck byteCheck_all b ltac:(lia)) as H.
  unfold byteCheck in H. apply andb_prop in H. destruct H as (H & H3).
  apply andb_prop in H. destruct H as (H1 & H2).
  apply sameBits_eq in H1, H2, H3. auto.
Qed.

Lemma blend_corner (b00 b10 b01 b11 : Z) :
  byteOk b00 -> byteOk b10 -> byteOk b01 -> byteOk b11 ->
  B64.add
    (B64.mul (B64.add (B64.mul (B64.ofZ b00) (B64.sub (B64.ofZ 1) (S754_zero false)))
                      (B64.mul (B64.ofZ b10) (S754_zero false)))
             (B64.sub (B64.ofZ 1) (S754_zero false)))
    (B64.mul (B64.add (B64.mul (B64.ofZ b01) (B64.sub (B64.ofZ 1) (S754_zero false)))
                      (B64.mul (B64.ofZ b11) (S754_zero false)))
             (S754_zero false))
  = B64.ofZ b00.
Proof.
  intros H00 H10 H01 H11.
  change (B64.sub (B64.ofZ 1) (S754_zero false)) with (B64.ofZ 1).
  destruct (byte_weights b00 H00) as (A1 & A2 & A3).
  destruct (byte_weights b10 H10) as (B1 & B2 & B3).
  destruct (byte_weights b01 H01) as (C1 & C2 & C3).
  destruct (byte_weights b11 H11) as (D1 & D2 & D3).
  rewrite A1, B2, A3, A1, C1, D2, C3, C2, A3. reflexivity.
Qed.

Lemma readByte_at (data : list Z) (key : B64.float) (n : Z) :
  B64.toIndex key = Some n -> (0 <= n < Z.of_nat (length data))%Z ->
  exists b, nth_error data (Z.to_nat n) = Some b /\ readByte data key = B64.ofZ b.
Proof.
  intros Hk Hn. unfold readByte.
  change (@toIndex B64.float _ key) with (B64.toIndex key). rewrite Hk.
  assert (Hr : (0 <=? n)%Z && (n <? Z.of_nat (length data))%Z = true).
  { apply andb_true_intro. split; [apply Z.leb_le | apply Z.ltb_lt]; lia. }
  rewrite Hr.
  destruct (nth_error data (Z.to_nat n)) as [b|] eqn:Hnth.
  - exists b. split; reflexivity.
  - apply nth_error_None in Hnth. lia.
Qed.

Lemma getPixel_at (data : list Z) (kx ky : Z) :
  (0 <= kx <= 399)%Z -> (0 <= ky <= 399)%Z ->
  Z.of_nat (length data) = 640000%Z ->
  exists b0 b1 b2,
    nth_error data (Z.to_nat (4 * (400 * ky + kx))) = Some b0
    /\ nth_error data (Z.to_nat (4 * (400 * ky + kx) + 1)) = Some b1
    /\ nth_error data (Z.to_nat (4 * (400 * ky + kx) + 2)) = Some b2
    /\ getPixel newFaceMorpher data (B64.ofZ kx) (B64.ofZ ky)
       = mkColor (B64.ofZ b0) (B64.ofZ b1) (B64.ofZ b2).
Proof.
  intros Hx Hy Hlen.
  pose proof (allBelow_spec 400 _ keysCheck_all ky ltac:(lia)) as Hrow.
  cbv beta in Hrow.
  pose proof (allBelow_spec 400 _ Hrow kx ltac:(lia)) as Hk.
  unfold keysCheck in Hk. cbv zeta in Hk.
  apply andb_prop in Hk. destruct Hk as (Hk & H2).
  apply andb_prop in Hk. destruct Hk as (H0 & H1).
  apply keyIs_eq in H0, H1, H2.
  destruct (readByte_at data _ _ H0 ltac:(lia)) as (b0 & N0 & R0).
  destruct (readByte_at data _ _ H1 ltac:(lia)) as (b1 & N1 & R1).
  destruct (readByte_at data _ _ H2 ltac:(lia)) as (b2 & N2 & R2).
  exists b0, b1, b2. repeat split; try assumption.
  unfold getPixel. cbv zeta.
  change (@add B64.float _) with B64.add.
  change (@ofZ B64.float _) with B64.ofZ.
  rewrite R0, R1, R2. reflexivity.
Qed.

(** X24.  In binary64, on the 400 x 400 canvas, [sampleBilinear] at a pixel
    position with integer coordinates from 0 to 398 returns the three
    colour bytes of that very pixel, exactly, for every buffer of 640000
    bytes from 0 to 255. *)
Theorem sampleBilinear_pixel (data : list Z) (kx ky : Z) :
  (0 <= kx <= 398)%Z -> (0 <= ky <= 398)%Z ->
  Forall byteOk data -> Z.of_nat (length data) = 640000%Z ->
  exists b0 b1 b2,
    nth_error data (Z.to_nat (4 * (400 * ky + kx))) = Some b0
    /\ nth_error data (Z.to_nat (4 * (400 * ky + kx) + 1)) = Some b1
    /\ nth_error data (Z.to_nat (4 * (400 * ky + kx) + 2)) = Some b2
    /\ sampleBilinear newFaceMorpher data (B64.ofZ kx) (B64.ofZ ky)
       = mkColor (B64.ofZ b0) (B64.ofZ b1) (B64.ofZ b2).
Proof.
  intros Hx Hy Hb Hlen.
  destruct (grid_coord kx Hx) as (Cx & Fx & Sx).
  destruct (grid_coord ky Hy) as (Cy & Fy & Sy).
  pose proof (high_range kx Hx) as Ux. pose proof (high_range ky Hy) as Uy.
  destruct (getPixel_at data kx ky ltac:(lia) ltac:(lia) Hlen)
    as (a0 & a1 & a2 & Na0 & Na1 & Na2 & P00).
  destruct (getPixel_at data (kx + 1) ky ltac:(lia) ltac:(lia) Hlen)
    as (b0 & b1 & b2 & Nb0 & Nb1 & Nb2 & P10).
  destruct (getPixel_at data kx (ky + 1) ltac:(lia) ltac:(lia) Hlen)
    as (c0 & c1 & c2 & Nc0 & Nc1 & Nc2 & P01).
  destruct (getPixel_at data (kx + 1) (ky + 1) ltac:(lia) ltac:(lia) Hlen)
    as (d0 & d1 & d2 & Nd0 & Nd1 & Nd2 & P11).
  assert (Hbyte : forall n b, nth_error data n = Some b -> byteOk b).
  { intros n b Hn. rewrite Forall_forall in Hb. apply Hb.
    eapply nth_error_In. exact Hn. }
  exists a0, a1, a2. repeat split; try assumption.
  unfold sampleBilinear. cbv zeta.
  change (outputWidth newFaceMorpher) with 400%Z.
  change (outputHeight newFaceMorpher) with 400%Z.
  change (@floor B64.float _) with B64.floor.
  change (@min2 B64.float _) with B64.min2.
  change (@add B64.float _) with B64.add.
  change (@sub B64.float _) with B64.sub.
  change (@mul B64.float _) with B64.mul.
  change (@ofZ B64.float _) with B64.ofZ.
  rewrite Cx, Cy, Fx, Fy, Ux, Uy, Sx, Sy, P00, P10, P01, P11.
  cbn [r_ g_ b'_].
  rewrite !blend_corner by eauto. reflexivity.
Qed.

Lemma sampleBilinear_pixel_witness :
  ((0 <= 7 <= 398)%Z /\ (0 <= 3 <= 398)%Z
   /\ Forall byteOk whiteImage /\ Z.of_nat (length whiteImage) = 640000%Z)
  /\ exists b0 b1 b2,
      nth_error whiteImage (Z.to_nat (4 * (400 * 3 + 7))) = Some b0
      /\ nth_error whiteImage (Z.to_nat (4 * (400 * 3 + 7) + 1)) = Some b1
      /\ nth_error whiteImage (Z.to_nat (4 * (400 * 3 + 7) + 2)) = Some b2
      /\ sampleBilinear newFaceMorpher whiteImage (B64.ofZ 7) (B64.ofZ 3)
         = mkColor (B64.ofZ b0) (B64.ofZ b1) (B64.ofZ b2).
Proof.
  assert (H0 : (0 <= 7 <= 398)%Z) by lia.
  assert (H1 : (0 <= 3 <= 398)%Z) by lia.
  assert (H2 : Forall byteOk whiteImage).
  { unfold whiteImage. apply Forall_forall. intros b Hb.
    apply repeat_spec in Hb. subst b. unfold byteOk. lia. }
  assert (H3 : Z.of_nat (length whiteImage) = 640000%Z).
  { unfold whiteImage. rewrite repeat_length. apply Z2Nat.id. lia. }
  split; [tauto|].
  exact (sampleBilinear_pixel whiteImage 7 3 H0 H1 H2 H3).
Defined.

(** ** Binary64: the loops of [warpTriangle] *)

Section WarpEnds.
Local Open Scope Z_scope.

Lemma stepCheck_all : allBelow 401 stepCheck = true.
Proof. vm_compute. reflexivity. Qed.

Lemma stopCheck_all : allBelow 401 stopCheck = true.
Proof. vm_compute. reflexivity. Qed.

Lemma ceilCheck_all : allBelow 400 ceilCheck = true.
Proof. vm_compute. reflexivity. Qed.

Lemma gridValue_step (k : Z) (x : B64.float) :
  gridValue k x -> k <= 400 -> gridValue (k + 1) (B64.add x (B64.ofZ 1)).
Proof.
  intros (Hk & Hx) Hle. split; [lia|]. left.
  destruct Hx as [-> | (-> & ->)].
  - apply sameBits_eq. apply (allBelow_spec 401 stepCheck stepCheck_all). lia.
  - reflexivity.
Qed.

Lemma gridValue_stop (m : Z) (x maxX : B64.float) :
  gridValue 401 x -> gridValue m maxX -> m <= 400 -> B64.leb x maxX = false.
Proof.
  intros (_ & Hx) (Hm & Hmax) Hle.
  destruct Hx as [-> | (E & _)]; [|lia].
  destruct Hmax as [-> | (-> & ->)].
  - pose proof (allBelow_spec 401 stopCheck stopCheck_all m ltac:(lia)) as H.
    unfold stopCheck in H. apply negb_true_iff in H. exact H.
  - reflexivity.
Qed.

Lemma ofZ_400 : B64.ofZ 400 = S754_finite false 7036874417766400 (-44).
Proof. vm_compute. reflexivity. Qed.

Lemma canvas_cases (x : B64.float) :
  canvasCoord x = true ->
  (exists s, x = S754_zero s)
  \/ (exists m p, x = S754_finite false m (Zneg p) /\ Zpos m <= 400 * 2 ^ Zpos p).
Proof.
  unfold canvasCoord. rewrite ofZ_400, ofZ_zero. intros H.
  apply andb_prop in H. destruct H as (H & Hhi).
  apply andb_prop in H. destruct H as (Hv & Hlo).
  destruct x as [s|s| |s m e].
  - left. exists s. reflexivity.
  - destruct s; [cbv in Hlo | cbv in Hhi]; discriminate.
  - cbv in Hlo. discriminate.
  - right. destruct s; [cbv in Hlo; discriminate|].
    unfold B64.valid, valid_binary in Hv.
    pose proof (valid_mantissa_lt m e Hv) as Hm.
    change (2 ^ 53) with 9007199254740992 in Hm.
    clear Hv Hlo.
    unfold B64.leb, SFleb, SFcompare in Hhi.
    destruct (Z.compare_spec e (-44)) as [He | He | He].
    + subst e. exists m, 44%positive. split; [reflexivity|].
      rewrite Pos.compare_cont_spec in Hhi. cbn [Pos.switch_Eq] in Hhi.
      change (400 * 2 ^ 44) with 7036874417766400.
      destruct (Pos.compare_spec m 7036874417766400) as [Hc | Hc | Hc];
        try discriminate.
      * subst m. apply Z.le_refl.
      * apply Z.lt_le_incl. apply Pos2Z.pos_lt_pos. exact Hc.
    + destruct e as [|pe|pe]; try (exfalso; clear Hhi Hm; lia).
      exists m, pe. split; [reflexivity|].
      assert (H45 : 2 ^ 45 <= 2 ^ Zpos pe).
      { apply Z.pow_le_mono_r; [lia|]. clear Hhi Hm. lia. }
      change (2 ^ 45) with 35184372088832 in H45.
      clear Hhi. lia.
    + discriminate.
Qed.

Lemma floor_canvas (x : B64.float) :
  canvasCoord x = true -> exists k, k <= 400 /\ gridValue k (B64.floor x).
Proof.
  intros H. destruct (canvas_cases x H) as [(s & ->) | (m & p & -> & Hm)].
  - exists 0. split; [lia|]. split; [lia|].
    destruct s; [right; split; reflexivity | left; reflexivity].
  - exists (Z.shiftr (Zpos m) (Zpos p)).
    assert (Hr : 0 <= Z.shiftr (Zpos m) (Zpos p) <= 400).
    { apply shiftr_bound. lia. }
    split; [lia|]. split; [lia|]. left. apply floor_small.
Qed.

Lemma ceil_canvas (x : B64.float) :
  canvasCoord x = true -> exists k, k <= 400 /\ gridValue k (B64.ceil x).
Proof.
  intros H. destruct (canvas_cases x H) as [(s & ->) | (m & p & -> & Hm)].
  - exists 0. split; [lia|]. split; [lia|].
    destruct s; [right; split; reflexivity | left; reflexivity].
  - assert (Hp : 0 < 2 ^ Zpos p) by (apply Z.pow_pos_nonneg; lia).
    set (c := - (Zneg m / 2 ^ Zpos p) - 1).
    assert (Hc : 0 <= c < 400).
    { unfold c.
      assert (Zneg m / 2 ^ Zpos p < 0).
      { apply Z.div_lt_upper_bound; [exact Hp | lia]. }
      assert (- 400 <= Zneg m / 2 ^ Zpos p).
      { apply Z.div_le_lower_bound; [exact Hp | lia]. }
      lia. }
    exists (c + 1). split; [lia|]. split; [lia|]. left.
    unfold B64.ceil. cbn [SFopp negb B64.floor Z.leb Z.compare].
    unfold B64.floorZ. cbn [cond_Zopp Z.opp].
    rewrite Z.shiftr_div_pow2 by lia.
    replace (Zneg m / 2 ^ Zpos p) with (- (c + 1)) by (unfold c; lia).
    apply sameBits_eq.
    exact (allBelow_spec 400 ceilCheck ceilCheck_all c ltac:(lia)).
Qed.

Lemma canvas_not_nan (x : B64.float) : canvasCoord x = true -> B64.is_nan x = false.
Proof. destruct x; try reflexivity. intros H. discriminate H. Qed.

Lemma min2_pick (a b : B64.float) :
  B64.is_nan a = false -> B64.is_nan b = false ->
  B64.min2 a b = a \/ B64.min2 a b = b.
Proof.
  intros Ha Hb. unfold B64.min2.
  destruct (SFcompare a b) as [[| |]|] eqn:E; auto.
  - destruct a as [[|]| | |]; auto.
  - destruct a, b; try discriminate; simpl in E; discriminate.
Qed.

Lemma max2_pick (a b : B64.float) :
  B64.is_nan a = false -> B64.is_nan b = false ->
  B64.max2 a b = a \/ B64.max2 a b = b.
Proof.
  intros Ha Hb. unfold B64.max2.
  destruct (SFcompare a b) as [[| |]|] eqn:E; auto.
  - destruct a as [[|]| | |]; auto.
  - destruct a, b; try discriminate; simpl in E; discriminate.
Qed.

Lemma Math_min_canvas (a b c : B64.float) :
  canvasCoord a = true -> canvasCoord b = true -> canvasCoord c = true ->
  canvasCoord (Math_min [a; b; c]) = true.
Proof.
  intros Ha Hb Hc. unfold Math_min. cbn [fold_left].
  change (@min2 B64.float _) with B64.min2.
  destruct (min2_pick a b (canvas_not_nan a Ha) (canvas_not_nan b Hb)) as [-> | ->].
  - destruct (min2_pick a c (canvas_not_nan a Ha) (canvas_not_nan c Hc)) as [-> | ->];
      assumption.
  - destruct (min2_pick b c (canvas_not_nan b Hb) (canvas_not_nan c Hc)) as [-> | ->];
      assumption.
Qed.

Lemma Math_max_canvas (a b c : B64.float) :
  canvasCoord a = true -> canvasCoord b = true -> canvasCoord c = true ->
  canvasCoord (Math_max [a; b; c]) = true.
Proof.
  intros Ha Hb Hc. unfold Math_max. cbn [fold_left].
  change (@max2 B64.float _) with B64.max2.
  destruct (max2_pick a b (canvas_not_nan a Ha) (canvas_not_nan b Hb)) as [-> | ->].
  - destruct (max2_pick a c (canvas_not_nan a Ha) (canvas_not_nan c Hc)) as [-> | ->];
      assumption.
  - destruct (max2_pick b c (canvas_not_nan b Hb) (canvas_not_nan c Hc)) as [-> | ->];
      assumption.
Qed.

Lemma rowLoop_ends (body : B64.float -> Heap -> Heap) (maxX : B64.float) (m : Z) :
  gridValue m maxX -> m <= 400 ->
  forall (n : nat) (k : Z) (x : B64.float) (fuel : nat) (h : Heap),
    gridValue k x -> k + Z.of_nat n = 401 -> (n < fuel)%nat ->
    snd (rowLoop fuel body maxX x h) = true.
Proof.
  intros Hmax Hm. induction n as [|n IH]; intros k x fuel h Hx Hk Hf.
  - destruct fuel as [|fuel]; [lia|]. cbn [rowLoop].
    change (@leb B64.float _) with B64.leb.
    assert (k = 401) by lia. subst k.
    rewrite (gridValue_stop m x maxX Hx Hmax Hm). reflexivity.
  - destruct fuel as [|fuel]; [lia|]. cbn [rowLoop].
    change (@leb B64.float _) with B64.leb.
    change (@add B64.float _) with B64.add.
    change (@ofZ B64.float _) with B64.ofZ.
    destruct (B64.leb x maxX); [|reflexivity].
    apply (IH (k + 1)); [apply gridValue_step; [exact Hx | lia] | lia | lia].
Qed.

Lemma colLoop_ends (body : B64.float -> B64.float -> Heap -> Heap)
      (minX maxX maxY : B64.float) (kx mx my : Z) (fuelX : nat) :
  gridValue kx minX -> kx <= 400 -> gridValue mx maxX -> mx <= 400 ->
  gridValue my maxY -> my <= 400 -> (401 < fuelX)%nat ->
  forall (n : nat) (k : Z) (y : B64.float) (fuel : nat) (h : Heap),
    gridValue k y -> k + Z.of_nat n = 401 -> (n < fuel)%nat ->
    snd (colLoop fuel fuelX body minX maxX maxY y h) = true.
Proof.
  intros Hkx Lkx Hmx Lmx Hmy Lmy Hfx.
  induction n as [|n IH]; intros k y fuel h Hy Hk Hf.
  - destruct fuel as [|fuel]; [lia|]. cbn [colLoop].
    change (@leb B64.float _) with B64.leb.
    assert (k = 401) by lia. subst k.
    rewrite (gridValue_stop my y maxY Hy Hmy Lmy). reflexivity.
  - destruct fuel as [|fuel]; [lia|]. cbn [colLoop].
    change (@leb B64.float _) with B64.leb.
    change (@add B64.float _) with B64.add.
    change (@ofZ B64.float _) with B64.ofZ.
    destruct (B64.leb y maxY); [|reflexivity].
    destruct Hkx as (Rkx & Vkx).
    pose proof (rowLoop_ends (fun x => body x y) maxX mx Hmx Lmx
                  (Z.to_nat (401 - kx)) kx minX fuelX h
                  (conj Rkx Vkx) ltac:(lia) ltac:(lia)) as Hrow.
    destruct (rowLoop fuelX (fun x => body x y) maxX minX h) as [h' done].
    cbn [snd] in Hrow. subst done.
    apply (IH (k + 1)); [apply gridValue_step; [exact Hy | lia] | lia | lia].
Qed.

(** X13.  In binary64, [warpTriangle] ends for every destination
    triangle whose six coordinates are values from 0 to 400:
    both loops have run to their end within 402 passes each, whatever the
    source triangles, the images and the ratio. *)
Theorem warpTriangle_terminates
        (fuel : nat) (this : FaceMorpher) (h : Heap)
        (imgData1 : loc) (srcTri1 : Triangle)
        (imgData2 : loc) (srcTri2 : Triangle)
        (outputData : loc) (d0 d1 d2 : @Point B64.float) (ratio : B64.float) :
  canvasPoint d0 = true -> canvasPoint d1 = true -> canvasPoint d2 = true ->
  (402 <= fuel)%nat ->
  snd (warpTriangle fuel this h imgData1 srcTri1 imgData2 srcTri2
                    outputData (d0, d1, d2) ratio) = true.
Proof.
  unfold canvasPoint. intros H0 H1 H2 Hf.
  apply andb_prop in H0, H1, H2.
  destruct H0 as (X0 & Y0), H1 as (X1 & Y1), H2 as (X2 & Y2).
  unfold warpTriangle.
  change (@floor B64.float _) with B64.floor.
  change (@ceil B64.float _) with B64.ceil.
  destruct (floor_canvas _ (Math_min_canvas _ _ _ X0 X1 X2)) as (kx & Lkx & Hkx).
  destruct (ceil_canvas _ (Math_max_canvas _ _ _ X0 X1 X2)) as (mx & Lmx & Hmx).
  destruct (floor_canvas _ (Math_min_canvas _ _ _ Y0 Y1 Y2)) as (ky & Lky & Hky).
  destruct (ceil_canvas _ (Math_max_canvas _ _ _ Y0 Y1 Y2)) as (my & Lmy & Hmy).
  pose proof Hky as (Rky & _).
  apply (colLoop_ends _ _ _ _ kx mx my fuel Hkx Lkx Hmx Lmx Hmy Lmy ltac:(lia)
           (Z.to_nat (401 - ky)) ky); [exact Hky | lia | lia].
Qed.

Lemma warpTriangle_terminates_witness :
  (canvasPoint (dpt 105 2003 1) = true /\ canvasPoint (dpt 4000 0 1) = true
   /\ canvasPoint (dpt 1999 3999 1) = true /\ (402 <= 402)%nat)
  /\ snd (warpTriangle 402 newFaceMorpher demoHeap 0%nat demoTriangle
                       1%nat demoTriangle 2%nat
                       (dpt 105 2003 1, dpt 4000 0 1, dpt 1999 3999 1)
                       (B64.ofDec 5 1)) = true.
Proof.
  assert (H0 : canvasPoint (dpt 105 2003 1) = true) by (vm_compute; reflexivity).
  assert (H1 : canvasPoint (dpt 4000 0 1) = true) by (vm_compute; reflexivity).
  assert (H2 : canvasPoint (dpt 1999 3999 1) = true) by (vm_compute; reflexivity).
  assert (H3 : (402 <= 402)%nat) by lia.
  split; [tauto|].
  exact (warpTriangle_terminates 402 newFaceMorpher demoHeap 0%nat demoTriangle
           1%nat demoTriangle 2%nat _ _ _ (B64.ofDec 5 1) H0 H1 H2 H3).
Defined.

End WarpEnds.

(** ** Binary64: further consequences of NaN *)

Lemma interpolatePoints_longer_second_witness :
  (length [dpt 0 0 0] <= length [dpt 4 8 0; dpt 1 1 0])%nat
  /\ exists r,
      interpolatePoints [dpt 0 0 0] [dpt 4 8 0; dpt 1 1 0] (B64.ofDec 5 1) = Ok r
      /\ length r = length [dpt 0 0 0]
      /\ (forall i pt q,
             nth_error [dpt 0 0 0] i = Some pt ->
             nth_error [dpt 4 8 0; dpt 1 1 0] i = Some q ->
             nth_error r i
             = Some {| pX := (pX pt * (ofZ 1 - B64.ofDec 5 1) + pX q * B64.ofDec 5 1)%js;
                       pY := (pY pt * (ofZ 1 - B64.ofDec 5 1) + pY q * B64.ofDec 5 1)%js |})
      /\ (forall extra,
             interpolatePoints [dpt 0 0 0] ([dpt 4 8 0; dpt 1 1 0] ++ extra)
                               (B64.ofDec 5 1) = Ok r).
Proof.
  assert (H : (length [dpt 0 0 0] <= length [dpt 4 8 0; dpt 1 1 0])%nat)
    by (simpl; lia).
  split; [exact H|].
  exact (interpolatePoints_longer_second [dpt 0 0 0] [dpt 4 8 0; dpt 1 1 0]
           (B64.ofDec 5 1) H).
Defined.

Lemma morph_returns_witness :
  (length [dpt 100 120 0] <= length [dpt 110 130 0; dpt 50 60 0])%nat
  /\ exists h' done,
      morph 5 newFaceMorpher demoHeap (B64.ofZ 400) (B64.ofZ 400) (B64.ofZ 400)
            (B64.ofZ 400) 0%nat 1%nat 2%nat
            [dpt 100 120 0] [dpt 110 130 0; dpt 50 60 0] (B64.ofDec 5 1)
      = Ok (h', done)
      /\ (forall l, l <> 2%nat -> h' l = demoHeap l)
      /\ length (h' 2%nat)
         = Z.to_nat (outputWidth newFaceMorpher * outputHeight newFaceMorpher * 4).
Proof.
  assert (H : (length [dpt 100 120 0] <= length [dpt 110 130 0; dpt 50 60 0])%nat)
    by (simpl; lia).
  split; [exact H|].
  exact (morph_returns 5 newFaceMorpher demoHeap (B64.ofZ 400) (B64.ofZ 400)
           (B64.ofZ 400) (B64.ofZ 400) 0%nat 1%nat 2%nat
           [dpt 100 120 0] [dpt 110 130 0; dpt 50 60 0] (B64.ofDec 5 1) H).
Defined.

(** X19.  In binary64, the guard of [computeAffine] does not catch NaN: when one
    coordinate of the source triangle is NaN the determinant is NaN, the test
    [Math.abs(denom) < 1e-10] fails, and the six coefficients returned are
    all NaN. *)
Theorem computeAffine_nan_source (s0 s1 s2 : @Point B64.float) (dst : Triangle) :
  nanPoint s0 || nanPoint s1 || nanPoint s2 = true ->
  computeAffine (s0, s1, s2) dst
  = mkAffine S754_nan S754_nan S754_nan S754_nan S754_nan S754_nan.
Proof.
  intros H. destruct dst as [[d0 d1] d2].
  unfold computeAffine. cbv zeta.
  change (@sub B64.float _) with B64.sub.
  change (@mul B64.float _) with B64.mul.
  change (@div B64.float _) with B64.div.
  change (@abs B64.float _) with B64.abs.
  change (@ltb B64.float _) with B64.ltb.
  assert (Hd : B64.is_nan (B64.sub (B64.mul (B64.sub (pX s0) (pX s2))
                                            (B64.sub (pY s1) (pY s2)))
                                   (B64.mul (B64.sub (pX s1) (pX s2))
                                            (B64.sub (pY s0) (pY s2)))) = true).
  { rewrite !orb_true_iff in H.
    destruct H as [[H | H] | H]; apply nanPoint_cases in H;
      destruct H as [H | H]; auto 8 with nan. }
  apply is_nan_eq in Hd. rewrite Hd.
  change (B64.ltb (B64.abs S754_nan) (ofDec 1 10)) with false.
  cbv iota.
  assert (Hn : B64.is_nan S754_nan = true) by reflexivity.
  f_equal; apply is_nan_eq; auto 8 with nan.
Qed.

Lemma computeAffine_nan_source_witness :
  nanPoint (dpt 0 0 0) || nanPoint (mkPoint S754_nan (B64.ofZ 1)) || nanPoint (dpt 0 4 0)
  = true
  /\ computeAffine (dpt 0 0 0, mkPoint S754_nan (B64.ofZ 1), dpt 0 4 0)
                   (dpt 1 1 0, dpt 2 2 0, dpt 3 5 0)
     = mkAffine S754_nan S754_nan S754_nan S754_nan S754_nan S754_nan.
Proof.
  assert (H : nanPoint (dpt 0 0 0) || nanPoint (mkPoint S754_nan (B64.ofZ 1))
              || nanPoint (dpt 0 4 0) = true) by (vm_compute; reflexivity).
  split; [exact H|].
  exact (computeAffine_nan_source (dpt 0 0 0) (mkPoint S754_nan (B64.ofZ 1)) (dpt 0 4 0)
           (dpt 1 1 0, dpt 2 2 0, dpt 3 5 0) H).
Defined.

(** ** The snake game and the application *)

(** X26.  One key press never turns the snake back on itself: the new direction
    is not the opposite of the old one.  A key that is no arrow key leaves
    the direction as it is, and an arrow key that does not ask for the
    opposite direction is obeyed.  Two key presses before the next frame can
    turn the snake back: from [RIGHT], up and then left give [LEFT]. *)
Theorem directionControl_no_reverse :
  (forall keyCode d, directionControl keyCode (Some d) <> Some (opposite d))
  /\ (forall keyCode d, arrowOf keyCode = None -> directionControl keyCode d = d)
  /\ (forall keyCode a d,
         arrowOf keyCode = Some a -> d <> Some (opposite a) ->
         directionControl keyCode d = Some a)
  /\ directionControl 37 (directionControl 38 (Some RIGHT)) = Some LEFT.
Proof.
  split; [|split; [|split]].
  - intros k d. unfold directionControl.
    destruct (Z.eqb_spec k 37), (Z.eqb_spec k 38), (Z.eqb_spec k 39),
      (Z.eqb_spec k 40); try lia; destruct d; simpl; discriminate.
  - intros k d. unfold arrowOf, directionControl.
    destruct (Z.eqb_spec k 37), (Z.eqb_spec k 38), (Z.eqb_spec k 39),
      (Z.eqb_spec k 40); try lia; try discriminate; intros _; reflexivity.
  - intros k a d. unfold arrowOf, directionControl.
    destruct (Z.eqb_spec k 37), (Z.eqb_spec k 38), (Z.eqb_spec k 39),
      (Z.eqb_spec k 40); try lia; try discriminate;
      intros E; injection E as <-; intros Hd;
      destruct d as [[| | |]|]; simpl; try reflexivity;
      exfalso; apply Hd; reflexivity.
  - reflexivity.
Qed.

Section SnakeFacts.

Context {F : Type} {num : Number F}.
Local Open Scope js_scope.

Lemma step_coordinates (d : option Direction) (p : @Point F) :
  {| pX := (if isDirection d RIGHT
            then (if isDirection d LEFT then pX p - box else pX p) + box
            else (if isDirection d LEFT then pX p - box else pX p));
     pY := (if isDirection d DOWN
            then (if isDirection d UP then pY p - box else pY p) + box
            else (if isDirection d UP then pY p - box else pY p)) |}
  = stepCell d p.
Proof. destruct d as [[| | |]|]; destruct p; reflexivity. Qed.

Lemma clearInterval_gone (id : nat) (ts : list nat) :
  ~ In id (clearInterval (Some id) ts).
Proof.
  unfold clearInterval. intros H. apply filter_In in H. destruct H as (_ & H).
  rewrite Nat.eqb_refl in H. discriminate.
Qed.

Lemma clearInterval_other (id : option nat) (t : nat) (ts : list nat) :
  In t ts -> id <> Some t -> In t (clearInterval id ts).
Proof.
  intros Hin Hne. destruct id as [n|]; [|exact Hin].
  unfold clearInterval. apply filter_In. split; [exact Hin|].
  apply negb_true_iff. apply Nat.eqb_neq. congruence.
Qed.

Lemma clearInterval_incl (id : option nat) (t : nat) (ts : list nat) :
  In t (clearInterval id ts) -> In t ts.
Proof.
  destruct id as [n|]; [|auto]. unfold clearInterval. intros H.
  apply filter_In in H. tauto.
Qed.

Lemma removelast_cons_length {A : Type} (a : A) (l : list A) :
  length (removelast (a :: l)) = length l.
Proof.
  revert a. induction l as [|b l IH]; intros a; [reflexivity|].
  change (removelast (a :: b :: l)) with (a :: removelast (b :: l)).
  cbn [length]. rewrite IH. reflexivity.
Qed.

Lemma drawGame_value (g : @Game F) (head : @Point F) (rest : list (@Point F)) :
  snake g = head :: rest ->
  exists g' fx,
    drawGame g = Ok (g', fx)
    /\ let p := stepCell (direction g) head in
       let kept := if onFood g p then head :: rest else removelast (head :: rest) in
       let over := offCanvas g p || collision p kept in
       snake g' = p :: kept
       /\ length (snake g')
          = (if onFood g p then S (length (snake g)) else length (snake g))
       /\ score g' = (if onFood g p then score g + ofZ 1 else score g)
       /\ (onFood g p = false -> food g' = food g)
       /\ direction g' = direction g
       /\ (over = true ->
           timers g' = clearInterval (gameInterval g) (timers g)
           /\ playAgainShown g' = true
           /\ In (AlertGameOver (score g')) fx)
       /\ (over = false ->
           timers g' = timers g
           /\ playAgainShown g' = playAgainShown g
           /\ forall s, ~ In (AlertGameOver s) fx).
Proof.
  intros Hs. destruct head as [hx hy].
  unfold drawGame. rewrite Hs. cbn [getElem nth_error bind].
  cbv zeta. unfold onFood, offCanvas.
  destruct (direction g) as [[| | |]|] eqn:Ed; cbn [isDirection stepCell pX pY];
    (destruct (strictEq _ _ && strictEq _ _) eqn:Eat;
     [destruct (generateFood (randoms g) (randomsUsed g)) as [food' used']|];
     (eexists; eexists; split; [reflexivity|];
      cbn [snake score food direction timers playAgainShown];
      split; [reflexivity|];
      split; [rewrite ?Hs; cbn [length]; rewrite ?removelast_cons_length; reflexivity|];
      split; [reflexivity|];
      split; [first [discriminate | reflexivity]|];
      split; [reflexivity|];
      split; intros Hover; rewrite Hover;
      (split; [reflexivity|]); (split; [reflexivity|]);
      [rewrite !in_app_iff; right; right; right; left; left; reflexivity
      |intros s Hin; rewrite !in_app_iff in Hin;
       destruct Hin as [Hin | [Hin | [Hin | [Hin | Hin]]]];
       [destruct Hin as [E | [E | []]]; discriminate E
       |apply in_flat_map in Hin; destruct Hin as (x & _ & [E | [E | []]]);
        discriminate E
       |destruct Hin as [E | [E | [E | [E | []]]]]; discriminate E
       |destruct Hin
       |destruct Hin as [E | [E | [E | []]]]; discriminate E]])).
Qed.

(** X28.  One frame of the game.  On a snake that has at least one segment
    [drawGame] raises nothing.  The new head is the cell one box from the
    old head in the current direction (the old head itself before the first
    key press); when it is the cell of the food the snake keeps all its
    segments and the score goes up by one, otherwise the last segment is
    dropped, the score and the food stay; so the snake is never empty
    afterwards.  The game is over exactly when the new head is off the
    canvas or on a segment that is kept: then the timer [gameInterval]
    names is stopped, the button is shown and the alert is raised;
    otherwise timers and button stay as they are and no alert is raised. *)
Theorem drawGame_frame (g : @Game F) (head : @Point F) (rest : list (@Point F)) :
  snake g = head :: rest ->
  exists g' fx,
    drawGame g = Ok (g', fx)
    /\ let p := stepCell (direction g) head in
       let kept := if onFood g p then head :: rest else removelast (head :: rest) in
       let over := offCanvas g p || collision p kept in
       snake g' = p :: kept
       /\ length (snake g')
          = (if onFood g p then S (length (snake g)) else length (snake g))
       /\ score g' = (if onFood g p then score g + ofZ 1 else score g)
       /\ (onFood g p = false -> food g' = food g)
       /\ direction g' = direction g
       /\ (over = true ->
           timers g' = clearInterval (gameInterval g) (timers g)
           /\ playAgainShown g' = true
           /\ In (AlertGameOver (score g')) fx)
       /\ (over = false ->
           timers g' = timers g
           /\ playAgainShown g' = playAgainShown g
           /\ forall s, ~ In (AlertGameOver s) fx).
Proof. exact (drawGame_value g head rest). Qed.

End SnakeFacts.

Section SnakeTimers.

Context {F : Type} {num : Number F}.
Local Open Scope js_scope.

Lemma drawGame_timers (g g' : @Game F) (fx : list Effect) :
  drawGame g = Ok (g', fx) ->
  gameInterval g' = gameInterval g /\ nextTimer g' = nextTimer g
  /\ (timers g' = timers g
      \/ timers g' = clearInterval (gameInterval g) (timers g)).
Proof.
  intros H. destruct (snake g) as [|head rest] eqn:Hs.
  - unfold drawGame in H. rewrite Hs in H. discriminate H.
  - destruct (drawGame_value g head rest Hs) as (g1 & fx1 & E & Hrest).
    rewrite E in H. injection H as <- <-.
    cbv zeta in Hrest.
    destruct Hrest as (_ & _ & _ & _ & _ & Hover & Hnot).
    assert (Hg : gameInterval g1 = gameInterval g /\ nextTimer g1 = nextTimer g).
    { unfold drawGame in E. rewrite Hs in E. cbn [getElem nth_error bind] in E.
      cbv zeta in E.
      destruct (if _ && _ then generateFood (randoms g) (randomsUsed g)
                else (food g, randomsUsed g)) as [food' used'] in E.
      injection E as <- _. split; reflexivity. }
    destruct Hg as (Hg1 & Hg2). split; [exact Hg1|]. split; [exact Hg2|].
    match type of Hover with
    | ?o = true -> _ => destruct o
    end.
    + right. apply Hover. reflexivity.
    + left. apply Hnot. reflexivity.
Qed.

(** X30.  A timer that runs and is not the one [gameInterval] names is never
    stopped: it is still such a timer after every frame and after every
    restart.  [restartGame] makes every timer that was running such a timer,
    since it starts a new one without stopping the old one. *)
Theorem timers_never_collected :
  (forall (g g' : @Game F) (fx : list Effect) (t : nat),
      drawGame g = Ok (g', fx) ->
      (timersKnown g -> timersKnown g')
      /\ (orphanTimer g t -> orphanTimer g' t))
  /\ (forall (g : @Game F) (t : nat),
         timersKnown g ->
         timersKnown (restartGame g)
         /\ (In t (timers g) -> orphanTimer (restartGame g) t)).
Proof.
  split.
  - intros g g' fx t H.
    destruct (drawGame_timers g g' fx H) as (Hg & Hn & Ht). split.
    + intros Hk t' Hin. rewrite Hn. apply Hk.
      destruct Ht as [Ht | Ht]; rewrite Ht in Hin; [exact Hin|].
      eapply clearInterval_incl. exact Hin.
    + intros (Hin & Hne). split; [|rewrite Hg; exact Hne].
      destruct Ht as [Ht | Ht]; rewrite Ht; [exact Hin|].
      apply clearInterval_other; assumption.
  - intros g t Hk. unfold restartGame.
    destruct (generateFood (randoms g) (randomsUsed g)) as [food' used'].
    split.
    + intros t' Hin. cbn [timers nextTimer] in *.
      destruct Hin as [<- | Hin]; [lia|].
      specialize (Hk t' Hin). lia.
    + intros Hin. split; cbn [timers gameInterval].
      * right. exact Hin.
      * specialize (Hk t Hin). intros E. injection E as E. lia.
Qed.

End SnakeTimers.

Lemma strictEq_self (a b : B64.float) :
  @strictEq B64.float _ a b = true -> @strictEq B64.float _ a a = true.
Proof.
  unfold strictEq.
  change (@leb B64.float _) with B64.leb.
  change (@geb B64.float _) with B64.geb.
  unfold B64.leb, B64.geb, SFleb.
  intros H. apply andb_prop in H. destruct H as (H & _).
  destruct a as [s|s| |s m e].
  - reflexivity.
  - destruct s; reflexivity.
  - destruct b; discriminate H.
  - assert (E : SFcompare (S754_finite s m e) (S754_finite s m e) = Some Eq).
    { pose proof (eqb64_refl (S754_finite s m e) eq_refl) as R.
      unfold eqb64, SFeqb in R.
      destruct (SFcompare (S754_finite s m e) (S754_finite s m e)) as [[| |]|];
        try discriminate R. reflexivity. }
    rewrite E. reflexivity.
Qed.

(** X29.  In binary64, before the first key press a frame whose food lies on the
    head of the snake ends the game at once: the score goes up by one, the
    snake keeps its segments and its head, which then counts as a
    collision, the timer is stopped, the button shown and the alert
    raised. *)
Theorem drawGame_food_on_head (g : @Game B64.float) (head : Point)
        (rest : list Point) :
  snake g = head :: rest -> direction g = None -> onFood g head = true ->
  exists g' fx,
    drawGame g = Ok (g', fx)
    /\ snake g' = head :: head :: rest
    /\ score g' = B64.add (score g) (B64.ofZ 1)
    /\ timers g' = clearInterval (gameInterval g) (timers g)
    /\ playAgainShown g' = true
    /\ In (AlertGameOver (score g')) fx.
Proof.
  intros Hs Hd Hf.
  destruct (drawGame_value g head rest Hs) as (g' & fx & E & Hrest).
  exists g', fx. split; [exact E|].
  rewrite Hd in Hrest. cbn [stepCell] in Hrest. cbv zeta in Hrest.
  rewrite Hf in Hrest.
  destruct Hrest as (S1 & _ & S2 & _ & _ & Hover & _).
  split; [exact S1|]. split; [exact S2|].
  apply Hover. apply orb_true_iff. right.
  cbn [collision].
  unfold onFood in Hf. apply andb_prop in Hf. destruct Hf as (Hx & Hy).
  rewrite (strictEq_self _ _ Hx), (strictEq_self _ _ Hy). reflexivity.
Qed.

Section AppFacts.

Context {F : Type} {num : Number F}.
Local Open Scope js_scope.

(** X23.  [performMorph] reports an error exactly when [landmarks2] has fewer
    points than [landmarks1]: then the message is shown, the exception is
    written to the console, and the result canvas and every buffer stay as
    they were.  Otherwise a call that ends draws the output on the result
    canvas, which takes the size of the output, writes nothing to the
    console and leaves the error element as it was: an error shown before
    stays shown. *)
Theorem performMorph_reports (fuel : nat) (this : @FaceMergeApp F) (h : Heap)
        (imgData1 imgData2 outputData : loc) :
  ((length (landmarks2 this) < length (landmarks1 this))%nat ->
   performMorph fuel this h imgData1 imgData2 outputData
   = Some (showError ErrorMorphingFaces (consoleError TypeError this), h))
  /\ ((length (landmarks1 this) <= length (landmarks2 this))%nat ->
      forall this' h',
        performMorph fuel this h imgData1 imgData2 outputData = Some (this', h') ->
        this' = drawResult (h' outputData) this
        /\ errorText this' = errorText this
        /\ errorHidden this' = errorHidden this
        /\ consoleErrors this' = consoleErrors this
        /\ length (resultCanvasData this')
           = Z.to_nat (resultCanvasWidth this' * resultCanvasHeight this' * 4)).
Proof.
  split.
  - intros Hlen. unfold performMorph, morph.
    rewrite interpolatePoints_throws.
    + reflexivity.
    + rewrite !length_app. unfold normalizeLandmarks. rewrite !length_map. lia.
  - intros Hlen this' h' H. unfold performMorph in H.
    destruct (morph_value fuel (morpher this) h (face1Width this)
                (face1Height this) (face2Width this) (face2Height this)
                imgData1 imgData2 outputData (landmarks1 this) (landmarks2 this)
                (blendSliderValue this / ofZ 100) Hlen)
      as (h1 & done & E & _ & Hl).
    rewrite E in H. destruct done; [|discriminate H].
    injection H as <- <-.
    split; [reflexivity|]. split; [reflexivity|]. split; [reflexivity|].
    split; [reflexivity|].
    cbn [drawResult resultCanvasData resultCanvasWidth resultCanvasHeight].
    exact Hl.
Qed.

End AppFacts.

(** X27.  With exact arithmetic and random values in [0, 1), [generateFood] puts
    the food on one of the 18 x 18 cells that do not touch the border of
    the 20 x 20 grid: both coordinates are 20 times an integer from 1 to
    18.  It uses two random values. *)
Theorem generateFood_exact_cells (randoms : nat -> Exact.num) (used : nat)
        (r1 r2 : Q) :
  randoms used = Some r1 -> randoms (S used) = Some r2 ->
  0 <= r1 -> r1 < 1 -> 0 <= r2 -> r2 < 1 ->
  exists a b : Z,
    (1 <= a <= 18)%Z /\ (1 <= b <= 18)%Z
    /\ generateFood randoms used
       = (qpt (inject_Z (a * 20)) (inject_Z (b * 20)), S (S used)).
Proof.
  intros E1 E2 H1 H1' H2 H2'.
  assert (range : forall r : Q, 0 <= r -> r < 1 ->
            (1 <= Qfloor (r * inject_Z 18 + inject_Z 1) <= 18)%Z).
  { intros r Hr Hr'. split.
    - change 1%Z with (Qfloor (inject_Z 1)) at 1.
      apply Qfloor_resp_le. unfold inject_Z. lra.
    - assert (Hlt : (Qfloor (r * inject_Z 18 + inject_Z 1) < 19)%Z).
      { rewrite Zlt_Qlt.
        apply Qle_lt_trans with (r * inject_Z 18 + inject_Z 1).
        - apply Qfloor_le.
        - unfold inject_Z. lra. }
      lia. }
  exists (Qfloor (r1 * inject_Z 18 + inject_Z 1)),
         (Qfloor (r2 * inject_Z 18 + inject_Z 1)).
  split; [apply range; assumption|]. split; [apply range; assumption|].
  unfold generateFood. rewrite E1, E2. reflexivity.
Qed.

Lemma drawGame_frame_witness :
  snake demoGame = dpt 180 200 0 :: [dpt 160 200 0]
  /\ exists g' fx,
      drawGame demoGame = Ok (g', fx)
      /\ let p := stepCell (direction demoGame) (dpt 180 200 0) in
         let kept := if onFood demoGame p then dpt 180 200 0 :: [dpt 160 200 0]
                     else removelast (dpt 180 200 0 :: [dpt 160 200 0]) in
         let over := offCanvas demoGame p || collision p kept in
         snake g' = p :: kept
         /\ length (snake g')
            = (if onFood demoGame p then S (length (snake demoGame))
               else length (snake demoGame))
         /\ score g' = (if onFood demoGame p
                        then B64.add (score demoGame) (B64.ofZ 1)
                        else score demoGame)
         /\ (onFood demoGame p = false -> food g' = food demoGame)
         /\ direction g' = direction demoGame
         /\ (over = true ->
             timers g' = clearInterval (gameInterval demoGame) (timers demoGame)
             /\ playAgainShown g' = true
             /\ In (AlertGameOver (score g')) fx)
         /\ (over = false ->
             timers g' = timers demoGame
             /\ playAgainShown g' = playAgainShown demoGame
             /\ forall s, ~ In (AlertGameOver s) fx).
Proof.
  split; [reflexivity|].
  exact (drawGame_frame demoGame (dpt 180 200 0) [dpt 160 200 0] eq_refl).
Defined.

Lemma drawGame_food_on_head_witness :
  snake (restartGame demoGame) = dpt 180 200 0 :: []
  /\ direction (restartGame demoGame) = None
  /\ onFood (restartGame demoGame) (dpt 180 200 0) = true
  /\ exists g' fx,
      drawGame (restartGame demoGame) = Ok (g', fx)
      /\ snake g' = dpt 180 200 0 :: dpt 180 200 0 :: []
      /\ score g' = B64.add (score (restartGame demoGame)) (B64.ofZ 1)
      /\ timers g' = clearInterval (gameInterval (restartGame demoGame))
                                   (timers (restartGame demoGame))
      /\ playAgainShown g' = true
      /\ In (AlertGameOver (score g')) fx.
Proof.
  assert (H1 : snake (restartGame demoGame) = dpt 180 200 0 :: [])
    by (vm_compute; reflexivity).
  assert (H2 : direction (restartGame demoGame) = None) by reflexivity.
  assert (H3 : onFood (restartGame demoGame) (dpt 180 200 0) = true)
    by (vm_compute; reflexivity).
  split; [exact H1|]. split; [exact H2|]. split; [exact H3|].
  exact (drawGame_food_on_head (restartGame demoGame) (dpt 180 200 0) [] H1 H2 H3).
Defined.

Lemma generateFood_exact_cells_witness :
  exactRandoms 0 = Some (47 # 100) /\ exactRandoms 1 = Some (53 # 100)
  /\ 0 <= 47 # 100 /\ 47 # 100 < 1 /\ 0 <= 53 # 100 /\ 53 # 100 < 1
  /\ exists a b : Z,
      (1 <= a <= 18)%Z /\ (1 <= b <= 18)%Z
      /\ generateFood exactRandoms 0
         = (qpt (inject_Z (a * 20)) (inject_Z (b * 20)), 2%nat).
Proof.
  assert (A1 : 0 <= 47 # 100) by (vm_compute; discriminate).
  assert (A2 : 47 # 100 < 1) by reflexivity.
  assert (A3 : 0 <= 53 # 100) by (vm_compute; discriminate).
  assert (A4 : 53 # 100 < 1) by reflexivity.
  repeat (split; [first [reflexivity | assumption]|]).
  exact (generateFood_exact_cells exactRandoms 0 (47 # 100) (53 # 100)
           eq_refl eq_refl A1 A2 A3 A4).
Defined.
